(** * Artifact extraction and message reconciliation of LegalMultiAgentSystem.js

    A shallow embedding of [extractArtifacts], [parseMarkdownTable] and the
    [ws.onmessage] handler of
    [frontend/src/components/LegalMultiAgentSystem.js], together with the
    part of the ECMAScript regular-expression semantics those functions
    rely on (a backtracking matcher in continuation-passing style, as in
    the language specification), [String.prototype.replace], [trim] and
    [split]; and of [formatConversationalContent], [formatArtifactContent],
    [sendMessage], [createNewSession], [toggleThinking], [toggleArtifact]
    and the text the view shows for a message. *)

From Stdlib Require Import String Ascii.
From Stdlib Require Import List NArith Arith Lia Bool.
From Stdlib Require DecimalN.
Import ListNotations.

Set Implicit Arguments.

(** ** Strings

    A JavaScript string is a sequence of UTF-16 code units.  A unit is a
    number below 65536; nothing below depends on the bound. *)

Definition cu := N.
Definition jsstring := list cu.

Definition nl : cu := 10%N.
Definition pipe : cu := 124%N.

(** Source literals are written with [js]; the two characters backslash, n
    stand for a line feed, as in the JavaScript source. *)
Fixpoint unescape (l : list ascii) : jsstring :=
  match l with
  | [] => []
  | a :: t =>
      match t with
      | b :: t' =>
          if (Ascii.eqb a "092" && Ascii.eqb b "n")%bool
          then nl :: unescape t'
          else N_of_ascii a :: unescape t
      | [] => [N_of_ascii a]
      end
  end.

Definition js (s : string) : jsstring := unescape (list_ascii_of_string s).

Definition cu_eqb (a b : cu) : bool := N.eqb a b.

Fixpoint str_eqb (a b : jsstring) : bool :=
  match a, b with
  | [], [] => true
  | x :: a', y :: b' => cu_eqb x y && str_eqb a' b'
  | _, _ => false
  end.

(** [\s] and [trim]: WhiteSpace and LineTerminator code units. *)
Definition is_line_terminator (c : cu) : bool :=
  (N.eqb c 10 || N.eqb c 13 || N.eqb c 8232 || N.eqb c 8233)%N.

Definition is_space (c : cu) : bool :=
  ((N.leb 9 c && N.leb c 13) || N.eqb c 32 || N.eqb c 160 || N.eqb c 5760
   || (N.leb 8192 c && N.leb c 8202) || N.eqb c 8232 || N.eqb c 8233
   || N.eqb c 8239 || N.eqb c 8287 || N.eqb c 12288 || N.eqb c 65279)%N.

(** [\w] *)
Definition is_word (c : cu) : bool :=
  ((N.leb 48 c && N.leb c 57) || (N.leb 65 c && N.leb c 90) || N.eqb c 95
   || (N.leb 97 c && N.leb c 122))%N.

(** [.] without the [s] flag, and [[\s\S]]. *)
Definition is_dot (c : cu) : bool := negb (is_line_terminator c).
Definition is_any (c : cu) : bool := true.

Fixpoint trimStart (s : jsstring) : jsstring :=
  match s with
  | [] => []
  | a :: t => if is_space a then trimStart t else s
  end.

Definition trimEnd (s : jsstring) : jsstring := rev (trimStart (rev s)).

Definition trim (s : jsstring) : jsstring := trimEnd (trimStart s).

(** [s.split(sep)] for a one-unit separator. *)
Fixpoint split (sep : cu) (s : jsstring) : list jsstring :=
  match s with
  | [] => [[]]
  | a :: t =>
      if cu_eqb a sep then [] :: split sep t
      else match split sep t with
           | [] => [[a]]
           | w :: ws => (a :: w) :: ws
           end
  end.

(** [s.includes(c)] for a one-unit needle. *)
Definition includes (c : cu) (s : jsstring) : bool := existsb (cu_eqb c) s.

(** A string is truthy when it is not empty. *)
Definition truthy (s : jsstring) : bool :=
  match s with [] => false | _ => true end.

Fixpoint starts_with (pat s : jsstring) : bool :=
  match pat, s with
  | [], _ => true
  | p :: pat', a :: s' => cu_eqb p a && starts_with pat' s'
  | _ :: _, [] => false
  end.

(** [s.replace(pat, rep)] with a string pattern: the first occurrence only.
    None of the replacement strings of the source holds a dollar sign. *)
Fixpoint replace_first (pat rep s : jsstring) : jsstring :=
  if starts_with pat s then rep ++ skipn (length pat) s
  else match s with
       | [] => []
       | a :: t => a :: replace_first pat rep t
       end.

(** ** Regular expressions *)

Inductive outcome (A : Type) : Type :=
| Ok (a : A)
| Fail
| Exhausted.
Arguments Fail {A}.
Arguments Exhausted {A}.

Inductive regex : Type :=
| Empty
| Char (c : cu)
| Class (p : cu -> bool)
| Seq (r1 r2 : regex)
| Alt (r1 r2 : regex)
| Quant (min : nat) (max : option nat) (greedy : bool) (r : regex)
| Group (n : nat) (r : regex)
| Bol
| Eol.

Record flags := Flags { ignoreCase : bool; multiline : bool }.

(** The state of a match: the unit before the current position (for [^]),
    the input from the current position on, and the captures so far. *)
Record mstate := MState {
  prev : option cu;
  rest : jsstring;
  caps : list (nat * jsstring)
}.

Definition cont := mstate -> outcome mstate.
Definition matcher := mstate -> cont -> outcome mstate.

(** Canonicalize, for the [i] flag without [u]: upper-casing never maps a
    unit above 127 to one below 128, so against the ASCII letters of the
    source patterns it is ASCII case folding. *)
Definition canonicalize (fl : flags) (c : cu) : cu :=
  if (ignoreCase fl && N.leb 97 c && N.leb c 122)%bool then (c - 32)%N else c.

Fixpoint group_indices (r : regex) : list nat :=
  match r with
  | Seq r1 r2 | Alt r1 r2 => group_indices r1 ++ group_indices r2
  | Quant _ _ _ r' => group_indices r'
  | Group n r' => n :: group_indices r'
  | _ => []
  end.

Definition reset_caps (gs : list nat) (x : mstate) : mstate :=
  MState (prev x) (rest x)
         (filter (fun kv => negb (existsb (Nat.eqb (fst kv)) gs)) (caps x)).

(** The units consumed between state [x] and a later state [y]. *)
Definition consumed (x y : mstate) : jsstring :=
  firstn (length (rest x) - length (rest y)) (rest x).

Definition set_cap (n : nat) (v : jsstring) (y : mstate) : mstate :=
  MState (prev y) (rest y) ((n, v) :: caps y).

Definition get_cap (n : nat) (cs : list (nat * jsstring)) : option jsstring :=
  match find (fun kv => Nat.eqb (fst kv) n) cs with
  | Some kv => Some (snd kv)
  | None => None
  end.

Definition pred_max (max : option nat) : option nat :=
  match max with Some k => Some (Nat.pred k) | None => None end.

(** RepeatMatcher.  An iteration that is not required and consumes nothing
    is rejected, so [min] plus the length of the remaining input bounds the
    depth; [Exhausted] marks the bound being hit. *)
Fixpoint repeat_matcher (m : matcher) (gs : list nat) (greedy : bool)
    (c : cont) (fuel min : nat) (max : option nat) (x : mstate)
    : outcome mstate :=
  match fuel with
  | 0 => Exhausted
  | S fuel' =>
      match max with
      | Some 0 => c x
      | _ =>
          let d := fun y : mstate =>
            if (Nat.eqb min 0 && Nat.eqb (length (rest y)) (length (rest x)))%bool
            then Fail
            else repeat_matcher m gs greedy c fuel' (Nat.pred min) (pred_max max) y in
          let xr := reset_caps gs x in
          if negb (Nat.eqb min 0) then m xr d
          else if negb greedy then
            match c x with
            | Fail => m xr d
            | o => o
            end
          else
            match m xr d with
            | Fail => c x
            | o => o
            end
      end
  end.

Definition at_bol (fl : flags) (x : mstate) : bool :=
  match prev x with
  | None => true
  | Some a => multiline fl && is_line_terminator a
  end.

Definition at_eol (fl : flags) (x : mstate) : bool :=
  match rest x with
  | [] => true
  | a :: _ => multiline fl && is_line_terminator a
  end.

(** The matcher of an expression.  A class is matched as it stands also
    under [i]: the one class the source puts under [i] holds every unit. *)
Fixpoint compile (fl : flags) (r : regex) : matcher :=
  fun x c =>
    match r with
    | Empty => c x
    | Char a =>
        match rest x with
        | b :: t =>
            if cu_eqb (canonicalize fl a) (canonicalize fl b)
            then c (MState (Some b) t (caps x)) else Fail
        | [] => Fail
        end
    | Class p =>
        match rest x with
        | b :: t => if p b then c (MState (Some b) t (caps x)) else Fail
        | [] => Fail
        end
    | Seq r1 r2 => compile fl r1 x (fun y => compile fl r2 y c)
    | Alt r1 r2 =>
        match compile fl r1 x c with
        | Fail => compile fl r2 x c
        | o => o
        end
    | Quant min max greedy r' =>
        repeat_matcher (compile fl r') (group_indices r') greedy c
                       (S (min + length (rest x))) min max x
    | Group n r' =>
        compile fl r' x (fun y => c (set_cap n (consumed x y) y))
    | Bol => if at_bol fl x then c x else Fail
    | Eol => if at_eol fl x then c x else Fail
    end.

(** The result of [exec]: [index], [match[0]], the captures and the end
    index (the new [lastIndex] of a global expression). *)
Record match_result := MatchResult {
  index : nat;
  m0 : jsstring;
  captures : list (nat * jsstring);
  end_index : nat
}.

(** RegExpBuiltinExec: try each start position from [idx] on, the end of
    the input included. *)
Fixpoint exec_from (fl : flags) (r : regex) (idx : nat) (pv : option cu)
    (s : jsstring) : outcome match_result :=
  match compile fl r (MState pv s []) (fun y => Ok y) with
  | Ok y =>
      let m := firstn (length s - length (rest y)) s in
      Ok (MatchResult idx m (caps y) (idx + length m))
  | Exhausted => Exhausted
  | Fail =>
      match s with
      | [] => Fail
      | a :: t => exec_from fl r (S idx) (Some a) t
      end
  end.

Definition unit_before (s : jsstring) (i : nat) : option cu :=
  match i with
  | 0 => None
  | S j => nth_error s j
  end.

Definition exec (fl : flags) (r : regex) (s : jsstring) (lastIndex : nat)
    : outcome match_result :=
  if length s <? lastIndex then Fail
  else exec_from fl r lastIndex (unit_before s lastIndex) (skipn lastIndex s).

(** A literal run of units, and sequences of sub-expressions. *)
Fixpoint lit (s : jsstring) : regex :=
  match s with
  | [] => Empty
  | [a] => Char a
  | a :: t => Seq (Char a) (lit t)
  end.

Fixpoint seqs (rs : list regex) : regex :=
  match rs with
  | [] => Empty
  | [r] => r
  | r :: t => Seq r (seqs t)
  end.

Fixpoint alts (rs : list regex) : regex :=
  match rs with
  | [] => Empty
  | [r] => r
  | r :: t => Alt r (alts t)
  end.

Definition star (r : regex) : regex := Quant 0 None true r.
Definition lazy_star (r : regex) : regex := Quant 0 None false r.
Definition plus (r : regex) : regex := Quant 1 None true r.
Definition opt (r : regex) : regex := Quant 0 (Some 1) true r.
Definition at_least (n : nat) (r : regex) : regex := Quant n None true r.

(** ** extractArtifacts *)

Inductive artifact_type := code | table | document.

Record artifact := Artifact {
  type : artifact_type;
  language : option jsstring;
  content : jsstring;
  title : jsstring
}.

Record extraction := Extraction {
  artifacts : list artifact;
  conversationalContent : jsstring
}.

Definition no_flags : flags := Flags false false.

(** The expression "/```(\w+)?\n([\s\S]*?)```/g". *)
Definition codeBlockRegex : regex :=
  seqs [ lit (js "```");
         opt (Group 1 (plus (Class is_word)));
         Char nl;
         Group 2 (lazy_star (Class is_any));
         lit (js "```") ].

(** The table expression, global: one capturing group around a [tableRow]
    followed by any number of further [tableRow]s (a non-capturing group
    under a greedy star), where [tableRow] is "\|.*\|[\s\S]*?\n". *)
Definition tableRow : regex :=
  seqs [ Char pipe; star (Class is_dot); Char pipe;
         lazy_star (Class is_any); Char nl ].

Definition tableRegex : regex :=
  Group 1 (Seq tableRow (star tableRow)).

(** The expression
    "/((?:CONTRACT|AGREEMENT|MEMO|POLICY|PROCEDURE|DOCUMENT)[\s\S]{200,})/i". *)
Definition docKeywords : list jsstring :=
  [ js "CONTRACT"; js "AGREEMENT"; js "MEMO"; js "POLICY"; js "PROCEDURE";
    js "DOCUMENT" ].

Definition docFlags : flags := Flags true false.

Definition docRegex : regex :=
  Group 1 (Seq (alts (map lit docKeywords)) (at_least 200 (Class is_any))).

(** The expressions "/\n{3,}/g" and "/^\s*\[.*?\]\s*$/gm". *)
Definition newlinesRegex : regex := at_least 3 (Char nl).

Definition placeholderFlags : flags := Flags false true.

Definition placeholderRegex : regex :=
  seqs [ Bol; star (Class is_space); Char 91%N;
         lazy_star (Class is_dot); Char 93%N; star (Class is_space); Eol ].

(** [a || b] on a capture that may be undefined. *)
Definition or_default (o : option jsstring) (d : jsstring) : jsstring :=
  match o with
  | Some s => if truthy s then s else d
  | None => d
  end.

(** The state of the passes: the [artifacts] array and [remainingContent]. *)
Definition pass_state := (list artifact * jsstring)%type.

(** [while ((match = re.exec(content)) !== null) { body }] for a global
    expression, whose [lastIndex] is threaded through.  The body may throw,
    which ends the call: [None] stands for a call that does not return,
    because its body throws or because the loop does not end within its
    bound. *)
Fixpoint exec_loop (fuel : nat) (fl : flags) (re : regex) (s : jsstring)
    (body : match_result -> pass_state -> option pass_state)
    (lastIndex : nat) (st : pass_state) : option pass_state :=
  match fuel with
  | 0 => None
  | S fuel' =>
      match exec fl re s lastIndex with
      | Exhausted => None
      | Fail => Some st
      | Ok mr =>
          match body mr st with
          | Some st' => exec_loop fuel' fl re s body (end_index mr) st'
          | None => None
          end
      end
  end.

(** The body of the code loop.  [match[2].trim()] is a method call on the
    second capture: on a capture that is undefined it throws a TypeError
    ([None]), after [match[1] || 'text'] was evaluated and before anything
    is pushed. *)
Definition code_body (mr : match_result) (st : pass_state)
    : option pass_state :=
  let g1 := get_cap 1 (captures mr) in
  match get_cap 2 (captures mr) with
  | None => None
  | Some g2 =>
      Some (fst st ++ [ Artifact code (Some (or_default g1 (js "text")))
                          (trim g2)
                          (or_default g1 (js "Code") ++ js " Block") ],
            replace_first (m0 mr) [] (snd st))
  end.

(** The body of the table loop.  [match[1].trim()] throws a TypeError on a
    capture that is undefined ([None]). *)
Definition table_body (mr : match_result) (st : pass_state)
    : option pass_state :=
  match get_cap 1 (captures mr) with
  | None => None
  | Some g1 =>
      let tableContent := trim g1 in
      let rows :=
        filter (fun row => truthy (trim row)) (split nl tableContent) in
      if 2 <=? length rows then
        Some (fst st ++ [ Artifact table None tableContent (js "Data Table") ],
              replace_first (m0 mr) (js "[Table shown in artifact]") (snd st))
      else Some st
  end.

Definition doc_pass (s : jsstring) (st : pass_state) : option pass_state :=
  match exec docFlags docRegex s 0 with
  | Exhausted => None
  | Fail => Some st
  | Ok mr =>
      Some (fst st ++ [ Artifact document None
                          (or_default (get_cap 1 (captures mr)) [])
                          (js "Legal Document") ],
            replace_first (m0 mr) (js "[Document shown in artifact]") (snd st))
  end.

(** [s.replace(re, rep)] for a global expression: every match, left to
    right; after an empty match [lastIndex] moves on by one. *)
Fixpoint replace_loop (fuel : nat) (fl : flags) (re : regex)
    (s rep : jsstring) (lastIndex nextSourcePosition : nat)
    (accumulated : jsstring) : option jsstring :=
  match fuel with
  | 0 => None
  | S fuel' =>
      match exec fl re s lastIndex with
      | Exhausted => None
      | Fail => Some (accumulated ++ skipn nextSourcePosition s)
      | Ok mr =>
          let li := if Nat.eqb (length (m0 mr)) 0 then S (end_index mr)
                    else end_index mr in
          if nextSourcePosition <=? index mr then
            replace_loop fuel' fl re s rep li (index mr + length (m0 mr))
              (accumulated
                 ++ firstn (index mr - nextSourcePosition)
                      (skipn nextSourcePosition s)
                 ++ rep)
          else
            replace_loop fuel' fl re s rep li nextSourcePosition accumulated
      end
  end.

Definition replace_all (fl : flags) (re : regex) (rep s : jsstring)
    : option jsstring :=
  replace_loop (2 + length s) fl re s rep 0 0 [].

Definition is_type (t : artifact_type) (a : artifact) : bool :=
  match t, type a with
  | code, code | table, table | document, document => true
  | _, _ => false
  end.

Definition tableSentence : jsstring :=
  js "I've created a table with the requested information.".
Definition codeSentence : jsstring := js "I've created the code for you.".
Definition documentSentence : jsstring :=
  js "I've prepared the document as requested.".

Definition fallback (arts : list artifact) (remainingContent : jsstring)
    : jsstring :=
  if (negb (truthy remainingContent) && (0 <? length arts))%bool then
    if existsb (is_type table) arts then tableSentence
    else if existsb (is_type code) arts then codeSentence
    else if existsb (is_type document) arts then documentSentence
    else remainingContent
  else remainingContent.

Definition bind {A B : Type} (o : option A) (f : A -> option B) : option B :=
  match o with
  | Some a => f a
  | None => None
  end.

Notation "x <- e ;; k" := (bind e (fun x => k))
  (at level 61, e at next level, right associativity).

(** The clean-up of [remainingContent]. *)
Definition cleanup (s : jsstring) : option jsstring :=
  s1 <- replace_all no_flags newlinesRegex (js "\n\n") s ;;
  s2 <- replace_all placeholderFlags placeholderRegex [] s1 ;;
  Some (trim s2).

Definition code_pass (s : jsstring) (st : pass_state) : option pass_state :=
  exec_loop (S (length s)) no_flags codeBlockRegex s code_body 0 st.

Definition table_pass (s : jsstring) (st : pass_state) : option pass_state :=
  exec_loop (S (length s)) no_flags tableRegex s table_body 0 st.

Definition extractArtifacts (text : jsstring) : option extraction :=
  st1 <- code_pass text ([], text) ;;
  st2 <- table_pass text st1 ;;
  st3 <- doc_pass text st2 ;;
  remainingContent <- cleanup (snd st3) ;;
  Some (Extraction (fst st3) (fallback (fst st3) remainingContent)).

(** ** parseMarkdownTable *)

Definition dq : cu := 34%N.

(** [row.split('|').map(c => c.trim()).filter(c => c)] *)
Definition row_cells (row : jsstring) : list jsstring :=
  filter truthy (map trim (split pipe row)).

Definition nonblank_rows (s : jsstring) : list jsstring :=
  filter (fun row => truthy (trim row)) (split nl (trim s)).

(** The [headers] and [data] of a table, when the source builds them. *)
Definition table_parts (s : jsstring)
    : option (list jsstring * list (list jsstring)) :=
  match nonblank_rows s with
  | headerRow :: separatorRow :: dataRows =>
      if (negb (includes pipe headerRow)
          || negb (includes 45%N separatorRow))%bool
      then None
      else Some (row_cells headerRow, map row_cells dataRows)
  | _ => None
  end.

Definition render_table (headers : list jsstring)
    (data : list (list jsstring)) : jsstring :=
  let tableHtml :=
    js "<div class=" ++ [dq] ++ js "artifact-table-container" ++ [dq]
    ++ js "><table class=" ++ [dq] ++ js "artifact-table" ++ [dq] ++ js ">" in
  let tableHtml := tableHtml ++ js "<thead><tr>" in
  let tableHtml :=
    fold_left (fun acc header => acc ++ js "<th>" ++ header ++ js "</th>")
              headers tableHtml in
  let tableHtml := tableHtml ++ js "</tr></thead>" in
  let tableHtml := tableHtml ++ js "<tbody>" in
  let tableHtml :=
    fold_left
      (fun acc row =>
         fold_left (fun acc' cell => acc' ++ js "<td>" ++ cell ++ js "</td>")
                   row (acc ++ js "<tr>")
         ++ js "</tr>")
      data tableHtml in
  tableHtml ++ js "</tbody></table></div>".

Definition parseMarkdownTable (s : jsstring) : jsstring :=
  match table_parts s with
  | None => s
  | Some (headers, data) => render_table headers data
  end.

(** ** The message list and ws.onmessage *)

Module Msg.
(** A message object; a field the source leaves out of an object is
    [None], or [false] where only its truth is ever read. *)
Record message := Message {
  id : N;
  content : jsstring;
  conversationalContent : option jsstring;
  artifacts : option (list artifact);
  isBot : bool;
  agent : option jsstring;
  timestamp : jsstring;
  isStreaming : bool;
  hasArtifact : option bool;
  thinking : option jsstring;
  isError : bool
}.
End Msg.

Module Ev.
(** The parsed event [data]: the value of [JSON.parse(event.data)] for a
    frame of the backend, an object whose text fields are strings where
    present and whose [done] is a boolean.  A frame that is not JSON, or
    that holds a value of another type in a field, has no [event]. *)
Record event := Event {
  content : option jsstring;
  thinking : option jsstring;
  agent : option jsstring;
  timestamp : option jsstring;
  done : bool;
  error : option jsstring
}.
End Ev.

Record chat := Chat {
  messages : list Msg.message;
  isLoading : bool
}.

Definition truthy_opt (o : option jsstring) : bool :=
  match o with Some s => truthy s | None => false end.

(** [a || b] where both may be undefined. *)
Definition or_else (a b : option jsstring) : option jsstring :=
  if truthy_opt a then a else b.

(** [prev.map((msg, index) => index === prev.length - 1 ? f(msg) : msg)] *)
Fixpoint map_last (f : Msg.message -> Msg.message) (l : list Msg.message)
    : list Msg.message :=
  match l with
  | [] => []
  | [m] => [f m]
  | m :: t => m :: map_last f t
  end.

(** [prev[prev.length - 1]] when it is a bot message that is streaming. *)
Definition streaming_last (prev : list Msg.message) : option Msg.message :=
  match last (map Some prev) None with
  | Some lastMessage =>
      if (Msg.isBot lastMessage && Msg.isStreaming lastMessage)%bool
      then Some lastMessage else None
  | None => None
  end.

(** The handler from its second statement on, on the parsed [data];
    [now] and [nowIso] are [Date.now()] and [new Date().toISOString()] at
    the time of the event. *)
Definition onmessage (now : N) (nowIso : jsstring) (data : Ev.event)
    (st : chat) : option chat :=
  if Ev.done data then Some (Chat (messages st) false)
  else if truthy_opt (Ev.error data) then
    Some (Chat (messages st ++
                  [ Msg.Message now
                      (js "Error: " ++ or_default (Ev.error data) [])
                      None None true (Some (js "System")) nowIso false None
                      None true ])
               false)
  else if truthy_opt (Ev.content data) then
    let fragment := or_default (Ev.content data) [] in
    let prev := messages st in
    match streaming_last prev with
    | Some lastMessage =>
        let updatedContent := Msg.content lastMessage ++ fragment in
        r <- extractArtifacts updatedContent ;;
        Some (Chat
          (map_last
             (fun msg =>
                Msg.Message (Msg.id msg) updatedContent
                  (Some (conversationalContent r)) (Some (artifacts r))
                  (Msg.isBot msg) (Msg.agent msg) (Msg.timestamp msg)
                  (Msg.isStreaming msg)
                  (Some (0 <? length (artifacts r)))
                  (or_else (Ev.thinking data) (Msg.thinking msg))
                  (Msg.isError msg))
             prev)
          (isLoading st))
    | None =>
        r <- extractArtifacts fragment ;;
        Some (Chat
          (prev ++
             [ Msg.Message now fragment
                 (Some (conversationalContent r)) (Some (artifacts r))
                 true
                 (Some (or_default (Ev.agent data) (js "Legal Assistant")))
                 (or_default (Ev.timestamp data) nowIso)
                 true (Some (0 <? length (artifacts r)))
                 (Ev.thinking data) false ])
          (isLoading st))
    end
  else Some st.

(** * Definitions used in the statements and the proofs *)

(** The matcher never hits its bound, as long as its continuation does not. *)
Definition cont_safe (c : cont) (n : nat) : Prop :=
  forall y, length (rest y) <= n -> c y <> Exhausted.

(** A matcher that does not hit its bound either. *)
Definition matcher_safe (m : matcher) : Prop :=
  forall x c, cont_safe c (length (rest x)) -> m x c <> Exhausted.

(** The least number of iterations of a quantifier. *)
Definition min_iter (min : nat) (max : option nat) : nat :=
  match max with
  | Some k => Nat.min min k
  | None => min
  end.

(** The least number of units a match of the expression takes. *)
Fixpoint min_length (r : regex) : nat :=
  match r with
  | Empty | Bol | Eol => 0
  | Char _ | Class _ => 1
  | Seq r1 r2 => min_length r1 + min_length r2
  | Alt r1 r2 => Nat.min (min_length r1) (min_length r2)
  | Quant min max _ r' => min_iter min max * min_length r'
  | Group _ r' => min_length r'
  end.

(** What a successful match consumed is a prefix of the remaining input, of
    at least [n] units. *)
Definition matcher_sound (m : matcher) (n : nat) : Prop :=
  forall x c z, m x c = Ok z ->
    exists y pre, c y = Ok z /\ rest x = pre ++ rest y /\ n <= length pre.

(** The artifacts a match of each loop adds. *)
Definition code_artifact (mr : match_result) : list artifact :=
  let g1 := get_cap 1 (captures mr) in
  [ Artifact code (Some (or_default g1 (js "text")))
      (trim (or_default (get_cap 2 (captures mr)) []))
      (or_default g1 (js "Code") ++ js " Block") ].

Definition table_artifact (mr : match_result) : list artifact :=
  let tableContent := trim (or_default (get_cap 1 (captures mr)) []) in
  if 2 <=? length (filter (fun row => truthy (trim row))
                     (split nl tableContent))
  then [ Artifact table None tableContent (js "Data Table") ]
  else [].

Definition doc_artifact (s : jsstring) : list artifact :=
  match exec docFlags docRegex s 0 with
  | Ok mr => [ Artifact document None
                 (or_default (get_cap 1 (captures mr)) [])
                 (js "Legal Document") ]
  | _ => []
  end.

(** As long as no artifact was added the working copy is the text. *)
Definition untouched (text : jsstring) (st : pass_state) : Prop :=
  fst st = [] -> snd st = text.

(** The matcher of one unit of a class, and the test of a literal unit. *)
Definition unit_matcher (p : cu -> bool) : matcher :=
  fun x c =>
    match rest x with
    | b :: t => if p b then c (MState (Some b) t (caps x)) else Fail
    | [] => Fail
    end.

Definition char_test (fl : flags) (a : cu) : cu -> bool :=
  fun b => cu_eqb (canonicalize fl a) (canonicalize fl b).

(** Greedy: go as far as the class allows, then back up until the
    continuation accepts. *)
Fixpoint greedy_scan (p : cu -> bool) (c : cont) (pv : option cu)
    (l : jsstring) (cs : list (nat * jsstring)) : outcome mstate :=
  match l with
  | b :: t =>
      if p b then
        match greedy_scan p c (Some b) t cs with
        | Fail => c (MState pv l cs)
        | o => o
        end
      else c (MState pv l cs)
  | [] => c (MState pv l cs)
  end.

(** Lazy: stop at the first position the continuation accepts. *)
Fixpoint lazy_scan (p : cu -> bool) (c : cont) (pv : option cu)
    (l : jsstring) (cs : list (nat * jsstring)) : outcome mstate :=
  match c (MState pv l cs) with
  | Fail =>
      match l with
      | b :: t => if p b then lazy_scan p c (Some b) t cs else Fail
      | [] => Fail
      end
  | o => o
  end.

(** The required iterations of [{n,}] take [n] units of the class. *)
Fixpoint take_units (p : cu -> bool) (n : nat) (k : cont) (pv : option cu)
    (l : jsstring) (cs : list (nat * jsstring)) : outcome mstate :=
  match n with
  | 0 => k (MState pv l cs)
  | S n' =>
      match l with
      | b :: t => if p b then take_units p n' k (Some b) t cs else Fail
      | [] => Fail
      end
  end.

(** The unit before the position reached after [l], starting after [pv]. *)
Definition last_unit (pv : option cu) (l : jsstring) : option cu :=
  last (map Some l) pv.

(** Whether [l] starts with the word [w], up to canonicalization. *)
Fixpoint starts_with_ci (fl : flags) (w l : jsstring) : bool :=
  match w, l with
  | [], _ => true
  | a :: w', b :: l' => char_test fl a b && starts_with_ci fl w' l'
  | _ :: _, [] => false
  end.

(** Whether the document expression matches at the start of [l]. *)
Definition doc_here (l : jsstring) : bool :=
  existsb (fun w => starts_with_ci docFlags w l
                    && (200 <=? length (skipn (length w) l)))
          docKeywords.

(** The first suffix of the text at which the document expression matches. *)
Fixpoint doc_search (l : jsstring) : option jsstring :=
  if doc_here l then Some l
  else match l with
       | [] => None
       | _ :: t => doc_search t
       end.

(** The unit in upper case, for the ASCII letters. *)
Definition upper (c : cu) : cu := canonicalize docFlags c.

(** A keyword in any case, then at least 200 more units, at the start of
    [l]; and at offset [i] of a text. *)
Definition keyword_here (l : jsstring) : Prop :=
  exists w tail,
    l = w ++ tail /\ In (map upper w) docKeywords /\ 200 <= length tail.

Definition keyword_at (text : jsstring) (i : nat) : Prop :=
  keyword_here (skipn i text).

(** Every artifact of the list has type [t]. *)
Definition all_of (t : artifact_type) (l : list artifact) : Prop :=
  Forall (fun a => type a = t) l.

(** Keyword [kw'] lies inside keyword [kw] at offset [i], short of the last
    unit of [kw]. *)
Definition inner_keyword (kw kw' : jsstring) (i : nat) : bool :=
  str_eqb (firstn (length kw') (skipn i kw)) kw'
  && (i + length kw' <? length kw).

(** A line of a table: a pipe, then units of the line with a further pipe
    among them. *)
Definition table_line (l : jsstring) : bool :=
  match l with
  | p :: mid => cu_eqb p pipe && forallb is_dot mid && includes pipe mid
  | [] => false
  end.

(** The lines, each followed by a line feed. *)
Definition concat_lines (lines : list jsstring) : jsstring :=
  flat_map (fun l => l ++ [nl]) lines.

(** The rows the table pass counts in a table content. *)
Definition content_rows (s : jsstring) : list jsstring :=
  filter (fun row => truthy (trim row)) (split nl s).

(** What follows the greedy dots of a row: the closing pipe, and lazily
    the units up to a line feed. *)
Definition row_tail (c : cont) : cont :=
  fun y =>
    unit_matcher (cu_eqb pipe) y
      (fun y3 =>
         lazy_scan is_any (fun y4 => unit_matcher (cu_eqb nl) y4 c)
                   (prev y3) (rest y3) (caps y3)).

(** The texts the counterexamples are about. *)
Definition fenced_table_text : jsstring := js "```\n|a|b|\n|c|d|\n```".

(** Whether [exec] returned a match. *)
Definition has_match (o : outcome match_result) : bool :=
  match o with
  | Ok _ => true
  | _ => false
  end.

(** None of the three expressions matches anywhere in the text. *)
Definition no_triggers (s : jsstring) : bool :=
  negb (has_match (exec no_flags codeBlockRegex s 0))
  && negb (has_match (exec no_flags tableRegex s 0))
  && negb (has_match (exec docFlags docRegex s 0)).

Definition placeholder_lines_text : jsstring := js "a\n[x]\n[y]\nb".

(** An event that carries a fragment of text, and one that carries an
    error. *)
Definition fragment (s : jsstring) : Ev.event :=
  Ev.Event (Some s) None None None false None.

Definition error_event (e : jsstring) : Ev.event :=
  Ev.Event None None None None false (Some e).

(** Events in order, each with its clock readings. *)
Fixpoint feed (evs : list (N * jsstring * Ev.event)) (st : chat)
    : option chat :=
  match evs with
  | [] => Some st
  | (now, nowIso, data) :: t =>
      st' <- onmessage now nowIso data st ;; feed t st'
  end.

(** The table of the streaming scenario, trimmed. *)
Definition streamed_table : jsstring := js "|A|B|\n|-|-|\n|1|2|".

(** The formatter as the claim words it: the first line is the header,
    every other line a body row; a row is split on the pipe, its cells
    trimmed, and only the empty cells at its two ends dropped. *)
Fixpoint drop_leading_empty (cells : list jsstring) : list jsstring :=
  match cells with
  | [] :: t => drop_leading_empty t
  | _ => cells
  end.

Definition claimed_row_cells (row : jsstring) : list jsstring :=
  rev (drop_leading_empty
         (rev (drop_leading_empty (map trim (split pipe row))))).

Definition claimed_table_parts (s : jsstring)
    : list jsstring * list (list jsstring) :=
  match split nl s with
  | headerRow :: bodyRows =>
      (claimed_row_cells headerRow, map claimed_row_cells bodyRows)
  | [] => ([], [])
  end.

(** The trigger as the claim words it: one of five keywords, in any case,
    followed by at least 200 more units, somewhere in the text. *)
Definition claimedKeywords : list jsstring :=
  [ js "CONTRACT"; js "AGREEMENT"; js "MEMO"; js "POLICY"; js "PROCEDURE" ].

Definition claimed_here (l : jsstring) : bool :=
  existsb (fun w => starts_with_ci docFlags w l
                    && (200 <=? length (skipn (length w) l)))
          claimedKeywords.

Fixpoint claimed_trigger (l : jsstring) : bool :=
  claimed_here l
  || match l with
     | [] => false
     | _ :: t => claimed_trigger t
     end.

Definition fenced_document_text : jsstring :=
  js "```\nDOCUMENT" ++ repeat 120%N 200 ++ js "\n```".

Definition single_pipe_lines : list jsstring := [ js "a|b"; js "c|d" ].

(** * Further definitions: counting units *)

(** The number of occurrences of unit [a] in a string. *)
Definition count_unit (a : cu) (l : jsstring) : nat :=
  length (filter (cu_eqb a) l).

(** The least number of occurrences of [a] in a match of the expression
    (not counting units matched up to case, or by a class). *)
Fixpoint min_count (fl : flags) (a : cu) (r : regex) : nat :=
  match r with
  | Char b => if ignoreCase fl then 0 else if cu_eqb a b then 1 else 0
  | Seq r1 r2 => min_count fl a r1 + min_count fl a r2
  | Alt r1 r2 => Nat.min (min_count fl a r1) (min_count fl a r2)
  | Quant min max _ r' => min_iter min max * min_count fl a r'
  | Group _ r' => min_count fl a r'
  | _ => 0
  end.

(** What a successful match consumed holds at least [n] units [a]. *)
Definition matcher_counts (a : cu) (m : matcher) (n : nat) : Prop :=
  forall x c z, m x c = Ok z ->
    exists y pre, c y = Ok z /\ rest x = pre ++ rest y
                  /\ n <= count_unit a pre.

(** * Further definitions: fenced blocks *)

(** A fence, and a fenced block with its language tag and body. *)
Definition fence : jsstring := js "```".

Definition fenced (lang body : jsstring) : jsstring :=
  fence ++ lang ++ nl :: body ++ fence.

(** * Further definitions: runs of events *)

(** An event the handler reads as a fragment of text: not [done], no error
    text, a content that is not empty; and the text it carries. *)
Definition is_fragment (data : Ev.event) : bool :=
  negb (Ev.done data) && negb (truthy_opt (Ev.error data))
  && truthy_opt (Ev.content data).

Definition fragment_text (data : Ev.event) : jsstring :=
  or_default (Ev.content data) [].

(** The fields of message [m] that [extractArtifacts] fills are those of
    its result [r] on the content of [m]. *)
Definition extraction_of (m : Msg.message) (r : extraction) : Prop :=
  extractArtifacts (Msg.content m) = Some r
  /\ Msg.artifacts m = Some (artifacts r)
  /\ Msg.conversationalContent m = Some (conversationalContent r)
  /\ Msg.hasArtifact m = Some (0 <? length (artifacts r)).

(** A message either has these fields as [extractArtifacts] gives them for
    its content, or has none of them. *)
Definition derived (m : Msg.message) : Prop :=
  (exists r, extraction_of m r)
  \/ (Msg.artifacts m = None /\ Msg.conversationalContent m = None
      /\ Msg.hasArtifact m = None).

(** Message [m'] is message [m] with more content: the same id, author,
    agent, timestamp and flags, and a content that starts with the content
    of [m]. *)
Definition grown (m m' : Msg.message) : Prop :=
  Msg.id m' = Msg.id m
  /\ Msg.isBot m' = Msg.isBot m
  /\ Msg.agent m' = Msg.agent m
  /\ Msg.timestamp m' = Msg.timestamp m
  /\ Msg.isStreaming m' = Msg.isStreaming m
  /\ Msg.isError m' = Msg.isError m
  /\ exists more, Msg.content m' = Msg.content m ++ more.

(** The events that are not [done]. *)
Definition not_done (e : N * jsstring * Ev.event) : bool :=
  negb (Ev.done (snd e)).

(** What one or more events may do to the message list: every message but
    the last is kept, the last is kept or grown, messages may be added; and
    when the last message is not a streaming bot message the whole list is
    kept. *)
Definition extends (ms ms' : list Msg.message) : Prop :=
  (streaming_last ms = None -> exists tail, ms' = ms ++ tail)
  /\ (forall init m, ms = init ++ [m] ->
      exists m' tail, ms' = init ++ m' :: tail /\ grown m m').
(** * Further definitions: sendMessage, createNewSession and the toggles *)

(** The decimal digits of a number: what a template literal makes of
    [Date.now()] and of an array index. *)
Fixpoint digits (d : Decimal.uint) : jsstring :=
  match d with
  | Decimal.Nil => []
  | Decimal.D0 d' => 48%N :: digits d'
  | Decimal.D1 d' => 49%N :: digits d'
  | Decimal.D2 d' => 50%N :: digits d'
  | Decimal.D3 d' => 51%N :: digits d'
  | Decimal.D4 d' => 52%N :: digits d'
  | Decimal.D5 d' => 53%N :: digits d'
  | Decimal.D6 d' => 54%N :: digits d'
  | Decimal.D7 d' => 55%N :: digits d'
  | Decimal.D8 d' => 56%N :: digits d'
  | Decimal.D9 d' => 57%N :: digits d'
  end.

Definition number_to_string (n : N) : jsstring := digits (N.to_uint n).

(** The object [sendMessage] gives to [JSON.stringify]. *)
Record payload := Payload {
  message : jsstring;
  agent_type : jsstring;
  session_id : jsstring
}.

(** The state the handlers read and write: the message list and
    [isLoading], the other state variables, whether [wsRef.current] is a
    socket whose [readyState] is [OPEN], and what was given to its [send],
    in order. *)
Record component := Component {
  chatState : chat;
  inputMessage : jsstring;
  selectedAgent : jsstring;
  isConnected : bool;
  sessionId : jsstring;
  wsOpen : bool;
  wsSent : list payload
}.

Definition sendMessage (now : N) (nowIso : jsstring) (st : component) : component :=
  if (negb (truthy (trim (inputMessage st))) || negb (isConnected st)
      || isLoading (chatState st))%bool
  then st
  else
    let userMessage :=
      Msg.Message now (inputMessage st) None None false None nowIso false
                  None None false in
    Component (Chat (messages (chatState st) ++ [userMessage]) true)
        []
        (selectedAgent st) (isConnected st) (sessionId st) (wsOpen st)
        (if wsOpen st
         then wsSent st ++ [ Payload (inputMessage st) (selectedAgent st)
                               (sessionId st) ]
         else wsSent st).

(** [createNewSession]; a socket that was closed is not [OPEN]. *)
Definition createNewSession (now : N) (st : component) : component :=
  Component (Chat [] (isLoading (chatState st)))
      (inputMessage st) (selectedAgent st) (isConnected st)
      (js "session-" ++ number_to_string now)
      false (wsSent st).

(** The handler of the socket on the state of the component. *)
Definition receive (now : N) (nowIso : jsstring) (data : Ev.event)
    (st : component) : option component :=
  c <- onmessage now nowIso data (chatState st) ;;
  Some (Component c (inputMessage st) (selectedAgent st) (isConnected st)
            (sessionId st) (wsOpen st) (wsSent st)).

(** What may happen to the component: an event of the socket, a call of
    [sendMessage] or of [createNewSession], the user typing into the input
    ([setInputMessage]) or picking an agent ([setSelectedAgent]). *)
Inductive action :=
| Receive (now : N) (nowIso : jsstring) (data : Ev.event)
| Send (now : N) (nowIso : jsstring)
| NewSession (now : N)
| SetInput (s : jsstring)
| SelectAgent (key : jsstring).

Definition act (a : action) (st : component) : option component :=
  match a with
  | Receive now nowIso data => receive now nowIso data st
  | Send now nowIso => Some (sendMessage now nowIso st)
  | NewSession now => Some (createNewSession now st)
  | SetInput s =>
      Some (Component (chatState st) s (selectedAgent st) (isConnected st)
                (sessionId st) (wsOpen st) (wsSent st))
  | SelectAgent key =>
      Some (Component (chatState st) (inputMessage st) key (isConnected st)
                (sessionId st) (wsOpen st) (wsSent st))
  end.

Fixpoint run (acts : list action) (st : component) : option component :=
  match acts with
  | [] => Some st
  | a :: t => st' <- act a st ;; run t st'
  end.

(** An action that is not an event ending the turn: any action but a
    [done] event and an event with an error text. *)
Definition keeps_turn (a : action) : bool :=
  match a with
  | Receive _ _ data =>
      negb (Ev.done data) && negb (truthy_opt (Ev.error data))
  | _ => true
  end.

(** [sendMessage] goes past its guard. *)
Definition accepted (st : component) : bool :=
  truthy (trim (inputMessage st)) && isConnected st
  && negb (isLoading (chatState st)).

Definition done_event : Ev.event :=
  Ev.Event None None None None true None.

(** An object used as a map from keys to booleans: its own properties. *)
Definition flags_object := list (jsstring * bool).

(** [o[k]], undefined when [o] has no property [k]. *)
Fixpoint get_key (k : jsstring) (o : flags_object) : option bool :=
  match o with
  | [] => None
  | (k', v) :: t => if str_eqb k' k then Some v else get_key k t
  end.

(** [{...o, [k]: v}] *)
Fixpoint set_key (k : jsstring) (v : bool) (o : flags_object)
    : flags_object :=
  match o with
  | [] => [(k, v)]
  | (k', v') :: t =>
      if str_eqb k' k then (k', v) :: t else (k', v') :: set_key k v t
  end.

(** The truth of [o[k]]. *)
Definition is_expanded (k : jsstring) (o : flags_object) : bool :=
  match get_key k o with
  | Some v => v
  | None => false
  end.

(** The body of [toggleThinking] and [toggleArtifact]. *)
Definition toggle (k : jsstring) (prev : flags_object) : flags_object :=
  set_key k (negb (is_expanded k prev)) prev.

Definition toggleThinking (messageId : N) (prev : flags_object)
    : flags_object :=
  toggle (number_to_string messageId) prev.

Definition toggleArtifact (artifactKey : jsstring) (prev : flags_object)
    : flags_object :=
  toggle artifactKey prev.

(** The key the view gives to [toggleArtifact] and reads. *)
Definition artifact_key (messageId : N) (artifactIndex : nat) : jsstring :=
  number_to_string messageId ++ js "-"
  ++ number_to_string (N.of_nat artifactIndex).

(** The clicks on the artifact buttons, in order, from the empty object. *)
Definition after_clicks (clicks : list (N * nat)) : flags_object :=
  fold_left (fun o c => toggleArtifact (artifact_key (fst c) (snd c)) o)
            clicks [].

Definition same_artifact (a b : N * nat) : bool :=
  N.eqb (fst a) (fst b) && Nat.eqb (snd a) (snd b).
(** * Further definitions: formatConversationalContent and
      formatArtifactContent *)

Definition is_digit (c : cu) : bool := (N.leb 48 c && N.leb c 57)%N.

Definition digit_value (c : cu) : nat := N.to_nat (c - 48).

(** A capture by its number; an undefined capture gives the empty string. *)
Definition capture (n : nat) (cs : list (nat * jsstring)) : jsstring :=
  match get_cap n cs with
  | Some v => v
  | None => []
  end.

(** GetSubstitution, for an expression with [m] capturing groups and no
    named groups: [matched] is the match, [before] and [after] the text on
    either side of it, [cs] the captures, [template] the replacement
    string.  A dollar sign is followed by a dollar sign, an ampersand, a
    backtick, an apostrophe or one or two digits; any other dollar sign
    stands for itself. *)
Fixpoint get_substitution (m : nat) (matched before after : jsstring)
    (cs : list (nat * jsstring)) (template : jsstring) : jsstring :=
  match template with
  | [] => []
  | c :: t =>
      if negb (cu_eqb c 36%N) then
        c :: get_substitution m matched before after cs t
      else
        match t with
        | [] => [c]
        | d1 :: t1 =>
            if cu_eqb d1 36%N then
              36%N :: get_substitution m matched before after cs t1
            else if cu_eqb d1 38%N then
              matched ++ get_substitution m matched before after cs t1
            else if cu_eqb d1 96%N then
              before ++ get_substitution m matched before after cs t1
            else if cu_eqb d1 39%N then
              after ++ get_substitution m matched before after cs t1
            else if is_digit d1 then
              let one :=
                if (1 <=? digit_value d1) && (digit_value d1 <=? m)
                then capture (digit_value d1) cs
                       ++ get_substitution m matched before after cs t1
                else c :: d1
                       :: get_substitution m matched before after cs t1 in
              match t1 with
              | d2 :: t2 =>
                  if is_digit d2 then
                    let index := 10 * digit_value d1 + digit_value d2 in
                    if m <? index then one
                    else if 1 <=? index then
                      capture index cs
                        ++ get_substitution m matched before after cs t2
                    else
                      c :: d1 :: d2
                        :: get_substitution m matched before after cs t2
                  else one
              | [] => one
              end
            else c :: get_substitution m matched before after cs t
        end
  end.

(** The replacement for one match of [re] in [s]. *)
Definition substitution (re : regex) (template s : jsstring)
    (mr : match_result) : jsstring :=
  get_substitution (length (group_indices re)) (m0 mr)
    (firstn (index mr) s) (skipn (index mr + length (m0 mr)) s)
    (captures mr) template.

(** [s.replace(re, template)] for a global expression. *)
Fixpoint replace_loop_template (fuel : nat) (fl : flags) (re : regex)
    (s template : jsstring) (lastIndex nextSourcePosition : nat)
    (accumulated : jsstring) : option jsstring :=
  match fuel with
  | 0 => None
  | S fuel' =>
      match exec fl re s lastIndex with
      | Exhausted => None
      | Fail => Some (accumulated ++ skipn nextSourcePosition s)
      | Ok mr =>
          let li := if Nat.eqb (length (m0 mr)) 0 then S (end_index mr)
                    else end_index mr in
          if nextSourcePosition <=? index mr then
            replace_loop_template fuel' fl re s template li
              (index mr + length (m0 mr))
              (accumulated
                 ++ firstn (index mr - nextSourcePosition)
                      (skipn nextSourcePosition s)
                 ++ substitution re template s mr)
          else
            replace_loop_template fuel' fl re s template li
              nextSourcePosition accumulated
      end
  end.

Definition replace_all_template (fl : flags) (re : regex)
    (template s : jsstring) : option jsstring :=
  replace_loop_template (2 + length s) fl re s template 0 0 [].

(** [s.replace(re, template)] for an expression that is not global: the
    first match only. *)
Definition replace_first_template (fl : flags) (re : regex)
    (template s : jsstring) : option jsstring :=
  match exec fl re s 0 with
  | Exhausted => None
  | Fail => Some s
  | Ok mr =>
      Some (firstn (index mr) s ++ substitution re template s mr
            ++ skipn (index mr + length (m0 mr)) s)
  end.

(** The four expressions of formatConversationalContent: a backtick, one
    or more units that are no backtick (group 1), a backtick; two
    asterisks, lazily any units of the line (group 1), two asterisks; at
    the start of a line a hyphen, a space and one or more units of the
    line (group 1) up to its end; and, as group 1, [<li>], any units and
    [</li>].  The last expression has the flag [s], under which the dot
    stands for every unit. *)
Definition not_backtick (c : cu) : bool := negb (cu_eqb c 96%N).

Definition inlineCodeRegex : regex :=
  seqs [ Char 96%N; Group 1 (plus (Class not_backtick)); Char 96%N ].

Definition boldRegex : regex :=
  seqs [ lit (js "**"); Group 1 (lazy_star (Class is_dot)); lit (js "**") ].

Definition bulletFlags : flags := Flags false true.

Definition bulletRegex : regex :=
  seqs [ Bol; Char 45%N; Char 32%N; Group 1 (plus (Class is_dot)); Eol ].

Definition listRegex : regex :=
  Group 1 (seqs [ lit (js "<li>"); star (Class is_any); lit (js "</li>") ]).

Definition inlineCodeTemplate : jsstring :=
  js "<code class=" ++ [dq] ++ js "inline-code" ++ [dq] ++ js ">$1</code>".

Definition formatConversationalContent (content : jsstring)
    : option jsstring :=
  f1 <- replace_all_template no_flags inlineCodeRegex inlineCodeTemplate
          content ;;
  f2 <- replace_all_template no_flags boldRegex (js "<strong>$1</strong>")
          f1 ;;
  f3 <- replace_all_template bulletFlags bulletRegex (js "<li>$1</li>") f2 ;;
  replace_first_template no_flags listRegex (js "<ul>$1</ul>") f3.

(** [`${artifact.language}`]: an artifact without a language has the
    text [undefined] in its place. *)
Definition language_text (a : artifact) : jsstring :=
  match language a with
  | Some l => l
  | None => js "undefined"
  end.

Definition formatArtifactContent (a : artifact) : option jsstring :=
  match type a with
  | code =>
      Some (js "<div class=" ++ [dq] ++ js "code-block" ++ [dq]
            ++ js ">\n        <div class=" ++ [dq] ++ js "code-header" ++ [dq]
            ++ js ">\n          <span class=" ++ [dq] ++ js "code-lang"
            ++ [dq] ++ js ">" ++ language_text a
            ++ js "</span>\n        </div>\n        <pre><code>"
            ++ content a ++ js "</code></pre>\n      </div>")
  | table => Some (parseMarkdownTable (content a))
  | document =>
      f <- formatConversationalContent (content a) ;;
      Some (js "<div class=" ++ [dq] ++ js "document-content" ++ [dq]
            ++ js ">" ++ f ++ js "</div>")
  end.

(** The text the view gives to formatConversationalContent for a message:
    [message.conversationalContent || (message.hasArtifact ? sentence :
    message.content)]. *)
Definition artifactBelowSentence : jsstring :=
  js "I've prepared the content in the artifact below.".

Definition truthy_flag (o : option bool) : bool :=
  match o with
  | Some b => b
  | None => false
  end.

Definition display_text (m : Msg.message) : jsstring :=
  if truthy_opt (Msg.conversationalContent m)
  then or_default (Msg.conversationalContent m) []
  else if truthy_flag (Msg.hasArtifact m) then artifactBelowSentence
  else Msg.content m.

(** The artifact section of a message is shown. *)
Definition shows_artifacts (m : Msg.message) : bool :=
  Msg.isBot m && truthy_flag (Msg.hasArtifact m)
  && match Msg.artifacts m with
     | Some arts => 0 <? length arts
     | None => false
     end.

(** * Further definitions: texts the formatter is followed on *)

(** Whether [l] starts with the units [a], [b]; and whether the two occur
    next to each other somewhere in [l]. *)
Definition starts_pair (a b : cu) (l : jsstring) : bool :=
  match l with
  | x :: y :: _ => cu_eqb a x && cu_eqb b y
  | _ => false
  end.

Fixpoint has_pair (a b : cu) (l : jsstring) : bool :=
  starts_pair a b l
  || match l with
     | [] => false
     | _ :: t => has_pair a b t
     end.

(** A text cut into pieces for one global replacement: a piece is either
    passed over, or it is a match, with its captures and what replaces
    it. *)
Inductive piece :=
| Skip (p : jsstring)
| Hit (m : jsstring) (cs : list (nat * jsstring)) (r : jsstring).

Definition piece_source (pc : piece) : jsstring :=
  match pc with
  | Skip p => p
  | Hit m _ _ => m
  end.

Definition piece_result (pc : piece) : jsstring :=
  match pc with
  | Skip p => p
  | Hit _ _ r => r
  end.

Definition pieces_source (ps : list piece) : jsstring :=
  flat_map piece_source ps.

Definition pieces_result (ps : list piece) : jsstring :=
  flat_map piece_result ps.

(** The pieces are what the expression finds in their source, read after
    the unit [pv]: the search goes through a piece passed over without a
    match, and at a match the expression matches exactly the piece, with
    its captures, and the template gives its replacement. *)
Fixpoint pieces_found (fl : flags) (re : regex) (template : jsstring)
    (pv : option cu) (ps : list piece) : Prop :=
  match ps with
  | [] => True
  | Skip p :: ps' =>
      (forall idx,
         exec_from fl re idx pv (p ++ pieces_source ps')
         = exec_from fl re (idx + length p) (last_unit pv p)
             (pieces_source ps'))
      /\ pieces_found fl re template (last_unit pv p) ps'
  | Hit m cs r :: ps' =>
      m <> []
      /\ (exists pv',
            compile fl re (MState pv (m ++ pieces_source ps') [])
                    (fun y => Ok y)
            = Ok (MState pv' (pieces_source ps') cs))
      /\ (forall before after,
            get_substitution (length (group_indices re)) m before after cs
              template
            = r)
      /\ pieces_found fl re template (last_unit pv m) ps'
  end.

(** Whether the units [w] occur next to each other somewhere in [s]. *)
Fixpoint occurs (w s : jsstring) : bool :=
  starts_with w s
  || match s with
     | [] => false
     | _ :: t => occurs w t
     end.

(** A text made of spans: plain text, inline code between backticks and
    bold text between double asterisks; what each span is in the source
    text, after the first replacement of formatConversationalContent, and
    in its result. *)
Inductive span :=
| Plain (s : jsstring)
| Code (s : jsstring)
| Bold (s : jsstring).

Definition codeOpen : jsstring :=
  js "<code class=" ++ [dq] ++ js "inline-code" ++ [dq] ++ js ">".

Definition span_source (sp : span) : jsstring :=
  match sp with
  | Plain s => s
  | Code s => 96%N :: s ++ [96%N]
  | Bold s => js "**" ++ s ++ js "**"
  end.

Definition span_coded (sp : span) : jsstring :=
  match sp with
  | Code s => codeOpen ++ s ++ js "</code>"
  | _ => span_source sp
  end.

Definition span_html (sp : span) : jsstring :=
  match sp with
  | Plain s => s
  | Code s => codeOpen ++ s ++ js "</code>"
  | Bold s => js "<strong>" ++ s ++ js "</strong>"
  end.

(** A unit that is none of backtick, asterisk, hyphen and [<]. *)
Definition plain_unit (c : cu) : bool :=
  negb (cu_eqb c 96%N) && negb (cu_eqb c 42%N) && negb (cu_eqb c 45%N)
  && negb (cu_eqb c 60%N).

(** The text of every span is made of such units; inline code is not
    empty, and bold text holds no line terminator. *)
Definition well_formed (sp : span) : bool :=
  match sp with
  | Plain s => forallb plain_unit s
  | Code s => truthy s && forallb plain_unit s
  | Bold s => forallb plain_unit s && forallb is_dot s
  end.

(** The spans as the pieces of the first and of the second replacement. *)
Definition code_piece (sp : span) : piece :=
  match sp with
  | Code s => Hit (96%N :: s ++ [96%N]) [(1, s)] (codeOpen ++ s ++ js "</code>")
  | _ => Skip (span_source sp)
  end.

Definition bold_piece (sp : span) : piece :=
  match sp with
  | Bold s =>
      Hit (js "**" ++ s ++ js "**") [(1, s)]
          (js "<strong>" ++ s ++ js "</strong>")
  | _ => Skip (span_coded sp)
  end.

(** A text made of lines: a list item, that is a hyphen, a space and its
    text, or any other line; what each line is in the source text and in
    the result of formatConversationalContent. *)
Inductive line :=
| Item (a : jsstring)
| Text (t : jsstring).

Definition line_source (l : line) : jsstring :=
  match l with
  | Item a => js "- " ++ a
  | Text t => t
  end.

Definition line_html (l : line) : jsstring :=
  match l with
  | Item a => js "<li>" ++ a ++ js "</li>"
  | Text t => t
  end.

(** [ls.join('\n')] *)
Definition join_nl (ls : list jsstring) : jsstring :=
  match ls with
  | [] => []
  | l :: t => l ++ flat_map (fun l' => nl :: l') t
  end.

(** A unit of the text of an item: no line terminator, backtick, asterisk
    or [<]; a unit of another line is no hyphen either. *)
Definition item_unit (c : cu) : bool :=
  is_dot c && negb (cu_eqb c 96%N) && negb (cu_eqb c 42%N)
  && negb (cu_eqb c 60%N).

Definition text_unit (c : cu) : bool :=
  item_unit c && negb (cu_eqb c 45%N).

Definition line_ok (l : line) : bool :=
  match l with
  | Item a => truthy a && forallb item_unit a
  | Text t => forallb text_unit t
  end.

Definition is_item (l : line) : bool :=
  match l with
  | Item _ => true
  | Text _ => false
  end.

(** The lines as the pieces of the third replacement. *)
Definition line_piece (l : line) : piece :=
  match l with
  | Item a => Hit (js "- " ++ a) [(1, a)] (js "<li>" ++ a ++ js "</li>")
  | Text t => Skip t
  end.

Definition lines_pieces (ls : list line) : list piece :=
  match ls with
  | [] => []
  | l :: t => line_piece l :: flat_map (fun l' => [Skip [nl]; line_piece l']) t
  end.

(** The clicks on the thinking buttons, in order, from the empty object. *)
Definition after_thinking_clicks (ids : list N) : flags_object :=
  fold_left (fun o messageId => toggleThinking messageId o) ids [].

(** * Further definitions: the placeholder of a table *)

(** What follows the leading white space of the placeholder expression:
    the opening bracket and lazily the units of the line up to a closing
    bracket, then white space up to the end of the line. *)
Definition ph_end (c : cont) : cont :=
  fun y => if at_eol placeholderFlags y then c y else Fail.

Definition ph_close (c : cont) : cont :=
  fun y =>
    unit_matcher (char_test placeholderFlags 93%N) y
      (fun y3 =>
         greedy_scan is_space (ph_end c) (prev y3) (rest y3) (caps y3)).

Definition ph_open (c : cont) : cont :=
  fun y =>
    unit_matcher (char_test placeholderFlags 91%N) y
      (fun y1 =>
         lazy_scan is_dot (ph_close c) (prev y1) (rest y1) (caps y1)).

Definition tableMarker : jsstring := js "[Table shown in artifact]".

Definition documentMarker : jsstring := js "[Document shown in artifact]".

(** * Further definitions: the table formatter on rows of cells *)

(** [ps.join(sep)] for a one-unit separator. *)
Definition join_with (sep : cu) (ps : list jsstring) : jsstring :=
  match ps with
  | [] => []
  | p :: t => p ++ flat_map (fun p' => sep :: p') t
  end.

(** The cells of a row, given by the pieces between its pipes, as the
    claim words them: each piece trimmed, and the empty cells at the two
    ends of the row dropped. *)
Definition edge_cells (pieces : list jsstring) : list jsstring :=
  rev (drop_leading_empty (rev (drop_leading_empty (map trim pieces)))).

(** A line with a unit that is no white space. *)
Definition not_blank (l : jsstring) : bool := negb (forallb is_space l).

(** The markup of a table with the given header cells and body rows: one
    [th] for each header cell, in order, and one [tr] for each body row, in
    order, with one [td] for each of its cells, in order. *)
Definition table_html (headers : list jsstring)
    (data : list (list jsstring)) : jsstring :=
  js "<div class=" ++ [dq] ++ js "artifact-table-container" ++ [dq]
  ++ js "><table class=" ++ [dq] ++ js "artifact-table" ++ [dq] ++ js ">"
  ++ js "<thead><tr>"
  ++ concat (map (fun h => js "<th>" ++ h ++ js "</th>") headers)
  ++ js "</tr></thead><tbody>"
  ++ concat (map (fun row =>
                    js "<tr>"
                    ++ concat (map (fun c => js "<td>" ++ c ++ js "</td>") row)
                    ++ js "</tr>")
                 data)
  ++ js "</tbody></table></div>".

(** * Further definitions: a run of table lines in a text *)

(** A line a row of the table expression takes: it starts with a pipe,
    holds a further pipe, and holds no line feed. *)
Definition row_taken (row : jsstring) : Prop :=
  (exists w, row = pipe :: w)
  /\ Forall (fun u => u <> nl) row
  /\ 2 <= count_unit pipe row.

(** A text made of whole lines: empty, or ended by a line feed. *)
Definition whole_lines (b : jsstring) : Prop :=
  b = [] \/ exists b', b = b' ++ [nl].

(** * Further definitions: lines that hold a placeholder only *)

(** After the unit [pv], the text [l] starts a match of the placeholder
    expression: at the start of a line, white space, a bracketed
    placeholder on one line, and white space up to the end of a line. *)
Definition placeholder_here (pv : option cu) (l : jsstring) : Prop :=
  at_bol placeholderFlags (MState pv l []) = true
  /\ exists ws body ws2 t,
       l = ws ++ 91%N :: body ++ 93%N :: ws2 ++ t
       /\ forallb is_space ws = true
       /\ forallb is_dot body = true
       /\ forallb is_space ws2 = true
       /\ at_eol placeholderFlags (MState None t []) = true.

(** No such match starts anywhere in [l], which follows the unit [pv]. *)
Definition placeholder_free (pv : option cu) (l : jsstring) : Prop :=
  forall u v, l = u ++ v -> ~ placeholder_here (last_unit pv u) v.

(** * Properties of the matcher *)

Lemma reset_caps_rest gs x : rest (reset_caps gs x) = rest x.
Proof. reflexivity. Qed.

Lemma reset_caps_nil x : reset_caps [] x = x.
Proof.
  destruct x as [p r cs]. unfold reset_caps. simpl. f_equal.
  induction cs as [|kv cs IH]; simpl; [reflexivity | now rewrite IH].
Qed.

Lemma repeat_matcher_safe m gs greedy c :
  matcher_safe m ->
  forall fuel min max x,
    min + length (rest x) < fuel ->
    cont_safe c (length (rest x)) ->
    repeat_matcher m gs greedy c fuel min max x <> Exhausted.
Proof.
  intros Hm. induction fuel as [|fuel IH]; intros min max x Hf Hc; [lia|].
  assert (Hd : cont_safe
            (fun y => if (Nat.eqb min 0
                          && Nat.eqb (length (rest y)) (length (rest x)))%bool
                      then Fail
                      else repeat_matcher m gs greedy c fuel (Nat.pred min)
                             (pred_max max) y)
            (length (rest (reset_caps gs x)))).
  { intros y Hy. rewrite reset_caps_rest in Hy.
    destruct (Nat.eqb min 0) eqn:E0; simpl.
    - apply Nat.eqb_eq in E0. subst min.
      destruct (Nat.eqb (length (rest y)) (length (rest x))) eqn:E1;
        [discriminate|].
      apply Nat.eqb_neq in E1. apply IH; [simpl; lia|].
      intros y' Hy'. apply Hc. lia.
    - apply Nat.eqb_neq in E0. apply IH; [lia|].
      intros y' Hy'. apply Hc. lia. }
  assert (Hx : c x <> Exhausted) by (apply Hc; lia).
  simpl.
  destruct max as [[|k]|]; try exact Hx;
    (destruct (Nat.eqb min 0); simpl;
     [ destruct greedy; simpl;
       [ destruct (m (reset_caps gs x) _) eqn:E;
         [discriminate | exact Hx | exfalso; revert E; apply Hm, Hd]
       | destruct (c x) eqn:E;
         [discriminate | apply Hm, Hd | contradiction] ]
     | apply Hm, Hd ]).
Qed.

Lemma compile_safe fl r : matcher_safe (compile fl r).
Proof.
  induction r as [|a|p|r1 IH1 r2 IH2|r1 IH1 r2 IH2|min max g r IH|n r IH| |];
    intros x c Hc; cbn [compile].
  - apply Hc. lia.
  - destruct (rest x) as [|b t] eqn:E; [discriminate|].
    destruct (cu_eqb _ _); [|discriminate]. apply Hc. simpl. lia.
  - destruct (rest x) as [|b t] eqn:E; [discriminate|].
    destruct (p b); [|discriminate]. apply Hc. simpl. lia.
  - apply IH1. intros y Hy. apply IH2. intros y' Hy'. apply Hc. lia.
  - destruct (compile fl r1 x c) eqn:E; try discriminate.
    + apply IH2, Hc.
    + exfalso. revert E. apply IH1, Hc.
  - apply repeat_matcher_safe; [exact IH | lia | exact Hc].
  - apply IH. intros y Hy. apply Hc. simpl. lia.
  - destruct (at_bol fl x); [|discriminate]. apply Hc. lia.
  - destruct (at_eol fl x); [|discriminate]. apply Hc. lia.
Qed.

Lemma repeat_matcher_sound m gs greedy c n :
  matcher_sound m n ->
  forall fuel min max x z,
    repeat_matcher m gs greedy c fuel min max x = Ok z ->
    exists y pre, c y = Ok z /\ rest x = pre ++ rest y
                  /\ min_iter min max * n <= length pre.
Proof.
  intros Hm. induction fuel as [|fuel IH]; intros min max x z H;
    [discriminate|].
  assert (Hstop : c x = Ok z ->
            min_iter min max = 0 ->
            exists y pre, c y = Ok z /\ rest x = pre ++ rest y
                          /\ min_iter min max * n <= length pre).
  { intros Hc H0. exists x, []. rewrite H0. simpl. auto with arith. }
  assert (Hiter : forall d : cont,
            (forall y, d y = Ok z ->
               repeat_matcher m gs greedy c fuel (Nat.pred min)
                 (pred_max max) y = Ok z) ->
            m (reset_caps gs x) d = Ok z ->
            exists y pre, c y = Ok z /\ rest x = pre ++ rest y
                          /\ min_iter min max * n <= length pre).
  { intros d Hd' Hz. apply Hm in Hz.
    destruct Hz as (y1 & pre1 & Hd & Hr1 & Hn1).
    apply Hd', IH in Hd. destruct Hd as (y & pre2 & Hc & Hr2 & Hn2).
    exists y, (pre1 ++ pre2). split; [exact Hc|]. split.
    - rewrite reset_caps_rest in Hr1. rewrite Hr1, Hr2.
      now rewrite app_assoc.
    - rewrite length_app.
      assert (min_iter min max <= S (min_iter (Nat.pred min) (pred_max max))).
      { destruct max as [k|]; simpl; lia. }
      nia. }
  cbn [repeat_matcher] in H.
  destruct max as [[|k]|].
  - apply Hstop; [exact H | simpl; lia].
  - destruct (Nat.eqb min 0) eqn:E0; cbn [negb] in H;
      [|eapply Hiter; [|exact H]; intros y Hy; cbv beta in Hy;
          match type of Hy with
          | (if ?b then _ else _) = _ =>
              destruct b; [discriminate | exact Hy]
          end].
    pose proof E0 as E0'. apply Nat.eqb_eq in E0'.
    destruct greedy; cbn [negb] in H.
    + destruct (m (reset_caps gs x) _) eqn:E; try discriminate.
      * injection H as ->.
        eapply Hiter; [|exact E]. intros y Hy; cbv beta in Hy;
          match type of Hy with
          | (if ?b then _ else _) = _ =>
              destruct b; [discriminate | exact Hy]
          end.
      * apply Hstop; [exact H | subst; reflexivity].
    + destruct (c x) eqn:E; try discriminate.
      * apply Hstop; [congruence | subst; reflexivity].
      * eapply Hiter; [|exact H]. intros y Hy; cbv beta in Hy;
          match type of Hy with
          | (if ?b then _ else _) = _ =>
              destruct b; [discriminate | exact Hy]
          end.
  - destruct (Nat.eqb min 0) eqn:E0; cbn [negb] in H;
      [|eapply Hiter; [|exact H]; intros y Hy; cbv beta in Hy;
          match type of Hy with
          | (if ?b then _ else _) = _ =>
              destruct b; [discriminate | exact Hy]
          end].
    pose proof E0 as E0'. apply Nat.eqb_eq in E0'.
    destruct greedy; cbn [negb] in H.
    + destruct (m (reset_caps gs x) _) eqn:E; try discriminate.
      * injection H as ->.
        eapply Hiter; [|exact E]. intros y Hy; cbv beta in Hy;
          match type of Hy with
          | (if ?b then _ else _) = _ =>
              destruct b; [discriminate | exact Hy]
          end.
      * apply Hstop; [exact H | subst; reflexivity].
    + destruct (c x) eqn:E; try discriminate.
      * apply Hstop; [congruence | subst; reflexivity].
      * eapply Hiter; [|exact H]. intros y Hy; cbv beta in Hy;
          match type of Hy with
          | (if ?b then _ else _) = _ =>
              destruct b; [discriminate | exact Hy]
          end.
Qed.

Lemma compile_sound fl r : matcher_sound (compile fl r) (min_length r).
Proof.
  induction r as [|a|p|r1 IH1 r2 IH2|r1 IH1 r2 IH2|min max g r IH|n r IH| |];
    intros x c z H; cbn [compile] in H; cbn [min_length].
  - exists x, []. auto.
  - destruct (rest x) as [|b t] eqn:E; [discriminate|].
    destruct (cu_eqb _ _); [|discriminate].
    eexists; exists [b]. split; [exact H|]. simpl. auto.
  - destruct (rest x) as [|b t] eqn:E; [discriminate|].
    destruct (p b); [|discriminate].
    eexists; exists [b]. split; [exact H|]. simpl. auto.
  - apply IH1 in H. destruct H as (y1 & pre1 & H & Hr1 & Hn1).
    apply IH2 in H. destruct H as (y & pre2 & H & Hr2 & Hn2).
    exists y, (pre1 ++ pre2). split; [exact H|]. split.
    + rewrite Hr1, Hr2. now rewrite app_assoc.
    + rewrite length_app. lia.
  - destruct (compile fl r1 x c) eqn:E; try discriminate.
    + apply IH1 in E. destruct E as (y & pre & Hc & Hr & Hn).
      exists y, pre. split; [congruence|]. split; [exact Hr | lia].
    + apply IH2 in H. destruct H as (y & pre & Hc & Hr & Hn).
      exists y, pre. split; [exact Hc|]. split; [exact Hr | lia].
  - eapply repeat_matcher_sound; [exact IH | exact H].
  - apply IH in H. destruct H as (y & pre & Hc & Hr & Hn).
    exists (set_cap n (consumed x y) y), pre. auto.
  - destruct (at_bol fl x); [|discriminate]. exists x, []. simpl. auto with arith.
  - destruct (at_eol fl x); [|discriminate]. exists x, []. simpl. auto with arith.
Qed.

(** ** exec *)

Lemma firstn_app_exact {A} (pre post : list A) :
  firstn (length (pre ++ post) - length post) (pre ++ post) = pre.
Proof.
  rewrite length_app, Nat.add_sub.
  rewrite firstn_app, Nat.sub_diag, firstn_all. simpl. apply app_nil_r.
Qed.

Lemma exec_from_safe fl r idx pv s : exec_from fl r idx pv s <> Exhausted.
Proof.
  revert idx pv. induction s as [|a t IH]; intros idx pv; simpl.
  - destruct (compile fl r _ _) eqn:E; try discriminate.
    exfalso. revert E. apply compile_safe. intros y _. discriminate.
  - destruct (compile fl r _ _) eqn:E; try discriminate.
    + apply IH.
    + exfalso. revert E. apply compile_safe. intros y _. discriminate.
Qed.

Lemma exec_safe fl r s li : exec fl r s li <> Exhausted.
Proof.
  unfold exec. destruct (_ <? _); [discriminate | apply exec_from_safe].
Qed.

Lemma attempt_sound fl r pv s y :
  compile fl r (MState pv s []) (fun y => Ok y) = Ok y ->
  exists pre, s = pre ++ rest y
              /\ min_length r <= length pre
              /\ firstn (length s - length (rest y)) s = pre.
Proof.
  intros E. apply compile_sound in E. destruct E as (y' & pre & Hy & Hr & Hn).
  injection Hy as <-. simpl in Hr. exists pre. repeat split; auto.
  rewrite Hr. apply firstn_app_exact.
Qed.

Lemma exec_from_eq fl r idx pv s :
  exec_from fl r idx pv s =
  match compile fl r (MState pv s []) (fun y => Ok y) with
  | Ok y =>
      let m := firstn (length s - length (rest y)) s in
      Ok (MatchResult idx m (caps y) (idx + length m))
  | Exhausted => Exhausted
  | Fail =>
      match s with
      | [] => Fail
      | a :: t => exec_from fl r (S idx) (Some a) t
      end
  end.
Proof. destruct s; reflexivity. Qed.

(** A match found from [idx] on, in input [s] that stands at offset [idx]. *)
Lemma exec_from_sound fl r idx pv s mr :
  exec_from fl r idx pv s = Ok mr ->
  exists skipped post,
    s = skipped ++ m0 mr ++ post
    /\ index mr = idx + length skipped
    /\ end_index mr = index mr + length (m0 mr)
    /\ min_length r <= length (m0 mr).
Proof.
  revert idx pv. induction s as [|a t IH]; intros idx pv H;
    rewrite exec_from_eq in H;
    destruct (compile fl r _ _) as [y| |] eqn:E; try discriminate.
  - apply attempt_sound in E. destruct E as (pre & Hs & Hn & Hf).
    destruct mr as [i m cs e]. cbn [m0 index end_index].
    cbv zeta in H. rewrite Hf in H. injection H as <- <- <- <-.
    exists [], (rest y). simpl. repeat split; auto with arith.
  - apply attempt_sound in E. destruct E as (pre & Hs & Hn & Hf).
    destruct mr as [i m cs e]. cbn [m0 index end_index].
    cbv zeta in H. rewrite Hf in H. injection H as <- <- <- <-.
    exists [], (rest y). simpl. repeat split; auto with arith.
  - apply IH in H. destruct H as (sk & post & Hs & Hi & He & Hn).
    exists (a :: sk), post. simpl. rewrite Hs at 1.
    repeat split; auto; lia.
Qed.

Lemma exec_sound fl r s li mr :
  exec fl r s li = Ok mr ->
  exists before post,
    s = before ++ m0 mr ++ post
    /\ length before = index mr
    /\ li <= index mr
    /\ end_index mr = index mr + length (m0 mr)
    /\ end_index mr <= length s
    /\ min_length r <= length (m0 mr).
Proof.
  unfold exec. destruct (length s <? li) eqn:El; [discriminate|].
  apply Nat.ltb_ge in El. intros H.
  apply exec_from_sound in H. destruct H as (sk & post & Hs & Hi & He & Hn).
  exists (firstn li s ++ sk), post.
  assert (Hlen : length (firstn li s) = li) by (apply firstn_length_le, El).
  repeat split; auto.
  - rewrite <- app_assoc, <- Hs. symmetry. apply firstn_skipn.
  - rewrite length_app. lia.
  - lia.
  - rewrite He, Hi.
    assert (H1 : length s = li + length (skipn li s)).
    { rewrite <- (firstn_skipn li s) at 1. rewrite length_app. lia. }
    assert (H2 : length (skipn li s)
                 = length sk + (length (m0 mr) + length post)).
    { rewrite Hs at 1. now rewrite !length_app. }
    lia.
Qed.

(** ** The captures a match defines *)

Lemma seq_then fl r1 r2 x c z :
  compile fl (Seq r1 r2) x c = Ok z -> exists y, compile fl r2 y c = Ok z.
Proof.
  intros H. cbn [compile] in H. apply compile_sound in H.
  destruct H as (y & _ & H & _). eauto.
Qed.

Lemma seq_group_then fl n r r2 x c z :
  compile fl (Seq (Group n r) r2) x c = Ok z ->
  exists y v, compile fl r2 (set_cap n v y) c = Ok z.
Proof.
  intros H. cbn [compile] in H. apply compile_sound in H.
  destruct H as (y & _ & H & _). eauto.
Qed.

(** A literal leaves the captures as they are. *)
Lemma compile_char_caps fl a x c z :
  compile fl (Char a) x c = Ok z -> exists y, c y = Ok z /\ caps y = caps x.
Proof.
  cbn [compile]. destruct (rest x) as [|b t]; [discriminate|].
  destruct (cu_eqb _ _); [|discriminate]. intros H.
  eexists. split; [exact H | reflexivity].
Qed.

Lemma compile_lit_caps fl w :
  forall x c z,
    compile fl (lit w) x c = Ok z -> exists y, c y = Ok z /\ caps y = caps x.
Proof.
  induction w as [|a w IH]; intros x c z H; [cbn in H; eauto|].
  destruct w as [|b w]; [exact (@compile_char_caps fl a x c z H)|].
  change (lit (a :: b :: w)) with (Seq (Char a) (lit (b :: w))) in H.
  change (compile fl (Char a) x (fun y => compile fl (lit (b :: w)) y c)
          = Ok z) in H.
  apply compile_char_caps in H. destruct H as (y & H & Hy).
  apply IH in H. destruct H as (y' & H & Hy').
  exists y'. split; [exact H | congruence].
Qed.

(** The second group of the code expression stands outside every
    quantifier and alternative: a match defines its capture. *)
Lemma codeBlockRegex_capture x z :
  compile no_flags codeBlockRegex x (fun y => Ok y) = Ok z ->
  exists g2, get_cap 2 (caps z) = Some g2.
Proof.
  unfold codeBlockRegex, seqs. intros H.
  apply seq_then in H. destruct H as (y1 & H).
  apply seq_then in H. destruct H as (y2 & H).
  apply seq_then in H. destruct H as (y3 & H).
  apply seq_group_then in H. destruct H as (y4 & v & H).
  apply compile_lit_caps in H. destruct H as (y5 & H & Hy).
  injection H as <-. exists v. rewrite Hy. reflexivity.
Qed.

Lemma exec_from_code_capture s :
  forall idx pv mr,
    exec_from no_flags codeBlockRegex idx pv s = Ok mr ->
    exists g2, get_cap 2 (captures mr) = Some g2.
Proof.
  induction s as [|a t IH]; intros idx pv mr H; rewrite exec_from_eq in H;
    destruct (compile no_flags codeBlockRegex _ _) as [z| |] eqn:E;
    try discriminate; try (now apply IH in H);
    apply codeBlockRegex_capture in E; injection H as <-; exact E.
Qed.

Lemma exec_code_capture s li mr :
  exec no_flags codeBlockRegex s li = Ok mr ->
  exists g2, get_cap 2 (captures mr) = Some g2.
Proof.
  unfold exec. destruct (_ <? _); [discriminate|].
  apply exec_from_code_capture.
Qed.

(** The group of the table expression holds the whole expression: its
    capture is the match. *)
Lemma exec_from_group_capture fl r s :
  forall idx pv mr,
    exec_from fl (Group 1 r) idx pv s = Ok mr ->
    get_cap 1 (captures mr) = Some (m0 mr).
Proof.
  induction s as [|a t IH]; intros idx pv mr H; rewrite exec_from_eq in H;
    destruct (compile fl (Group 1 r) _ _) as [z| |] eqn:E;
    try discriminate; try (now apply IH in H);
    cbn [compile] in E; apply compile_sound in E;
    destruct E as (y & pre & Hy & _ & _);
    injection Hy as <-; injection H as <-;
    unfold set_cap, consumed; cbn [captures m0 caps rest];
    reflexivity.
Qed.

Lemma exec_group_capture fl r s li mr :
  exec fl (Group 1 r) s li = Ok mr ->
  get_cap 1 (captures mr) = Some (m0 mr).
Proof.
  unfold exec. destruct (_ <? _); [discriminate|].
  apply exec_from_group_capture.
Qed.

(** The bodies of the two loops do not throw on a match of their
    expression. *)
Lemma code_body_returns s li mr st :
  exec no_flags codeBlockRegex s li = Ok mr ->
  exists st', code_body mr st = Some st'.
Proof.
  intros E. apply exec_code_capture in E. destruct E as (g2 & E).
  unfold code_body. rewrite E. eauto.
Qed.

Lemma table_body_returns s li mr st :
  exec no_flags tableRegex s li = Ok mr ->
  exists st', table_body mr st = Some st'.
Proof.
  intros E. unfold tableRegex in E. apply exec_group_capture in E.
  unfold table_body. rewrite E. cbv zeta. destruct (2 <=? _); eauto.
Qed.

(** ** The loops end *)

Lemma exec_loop_total fl re s body :
  0 < min_length re ->
  (forall li mr st,
     exec fl re s li = Ok mr -> exists st', body mr st = Some st') ->
  forall fuel li st,
    length s - li < fuel ->
    exists st', exec_loop fuel fl re s body li st = Some st'.
Proof.
  intros Hmin Hbody. induction fuel as [|fuel IH]; intros li st Hf; [lia|].
  cbn [exec_loop]. destruct (exec fl re s li) as [mr| |] eqn:E.
  - destruct (Hbody _ _ st E) as [st1 ->].
    apply exec_sound in E.
    destruct E as (before & post & Hs & Hb & Hli & He & Hle & Hn).
    apply IH. lia.
  - eauto.
  - exfalso. revert E. apply exec_safe.
Qed.

Lemma replace_loop_total fl re s rep :
  forall fuel li nsp acc,
    S (length s) - li < fuel ->
    exists out, replace_loop fuel fl re s rep li nsp acc = Some out.
Proof.
  induction fuel as [|fuel IH]; intros li nsp acc Hf; [lia|].
  cbn [replace_loop]. destruct (exec fl re s li) as [mr| |] eqn:E.
  - apply exec_sound in E.
    destruct E as (before & post & Hs & Hb & Hli & He & Hle & Hn).
    cbv zeta.
    destruct (Nat.eqb (length (m0 mr)) 0) eqn:E0;
      [apply Nat.eqb_eq in E0 | apply Nat.eqb_neq in E0];
      destruct (nsp <=? index mr); apply IH; lia.
  - eauto.
  - exfalso. revert E. apply exec_safe.
Qed.

Lemma replace_all_total fl re rep s :
  exists out, replace_all fl re rep s = Some out.
Proof. apply replace_loop_total. lia. Qed.

Lemma cleanup_total s : exists out, cleanup s = Some out.
Proof.
  unfold cleanup.
  destruct (replace_all_total no_flags newlinesRegex (js "\n\n") s) as [s1 ->].
  cbn [bind].
  destruct (replace_all_total placeholderFlags placeholderRegex [] s1)
    as [s2 ->].
  cbn [bind]. eauto.
Qed.

Lemma min_length_codeBlockRegex : min_length codeBlockRegex = 7.
Proof. reflexivity. Qed.

Lemma min_length_tableRegex : min_length tableRegex = 3.
Proof. reflexivity. Qed.

Lemma code_pass_total s st : exists st', code_pass s st = Some st'.
Proof.
  apply exec_loop_total;
    [rewrite min_length_codeBlockRegex; lia | | lia].
  intros li mr st0. apply code_body_returns.
Qed.

Lemma table_pass_total s st : exists st', table_pass s st = Some st'.
Proof.
  apply exec_loop_total;
    [rewrite min_length_tableRegex; lia | | lia].
  intros li mr st0. apply table_body_returns.
Qed.

Lemma doc_pass_total s st : exists st', doc_pass s st = Some st'.
Proof.
  unfold doc_pass. destruct (exec docFlags docRegex s 0) eqn:E; eauto.
  exfalso. revert E. apply exec_safe.
Qed.

Lemma extractArtifacts_total text : exists r, extractArtifacts text = Some r.
Proof.
  unfold extractArtifacts.
  destruct (code_pass_total text ([], text)) as [st1 ->]. cbn [bind].
  destruct (table_pass_total text st1) as [st2 ->]. cbn [bind].
  destruct (doc_pass_total text st2) as [st3 ->]. cbn [bind].
  destruct (cleanup_total (snd st3)) as [rc ->]. cbn [bind]. eauto.
Qed.

(** ** What the passes do to the artifact list *)

Lemma code_body_fst mr st st' :
  code_body mr st = Some st' -> fst st' = fst st ++ code_artifact mr.
Proof.
  unfold code_body, code_artifact.
  destruct (get_cap 2 (captures mr)) as [g2|]; [|discriminate].
  intros H. injection H as <-. destruct g2; reflexivity.
Qed.

Lemma table_body_fst mr st st' :
  table_body mr st = Some st' -> fst st' = fst st ++ table_artifact mr.
Proof.
  unfold table_body, table_artifact.
  destruct (get_cap 1 (captures mr)) as [g1|]; [|discriminate].
  cbv zeta. replace (or_default (Some g1) []) with g1
    by (destruct g1; reflexivity).
  destruct (2 <=? _); intros H; injection H as <-; simpl;
    [reflexivity | now rewrite app_nil_r].
Qed.

(** Whether a body throws depends on the match alone. *)
Lemma code_body_any mr st st0 :
  code_body mr st <> None -> code_body mr st0 <> None.
Proof.
  unfold code_body. destruct (get_cap 2 (captures mr)); [discriminate | auto].
Qed.

Lemma table_body_any mr st st0 :
  table_body mr st <> None -> table_body mr st0 <> None.
Proof.
  unfold table_body. destruct (get_cap 1 (captures mr)); [|auto].
  cbv zeta. destruct (2 <=? _); discriminate.
Qed.

Section ExecLoop.
Variables (fl : flags) (re : regex) (s : jsstring).
Variable body : match_result -> pass_state -> option pass_state.
Variable added : match_result -> list artifact.
Hypothesis body_fst :
  forall mr st st', body mr st = Some st' -> fst st' = fst st ++ added mr.
Hypothesis body_any :
  forall mr st st0, body mr st <> None -> body mr st0 <> None.

(** The artifacts a loop adds do not depend on the state it starts in. *)
Lemma exec_loop_fst :
  forall fuel li st st',
    exec_loop fuel fl re s body li st = Some st' ->
    exists l,
      fst st' = fst st ++ l
      /\ forall st0, exists w,
           exec_loop fuel fl re s body li st0 = Some (fst st0 ++ l, w).
Proof.
  induction fuel as [|fuel IH]; intros li st st' H; [discriminate|].
  cbn [exec_loop] in H |- *.
  destruct (exec fl re s li) as [mr| |] eqn:E; try discriminate.
  - destruct (body mr st) as [st1|] eqn:B; [|discriminate].
    apply IH in H. destruct H as (l & Hl & Hall).
    exists (added mr ++ l). split.
    + rewrite Hl, (body_fst B). now rewrite app_assoc.
    + intros st0. destruct (body mr st0) as [st01|] eqn:B0.
      * destruct (Hall st01) as [w Hw].
        exists w. rewrite Hw, (body_fst B0). now rewrite app_assoc.
      * exfalso. apply (@body_any mr st st0); congruence.
  - injection H as <-. exists []. split; [now rewrite app_nil_r|].
    intros [a0 w0]. exists w0. simpl. now rewrite app_nil_r.
Qed.

(** An invariant of the state that every iteration keeps holds at the end. *)
Lemma exec_loop_inv (I : pass_state -> Prop) :
  (forall li mr st st1,
     exec fl re s li = Ok mr -> I st -> body mr st = Some st1 -> I st1) ->
  forall fuel li st st',
    I st -> exec_loop fuel fl re s body li st = Some st' -> I st'.
Proof.
  intros Hb. induction fuel as [|fuel IH]; intros li st st' Hi H;
    [discriminate|].
  cbn [exec_loop] in H.
  destruct (exec fl re s li) as [mr| |] eqn:E; try discriminate.
  - destruct (body mr st) as [st1|] eqn:B; [|discriminate].
    eapply IH; [|exact H]. eapply Hb; eauto.
  - now injection H as <-.
Qed.
End ExecLoop.

Lemma doc_pass_fst s st st' :
  doc_pass s st = Some st' -> fst st' = fst st ++ doc_artifact s.
Proof.
  unfold doc_pass, doc_artifact.
  destruct (exec docFlags docRegex s 0); try discriminate;
    intros H; injection H as <-; simpl; [reflexivity | now rewrite app_nil_r].
Qed.

Lemma code_body_untouched text mr st st' :
  untouched text st -> code_body mr st = Some st' -> untouched text st'.
Proof.
  intros _ B H. rewrite (code_body_fst _ _ B) in H.
  apply app_eq_nil in H. destruct H as [_ H]. discriminate.
Qed.

Lemma table_body_untouched text mr st st' :
  untouched text st -> table_body mr st = Some st' -> untouched text st'.
Proof.
  unfold table_body. destruct (get_cap 1 (captures mr)); [|discriminate].
  cbv zeta. destruct (2 <=? _); intros U B; injection B as <-; [|exact U].
  intros H. cbn [fst] in H.
  apply app_eq_nil in H. destruct H as [_ H]. discriminate.
Qed.

Lemma doc_pass_untouched text s st st' :
  doc_pass s st = Some st' -> untouched text st -> untouched text st'.
Proof.
  unfold doc_pass. destruct (exec docFlags docRegex s 0); try discriminate;
    intros H; injection H as <-; [|auto].
  intros _ H. cbn [fst] in H.
  apply app_eq_nil in H. destruct H as [_ H]. discriminate.
Qed.

(** The three passes, each run on its own on the text. *)
Lemma extractArtifacts_passes text :
  exists cs w1 ts w2 remainingContent cleaned,
    code_pass text ([], text) = Some (cs, w1)
    /\ table_pass text ([], text) = Some (ts, w2)
    /\ (cs ++ ts ++ doc_artifact text = [] -> remainingContent = text)
    /\ cleanup remainingContent = Some cleaned
    /\ extractArtifacts text
       = Some (Extraction (cs ++ ts ++ doc_artifact text)
                 (fallback (cs ++ ts ++ doc_artifact text) cleaned)).
Proof.
  unfold extractArtifacts.
  destruct (code_pass_total text ([], text)) as [[cs w1] H1].
  destruct (table_pass_total text (cs, w1)) as [st2 H2].
  destruct (doc_pass_total text st2) as [st3 H3].
  destruct (cleanup_total (snd st3)) as [cleaned H4].
  rewrite H1. cbn [bind]. rewrite H2. cbn [bind]. rewrite H3. cbn [bind].
  rewrite H4. cbn [bind].
  pose proof H2 as H2'.
  eapply exec_loop_fst with (added := table_artifact) in H2';
    [|exact table_body_fst | exact table_body_any].
  destruct H2' as (ts & Hts & Hall).
  destruct (Hall ([], text)) as [w2 Hw2]. cbn [fst app] in Hw2, Hts.
  pose proof (doc_pass_fst _ _ H3) as Hd. rewrite Hts in Hd.
  exists cs, w1, ts, w2, (snd st3), cleaned.
  rewrite Hd, <- app_assoc.
  repeat split; auto.
  intros Hnil.
  assert (U1 : untouched text (cs, w1)).
  { eapply exec_loop_inv with (I := untouched text); [|..|exact H1].
    - intros; eapply code_body_untouched; eauto.
    - intros _. reflexivity. }
  assert (U2 : untouched text st2).
  { eapply exec_loop_inv with (I := untouched text); [|..|exact H2].
    - intros; eapply table_body_untouched; eauto.
    - exact U1. }
  apply (@doc_pass_untouched text text st2 st3 H3 U2).
  rewrite Hd, <- app_assoc. exact Hnil.
Qed.

(** ** Quantifiers over a single unit

    Every quantifier of the source expressions but two ranges over one
    unit; for these the repeat matcher is a scan of the input. *)

Lemma compile_Seq fl r1 r2 x c :
  compile fl (Seq r1 r2) x c = compile fl r1 x (fun y => compile fl r2 y c).
Proof. reflexivity. Qed.

Lemma compile_Alt fl r1 r2 x c :
  compile fl (Alt r1 r2) x c
  = match compile fl r1 x c with
    | Fail => compile fl r2 x c
    | o => o
    end.
Proof. reflexivity. Qed.

Lemma compile_Group fl n r x c :
  compile fl (Group n r) x c
  = compile fl r x (fun y => c (set_cap n (consumed x y) y)).
Proof. reflexivity. Qed.

Lemma compile_Quant fl min max greedy r x c :
  compile fl (Quant min max greedy r) x c
  = repeat_matcher (compile fl r) (group_indices r) greedy c
      (S (min + length (rest x))) min max x.
Proof. reflexivity. Qed.

Lemma compile_Class fl p : compile fl (Class p) = unit_matcher p.
Proof. reflexivity. Qed.

Lemma compile_Char fl a : compile fl (Char a) = unit_matcher (char_test fl a).
Proof. reflexivity. Qed.

Lemma star_unit_greedy p c :
  forall fuel x,
    length (rest x) < fuel ->
    repeat_matcher (unit_matcher p) [] true c fuel 0 None x
    = greedy_scan p c (prev x) (rest x) (caps x).
Proof.
  induction fuel as [|fuel IH]; intros [pv l cs] Hf; [simpl in Hf; lia|].
  cbn [repeat_matcher Nat.eqb negb andb prev rest caps].
  rewrite reset_caps_nil. unfold unit_matcher at 1. cbn [rest caps].
  destruct l as [|b t]; [reflexivity|].
  cbn [greedy_scan]. destruct (p b); [|reflexivity].
  assert (E : Nat.eqb (length t) (length (b :: t)) = false)
    by (apply Nat.eqb_neq; simpl; lia).
  cbn [rest]. rewrite E. rewrite IH by (simpl in *; lia). reflexivity.
Qed.

Lemma star_unit_lazy p c :
  forall fuel x,
    length (rest x) < fuel ->
    repeat_matcher (unit_matcher p) [] false c fuel 0 None x
    = lazy_scan p c (prev x) (rest x) (caps x).
Proof.
  induction fuel as [|fuel IH]; intros [pv l cs] Hf; [simpl in Hf; lia|].
  cbn [repeat_matcher Nat.eqb negb andb prev rest caps].
  rewrite reset_caps_nil. unfold unit_matcher at 1. cbn [rest caps].
  destruct l as [|b t]; cbn [lazy_scan];
    destruct (c _); try reflexivity.
  destruct (p b); [|reflexivity].
  assert (E : Nat.eqb (length t) (length (b :: t)) = false)
    by (apply Nat.eqb_neq; simpl; lia).
  cbn [rest]. rewrite E. rewrite IH by (simpl in *; lia). reflexivity.
Qed.

Lemma at_least_unit p c :
  forall n fuel x,
    n + length (rest x) < fuel ->
    repeat_matcher (unit_matcher p) [] true c fuel n None x
    = take_units p n
        (fun y => greedy_scan p c (prev y) (rest y) (caps y))
        (prev x) (rest x) (caps x).
Proof.
  induction n as [|n IH]; intros fuel x Hf.
  - cbn [take_units prev rest caps]. apply star_unit_greedy. lia.
  - destruct fuel as [|fuel]; [lia|]. destruct x as [pv l cs].
    cbn [repeat_matcher Nat.eqb negb andb prev rest caps Nat.pred pred_max].
    rewrite reset_caps_nil. unfold unit_matcher at 1. cbn [rest caps].
    cbn [take_units]. destruct l as [|b t]; [reflexivity|].
    destruct (p b); [|reflexivity].
    rewrite IH by (simpl in *; lia). reflexivity.
Qed.

(** ** The document expression *)

Lemma last_cons_default {A} (l : list A) :
  forall x d, last (x :: l) d = last l x.
Proof.
  induction l as [|a l IH]; intros x d; [reflexivity|].
  change (last (x :: a :: l) d) with (last (a :: l) d).
  rewrite (IH a d), (IH a x). reflexivity.
Qed.

Lemma last_unit_cons pv b l : last_unit pv (b :: l) = last_unit (Some b) l.
Proof. unfold last_unit. cbn [map]. apply last_cons_default. Qed.

Lemma last_unit_app pv a b :
  last_unit (last_unit pv a) b = last_unit pv (a ++ b).
Proof.
  revert pv. induction a as [|x a IH]; intros pv; [reflexivity|].
  rewrite <- app_comm_cons, !last_unit_cons. apply IH.
Qed.

Lemma compile_lit fl w x c :
  w <> [] ->
  compile fl (lit w) x c
  = if starts_with_ci fl w (rest x)
    then c (MState (last_unit (prev x) (firstn (length w) (rest x)))
                   (skipn (length w) (rest x)) (caps x))
    else Fail.
Proof.
  revert x. induction w as [|a w IH]; intros [pv l cs] Hne; [congruence|].
  destruct w as [|a2 w].
  - cbn [lit compile rest caps prev]. destruct l as [|b t]; [reflexivity|].
    cbn [starts_with_ci]. fold (char_test fl a b).
    rewrite andb_true_r. reflexivity.
  - change (lit (a :: a2 :: w)) with (Seq (Char a) (lit (a2 :: w))).
    cbn [compile rest caps prev]. destruct l as [|b t]; [reflexivity|].
    fold (char_test fl a b).
    change (starts_with_ci fl (a :: a2 :: w) (b :: t))
      with (char_test fl a b && starts_with_ci fl (a2 :: w) t).
    destruct (char_test fl a b); [|reflexivity].
    rewrite IH by discriminate. cbn [rest caps prev andb].
    change (firstn (length (a :: a2 :: w)) (b :: t))
      with (b :: firstn (length (a2 :: w)) t).
    rewrite last_unit_cons. reflexivity.
Qed.

Lemma greedy_any_total c pv l cs :
  c (MState (last_unit pv l) [] cs) <> Fail ->
  greedy_scan is_any c pv l cs = c (MState (last_unit pv l) [] cs).
Proof.
  revert pv. induction l as [|b t IH]; intros pv Hc; [reflexivity|].
  cbn [greedy_scan is_any]. rewrite last_unit_cons in *.
  rewrite IH by exact Hc. destruct (c _); congruence.
Qed.

Lemma take_any_total c n :
  forall pv l cs,
    c (MState (last_unit pv l) [] cs) <> Fail ->
    take_units is_any n
      (fun y => greedy_scan is_any c (prev y) (rest y) (caps y)) pv l cs
    = if n <=? length l then c (MState (last_unit pv l) [] cs) else Fail.
Proof.
  induction n as [|n IH]; intros pv l cs Hc.
  - cbn [take_units prev rest caps Nat.leb]. now apply greedy_any_total.
  - cbn [take_units]. destruct l as [|b t]; [reflexivity|].
    cbn [is_any]. rewrite last_unit_cons in *. rewrite IH by exact Hc.
    reflexivity.
Qed.

Lemma compile_alts_lits fl ws x k (E : mstate) (f : jsstring -> bool) :
  ws <> [] ->
  Forall (fun w => w <> []) ws ->
  (forall w, In w ws ->
     k (MState (last_unit (prev x) (firstn (length w) (rest x)))
               (skipn (length w) (rest x)) (caps x))
     = if f w then Ok E else Fail) ->
  compile fl (alts (map lit ws)) x k
  = if existsb (fun w => starts_with_ci fl w (rest x) && f w) ws
    then Ok E else Fail.
Proof.
  induction ws as [|w ws IH]; intros Hne Hall Hk; [congruence|].
  inversion Hall as [|? ? Hw Hws]; subst.
  destruct ws as [|w2 ws].
  - cbn [map alts existsb]. rewrite compile_lit by exact Hw.
    rewrite orb_false_r.
    destruct (starts_with_ci fl w (rest x)); [|reflexivity].
    rewrite Hk by (left; reflexivity). reflexivity.
  - change (alts (map lit (w :: w2 :: ws)))
      with (Alt (lit w) (alts (map lit (w2 :: ws)))).
    cbn [compile]. rewrite compile_lit by exact Hw.
    rewrite IH; [|discriminate|exact Hws|intros; apply Hk; now right].
    change (existsb (fun w0 => starts_with_ci fl w0 (rest x) && f w0)
              (w :: w2 :: ws))
      with (starts_with_ci fl w (rest x) && f w
            || existsb (fun w0 => starts_with_ci fl w0 (rest x) && f w0)
                 (w2 :: ws)).
    destruct (starts_with_ci fl w (rest x)); [|reflexivity].
    rewrite Hk by (left; reflexivity).
    destruct (f w); reflexivity.
Qed.

Lemma docKeywords_nonempty : Forall (fun w : jsstring => w <> []) docKeywords.
Proof. repeat constructor; discriminate. Qed.

Lemma docRegex_here pv l :
  compile docFlags docRegex (MState pv l []) (fun y => Ok y)
  = if doc_here l then Ok (MState (last_unit pv l) [] [(1, l)]) else Fail.
Proof.
  unfold docRegex, at_least. rewrite compile_Group, compile_Seq.
  rewrite compile_alts_lits
    with (E := MState (last_unit pv l) [] [(1, l)])
         (f := fun w => 200 <=? length (skipn (length w) l));
    [reflexivity | discriminate | exact docKeywords_nonempty |].
  intros w _. cbv beta. rewrite compile_Quant. cbn [rest prev caps group_indices].
  rewrite compile_Class, at_least_unit by (cbn [rest]; lia).
  cbn [rest prev caps].
  rewrite take_any_total; rewrite last_unit_app, firstn_skipn;
    unfold set_cap, consumed; cbn [rest prev caps length];
    rewrite Nat.sub_0_r, firstn_all; [reflexivity | discriminate].
Qed.

Lemma exec_from_doc idx pv l :
  exec_from docFlags docRegex idx pv l
  = if doc_here l then Ok (MatchResult idx l [(1, l)] (idx + length l))
    else match l with
         | [] => Fail
         | a :: t => exec_from docFlags docRegex (S idx) (Some a) t
         end.
Proof.
  rewrite exec_from_eq, docRegex_here. destruct (doc_here l); [|reflexivity].
  cbn [rest caps length]. rewrite Nat.sub_0_r, firstn_all. reflexivity.
Qed.

Lemma exec_from_doc_search l :
  forall idx pv,
    match doc_search l with
    | Some d =>
        exists i e,
          exec_from docFlags docRegex idx pv l
          = Ok (MatchResult i d [(1, d)] e)
    | None => exec_from docFlags docRegex idx pv l = Fail
    end.
Proof.
  induction l as [|a t IH]; intros idx pv; rewrite exec_from_doc;
    cbn [doc_search]; destruct (doc_here _); eauto.
  apply IH.
Qed.

Lemma or_default_nil (d : jsstring) : or_default (Some d) [] = d.
Proof. destruct d; reflexivity. Qed.

Lemma doc_artifact_search text :
  doc_artifact text
  = match doc_search text with
    | Some d => [ Artifact document None d (js "Legal Document") ]
    | None => []
    end.
Proof.
  unfold doc_artifact, exec. cbn [Nat.ltb Nat.leb skipn unit_before].
  pose proof (exec_from_doc_search text 0 None) as H.
  destruct (doc_search text) as [d|].
  - destruct H as (i & e & ->). cbn [captures get_cap find fst snd Nat.eqb].
    now rewrite or_default_nil.
  - now rewrite H.
Qed.

Lemma starts_with_ci_spec kw :
  forall l,
    starts_with_ci docFlags kw l = true
    <-> exists w, map upper w = map upper kw /\ l = w ++ skipn (length kw) l.
Proof.
  induction kw as [|a kw IH]; intros l.
  - split; [|reflexivity]. intros _. exists []. auto.
  - destruct l as [|b t]; cbn [starts_with_ci].
    + split; [discriminate|]. intros (w & Hw & Hl).
      destruct w; discriminate.
    + unfold char_test, cu_eqb. fold (upper a) (upper b).
      rewrite andb_true_iff, N.eqb_eq, IH. cbn [length skipn]. split.
      * intros (Hab & w & Hw & Hl). exists (b :: w). cbn [map].
        rewrite Hw, Hab, <- app_comm_cons, <- Hl. auto.
      * intros (w & Hw & Hl). destruct w as [|b' w]; [discriminate|].
        cbn [map] in Hw. rewrite <- app_comm_cons in Hl.
        injection Hw as Hb Hw. injection Hl as <- Hl.
        split; [congruence|]. exists w. auto.
Qed.

Lemma docKeywords_upper : Forall (fun kw => map upper kw = kw) docKeywords.
Proof. repeat constructor. Qed.

Lemma doc_here_spec l : doc_here l = true <-> keyword_here l.
Proof.
  unfold doc_here, keyword_here. rewrite existsb_exists. split.
  - intros (kw & Hin & H). apply andb_true_iff in H. destruct H as [Hs Hl].
    apply starts_with_ci_spec in Hs. destruct Hs as (w & Hw & Hr).
    apply Nat.leb_le in Hl.
    exists w, (skipn (length kw) l). repeat split; auto.
    pose proof docKeywords_upper as HU. rewrite Forall_forall in HU.
    rewrite Hw, (HU _ Hin). exact Hin.
  - intros (w & tail & -> & Hin & Hl). exists (map upper w).
    split; [exact Hin|]. rewrite length_map.
    assert (Hsk : skipn (length w) (w ++ tail) = tail).
    { rewrite skipn_app, skipn_all, Nat.sub_diag. reflexivity. }
    rewrite Hsk. apply andb_true_iff. split; [|now apply Nat.leb_le].
    apply starts_with_ci_spec. exists w. rewrite length_map, Hsk.
    split; [|reflexivity].
    pose proof docKeywords_upper as HU. rewrite Forall_forall in HU.
    now rewrite (HU _ Hin).
Qed.

Lemma doc_search_None l :
  doc_search l = None <-> forall i, doc_here (skipn i l) = false.
Proof.
  induction l as [|a t IH]; cbn [doc_search].
  - destruct (doc_here []) eqn:E.
    + split; [discriminate|]. intros H. specialize (H 0). simpl in H.
      congruence.
    + split; [|reflexivity]. intros _ i. now rewrite skipn_nil.
  - destruct (doc_here (a :: t)) eqn:E.
    + split; [discriminate|]. intros H. specialize (H 0). simpl in H.
      congruence.
    + rewrite IH. split.
      * intros H [|i]; [exact E | apply H].
      * intros H i. apply (H (S i)).
Qed.

Lemma doc_search_Some l d :
  doc_search l = Some d
  <-> exists i,
        d = skipn i l /\ doc_here (skipn i l) = true
        /\ forall j, j < i -> doc_here (skipn j l) = false.
Proof.
  revert d. induction l as [|a t IH]; intros d; cbn [doc_search].
  - destruct (doc_here []) eqn:E.
    + split.
      * intros H. injection H as <-. exists 0. repeat split; auto. lia.
      * intros (i & -> & _). now rewrite skipn_nil.
    + split; [discriminate|]. intros (i & _ & H & _).
      rewrite skipn_nil in H. congruence.
  - destruct (doc_here (a :: t)) eqn:E.
    + split.
      * intros H. injection H as <-. exists 0. repeat split; auto. lia.
      * intros (i & -> & _ & Hlt). destruct i as [|i]; [reflexivity|].
        specialize (Hlt 0 ltac:(lia)). simpl in Hlt. congruence.
    + rewrite IH. split.
      * intros (i & -> & Hi & Hlt). exists (S i). repeat split; auto.
        intros [|j] Hj; [exact E | apply Hlt; lia].
      * intros (i & -> & Hi & Hlt). destruct i as [|i].
        -- simpl in Hi. congruence.
        -- exists i. repeat split; auto.
           intros j Hj. apply (Hlt (S j)). lia.
Qed.

(** ** The types of the artifacts of each pass *)

Lemma code_pass_types text cs w :
  code_pass text ([], text) = Some (cs, w) -> all_of code cs.
Proof.
  intros H. change (all_of code (fst (cs, w))).
  eapply exec_loop_inv with (I := fun st => all_of code (fst st));
    [| |exact H]; [|constructor].
  intros li mr st st1 _ Hst B. rewrite (code_body_fst _ _ B).
  apply Forall_app. split; [exact Hst | repeat constructor].
Qed.

Lemma table_pass_types text ts w :
  table_pass text ([], text) = Some (ts, w) -> all_of table ts.
Proof.
  intros H. change (all_of table (fst (ts, w))).
  eapply exec_loop_inv with (I := fun st => all_of table (fst st));
    [| |exact H]; [|constructor].
  intros li mr st st1 _ Hst B. rewrite (table_body_fst _ _ B).
  apply Forall_app. split; [exact Hst|].
  unfold table_artifact. cbv zeta. destruct (2 <=? _); repeat constructor.
Qed.

Lemma doc_artifact_types text : all_of document (doc_artifact text).
Proof.
  rewrite doc_artifact_search. destruct (doc_search text);
    repeat constructor.
Qed.

Lemma filter_other_type t t' l :
  t <> t' -> all_of t l -> filter (is_type t') l = [].
Proof.
  intros Hne H. induction H as [|a l Ha _ IH]; [reflexivity|].
  cbn [filter]. rewrite IH. unfold is_type. rewrite Ha.
  destruct t, t'; congruence.
Qed.

Lemma filter_same_type t l : all_of t l -> filter (is_type t) l = l.
Proof.
  intros H. induction H as [|a l Ha _ IH]; [reflexivity|].
  cbn [filter]. rewrite IH. unfold is_type. rewrite Ha.
  destruct t; reflexivity.
Qed.

(** The artifacts of an extraction, by type. *)
Lemma extractArtifacts_by_type text :
  exists r cs w1 ts w2,
    extractArtifacts text = Some r
    /\ code_pass text ([], text) = Some (cs, w1)
    /\ table_pass text ([], text) = Some (ts, w2)
    /\ artifacts r = cs ++ ts ++ doc_artifact text
    /\ filter (is_type code) (artifacts r) = cs
    /\ filter (is_type table) (artifacts r) = ts
    /\ filter (is_type document) (artifacts r) = doc_artifact text.
Proof.
  destruct (extractArtifacts_passes text)
    as (cs & w1 & ts & w2 & rc & cleaned & H1 & H2 & _ & _ & H).
  pose proof (code_pass_types _ H1) as T1.
  pose proof (table_pass_types _ H2) as T2.
  pose proof (doc_artifact_types text) as T3.
  eexists; exists cs, w1, ts, w2.
  split; [exact H|]. cbn [artifacts]. repeat split; auto;
    rewrite !filter_app.
  - rewrite (filter_same_type T1).
    rewrite (filter_other_type (t := table) (t' := code))
      by (discriminate || assumption).
    rewrite (filter_other_type (t := document) (t' := code))
      by (discriminate || assumption).
    now rewrite !app_nil_r.
  - rewrite (filter_same_type T2).
    rewrite (filter_other_type (t := code) (t' := table))
      by (discriminate || assumption).
    rewrite (filter_other_type (t := document) (t' := table))
      by (discriminate || assumption).
    now rewrite app_nil_r.
  - rewrite (filter_same_type T3).
    rewrite (filter_other_type (t := code) (t' := document))
      by (discriminate || assumption).
    rewrite (filter_other_type (t := table) (t' := document))
      by (discriminate || assumption).
    reflexivity.
Qed.

(** ** The trigger of the document pass *)

Lemma keyword_at_doc_here text i :
  keyword_at text i <-> doc_here (skipn i text) = true.
Proof. unfold keyword_at. symmetry. apply doc_here_spec. Qed.

(** C4 (as amended).  The document pass adds a document artifact exactly
    when, somewhere in the original text, one of the six keywords CONTRACT,
    AGREEMENT, MEMO, POLICY, PROCEDURE, DOCUMENT (in any case) is followed
    by at least 200 more units up to the end of the text; the artifact is
    the text from the first such occurrence on; there is at most one
    document artifact. *)
Theorem document_pass_trigger (text : jsstring) :
  exists r,
    extractArtifacts text = Some r
    /\ ((exists i, keyword_at text i)
        <-> existsb (is_type document) (artifacts r) = true)
    /\ (forall i,
          keyword_at text i ->
          (forall j, j < i -> ~ keyword_at text j) ->
          filter (is_type document) (artifacts r)
          = [ Artifact document None (skipn i text) (js "Legal Document") ])
    /\ length (filter (is_type document) (artifacts r)) <= 1.
Proof.
  destruct (extractArtifacts_by_type text)
    as (r & cs & w1 & ts & w2 & Hr & _ & _ & _ & _ & _ & Hd).
  exists r. split; [exact Hr|].
  rewrite doc_artifact_search in Hd.
  assert (Hex : existsb (is_type document) (artifacts r) = true
                <-> filter (is_type document) (artifacts r) <> []).
  { rewrite existsb_exists. split.
    - intros (a & Hin & Ha) Hnil.
      assert (Hf : In a (filter (is_type document) (artifacts r)))
        by (apply filter_In; auto).
      rewrite Hnil in Hf. exact Hf.
    - intros Hne. destruct (filter _ _) as [|a l] eqn:E; [congruence|].
      assert (Hf : In a (filter (is_type document) (artifacts r)))
        by (rewrite E; now left).
      apply filter_In in Hf. exists a. exact Hf. }
  rewrite Hex, Hd. repeat split.
  - intros (i & Hi). apply keyword_at_doc_here in Hi.
    destruct (doc_search text) eqn:E; [discriminate|].
    rewrite doc_search_None in E. rewrite E in Hi. discriminate.
  - intros Hne. destruct (doc_search text) as [d|] eqn:E; [|congruence].
    apply doc_search_Some in E. destruct E as (i & _ & Hi & _).
    exists i. now apply keyword_at_doc_here.
  - intros i Hi Hleast.
    assert (E : doc_search text = Some (skipn i text)).
    { apply doc_search_Some. exists i. split; [reflexivity|].
      split; [now apply keyword_at_doc_here|].
      intros j Hj. destruct (doc_here (skipn j text)) eqn:Ej; [|reflexivity].
      exfalso. apply (Hleast j Hj). now apply keyword_at_doc_here. }
    now rewrite E.
  - destruct (doc_search text); simpl; lia.
Qed.

Lemma document_pass_trigger_witness :
  exists r,
    extractArtifacts (js "the policy" ++ repeat 32%N 200) = Some r
    /\ existsb (is_type document) (artifacts r) = true
    /\ filter (is_type document) (artifacts r)
       = [ Artifact document None
             (skipn 4 (js "the policy" ++ repeat 32%N 200))
             (js "Legal Document") ].
Proof.
  destruct (document_pass_trigger (js "the policy" ++ repeat 32%N 200))
    as (r & Hr & Hiff & Hfirst & _).
  assert (Hat : keyword_at (js "the policy" ++ repeat 32%N 200) 4).
  { exists (js "policy"), (repeat 32%N 200).
    split; [reflexivity|]. split; [vm_compute; tauto|].
    rewrite repeat_length. lia. }
  exists r. split; [exact Hr|]. split.
  - apply Hiff. exists 4. exact Hat.
  - apply (Hfirst 4 Hat). intros j Hj Hk.
    apply keyword_at_doc_here in Hk.
    destruct j as [|[|[|[|j]]]]; [| | | |lia]; vm_compute in Hk;
      discriminate.
Defined.

(** No keyword lies inside another one short of its last unit. *)
Lemma no_inner_keyword :
  forallb (fun kw =>
    forallb (fun kw' =>
      forallb (fun i => negb (inner_keyword kw kw' i))
              (seq 0 (length kw)))
      docKeywords)
    docKeywords = true.
Proof. vm_compute. reflexivity. Qed.

Lemma str_eqb_refl (a : jsstring) : str_eqb a a = true.
Proof.
  induction a as [|x a IH]; [reflexivity|].
  cbn [str_eqb]. unfold cu_eqb. now rewrite N.eqb_refl, IH.
Qed.

Lemma keyword_too_short w tail i :
  In (map upper w) docKeywords ->
  length tail = 199 ->
  doc_here (skipn i (w ++ tail)) = false.
Proof.
  intros Hin Hlen. destruct (doc_here _) eqn:E; [|reflexivity]. exfalso.
  apply doc_here_spec in E. destruct E as (w' & tl & Hs & Hin' & Htl).
  assert (Hlens : length (skipn i (w ++ tail)) = length w' + length tl)
    by (rewrite Hs; apply length_app).
  rewrite length_skipn, length_app in Hlens.
  assert (Hi : i + length w' < length w) by lia.
  assert (Hw' : w' = firstn (length w') (skipn i w)).
  { rewrite skipn_app in Hs. replace (i - length w) with 0 in Hs by lia.
    cbn [skipn] in Hs.
    apply (f_equal (firstn (length w'))) in Hs.
    rewrite firstn_app, (firstn_app _ w' tl) in Hs.
    rewrite firstn_all, Nat.sub_diag, firstn_O, app_nil_r in Hs.
    rewrite length_skipn in Hs.
    replace (length w' - (length w - i)) with 0 in Hs by lia.
    rewrite firstn_O, app_nil_r in Hs. now symmetry. }
  pose proof no_inner_keyword as HN.
  rewrite forallb_forall in HN. specialize (HN _ Hin).
  rewrite forallb_forall in HN. specialize (HN _ Hin').
  rewrite forallb_forall in HN. specialize (HN i).
  rewrite in_seq, length_map in HN. specialize (HN ltac:(lia)).
  apply negb_true_iff in HN. unfold inner_keyword in HN.
  rewrite !length_map in HN.
  rewrite skipn_map, firstn_map, <- Hw', str_eqb_refl in HN.
  assert ((i + length w' <? length w) = true) by (apply Nat.ltb_lt; lia).
  rewrite H in HN. discriminate.
Qed.

(** C8.  A keyword of the document pass (in any case) followed by exactly
    199 units is not extracted as a document artifact; followed by exactly
    200 units the whole text is extracted as a document artifact. *)
Theorem document_threshold (w tail : jsstring) :
  In (map upper w) docKeywords ->
  (length tail = 199 ->
   exists r, extractArtifacts (w ++ tail) = Some r
             /\ filter (is_type document) (artifacts r) = [])
  /\ (length tail = 200 ->
      exists r, extractArtifacts (w ++ tail) = Some r
                /\ filter (is_type document) (artifacts r)
                   = [ Artifact document None (w ++ tail)
                         (js "Legal Document") ]).
Proof.
  intros Hin.
  destruct (extractArtifacts_by_type (w ++ tail))
    as (r & cs & w1 & ts & w2 & Hr & _ & _ & _ & _ & _ & Hd).
  rewrite doc_artifact_search in Hd.
  split; intros Hlen; exists r; (split; [exact Hr|]); rewrite Hd.
  - assert (E : doc_search (w ++ tail) = None).
    { apply doc_search_None. intros i. now apply keyword_too_short. }
    now rewrite E.
  - assert (E : doc_search (w ++ tail) = Some (w ++ tail)).
    { apply doc_search_Some. exists 0. cbn [skipn].
      split; [reflexivity|]. split; [|intros j Hj; lia].
      apply doc_here_spec. exists w, tail. repeat split; auto. lia. }
    now rewrite E.
Qed.

Lemma document_threshold_witness :
  (exists r, extractArtifacts (js "CONTRACT" ++ repeat 120%N 199) = Some r
             /\ filter (is_type document) (artifacts r) = [])
  /\ (exists r, extractArtifacts (js "policy" ++ repeat 32%N 200) = Some r
                /\ filter (is_type document) (artifacts r)
                   = [ Artifact document None
                         (js "policy" ++ repeat 32%N 200)
                         (js "Legal Document") ]).
Proof.
  split.
  - apply (document_threshold (js "CONTRACT") (repeat 120%N 199));
      [vm_compute; tauto | reflexivity].
  - apply (document_threshold (js "policy") (repeat 32%N 200));
      [vm_compute; tauto | reflexivity].
Defined.

(** ** trim and split *)

Lemma trimStart_app_unit l a :
  trimStart (l ++ [a])
  = match trimStart l with
    | [] => trimStart [a]
    | w => w ++ [a]
    end.
Proof.
  induction l as [|b l IH]; [reflexivity|].
  cbn [app trimStart]. destruct (is_space b); [exact IH | reflexivity].
Qed.

Lemma trimEnd_cons a v :
  trimEnd (a :: v)
  = match trimEnd v with
    | [] => if is_space a then [] else [a]
    | w => a :: w
    end.
Proof.
  unfold trimEnd. cbn [rev]. rewrite trimStart_app_unit.
  destruct (trimStart (rev v)) as [|b w] eqn:E.
  - cbn [rev trimStart]. destruct (is_space a); reflexivity.
  - rewrite rev_app_distr. cbn [rev app].
    destruct (rev w ++ [b]) eqn:E'; [|reflexivity].
    destruct (rev w); discriminate.
Qed.

Lemma trimEnd_nil : trimEnd [] = [].
Proof. reflexivity. Qed.

Lemma trimEnd_app u v : trimEnd v <> [] -> trimEnd (u ++ v) = u ++ trimEnd v.
Proof.
  intros Hv. induction u as [|a u IH]; [reflexivity|].
  cbn [app]. rewrite trimEnd_cons, IH.
  destruct (u ++ trimEnd v) eqn:E; [|reflexivity].
  apply app_eq_nil in E. tauto.
Qed.

Lemma trimEnd_app_space u a : is_space a = true -> trimEnd (u ++ [a]) = trimEnd u.
Proof.
  intros Ha. unfold trimEnd. rewrite rev_app_distr. cbn [rev app trimStart].
  now rewrite Ha.
Qed.

Lemma trimEnd_nonspace_head a v :
  is_space a = false -> exists w, trimEnd (a :: v) = a :: w.
Proof.
  intros Ha. rewrite trimEnd_cons, Ha. destruct (trimEnd v); eauto.
Qed.

Lemma trim_nonspace_head a v :
  is_space a = false -> exists w, trim (a :: v) = a :: w.
Proof.
  intros Ha. unfold trim. cbn [trimStart]. rewrite Ha.
  now apply trimEnd_nonspace_head.
Qed.

Lemma trimStart_Forall (P : cu -> Prop) l :
  Forall P l -> Forall P (trimStart l).
Proof.
  intros H. induction H as [|a l Ha Hl IH]; [constructor|].
  cbn [trimStart]. destruct (is_space a); [exact IH | now constructor].
Qed.

Lemma trimEnd_Forall (P : cu -> Prop) l :
  Forall P l -> Forall P (trimEnd l).
Proof.
  intros H. induction H as [|a l Ha Hl IH]; [constructor|].
  rewrite trimEnd_cons. destruct (trimEnd l).
  - destruct (is_space a); repeat constructor; assumption.
  - now constructor.
Qed.

Lemma trim_Forall (P : cu -> Prop) l : Forall P l -> Forall P (trim l).
Proof. intros H. now apply trimEnd_Forall, trimStart_Forall. Qed.

Lemma trimStart_fixed l :
  match l with [] => True | a :: _ => is_space a = false end ->
  trimStart l = l.
Proof. destruct l as [|a l]; [reflexivity|]. cbn. now intros ->. Qed.

Lemma trimStart_idem l : trimStart (trimStart l) = trimStart l.
Proof.
  induction l as [|a l IH]; [reflexivity|].
  cbn [trimStart]. destruct (is_space a) eqn:E; [exact IH|].
  cbn [trimStart]. now rewrite E.
Qed.

Lemma trimEnd_idem l : trimEnd (trimEnd l) = trimEnd l.
Proof.
  unfold trimEnd. now rewrite rev_involutive, trimStart_idem.
Qed.

Lemma trimEnd_head l :
  match l with [] => True | a :: _ => is_space a = false end ->
  match trimEnd l with [] => True | a :: _ => is_space a = false end.
Proof.
  destruct l as [|a l]; [intros _; exact I|]. intros Ha.
  destruct (@trimEnd_nonspace_head a l Ha) as [w ->]. exact Ha.
Qed.

Lemma trimStart_head l :
  match trimStart l with [] => True | a :: _ => is_space a = false end.
Proof.
  induction l as [|a l IH]; [exact I|].
  cbn [trimStart]. destruct (is_space a) eqn:E; [exact IH | exact E].
Qed.

Lemma trim_idem l : trim (trim l) = trim l.
Proof.
  unfold trim.
  rewrite (trimStart_fixed (trimEnd (trimStart l))).
  - apply trimEnd_idem.
  - apply trimEnd_head, trimStart_head.
Qed.

(** A string without the separator is one piece. *)
Lemma split_no_sep sep l :
  Forall (fun c => c <> sep) l -> split sep l = [l].
Proof.
  intros H. induction H as [|a l Ha _ IH]; [reflexivity|].
  cbn [split]. unfold cu_eqb. destruct (N.eqb_spec a sep); [contradiction|].
  now rewrite IH.
Qed.

Lemma split_app_sep sep u v :
  Forall (fun c => c <> sep) u ->
  split sep (u ++ sep :: v) = u :: split sep v.
Proof.
  intros H. induction H as [|a l Ha _ IH].
  - cbn [app split]. unfold cu_eqb. now rewrite N.eqb_refl.
  - cbn [app split]. unfold cu_eqb.
    destruct (N.eqb_spec a sep); [contradiction|]. now rewrite IH.
Qed.

Lemma split_head sep a v :
  a <> sep -> exists w ws, split sep (a :: v) = (a :: w) :: ws.
Proof.
  intros Ha. cbn [split]. unfold cu_eqb.
  destruct (N.eqb_spec a sep); [contradiction|].
  destruct (split sep v); eauto.
Qed.

(** ** The table expression *)

Lemma greedy_scan_ext p (c c' : cont) :
  (forall y, c y = c' y) ->
  forall l pv cs, greedy_scan p c pv l cs = greedy_scan p c' pv l cs.
Proof.
  intros H. induction l as [|b t IH]; intros pv cs; cbn [greedy_scan];
    [apply H|].
  rewrite IH, H. reflexivity.
Qed.

Lemma lazy_scan_ext p (c c' : cont) :
  (forall y, c y = c' y) ->
  forall l pv cs, lazy_scan p c pv l cs = lazy_scan p c' pv l cs.
Proof.
  intros H. induction l as [|b t IH]; intros pv cs; cbn [lazy_scan];
    rewrite H; [reflexivity|].
  rewrite IH. reflexivity.
Qed.

Lemma char_test_no_flags a b : char_test no_flags a b = cu_eqb a b.
Proof. reflexivity. Qed.

Lemma compile_tableRow x c :
  compile no_flags tableRow x c
  = unit_matcher (cu_eqb pipe) x
      (fun y1 =>
         greedy_scan is_dot (row_tail c) (prev y1) (rest y1) (caps y1)).
Proof.
  unfold tableRow, seqs, star, lazy_star.
  rewrite compile_Seq, compile_Char.
  destruct x as [pv l cs]. unfold unit_matcher at 1 2. cbn [rest caps].
  destruct l as [|b t]; [reflexivity|].
  rewrite char_test_no_flags. destruct (cu_eqb pipe b); [|reflexivity].
  rewrite compile_Seq, compile_Quant, compile_Class.
  rewrite star_unit_greedy by (cbn [rest]; lia).
  cbn [prev rest caps]. apply greedy_scan_ext. intros y.
  unfold row_tail. rewrite compile_Seq, compile_Char.
  destruct y as [pv' l' cs']. unfold unit_matcher at 1 2. cbn [rest caps].
  destruct l' as [|b' t']; [reflexivity|].
  rewrite char_test_no_flags. destruct (cu_eqb pipe b'); [|reflexivity].
  rewrite compile_Seq, compile_Quant, compile_Class.
  rewrite star_unit_lazy by (cbn [rest]; lia).
  cbn [prev rest caps]. apply lazy_scan_ext. intros y4.
  rewrite compile_Char. reflexivity.
Qed.

Lemma tableRow_no_pipe x c :
  match rest x with
  | [] => True
  | b :: _ => b <> pipe
  end ->
  compile no_flags tableRow x c = Fail.
Proof.
  rewrite compile_tableRow. unfold unit_matcher.
  destruct (rest x) as [|b t]; [reflexivity|]. intros Hb.
  unfold cu_eqb. destruct (N.eqb_spec pipe b); [congruence | reflexivity].
Qed.

(** The lazy part of a row stops at the first line feed. *)
Lemma lazy_to_line_feed (c : cont) b t cs :
  Forall (fun u => u <> nl) b ->
  c (MState (Some nl) t cs) <> Fail ->
  forall pv,
    lazy_scan is_any (fun y => unit_matcher (cu_eqb nl) y c) pv
              (b ++ nl :: t) cs
    = c (MState (Some nl) t cs).
Proof.
  intros Hb Hc. induction Hb as [|u b Hu _ IH]; intros pv.
  - cbn [app lazy_scan]. unfold unit_matcher at 1. cbn [rest caps].
    unfold cu_eqb at 1. rewrite N.eqb_refl.
    destruct (c (MState (Some nl) t cs)); congruence.
  - cbn [app lazy_scan]. unfold unit_matcher at 1. cbn [rest caps].
    unfold cu_eqb at 1. destruct (N.eqb_spec nl u); [congruence|].
    cbn [is_any]. apply IH.
Qed.

(** Backing up over units that are not pipes finds nothing. *)
Lemma greedy_no_pipe (c : cont) b t cs :
  Forall (fun u => u <> pipe) b ->
  forall pv,
    greedy_scan is_dot (row_tail c) pv (b ++ nl :: t) cs = Fail.
Proof.
  intros Hb. induction Hb as [|u b Hu _ IH]; intros pv.
  - cbn [app greedy_scan]. reflexivity.
  - cbn [app greedy_scan]. rewrite IH.
    assert (Hk : row_tail c (MState pv (u :: b ++ nl :: t) cs) = Fail).
    { unfold row_tail, unit_matcher. cbn [rest]. unfold cu_eqb.
      destruct (N.eqb_spec pipe u); [congruence | reflexivity]. }
    rewrite Hk. destruct (is_dot u); reflexivity.
Qed.

(** The greedy dots of a row end at the last pipe of the line. *)
Lemma greedy_to_last_pipe (c : cont) a b t cs :
  forallb is_dot a = true ->
  Forall (fun u => u <> pipe) b ->
  Forall (fun u => u <> nl) b ->
  c (MState (Some nl) t cs) <> Fail ->
  forall pv,
    greedy_scan is_dot (row_tail c) pv (a ++ pipe :: b ++ nl :: t) cs
    = c (MState (Some nl) t cs).
Proof.
  intros Ha Hb Hb' Hc.
  assert (Hk : forall pv,
            row_tail c (MState pv (pipe :: b ++ nl :: t) cs)
            = c (MState (Some nl) t cs)).
  { intros pv. unfold row_tail. unfold unit_matcher at 1. cbn [rest caps].
    unfold cu_eqb at 1. rewrite N.eqb_refl. cbn [prev rest caps].
    now apply lazy_to_line_feed. }
  induction a as [|u a IH]; intros pv.
  - cbn [app greedy_scan]. change (is_dot pipe) with true. cbv iota.
    rewrite greedy_no_pipe by exact Hb. apply Hk.
  - cbn [forallb] in Ha. apply andb_true_iff in Ha. destruct Ha as [Hu Ha].
    cbn [app greedy_scan]. rewrite Hu, (IH Ha).
    destruct (c (MState (Some nl) t cs)); congruence.
Qed.

Lemma includes_false c l : includes c l = false -> Forall (fun u => u <> c) l.
Proof.
  unfold includes. induction l as [|u l IH]; intros H; [constructor|].
  cbn [existsb] in H. apply orb_false_iff in H. destruct H as [Hu Hl].
  constructor; [|now apply IH].
  unfold cu_eqb in Hu. apply N.eqb_neq in Hu. congruence.
Qed.

Lemma includes_true c l :
  includes c l = true ->
  exists a b, l = a ++ c :: b /\ Forall (fun u => u <> c) b.
Proof.
  induction l as [|u l IH]; intros H; [discriminate|].
  destruct (includes c l) eqn:E.
  - destruct (IH eq_refl) as (a & b & -> & Hb). exists (u :: a), b. auto.
  - unfold includes in H, E. cbn [existsb] in H. rewrite E in H.
    rewrite orb_false_r in H. unfold cu_eqb in H. apply N.eqb_eq in H.
    subst u. exists [], l. split; [reflexivity|]. now apply includes_false.
Qed.

Lemma is_dot_not_nl l :
  forallb is_dot l = true -> Forall (fun u => u <> nl) l.
Proof.
  rewrite forallb_forall, Forall_forall. intros H u Hu ->.
  specialize (H _ Hu). discriminate.
Qed.

(** The shape of a table line. *)
Lemma table_line_shape l :
  table_line l = true ->
  exists a b,
    l = pipe :: a ++ pipe :: b
    /\ forallb is_dot a = true
    /\ Forall (fun u => u <> pipe) b
    /\ Forall (fun u => u <> nl) b
    /\ Forall (fun u => u <> nl) l.
Proof.
  destruct l as [|p mid]; [discriminate|]. cbn [table_line]. intros H.
  apply andb_true_iff in H. destruct H as [H Hinc].
  apply andb_true_iff in H. destruct H as [Hp Hdot].
  unfold cu_eqb in Hp. apply N.eqb_eq in Hp. subst p.
  destruct (includes_true _ _ Hinc) as (a & b & -> & Hb).
  pose proof (is_dot_not_nl _ Hdot) as Hnl.
  rewrite forallb_app in Hdot. apply andb_true_iff in Hdot.
  destruct Hdot as [Ha Hb'']. cbn [forallb] in Hb''.
  apply andb_true_iff in Hb''. destruct Hb'' as [_ Hb'].
  exists a, b. repeat split; auto.
  - now apply is_dot_not_nl.
  - constructor; [discriminate | exact Hnl].
Qed.

(** One row of the table expression takes one table line and its line
    feed. *)
Lemma tableRow_line line t pv cs (c : cont) :
  table_line line = true ->
  c (MState (Some nl) t cs) <> Fail ->
  compile no_flags tableRow (MState pv (line ++ nl :: t) cs) c
  = c (MState (Some nl) t cs).
Proof.
  intros Hl Hc.
  destruct (table_line_shape _ Hl) as (a & b & -> & Ha & Hb & Hb' & _).
  rewrite compile_tableRow. unfold unit_matcher at 1. cbn [rest caps app].
  unfold cu_eqb at 1. rewrite N.eqb_refl. cbn [prev rest caps].
  rewrite <- app_assoc, <- app_comm_cons.
  now apply greedy_to_last_pipe.
Qed.

Lemma group_indices_tableRow : group_indices tableRow = [].
Proof. reflexivity. Qed.

Lemma concat_lines_cons l ls t :
  concat_lines (l :: ls) ++ t = l ++ nl :: (concat_lines ls ++ t).
Proof.
  unfold concat_lines. cbn [flat_map]. now rewrite <- !app_assoc.
Qed.

(** The star of rows takes every table line, up to a text that does not
    start with a pipe. *)
Lemma star_rows (c : cont) t cs :
  match t with [] => True | b :: _ => b <> pipe end ->
  forall lines pv fuel,
    Forall (fun l => table_line l = true) lines ->
    c (MState (last_unit pv (concat_lines lines)) t cs) <> Fail ->
    length (concat_lines lines ++ t) < fuel ->
    repeat_matcher (compile no_flags tableRow) [] true c fuel 0 None
      (MState pv (concat_lines lines ++ t) cs)
    = c (MState (last_unit pv (concat_lines lines)) t cs).
Proof.
  intros Ht. induction lines as [|l ls IH]; intros pv fuel Hall Hc Hf;
    (destruct fuel as [|fuel]; [lia|]);
    cbn [repeat_matcher Nat.eqb negb andb Nat.pred pred_max];
    rewrite reset_caps_nil.
  - cbn [concat_lines flat_map app].
    rewrite tableRow_no_pipe by exact Ht. reflexivity.
  - inversion Hall as [|? ? Hl Hls]; subst.
    assert (Hlast : last_unit pv (concat_lines (l :: ls))
                    = last_unit (Some nl) (concat_lines ls)).
    { unfold concat_lines. cbn [flat_map].
      rewrite <- last_unit_app, <- last_unit_app. reflexivity. }
    rewrite Hlast in *. rewrite concat_lines_cons in *.
    assert (Hd : (if Nat.eqb (length (rest (MState (Some nl)
                                              (concat_lines ls ++ t) cs)))
                       (length (rest (MState pv
                                        (l ++ nl :: concat_lines ls ++ t)
                                        cs)))
                  then Fail
                  else repeat_matcher (compile no_flags tableRow) [] true c
                         fuel 0 None
                         (MState (Some nl) (concat_lines ls ++ t) cs))
                 = c (MState (last_unit (Some nl) (concat_lines ls)) t cs)).
    { cbn [rest].
      assert (E : Nat.eqb (length (concat_lines ls ++ t))
                    (length (l ++ nl :: concat_lines ls ++ t)) = false).
      { apply Nat.eqb_neq. rewrite (length_app l). cbn [length]. lia. }
      rewrite E. apply IH; [exact Hls | exact Hc|].
      rewrite (length_app l) in Hf. cbn [length] in Hf. lia. }
    rewrite tableRow_line; [|exact Hl|]; rewrite Hd;
      [destruct (c _); congruence | exact Hc].
Qed.

(** The table expression at the start of a run of table lines. *)
Lemma tableRegex_run pv l ls t :
  table_line l = true ->
  Forall (fun l => table_line l = true) ls ->
  match t with [] => True | b :: _ => b <> pipe end ->
  compile no_flags tableRegex
    (MState pv (concat_lines (l :: ls) ++ t) []) (fun y => Ok y)
  = Ok (MState (last_unit (Some nl) (concat_lines ls)) t
               [(1, concat_lines (l :: ls))]).
Proof.
  intros Hl Hls Ht. unfold tableRegex, star.
  rewrite compile_Group, compile_Seq.
  set (x0 := MState pv (concat_lines (l :: ls) ++ t) []).
  set (c1 := fun y : mstate => Ok (set_cap 1 (consumed x0 y) y)).
  assert (Hc1 : c1 (MState (last_unit (Some nl) (concat_lines ls)) t [])
                = Ok (MState (last_unit (Some nl) (concat_lines ls)) t
                             [(1, concat_lines (l :: ls))])).
  { unfold c1, set_cap, consumed, x0. cbn [rest prev caps].
    now rewrite firstn_app_exact. }
  assert (Hk : compile no_flags (Quant 0 None true tableRow)
                 (MState (Some nl) (concat_lines ls ++ t) []) c1
               = Ok (MState (last_unit (Some nl) (concat_lines ls)) t
                            [(1, concat_lines (l :: ls))])).
  { rewrite compile_Quant, group_indices_tableRow. cbn [rest].
    rewrite star_rows; [exact Hc1 | exact Ht | exact Hls | | lia].
    rewrite Hc1. discriminate. }
  unfold x0. rewrite concat_lines_cons.
  rewrite tableRow_line; [exact Hk | exact Hl|].
  rewrite Hk. discriminate.
Qed.

Lemma exec_from_table_run idx pv l ls t :
  table_line l = true ->
  Forall (fun l => table_line l = true) ls ->
  match t with [] => True | b :: _ => b <> pipe end ->
  exec_from no_flags tableRegex idx pv (concat_lines (l :: ls) ++ t)
  = Ok (MatchResult idx (concat_lines (l :: ls))
          [(1, concat_lines (l :: ls))]
          (idx + length (concat_lines (l :: ls)))).
Proof.
  intros Hl Hls Ht. rewrite exec_from_eq, tableRegex_run by assumption.
  cbn [rest caps]. cbv zeta. now rewrite firstn_app_exact.
Qed.

Lemma exec_from_table_skip pre :
  Forall (fun u => u <> pipe) pre ->
  forall idx pv s,
    exec_from no_flags tableRegex idx pv (pre ++ s)
    = exec_from no_flags tableRegex (idx + length pre) (last_unit pv pre) s.
Proof.
  intros H. induction H as [|u pre Hu _ IH]; intros idx pv s.
  - cbn [app length]. now rewrite Nat.add_0_r.
  - cbn [app]. rewrite exec_from_eq. unfold tableRegex at 1.
    rewrite compile_Group, compile_Seq, tableRow_no_pipe by exact Hu.
    rewrite IH, last_unit_cons. cbn [length]. f_equal. lia.
Qed.

Lemma exec_table_run pre l ls t :
  Forall (fun u => u <> pipe) pre ->
  table_line l = true ->
  Forall (fun l => table_line l = true) ls ->
  match t with [] => True | b :: _ => b <> pipe end ->
  exec no_flags tableRegex (pre ++ concat_lines (l :: ls) ++ t) 0
  = Ok (MatchResult (length pre) (concat_lines (l :: ls))
          [(1, concat_lines (l :: ls))]
          (length pre + length (concat_lines (l :: ls)))).
Proof.
  intros Hpre Hl Hls Ht. unfold exec.
  cbn [Nat.ltb Nat.leb skipn unit_before].
  rewrite exec_from_table_skip by exact Hpre.
  now rewrite exec_from_table_run.
Qed.

(** A run of two or more table lines has at least two rows. *)
Lemma run_rows l1 l2 ls :
  table_line l1 = true ->
  table_line l2 = true ->
  (2 <=? length (filter (fun row => truthy (trim row))
                   (split nl (trim (concat_lines (l1 :: l2 :: ls))))))
  = true.
Proof.
  intros H1 H2.
  destruct (table_line_shape _ H1) as (a1 & b1 & E1 & _ & _ & _ & N1).
  destruct (table_line_shape _ H2) as (a2 & b2 & E2 & _ & _ & _ & _).
  assert (Hp : is_space pipe = false) by reflexivity.
  assert (ER : concat_lines (l1 :: l2 :: ls)
               = (l1 ++ [nl]) ++ l2 ++ nl :: concat_lines ls).
  { unfold concat_lines. cbn [flat_map]. now rewrite <- !app_assoc. }
  assert (Hstart : trimStart (concat_lines (l1 :: l2 :: ls))
                   = concat_lines (l1 :: l2 :: ls)).
  { rewrite ER, E1. cbn [app trimStart]. now rewrite Hp. }
  unfold trim. rewrite Hstart, ER.
  destruct (@trimEnd_nonspace_head pipe
              (a2 ++ pipe :: b2 ++ nl :: concat_lines ls) Hp) as [W HW].
  assert (E2' : l2 ++ nl :: concat_lines ls
                = pipe :: a2 ++ pipe :: b2 ++ nl :: concat_lines ls).
  { rewrite E2. cbn [app]. now rewrite <- app_assoc. }
  rewrite E2', trimEnd_app by (rewrite HW; discriminate).
  rewrite HW, <- app_assoc. cbn [app].
  rewrite split_app_sep by exact N1.
  destruct (@split_head nl pipe W ltac:(discriminate)) as (w0 & ws & ->).
  cbn [filter].
  assert (T1 : truthy (trimEnd (trimStart l1)) = true).
  { rewrite E1. destruct (@trim_nonspace_head pipe (a1 ++ pipe :: b1) Hp)
      as [w Hw]. unfold trim in Hw. now rewrite Hw. }
  assert (T2 : truthy (trimEnd (trimStart (pipe :: w0))) = true).
  { destruct (@trim_nonspace_head pipe w0 Hp) as [w Hw].
    unfold trim in Hw. now rewrite Hw. }
  rewrite T1, T2. reflexivity.
Qed.

Lemma exec_loop_first fl re s body added fuel li st st' mr :
  (forall mr st st', body mr st = Some st' -> fst st' = fst st ++ added mr) ->
  (forall mr st st0, body mr st <> None -> body mr st0 <> None) ->
  exec fl re s li = Ok mr ->
  exec_loop fuel fl re s body li st = Some st' ->
  exists l, fst st' = fst st ++ added mr ++ l.
Proof.
  intros Hb Ha E H. destruct fuel as [|fuel]; [discriminate|].
  cbn [exec_loop] in H. rewrite E in H.
  destruct (body mr st) as [st1|] eqn:B; [|discriminate].
  eapply exec_loop_fst in H; [|exact Hb | exact Ha].
  destruct H as (l & Hl & _).
  exists l. now rewrite Hl, (Hb _ _ _ B), <- app_assoc.
Qed.

(** ** A single line *)

Lemma trim_app_space l a : is_space a = true -> trim (l ++ [a]) = trim l.
Proof.
  intros Ha. unfold trim. rewrite trimStart_app_unit.
  destruct (trimStart l) as [|b w] eqn:E.
  - cbn [trimStart]. now rewrite Ha.
  - now apply trimEnd_app_space.
Qed.

Lemma last_or_nil {A} (l : list A) :
  l = [] \/ exists l' x, l = l' ++ [x].
Proof.
  destruct l as [|a l]; [now left | right].
  destruct (@exists_last A (a :: l)) as (l' & x & E); [discriminate|].
  eauto.
Qed.

(** Trimming any part of a single line, with or without its line feed,
    leaves no line feed. *)
Lemma trim_part_of_line line tl before m post :
  Forall (fun u => u <> nl) line ->
  tl = [] \/ tl = [nl] ->
  line ++ tl = before ++ m ++ post ->
  Forall (fun u => u <> nl) (trim m).
Proof.
  intros Hline [-> | ->] E.
  - rewrite app_nil_r in E. subst line.
    apply trim_Forall. apply Forall_app in Hline. destruct Hline as [_ H].
    apply Forall_app in H. tauto.
  - destruct (last_or_nil post) as [-> | (post' & x & ->)].
    + rewrite app_nil_r in E.
      destruct (last_or_nil m) as [-> | (m' & x & ->)];
        [constructor|].
      rewrite app_assoc in E. apply app_inj_tail in E. destruct E as [E <-].
      rewrite trim_app_space by reflexivity. subst line.
      apply trim_Forall. apply Forall_app in Hline. tauto.
    + rewrite !app_assoc in E. apply app_inj_tail in E. destruct E as [E _].
      subst line. apply trim_Forall.
      apply Forall_app in Hline. destruct Hline as [H _].
      apply Forall_app in H. tauto.
Qed.

Lemma table_artifact_single_line line tl li mr :
  Forall (fun u => u <> nl) line ->
  tl = [] \/ tl = [nl] ->
  exec no_flags tableRegex (line ++ tl) li = Ok mr ->
  table_artifact mr = [].
Proof.
  intros Hline Htl E. unfold table_artifact. cbv zeta.
  unfold tableRegex in E. erewrite exec_group_capture by exact E.
  rewrite or_default_nil.
  apply exec_sound in E. destruct E as (before & post & Hs & _).
  assert (Hno : Forall (fun u => u <> nl) (trim (m0 mr)))
    by (eapply trim_part_of_line; eauto).
  rewrite (split_no_sep Hno). cbn [filter].
  destruct (truthy _); reflexivity.
Qed.

Lemma table_pass_single_line line tl ts w :
  Forall (fun u => u <> nl) line ->
  tl = [] \/ tl = [nl] ->
  table_pass (line ++ tl) ([], line ++ tl) = Some (ts, w) ->
  ts = [].
Proof.
  intros Hline Htl H. change (fst (ts, w) = []).
  eapply exec_loop_inv with (I := fun st => fst st = []);
    [| |exact H]; [|reflexivity].
  intros li mr st st1 E Hst B. rewrite (table_body_fst _ _ B), Hst.
  erewrite table_artifact_single_line by eauto. reflexivity.
Qed.

(** ** The size of a table *)

Lemma table_pass_rows text ts w :
  table_pass text ([], text) = Some (ts, w) ->
  Forall (fun a => 2 <= length (content_rows (content a))) ts.
Proof.
  intros H.
  change (Forall (fun a => 2 <= length (content_rows (content a)))
                 (fst (ts, w))).
  eapply exec_loop_inv
    with (I := fun st =>
                 Forall (fun a => 2 <= length (content_rows (content a)))
                        (fst st));
    [| |exact H]; [|constructor].
  intros li mr st st1 _ Hst B. rewrite (table_body_fst _ _ B).
  apply Forall_app. split; [exact Hst|].
  unfold table_artifact. cbv zeta.
  destruct (2 <=? _) eqn:E; constructor; [|constructor].
  cbn [content]. apply Nat.leb_le in E. exact E.
Qed.


(** * The passes as a whole *)

(** C1 (counterexample).  In a fenced block holding two table lines the
    code pass matches units 0 to 19 and adds the code artifact; the table
    pass matches units 4 to 16, inside that region, and adds a table
    artifact. *)
Lemma table_inside_code_block :
  exists mc mt,
    exec no_flags codeBlockRegex fenced_table_text 0 = Ok mc
    /\ exec no_flags tableRegex fenced_table_text 0 = Ok mt
    /\ index mc <= index mt
    /\ end_index mt <= end_index mc
    /\ extractArtifacts fenced_table_text
       = Some (Extraction
                 [ Artifact code (Some (js "text")) (js "|a|b|\n|c|d|")
                     (js "Code Block");
                   Artifact table None (trim (m0 mt)) (js "Data Table") ]
                 tableSentence).
Proof.
  eexists. eexists.
  split; [vm_compute; reflexivity|].
  split; [vm_compute; reflexivity|].
  split; [vm_compute; lia|].
  split; [vm_compute; lia|].
  vm_compute. reflexivity.
Qed.

(** C1 (as amended).  Each of the three passes scans the original text,
    not the working copy.  The artifacts the table pass and the document
    pass add are the same whatever the state (artifact list and working
    copy) they start from, so the artifact list is that of the code pass
    on the text, then that of the table pass on the text, then that of
    the document pass on the text: a span the code pass extracted is
    matched again by the later passes. *)
Theorem passes_scan_original_text (text : jsstring) :
  exists r cs w1 ts w2,
    extractArtifacts text = Some r
    /\ code_pass text ([], text) = Some (cs, w1)
    /\ table_pass text ([], text) = Some (ts, w2)
    /\ artifacts r = cs ++ ts ++ doc_artifact text
    /\ (forall st, exists w, table_pass text st = Some (fst st ++ ts, w))
    /\ (forall st, exists w,
          doc_pass text st = Some (fst st ++ doc_artifact text, w)).
Proof.
  destruct (extractArtifacts_by_type text)
    as (r & cs & w1 & ts & w2 & Hr & Hc & Ht & Ha & _).
  exists r, cs, w1, ts, w2. repeat split; auto.
  - intros st. pose proof Ht as Ht'.
    eapply exec_loop_fst in Ht'; [|exact table_body_fst | exact table_body_any].
    destruct Ht' as (l & Hl & Hall). cbn [fst app] in Hl. subst l.
    apply Hall.
  - intros st. destruct (doc_pass_total text st) as [st' H].
    pose proof (doc_pass_fst _ _ H) as Hf.
    destruct st' as [a w]. cbn [fst] in Hf. subst a. eauto.
Qed.

(** C6.  The code round trip. *)
Theorem code_round_trip :
  extractArtifacts (js "```js\nconst x=1;\n```")
  = Some (Extraction
            [ Artifact code (Some (js "js")) (js "const x=1;")
                (js "js Block") ]
            (js "I've created the code for you.")).
Proof. vm_compute. reflexivity. Qed.

(** C10.  The extraction returns for every text.  The two method calls on
    a capture, [match[2].trim()] in the code loop and [match[1].trim()] in
    the table loop, are calls on a capture that every match of their
    expression defines, so that no TypeError is thrown; and no loop runs
    past its bound.  On the empty text the extraction returns no artifact
    and the empty remainder. *)
Theorem extract_never_fails :
  (forall text, exists r, extractArtifacts text = Some r)
  /\ (forall s li mr,
        exec no_flags codeBlockRegex s li = Ok mr ->
        exists g2, get_cap 2 (captures mr) = Some g2)
  /\ (forall s li mr,
        exec no_flags tableRegex s li = Ok mr ->
        get_cap 1 (captures mr) = Some (m0 mr))
  /\ extractArtifacts [] = Some (Extraction [] []).
Proof.
  split; [exact extractArtifacts_total|].
  split; [exact exec_code_capture|].
  split; [|vm_compute; reflexivity].
  intros s li mr. unfold tableRegex. apply exec_group_capture.
Qed.

Lemma extract_never_fails_witness :
  (exists mr,
     exec no_flags codeBlockRegex (js "see ```js\nx\n```") 0 = Ok mr
     /\ exists g2, get_cap 2 (captures mr) = Some g2)
  /\ (exists mr,
        exec no_flags tableRegex (js "|a|b|\n|c|d|\n") 0 = Ok mr
        /\ get_cap 1 (captures mr) = Some (m0 mr)).
Proof.
  split.
  - eexists. split; [vm_compute; reflexivity|].
    apply (proj1 (proj2 extract_never_fails) (js "see ```js\nx\n```") 0).
    vm_compute. reflexivity.
  - eexists. split; [vm_compute; reflexivity|].
    apply (proj1 (proj2 (proj2 extract_never_fails))
             (js "|a|b|\n|c|d|\n") 0).
    vm_compute. reflexivity.
Defined.

(** ** Clean-up is not idempotent *)

(** C7 (counterexample).  Two placeholder lines in a row leave three line
    feeds behind; the remainder triggers no pass, and extracting it again
    collapses them. *)
Lemma remainder_not_fixed_point :
  exists r,
    extractArtifacts placeholder_lines_text = Some r
    /\ conversationalContent r = js "a\n\n\nb"
    /\ no_triggers (conversationalContent r) = true
    /\ extractArtifacts (conversationalContent r)
       = Some (Extraction [] (js "a\n\nb"))
    /\ extractArtifacts (conversationalContent r)
       <> Some (Extraction [] (conversationalContent r)).
Proof.
  eexists. split; [vm_compute; reflexivity|]. cbn [conversationalContent].
  split; [reflexivity|]. split; [vm_compute; reflexivity|].
  split; [vm_compute; reflexivity|]. vm_compute. discriminate.
Qed.

Lemma fallback_nil s : fallback [] s = s.
Proof. unfold fallback. cbn [length Nat.ltb Nat.leb]. now rewrite andb_false_r. Qed.

Lemma exec_loop_no_match fuel fl re s body st :
  has_match (exec fl re s 0) = false ->
  exec_loop (S fuel) fl re s body 0 st = Some st.
Proof.
  intros H. cbn [exec_loop]. destruct (exec fl re s 0) eqn:E;
    [discriminate | reflexivity|].
  exfalso. revert E. apply exec_safe.
Qed.

(** ** The reconciler *)

Lemma last_app_unit {A} (l : list A) x d : last (l ++ [x]) d = x.
Proof.
  induction l as [|a l IH]; [reflexivity|].
  cbn [app]. destruct (l ++ [x]) eqn:E; [|exact IH].
  destruct l; discriminate.
Qed.

Lemma streaming_last_app prev m :
  streaming_last (prev ++ [m])
  = if (Msg.isBot m && Msg.isStreaming m)%bool then Some m else None.
Proof.
  unfold streaming_last. rewrite map_app. cbn [map].
  now rewrite last_app_unit.
Qed.

Lemma map_last_app f prev m : map_last f (prev ++ [m]) = prev ++ [f m].
Proof.
  induction prev as [|a prev IH]; [reflexivity|].
  cbn [app map_last]. rewrite IH.
  destruct (prev ++ [m]) eqn:E; [|reflexivity].
  destruct prev; discriminate.
Qed.

(** A fragment when no message is streaming opens a message. *)
Lemma onmessage_fragment_new now nowIso s st r :
  truthy s = true ->
  streaming_last (messages st) = None ->
  extractArtifacts s = Some r ->
  onmessage now nowIso (fragment s) st
  = Some (Chat
            (messages st ++
               [ Msg.Message now s (Some (conversationalContent r))
                   (Some (artifacts r)) true (Some (js "Legal Assistant"))
                   nowIso true (Some (0 <? length (artifacts r))) None
                   false ])
            (isLoading st)).
Proof.
  intros Hs Hl Hr. unfold onmessage, fragment.
  cbn [Ev.done Ev.error Ev.content Ev.thinking Ev.agent Ev.timestamp
       truthy_opt].
  rewrite Hs, Hl, or_default_nil, Hr. reflexivity.
Qed.

(** A fragment while the last message is streaming grows that message. *)
Lemma onmessage_fragment_append now nowIso s prev m loading r :
  truthy s = true ->
  (Msg.isBot m && Msg.isStreaming m)%bool = true ->
  extractArtifacts (Msg.content m ++ s) = Some r ->
  onmessage now nowIso (fragment s) (Chat (prev ++ [m]) loading)
  = Some (Chat
            (prev ++
               [ Msg.Message (Msg.id m) (Msg.content m ++ s)
                   (Some (conversationalContent r)) (Some (artifacts r))
                   (Msg.isBot m) (Msg.agent m) (Msg.timestamp m)
                   (Msg.isStreaming m) (Some (0 <? length (artifacts r)))
                   (Msg.thinking m) (Msg.isError m) ])
            loading).
Proof.
  intros Hs Hm Hr. unfold onmessage, fragment.
  cbn [Ev.done Ev.error Ev.content Ev.thinking Ev.agent Ev.timestamp
       truthy_opt messages isLoading].
  rewrite Hs, streaming_last_app, Hm, or_default_nil, Hr. cbn [bind].
  rewrite map_last_app. reflexivity.
Qed.

(** C2 (counterexample).  After the third fragment the remainder is the
    sentence the first two fragments spelled, not the canned table
    sentence, and the formatter takes one body row from the table. *)
Lemma streaming_remainder_not_canned :
  exists m,
    feed [ (1%N, js "t1", fragment (js "Here is a t"));
           (2%N, js "t2", fragment (js "able:\n\n"));
           (3%N, js "t3", fragment (js "|A|B|\n|-|-|\n|1|2|\n")) ]
         (Chat [] false)
    = Some (Chat [m] false)
    /\ Msg.artifacts m
       = Some [ Artifact table None streamed_table (js "Data Table") ]
    /\ Msg.conversationalContent m = Some (js "Here is a table:")
    /\ Msg.conversationalContent m <> Some tableSentence
    /\ table_parts streamed_table
       = Some ([js "A"; js "B"], [[js "1"; js "2"]]).
Proof.
  eexists. split; [vm_compute; reflexivity|]. cbn.
  split; [reflexivity|]. split; [reflexivity|].
  split; [discriminate | reflexivity].
Qed.

Lemma extract_fragment_1 :
  extractArtifacts (js "Here is a t")
  = Some (Extraction [] (js "Here is a t")).
Proof. vm_compute. reflexivity. Qed.

Lemma extract_fragment_2 :
  extractArtifacts (js "Here is a t" ++ js "able:\n\n")
  = Some (Extraction [] (js "Here is a table:")).
Proof. vm_compute. reflexivity. Qed.

Lemma extract_fragment_3 :
  extractArtifacts
    ((js "Here is a t" ++ js "able:\n\n") ++ js "|A|B|\n|-|-|\n|1|2|\n")
  = Some (Extraction
            [ Artifact table None streamed_table (js "Data Table") ]
            (js "Here is a table:")).
Proof. vm_compute. reflexivity. Qed.

(** C2 (as amended).  Fed in order to a list whose last message is not a
    streaming bot message, the three fragments open one message and grow
    it; after the third its artifacts are exactly one table artifact, of
    the three lines [|A|B|], [|-|-|], [|1|2|] (for the formatter a header,
    a separator and one body row), and its conversationalContent is
    the text [Here is a table:]. *)
Theorem streaming_merge (prev : list Msg.message) (loading : bool)
    (n1 n2 n3 : N) (i1 i2 i3 : jsstring) :
  streaming_last prev = None ->
  exists m,
    feed [ (n1, i1, fragment (js "Here is a t"));
           (n2, i2, fragment (js "able:\n\n"));
           (n3, i3, fragment (js "|A|B|\n|-|-|\n|1|2|\n")) ]
         (Chat prev loading)
    = Some (Chat (prev ++ [m]) loading)
    /\ Msg.id m = n1
    /\ Msg.isBot m = true
    /\ Msg.isStreaming m = true
    /\ Msg.content m = js "Here is a table:\n\n|A|B|\n|-|-|\n|1|2|\n"
    /\ Msg.artifacts m
       = Some [ Artifact table None streamed_table (js "Data Table") ]
    /\ Msg.conversationalContent m = Some (js "Here is a table:")
    /\ table_parts streamed_table
       = Some ([js "A"; js "B"], [[js "1"; js "2"]]).
Proof.
  intros Hprev. eexists. split.
  - cbn [feed].
    erewrite onmessage_fragment_new;
      [|reflexivity | exact Hprev | exact extract_fragment_1].
    cbn [bind messages isLoading].
    erewrite onmessage_fragment_append;
      [|reflexivity | reflexivity | exact extract_fragment_2].
    cbn [bind Msg.content Msg.id Msg.isBot Msg.agent Msg.timestamp
         Msg.isStreaming Msg.thinking Msg.isError].
    erewrite onmessage_fragment_append;
      [|reflexivity | reflexivity | exact extract_fragment_3].
    cbn [bind]. reflexivity.
  - cbn [Msg.id Msg.isBot Msg.isStreaming Msg.content Msg.artifacts
         Msg.conversationalContent artifacts conversationalContent].
    repeat split; reflexivity.
Qed.

Lemma streaming_merge_witness :
  exists m,
    feed [ (1%N, js "t1", fragment (js "Here is a t"));
           (2%N, js "t2", fragment (js "able:\n\n"));
           (3%N, js "t3", fragment (js "|A|B|\n|-|-|\n|1|2|\n")) ]
         (Chat [] true)
    = Some (Chat ([] ++ [m]) true)
    /\ Msg.id m = 1%N
    /\ Msg.isBot m = true
    /\ Msg.isStreaming m = true
    /\ Msg.content m = js "Here is a table:\n\n|A|B|\n|-|-|\n|1|2|\n"
    /\ Msg.artifacts m
       = Some [ Artifact table None streamed_table (js "Data Table") ]
    /\ Msg.conversationalContent m = Some (js "Here is a table:")
    /\ table_parts streamed_table
       = Some ([js "A"; js "B"], [[js "1"; js "2"]]).
Proof.
  apply (streaming_merge [] true 1%N 2%N 3%N (js "t1") (js "t2") (js "t3")).
  reflexivity.
Defined.

(** C5 (counterexample).  The content of the error message is not the
    error text: it carries the prefix [Error: ]. *)
Lemma error_content_prefixed :
  exists m,
    onmessage 7%N (js "t") (error_event (js "boom")) (Chat [] true)
    = Some (Chat [m] false)
    /\ Msg.content m = js "Error: boom"
    /\ Msg.content m <> js "boom".
Proof.
  eexists. split; [reflexivity|]. cbn [Msg.content].
  split; [reflexivity | discriminate].
Qed.

(** C5 (as amended).  On an event that is not [done] and carries an error
    text, the handler returns normally, leaves every message of the list
    as it is (the streaming one included) and appends one message with
    isError and isBot set, not streaming, whose content is [Error: ]
    followed by the error text. *)
Theorem error_signal (now : N) (nowIso : jsstring) (data : Ev.event)
    (st : chat) (e : jsstring) :
  Ev.done data = false ->
  Ev.error data = Some e ->
  e <> [] ->
  exists m,
    onmessage now nowIso data st = Some (Chat (messages st ++ [m]) false)
    /\ Msg.isError m = true
    /\ Msg.isBot m = true
    /\ Msg.isStreaming m = false
    /\ Msg.content m = js "Error: " ++ e.
Proof.
  intros Hdone Herr He. unfold onmessage. rewrite Hdone, Herr.
  cbn [truthy_opt]. destruct e as [|c e]; [congruence|].
  cbn [truthy]. eexists. split; [reflexivity|].
  cbn [Msg.isError Msg.isBot Msg.isStreaming Msg.content or_default truthy].
  repeat split.
Qed.

Lemma error_signal_witness :
  exists m,
    onmessage 7%N (js "t") (error_event (js "boom"))
      (Chat [ Msg.Message 1%N (js "partial") (Some (js "partial")) (Some [])
                true (Some (js "Legal Assistant")) (js "t0") true
                (Some false) None false ] true)
    = Some (Chat
              (messages
                 (Chat [ Msg.Message 1%N (js "partial") (Some (js "partial"))
                           (Some []) true (Some (js "Legal Assistant"))
                           (js "t0") true (Some false) None false ] true)
               ++ [m])
              false)
    /\ Msg.isError m = true
    /\ Msg.isBot m = true
    /\ Msg.isStreaming m = false
    /\ Msg.content m = js "Error: " ++ js "boom".
Proof.
  apply (error_signal 7%N (js "t") (error_event (js "boom")));
    [reflexivity | reflexivity | discriminate].
Defined.

(** ** The sixth keyword *)

(** C4 (counterexample).  The word DOCUMENT followed by 200 units, inside
    a fenced block: the code pass empties the working copy, none of the
    five keywords occurs in the text, and still the document pass adds a
    document artifact, from the word DOCUMENT to the end of the text. *)
Lemma document_keyword_triggers :
  exists r st1 st2,
    extractArtifacts fenced_document_text = Some r
    /\ filter (is_type document) (artifacts r)
       = [ Artifact document None (skipn 4 fenced_document_text)
             (js "Legal Document") ]
    /\ code_pass fenced_document_text ([], fenced_document_text) = Some st1
    /\ table_pass fenced_document_text st1 = Some st2
    /\ snd st2 = []
    /\ claimed_trigger (snd st2) = false
    /\ claimed_trigger fenced_document_text = false.
Proof.
  eexists. eexists. eexists.
  split; [vm_compute; reflexivity|].
  split; [vm_compute; reflexivity|].
  split; [vm_compute; reflexivity|].
  split; [vm_compute; reflexivity|].
  split; [reflexivity|].
  split; vm_compute; reflexivity.
Qed.

(** * Units a match must hold *)

Lemma count_unit_app a u v :
  count_unit a (u ++ v) = count_unit a u + count_unit a v.
Proof. unfold count_unit. now rewrite filter_app, length_app. Qed.

Lemma count_unit_absent a l :
  Forall (fun u => u <> a) l -> count_unit a l = 0.
Proof.
  intros H. unfold count_unit. induction H as [|u l Hu _ IH]; [reflexivity|].
  cbn [filter]. unfold cu_eqb at 1.
  destruct (N.eqb_spec a u); [congruence | exact IH].
Qed.

Lemma repeat_matcher_counts a m gs greedy c n :
  matcher_counts a m n ->
  forall fuel min max x z,
    repeat_matcher m gs greedy c fuel min max x = Ok z ->
    exists y pre, c y = Ok z /\ rest x = pre ++ rest y
                  /\ min_iter min max * n <= count_unit a pre.
Proof.
  intros Hm. induction fuel as [|fuel IH]; intros min max x z H;
    [discriminate|].
  assert (Hstop : c x = Ok z ->
            min_iter min max = 0 ->
            exists y pre, c y = Ok z /\ rest x = pre ++ rest y
                          /\ min_iter min max * n <= count_unit a pre).
  { intros Hc H0. exists x, []. rewrite H0. simpl. auto with arith. }
  assert (Hiter : forall d : cont,
            (forall y, d y = Ok z ->
               repeat_matcher m gs greedy c fuel (Nat.pred min)
                 (pred_max max) y = Ok z) ->
            m (reset_caps gs x) d = Ok z ->
            exists y pre, c y = Ok z /\ rest x = pre ++ rest y
                          /\ min_iter min max * n <= count_unit a pre).
  { intros d Hd' Hz. apply Hm in Hz.
    destruct Hz as (y1 & pre1 & Hd & Hr1 & Hn1).
    apply Hd', IH in Hd. destruct Hd as (y & pre2 & Hc & Hr2 & Hn2).
    exists y, (pre1 ++ pre2). split; [exact Hc|]. split.
    - rewrite reset_caps_rest in Hr1. rewrite Hr1, Hr2.
      now rewrite app_assoc.
    - rewrite count_unit_app.
      assert (min_iter min max <= S (min_iter (Nat.pred min) (pred_max max))).
      { destruct max as [k|]; simpl; lia. }
      nia. }
  cbn [repeat_matcher] in H.
  destruct max as [[|k]|];
    [apply Hstop; [exact H | simpl; lia] | |];
    (destruct (Nat.eqb min 0) eqn:E0; cbn [negb] in H;
     [|eapply Hiter; [|exact H]; intros y Hy; cbv beta in Hy;
          match type of Hy with
          | (if ?b then _ else _) = _ =>
              destruct b; [discriminate | exact Hy]
          end];
     pose proof E0 as E0'; apply Nat.eqb_eq in E0';
     destruct greedy; cbn [negb] in H;
     [ destruct (m (reset_caps gs x) _) eqn:E; try discriminate;
       [ injection H as ->; eapply Hiter; [|exact E]; intros y Hy; cbv beta in Hy;
          match type of Hy with
          | (if ?b then _ else _) = _ =>
              destruct b; [discriminate | exact Hy]
          end
       | apply Hstop; [exact H | subst; reflexivity] ]
     | destruct (c x) eqn:E; try discriminate;
       [ apply Hstop; [congruence | subst; reflexivity]
       | eapply Hiter; [|exact H]; intros y Hy; cbv beta in Hy;
          match type of Hy with
          | (if ?b then _ else _) = _ =>
              destruct b; [discriminate | exact Hy]
          end ] ]).
Qed.

Lemma compile_counts fl a r :
  matcher_counts a (compile fl r) (min_count fl a r).
Proof.
  induction r as [|b|p|r1 IH1 r2 IH2|r1 IH1 r2 IH2|min max g r IH|n r IH| |];
    intros x c z H; cbn [compile] in H; cbn [min_count].
  - exists x, []. auto with arith.
  - destruct (rest x) as [|b' t] eqn:E; [discriminate|].
    destruct (cu_eqb _ _) eqn:Eb; [|discriminate].
    eexists; exists [b']. split; [exact H|]. split; [reflexivity|].
    unfold canonicalize in Eb. destruct (ignoreCase fl); [auto with arith|].
    cbn [andb] in Eb. unfold cu_eqb in Eb. apply N.eqb_eq in Eb. subst b'.
    unfold count_unit. cbn [filter]. destruct (cu_eqb a b); simpl; lia.
  - destruct (rest x) as [|b t] eqn:E; [discriminate|].
    destruct (p b); [|discriminate].
    eexists; exists [b]. split; [exact H|]. auto with arith.
  - apply IH1 in H. destruct H as (y1 & pre1 & H & Hr1 & Hn1).
    apply IH2 in H. destruct H as (y & pre2 & H & Hr2 & Hn2).
    exists y, (pre1 ++ pre2). split; [exact H|]. split.
    + rewrite Hr1, Hr2. now rewrite app_assoc.
    + rewrite count_unit_app. lia.
  - destruct (compile fl r1 x c) eqn:E; try discriminate.
    + apply IH1 in E. destruct E as (y & pre & Hc & Hr & Hn).
      exists y, pre. split; [congruence|]. split; [exact Hr | lia].
    + apply IH2 in H. destruct H as (y & pre & Hc & Hr & Hn).
      exists y, pre. split; [exact Hc|]. split; [exact Hr | lia].
  - eapply repeat_matcher_counts; [exact IH | exact H].
  - apply IH in H. destruct H as (y & pre & Hc & Hr & Hn).
    exists (set_cap n (consumed x y) y), pre. auto.
  - destruct (at_bol fl x); [|discriminate]. exists x, []. auto with arith.
  - destruct (at_eol fl x); [|discriminate]. exists x, []. auto with arith.
Qed.

Lemma exec_from_counts fl a r s :
  forall idx pv mr,
    exec_from fl r idx pv s = Ok mr -> min_count fl a r <= count_unit a s.
Proof.
  induction s as [|u t IH]; intros idx pv mr H; rewrite exec_from_eq in H;
    destruct (compile fl r _ _) as [y| |] eqn:E; try discriminate.
  - apply compile_counts with (a := a) in E.
    destruct E as (y' & pre & _ & Hr & Hn). cbn [rest] in Hr.
    rewrite Hr, count_unit_app. lia.
  - apply compile_counts with (a := a) in E.
    destruct E as (y' & pre & _ & Hr & Hn). cbn [rest] in Hr.
    rewrite Hr, count_unit_app. lia.
  - apply IH in H. change (u :: t) with ([u] ++ t).
    rewrite count_unit_app. lia.
Qed.

(** An expression does not match a text that holds too few of a unit it
    needs. *)
Lemma exec_too_few fl a r s li :
  count_unit a s < min_count fl a r -> exec fl r s li = Fail.
Proof.
  intros Hlt. destruct (exec fl r s li) as [mr| |] eqn:E; [|reflexivity|].
  - exfalso. unfold exec in E. destruct (_ <? _); [discriminate|].
    apply exec_from_counts with (a := a) in E.
    assert (count_unit a s
            = count_unit a (firstn li s) + count_unit a (skipn li s)).
    { rewrite <- count_unit_app. now rewrite firstn_skipn. }
    lia.
  - exfalso. revert E. apply exec_safe.
Qed.

Lemma exec_too_short fl r s li :
  length s < min_length r -> exec fl r s li = Fail.
Proof.
  intros Hlt. destruct (exec fl r s li) as [mr| |] eqn:E; [|reflexivity|].
  - exfalso. apply exec_sound in E.
    destruct E as (before & post & Hs & _ & _ & _ & _ & Hn).
    rewrite Hs, !length_app in Hlt. lia.
  - exfalso. revert E. apply exec_safe.
Qed.

(** * Further properties of extractArtifacts *)

Lemma cleanup_trimmed s out : cleanup s = Some out -> trim out = out.
Proof.
  unfold cleanup.
  destruct (replace_all no_flags newlinesRegex (js "\n\n") s) as [s1|];
    [|discriminate].
  cbn [bind].
  destruct (replace_all placeholderFlags placeholderRegex [] s1) as [s2|];
    [|discriminate].
  cbn [bind]. intros H. injection H as <-. apply trim_idem.
Qed.

Lemma fallback_cases arts cleaned :
  fallback arts cleaned = cleaned
  \/ (cleaned = [] /\ arts <> []
      /\ (fallback arts cleaned = tableSentence
          \/ fallback arts cleaned = codeSentence
          \/ fallback arts cleaned = documentSentence)).
Proof.
  unfold fallback. destruct cleaned as [|u cleaned]; [|now left].
  destruct arts as [|a arts]; [now left|]. right.
  split; [reflexivity|]. split; [discriminate|].
  cbn [truthy negb length Nat.ltb Nat.leb andb].
  destruct (existsb (is_type table) (a :: arts)) eqn:Et; [now left|].
  destruct (existsb (is_type code) (a :: arts)) eqn:Ec; [right; now left|].
  destruct (existsb (is_type document) (a :: arts)) eqn:Ed;
    [right; now right|].
  exfalso. cbn [existsb] in Et, Ec, Ed.
  apply orb_false_iff in Et, Ec, Ed.
  destruct Et as [Et _], Ec as [Ec _], Ed as [Ed _].
  unfold is_type in Et, Ec, Ed. destruct (type a); discriminate.
Qed.

(** X1.  The remainder extractArtifacts returns has no white space at
    either end. *)
Theorem remainder_is_trimmed (text : jsstring) :
  exists r,
    extractArtifacts text = Some r
    /\ trim (conversationalContent r) = conversationalContent r.
Proof.
  destruct (extractArtifacts_passes text)
    as (cs & w1 & ts & w2 & rc & cleaned & _ & _ & _ & Hcl & H).
  eexists. split; [exact H|]. cbn [conversationalContent].
  destruct (fallback_cases (cs ++ ts ++ doc_artifact text) cleaned)
    as [-> | (_ & _ & [-> | [-> | ->]])];
    [now apply cleanup_trimmed with (s := rc) | | |]; reflexivity.
Qed.

(** X2.  Whenever extractArtifacts returns an artifact it returns a
    remainder that is not empty: an empty remainder only goes with an
    empty artifact list. *)
Theorem remainder_with_artifacts (text : jsstring) :
  exists r,
    extractArtifacts text = Some r
    /\ (artifacts r <> [] -> conversationalContent r <> [])
    /\ (conversationalContent r = [] -> artifacts r = []).
Proof.
  destruct (extractArtifacts_passes text)
    as (cs & w1 & ts & w2 & rc & cleaned & _ & _ & _ & Hcl & H).
  eexists. split; [exact H|]. cbn [conversationalContent artifacts].
  assert (Hne : cs ++ ts ++ doc_artifact text <> [] ->
                fallback (cs ++ ts ++ doc_artifact text) cleaned <> []).
  { intros Harts.
    destruct (fallback_cases (cs ++ ts ++ doc_artifact text) cleaned)
      as [E | (_ & _ & [E | [E | E]])]; rewrite E; try discriminate.
    intros ->. unfold fallback in E. cbn [truthy negb andb] in E.
    destruct (cs ++ ts ++ doc_artifact text) as [|a l] eqn:Ea;
      [congruence|].
    cbn [length Nat.ltb Nat.leb] in E.
    destruct (existsb (is_type table) (a :: l)) eqn:Et; [discriminate|].
    destruct (existsb (is_type code) (a :: l)) eqn:Ec; [discriminate|].
    destruct (existsb (is_type document) (a :: l)) eqn:Ed; [discriminate|].
    cbn [existsb] in Et, Ec, Ed.
    apply orb_false_iff in Et, Ec, Ed.
    destruct Et as [Et _], Ec as [Ec _], Ed as [Ed _].
    unfold is_type in Et, Ec, Ed. destruct (type a); discriminate. }
  split; [exact Hne|].
  intros Hempty.
  destruct (cs ++ ts ++ doc_artifact text) as [|a l] eqn:Ea; [reflexivity|].
  exfalso. apply Hne; [discriminate | exact Hempty].
Qed.

Lemma remainder_with_artifacts_witness :
  exists r,
    extractArtifacts (js "|a|b|\n|c|d|\n") = Some r
    /\ conversationalContent r <> []
    /\ (conversationalContent r = [] -> artifacts r = []).
Proof.
  destruct (remainder_with_artifacts (js "|a|b|\n|c|d|\n"))
    as (r & Hr & Hne & Hnil).
  exists r. split; [exact Hr|]. split; [|exact Hnil].
  apply Hne.
  assert (E : extractArtifacts (js "|a|b|\n|c|d|\n")
              = Some (Extraction
                        [ Artifact table None (js "|a|b|\n|c|d|")
                            (js "Data Table") ]
                        tableSentence))
    by (vm_compute; reflexivity).
  rewrite Hr in E. injection E as ->. discriminate.
Defined.

Lemma code_pass_no_match text st :
  exec no_flags codeBlockRegex text 0 = Fail -> code_pass text st = Some st.
Proof.
  intros E. unfold code_pass. apply exec_loop_no_match. now rewrite E.
Qed.

Lemma table_pass_no_match text st :
  exec no_flags tableRegex text 0 = Fail -> table_pass text st = Some st.
Proof.
  intros E. unfold table_pass. apply exec_loop_no_match. now rewrite E.
Qed.

Lemma doc_artifact_no_match text :
  exec docFlags docRegex text 0 = Fail -> doc_artifact text = [].
Proof. intros E. unfold doc_artifact. now rewrite E. Qed.

(** X3.  A text with fewer than six backticks yields no code artifact; a
    text with fewer than two pipes, or without a line feed, yields no
    table artifact; a text of fewer than 204 units yields no document
    artifact.  When all three hold the result is no artifact and the
    clean-up of the text. *)
Theorem too_little_for_an_artifact (text : jsstring) :
  exists r,
    extractArtifacts text = Some r
    /\ (count_unit 96%N text < 6 ->
        filter (is_type code) (artifacts r) = [])
    /\ (count_unit pipe text < 2 \/ count_unit nl text < 1 ->
        filter (is_type table) (artifacts r) = [])
    /\ (length text < 204 ->
        filter (is_type document) (artifacts r) = [])
    /\ (count_unit 96%N text < 6 ->
        count_unit pipe text < 2 \/ count_unit nl text < 1 ->
        length text < 204 ->
        artifacts r = []
        /\ cleanup text = Some (conversationalContent r)).
Proof.
  destruct (extractArtifacts_by_type text)
    as (r & cs & w1 & ts & w2 & Hr & Hc & Ht & Ha & Hfc & Hft & Hfd).
  assert (Ccode : count_unit 96%N text < 6 -> cs = []).
  { intros H. rewrite code_pass_no_match in Hc; [congruence|].
    apply exec_too_few with (a := 96%N). exact H. }
  assert (Ctable : count_unit pipe text < 2 \/ count_unit nl text < 1 ->
                   ts = []).
  { intros H. rewrite table_pass_no_match in Ht; [congruence|].
    destruct H as [H | H];
      [apply exec_too_few with (a := pipe)
      |apply exec_too_few with (a := nl)]; exact H. }
  assert (Cdoc : length text < 204 -> doc_artifact text = []).
  { intros H. apply doc_artifact_no_match, exec_too_short. exact H. }
  exists r. split; [exact Hr|].
  split; [intros H; rewrite Hfc; auto|].
  split; [intros H; rewrite Hft; auto|].
  split; [intros H; rewrite Hfd; auto|].
  intros H1 H2 H3.
  assert (Hnil : artifacts r = [])
    by (rewrite Ha, (Ccode H1), (Ctable H2), (Cdoc H3); reflexivity).
  split; [exact Hnil|].
  destruct (extractArtifacts_passes text)
    as (cs' & w1' & ts' & w2' & rc & cleaned & _ & _ & Hu & Hcl & H).
  rewrite Hr in H. injection H as ->. cbn [artifacts] in Hnil.
  rewrite (Hu Hnil) in Hcl. rewrite Hcl. cbn [conversationalContent].
  now rewrite Hnil, fallback_nil.
Qed.

Lemma too_little_for_an_artifact_witness :
  exists r,
    extractArtifacts (js "```js\nconst x = a | b;\n") = Some r
    /\ artifacts r = []
    /\ cleanup (js "```js\nconst x = a | b;\n")
       = Some (conversationalContent r).
Proof.
  destruct (too_little_for_an_artifact (js "```js\nconst x = a | b;\n"))
    as (r & Hr & _ & _ & _ & H).
  exists r. split; [exact Hr|].
  apply H; [vm_compute; lia | left; vm_compute; lia | vm_compute; lia].
Defined.

(** * Fenced blocks *)

Lemma lazy_scan_eq p c pv l cs :
  lazy_scan p c pv l cs
  = match c (MState pv l cs) with
    | Fail =>
        match l with
        | b :: t => if p b then lazy_scan p c (Some b) t cs else Fail
        | [] => Fail
        end
    | o => o
    end.
Proof. destruct l; reflexivity. Qed.

Lemma greedy_until p (c : cont) u b t cs :
  forallb p u = true ->
  p b = false ->
  forall pv,
    c (MState (last_unit pv u) (b :: t) cs) <> Fail ->
    greedy_scan p c pv (u ++ b :: t) cs
    = c (MState (last_unit pv u) (b :: t) cs).
Proof.
  intros Hu Hb. induction u as [|a u IH]; intros pv Hc.
  - cbn [app greedy_scan]. now rewrite Hb.
  - cbn [forallb] in Hu. apply andb_true_iff in Hu. destruct Hu as [Ha Hu].
    cbn [app greedy_scan]. rewrite Ha. rewrite last_unit_cons in *.
    rewrite (IH Hu) by exact Hc. destruct (c _); congruence.
Qed.

Lemma lazy_until p (k : cont) u t cs :
  Forall (fun b => p b = true
                   /\ forall pv' l', k (MState pv' (b :: l') cs) = Fail) u ->
  forall pv,
    k (MState (last_unit pv u) t cs) <> Fail ->
    lazy_scan p k pv (u ++ t) cs = k (MState (last_unit pv u) t cs).
Proof.
  intros Hu. induction Hu as [|b u [Hp Hk] _ IH]; intros pv Hc.
  - cbn [app]. rewrite lazy_scan_eq. unfold last_unit in *. cbn [map last] in *.
    destruct (k _); congruence.
  - cbn [app lazy_scan]. rewrite Hk, Hp. rewrite last_unit_cons in *.
    now apply IH.
Qed.

Lemma starts_with_ci_self fl w t : starts_with_ci fl w (w ++ t) = true.
Proof.
  induction w as [|a w IH]; [reflexivity|].
  cbn [app starts_with_ci]. unfold char_test, cu_eqb.
  now rewrite N.eqb_refl, IH.
Qed.

Lemma starts_with_ci_head fl a w b t :
  char_test fl a b = false -> starts_with_ci fl (a :: w) (b :: t) = false.
Proof. intros H. cbn [starts_with_ci]. now rewrite H. Qed.

Lemma code_tail pv body post cs :
  Forall (fun u => u <> 96%N) body ->
  compile no_flags
    (Seq (Char nl)
       (Seq (Group 2 (Quant 0 None false (Class is_any))) (lit (js "```"))))
    (MState pv (nl :: body ++ fence ++ post) cs) (fun y => Ok y)
  = Ok (MState (Some 96%N) post ((2, body) :: cs)).
Proof.
  intros Hbody.
  rewrite compile_Seq, compile_Char. unfold unit_matcher. cbn [rest caps].
  change (char_test no_flags nl nl) with true. cbv iota.
  rewrite compile_Seq, compile_Group, compile_Quant, compile_Class.
  rewrite star_unit_lazy by (cbn [rest]; lia). cbn [rest prev caps].
  rewrite lazy_until.
  - rewrite compile_lit by discriminate.
    unfold set_cap, consumed. cbn [rest prev caps].
    rewrite starts_with_ci_self, firstn_app_exact. reflexivity.
  - apply Forall_forall. intros b Hb. split; [reflexivity|].
    intros pv' l'. rewrite compile_lit by discriminate.
    unfold set_cap. cbn [rest].
    rewrite Forall_forall in Hbody. specialize (Hbody _ Hb).
    change (js "```") with (96%N :: [96%N; 96%N]).
    rewrite starts_with_ci_head; [reflexivity|].
    rewrite char_test_no_flags. unfold cu_eqb. apply N.eqb_neq. congruence.
  - rewrite compile_lit by discriminate.
    unfold set_cap, consumed. cbn [rest prev caps].
    rewrite starts_with_ci_self. discriminate.
Qed.

Lemma codeBlockRegex_block pv lang body post :
  forallb is_word lang = true ->
  Forall (fun u => u <> 96%N) body ->
  compile no_flags codeBlockRegex
    (MState pv (fence ++ lang ++ nl :: body ++ fence ++ post) [])
    (fun y => Ok y)
  = Ok (MState (Some 96%N) post
          ((2, body) :: match lang with [] => [] | _ => [(1, lang)] end)).
Proof.
  intros Hlang Hbody.
  unfold codeBlockRegex, seqs, opt, plus, lazy_star.
  rewrite compile_Seq, compile_lit by discriminate.
  cbn [rest prev caps]. rewrite starts_with_ci_self.
  replace (skipn (length (js "```")) (fence ++ lang ++ nl :: body ++ fence ++ post))
    with (lang ++ nl :: body ++ fence ++ post) by reflexivity.
  replace (firstn (length (js "```")) (fence ++ lang ++ nl :: body ++ fence ++ post))
    with fence by reflexivity.
  rewrite compile_Seq, compile_Quant.
  cbn [group_indices app rest].
  destruct lang as [|a lang].
  - cbn [app length Nat.add]. cbn [repeat_matcher Nat.eqb negb andb].
    unfold reset_caps. cbn [rest prev caps filter].
    rewrite compile_Group, compile_Quant, compile_Class.
    rewrite at_least_unit by (cbn [rest]; lia).
    cbn [rest prev caps take_units]. change (is_word nl) with false. cbv iota.
    now apply code_tail.
  - cbn [forallb] in Hlang. apply andb_true_iff in Hlang.
    destruct Hlang as [Ha Hlang].
    cbn [app length Nat.add]. cbn [repeat_matcher Nat.eqb negb andb pred_max Nat.pred].
    unfold reset_caps. cbn [rest prev caps filter].
    rewrite compile_Group, compile_Quant, compile_Class.
    rewrite at_least_unit by (cbn [rest]; lia).
    cbn [rest prev caps take_units]. rewrite Ha.
    match goal with
    | |- match greedy_scan _ ?k _ _ _ with _ => _ end = _ => set (d := k)
    end.
    assert (Hd : d (MState (last_unit (Some a) lang)
                      (nl :: body ++ fence ++ post) [])
                 = Ok (MState (Some 96%N) post [(2, body); (1, a :: lang)])).
    { unfold d, set_cap, consumed. cbn [rest prev caps].
      change (a :: lang ++ nl :: body ++ fence ++ post)
        with ((a :: lang) ++ nl :: body ++ fence ++ post).
      rewrite firstn_app_exact.
      assert (E : Nat.eqb (length (nl :: body ++ fence ++ post))
                    (length ((a :: lang) ++ nl :: body ++ fence ++ post))
                  = false).
      { apply Nat.eqb_neq. rewrite length_app. cbn [length]. lia. }
      rewrite E. now apply code_tail. }
    rewrite greedy_until; [now rewrite Hd | exact Hlang | reflexivity|].
    rewrite Hd. discriminate.
Qed.

Lemma codeBlockRegex_needs_backtick pv u t :
  u <> 96%N ->
  compile no_flags codeBlockRegex (MState pv (u :: t) []) (fun y => Ok y)
  = Fail.
Proof.
  intros Hu. unfold codeBlockRegex, seqs.
  rewrite compile_Seq, compile_lit by discriminate. cbn [rest].
  change (js "```") with (96%N :: [96%N; 96%N]).
  rewrite starts_with_ci_head; [reflexivity|].
  rewrite char_test_no_flags. unfold cu_eqb. apply N.eqb_neq. congruence.
Qed.

Lemma exec_from_code_skip pre :
  Forall (fun u => u <> 96%N) pre ->
  forall idx pv s,
    exec_from no_flags codeBlockRegex idx pv (pre ++ s)
    = exec_from no_flags codeBlockRegex (idx + length pre)
        (last_unit pv pre) s.
Proof.
  intros H. induction H as [|u pre Hu _ IH]; intros idx pv s.
  - cbn [app length]. now rewrite Nat.add_0_r.
  - cbn [app]. rewrite exec_from_eq, codeBlockRegex_needs_backtick by exact Hu.
    rewrite IH, last_unit_cons. cbn [length]. f_equal. lia.
Qed.

Lemma exec_from_too_few fl a r s idx pv :
  count_unit a s < min_count fl a r -> exec_from fl r idx pv s = Fail.
Proof.
  intros Hlt. destruct (exec_from fl r idx pv s) as [mr| |] eqn:E;
    [|reflexivity|].
  - apply exec_from_counts with (a := a) in E. lia.
  - exfalso. revert E. apply exec_from_safe.
Qed.

Lemma fenced_app lang body post :
  fenced lang body ++ post = fence ++ lang ++ nl :: body ++ fence ++ post.
Proof.
  unfold fenced. rewrite <- !app_assoc. cbn [app].
  now rewrite <- !app_assoc.
Qed.

Lemma exec_code_block pre lang body post :
  Forall (fun u => u <> 96%N) pre ->
  forallb is_word lang = true ->
  Forall (fun u => u <> 96%N) body ->
  exec no_flags codeBlockRegex (pre ++ fenced lang body ++ post) 0
  = Ok (MatchResult (length pre) (fenced lang body)
          ((2, body) :: match lang with [] => [] | _ => [(1, lang)] end)
          (length pre + length (fenced lang body))).
Proof.
  intros Hpre Hlang Hbody. unfold exec.
  cbn [Nat.ltb Nat.leb skipn unit_before].
  rewrite exec_from_code_skip by exact Hpre.
  rewrite exec_from_eq, fenced_app, codeBlockRegex_block by assumption.
  cbn [rest caps]. cbv zeta. rewrite <- fenced_app, firstn_app_exact.
  reflexivity.
Qed.

Lemma skipn_app_exact {A} (u v : list A) : skipn (length u) (u ++ v) = v.
Proof. now rewrite skipn_app, skipn_all, Nat.sub_diag. Qed.

Lemma exec_after_code_block pre block post :
  Forall (fun u => u <> 96%N) post ->
  exec no_flags codeBlockRegex (pre ++ block ++ post)
    (length pre + length block)
  = Fail.
Proof.
  intros Hpost. unfold exec.
  destruct (_ <? _) eqn:E;
    [apply Nat.ltb_lt in E; rewrite !length_app in E; lia|].
  rewrite app_assoc, <- length_app, skipn_app_exact.
  apply exec_from_too_few with (a := 96%N).
  rewrite count_unit_absent by exact Hpost. cbn. lia.
Qed.

Lemma exec_loop_one fl re s body fuel li st mr :
  exec fl re s li = Ok mr ->
  exec fl re s (end_index mr) = Fail ->
  2 <= fuel ->
  exec_loop fuel fl re s body li st = body mr st.
Proof.
  intros E1 E2 Hf. destruct fuel as [|[|fuel]]; [lia | lia|].
  cbn [exec_loop]. rewrite E1, E2. destruct (body mr st); reflexivity.
Qed.

(** X4.  A fenced block whose tag is made of word units and whose body
    holds no backtick, in a text with no other backtick, gives exactly one
    code artifact: its language is the tag ([text] without a tag), its
    content the trimmed body, its title the tag ([Code] without one)
    followed by [ Block]. *)
Theorem fenced_block_round_trip (pre lang body post : jsstring) :
  Forall (fun u => u <> 96%N) pre ->
  forallb is_word lang = true ->
  Forall (fun u => u <> 96%N) body ->
  Forall (fun u => u <> 96%N) post ->
  exists r,
    extractArtifacts (pre ++ fenced lang body ++ post) = Some r
    /\ filter (is_type code) (artifacts r)
       = [ Artifact code
             (Some (match lang with [] => js "text" | _ => lang end))
             (trim body)
             (match lang with [] => js "Code" | _ => lang end
              ++ js " Block") ].
Proof.
  intros Hpre Hlang Hbody Hpost.
  destruct (extractArtifacts_by_type (pre ++ fenced lang body ++ post))
    as (r & cs & w1 & ts & w2 & Hr & Hc & _ & _ & Hf & _).
  exists r. split; [exact Hr|]. rewrite Hf.
  unfold code_pass in Hc.
  rewrite exec_loop_one
    with (mr := MatchResult (length pre) (fenced lang body)
                  ((2, body) :: match lang with [] => [] | _ => [(1, lang)] end)
                  (length pre + length (fenced lang body))) in Hc.
  - unfold code_body in Hc.
    assert (E2 : get_cap 2
                   (captures
                      (MatchResult (length pre) (fenced lang body)
                         ((2, body)
                            :: match lang with [] => [] | _ => [(1, lang)] end)
                         (length pre + length (fenced lang body))))
                 = Some body) by reflexivity.
    rewrite E2 in Hc. injection Hc as <- _. cbn [fst snd app captures].
    destruct lang; reflexivity.
  - now apply exec_code_block.
  - cbn [end_index]. now apply exec_after_code_block.
  - rewrite !length_app. unfold fenced, fence. rewrite !length_app.
    cbn [length js]. lia.
Qed.

Lemma fenced_block_round_trip_witness :
  exists r,
    extractArtifacts
      (js "See: " ++ fenced (js "py") (js "print(1)\n") ++ js " done")
    = Some r
    /\ filter (is_type code) (artifacts r)
       = [ Artifact code (Some (js "py")) (trim (js "print(1)\n"))
             (js "py" ++ js " Block") ].
Proof.
  apply (@fenced_block_round_trip (js "See: ") (js "py") (js "print(1)\n")
           (js " done"));
    [repeat constructor; discriminate | reflexivity
    |repeat constructor; discriminate | repeat constructor; discriminate].
Defined.

(** * Runs of events *)

Lemma onmessage_content_new now nowIso data st r :
  is_fragment data = true ->
  streaming_last (messages st) = None ->
  extractArtifacts (fragment_text data) = Some r ->
  onmessage now nowIso data st
  = Some (Chat
            (messages st ++
               [ Msg.Message now (fragment_text data)
                   (Some (conversationalContent r)) (Some (artifacts r)) true
                   (Some (or_default (Ev.agent data) (js "Legal Assistant")))
                   (or_default (Ev.timestamp data) nowIso)
                   true (Some (0 <? length (artifacts r)))
                   (Ev.thinking data) false ])
            (isLoading st)).
Proof.
  unfold is_fragment, fragment_text, onmessage. intros Hf Hl Hr.
  apply andb_true_iff in Hf. destruct Hf as [Hf Hc].
  apply andb_true_iff in Hf. destruct Hf as [Hd He].
  apply negb_true_iff in Hd, He. rewrite Hd, He, Hc, Hl, Hr. reflexivity.
Qed.

Lemma onmessage_content_append now nowIso data prev m loading r :
  is_fragment data = true ->
  (Msg.isBot m && Msg.isStreaming m)%bool = true ->
  extractArtifacts (Msg.content m ++ fragment_text data) = Some r ->
  onmessage now nowIso data (Chat (prev ++ [m]) loading)
  = Some (Chat
            (prev ++
               [ Msg.Message (Msg.id m) (Msg.content m ++ fragment_text data)
                   (Some (conversationalContent r)) (Some (artifacts r))
                   (Msg.isBot m) (Msg.agent m) (Msg.timestamp m)
                   (Msg.isStreaming m) (Some (0 <? length (artifacts r)))
                   (or_else (Ev.thinking data) (Msg.thinking m))
                   (Msg.isError m) ])
            loading).
Proof.
  unfold is_fragment, fragment_text, onmessage. intros Hf Hm Hr.
  apply andb_true_iff in Hf. destruct Hf as [Hf Hc].
  apply andb_true_iff in Hf. destruct Hf as [Hd He].
  apply negb_true_iff in Hd, He. rewrite Hd, He, Hc.
  cbn [messages isLoading]. rewrite streaming_last_app, Hm, Hr. cbn [bind].
  rewrite map_last_app. reflexivity.
Qed.

(** An event that is none of the three kinds changes nothing. *)
Lemma onmessage_other now nowIso data st :
  Ev.done data = false ->
  truthy_opt (Ev.error data) = false ->
  truthy_opt (Ev.content data) = false ->
  onmessage now nowIso data st = Some st.
Proof. intros Hd He Hc. unfold onmessage. now rewrite Hd, He, Hc. Qed.

Lemma streaming_last_cases prev :
  streaming_last prev = None
  \/ exists init m, prev = init ++ [m]
                    /\ (Msg.isBot m && Msg.isStreaming m)%bool = true.
Proof.
  destruct (last_or_nil prev) as [-> | (init & m & ->)]; [now left|].
  rewrite streaming_last_app.
  destruct (Msg.isBot m && Msg.isStreaming m)%bool eqn:E; [|now left].
  right. now exists init, m.
Qed.

(** Fragments fed to a list whose last message is streaming. *)
Lemma feed_fragments_append evs :
  forall prev m loading,
    Forall (fun e => is_fragment (snd e) = true) evs ->
    (Msg.isBot m && Msg.isStreaming m)%bool = true ->
    exists m',
      feed evs (Chat (prev ++ [m]) loading) = Some (Chat (prev ++ [m']) loading)
      /\ Msg.id m' = Msg.id m
      /\ Msg.isBot m' = Msg.isBot m
      /\ Msg.isStreaming m' = Msg.isStreaming m
      /\ Msg.agent m' = Msg.agent m
      /\ Msg.timestamp m' = Msg.timestamp m
      /\ Msg.isError m' = Msg.isError m
      /\ Msg.content m'
         = Msg.content m ++ concat (map (fun e => fragment_text (snd e)) evs)
      /\ (evs <> [] -> exists r, extraction_of m' r)
      /\ (evs = [] -> m' = m).
Proof.
  induction evs as [|[[now nowIso] data] evs IH]; intros prev m loading Hf Hm.
  - exists m. cbn [feed map concat]. rewrite app_nil_r.
    repeat split; try reflexivity. congruence.
  - inversion Hf as [|? ? Hd Hf']; subst. cbn [snd] in Hd.
    destruct (extractArtifacts_total (Msg.content m ++ fragment_text data))
      as [r Hr].
    cbn [feed].
    erewrite onmessage_content_append; [|exact Hd | exact Hm | exact Hr].
    cbn [bind].
    set (m1 := Msg.Message _ _ _ _ _ _ _ _ _ _ _).
    destruct (IH prev m1 loading Hf' Hm)
      as (m' & Hfeed & Hid & Hb & Hs & Ha & Ht & He & Hc & Hder & Hnil).
    exists m'. split; [exact Hfeed|].
    repeat split; try assumption.
    + rewrite Hc. cbn [m1 Msg.content map concat snd]. now rewrite app_assoc.
    + intros _. destruct evs as [|e evs].
      * rewrite (Hnil eq_refl). exists r. unfold extraction_of.
        cbn [m1 Msg.artifacts Msg.content Msg.conversationalContent
             Msg.hasArtifact].
        repeat split. exact Hr.
      * apply Hder. discriminate.
    + discriminate.
Qed.

(** Fragments fed to a list whose last message is not streaming. *)
Lemma fragments_feed (e : N * jsstring * Ev.event)
    (evs : list (N * jsstring * Ev.event)) (st : chat) :
  streaming_last (messages st) = None ->
  Forall (fun e' => is_fragment (snd e') = true) (e :: evs) ->
  exists m r,
    feed (e :: evs) st = Some (Chat (messages st ++ [m]) (isLoading st))
    /\ Msg.id m = fst (fst e)
    /\ Msg.isBot m = true
    /\ Msg.isStreaming m = true
    /\ Msg.isError m = false
    /\ Msg.content m
       = concat (map (fun e' => fragment_text (snd e')) (e :: evs))
    /\ extractArtifacts (Msg.content m) = Some r
    /\ Msg.artifacts m = Some (artifacts r)
    /\ Msg.conversationalContent m = Some (conversationalContent r)
    /\ Msg.hasArtifact m = Some (0 <? length (artifacts r)).
Proof.
  destruct e as [[now nowIso] data]. intros Hl Hf.
  inversion Hf as [|? ? Hd Hf']; subst. cbn [snd] in Hd.
  destruct (extractArtifacts_total (fragment_text data)) as [r0 Hr0].
  cbn [feed]. erewrite onmessage_content_new; [|exact Hd | exact Hl | exact Hr0].
  cbn [bind]. set (m0 := Msg.Message _ _ _ _ _ _ _ _ _ _ _).
  destruct st as [ms loading]. cbn [messages isLoading].
  destruct (@feed_fragments_append evs ms m0 loading Hf' eq_refl)
    as (m' & Hfeed & Hid & Hb & Hs & _ & _ & He & Hc & Hder & Hnil).
  assert (Hex : exists r, extraction_of m' r).
  { destruct evs as [|e1 evs]; [|apply Hder; discriminate].
    rewrite (Hnil eq_refl). exists r0. unfold extraction_of.
    cbn [m0 Msg.artifacts Msg.content Msg.conversationalContent
         Msg.hasArtifact].
    repeat split. exact Hr0. }
  destruct Hex as (r & Hr & Ha & Hcc & Hh).
  exists m', r. split; [exact Hfeed|].
  split; [rewrite Hid; reflexivity|].
  split; [rewrite Hb; reflexivity|].
  split; [rewrite Hs; reflexivity|].
  split; [rewrite He; reflexivity|].
  split; [rewrite Hc; reflexivity|].
  repeat split; assumption.
Qed.


(** X5.  One or more fragments, fed in order to a list whose last message
    is not a streaming bot message, add one streaming bot message: its id
    is the clock reading of the first fragment, its content the fragments
    put together, and its artifacts, conversationalContent and hasArtifact
    are what extractArtifacts gives for that whole content, however the
    text was cut into fragments. *)
Theorem fragments_accumulate (e : N * jsstring * Ev.event)
    (evs : list (N * jsstring * Ev.event)) (st : chat) :
  streaming_last (messages st) = None ->
  Forall (fun e' => is_fragment (snd e') = true) (e :: evs) ->
  exists m r,
    feed (e :: evs) st = Some (Chat (messages st ++ [m]) (isLoading st))
    /\ Msg.id m = fst (fst e)
    /\ Msg.isBot m = true
    /\ Msg.isStreaming m = true
    /\ Msg.isError m = false
    /\ Msg.content m
       = concat (map (fun e' => fragment_text (snd e')) (e :: evs))
    /\ extractArtifacts (Msg.content m) = Some r
    /\ Msg.artifacts m = Some (artifacts r)
    /\ Msg.conversationalContent m = Some (conversationalContent r)
    /\ Msg.hasArtifact m = Some (0 <? length (artifacts r)).
Proof. apply fragments_feed. Qed.

Lemma fragments_accumulate_witness :
  exists m r,
    feed [ (1%N, js "t1", fragment (js "```js\ncon"));
           (2%N, js "t2", fragment (js "st x=1;\n```")) ]
         (Chat [] true)
    = Some (Chat ([] ++ [m]) true)
    /\ Msg.id m = 1%N
    /\ Msg.isBot m = true
    /\ Msg.isStreaming m = true
    /\ Msg.isError m = false
    /\ Msg.content m = js "```js\ncon" ++ js "st x=1;\n```" ++ []
    /\ extractArtifacts (Msg.content m) = Some r
    /\ Msg.artifacts m = Some (artifacts r)
    /\ Msg.conversationalContent m = Some (conversationalContent r)
    /\ Msg.hasArtifact m = Some (0 <? length (artifacts r)).
Proof.
  apply (@fragments_accumulate (1%N, js "t1", fragment (js "```js\ncon"))
           [ (2%N, js "t2", fragment (js "st x=1;\n```")) ] (Chat [] true)).
  - reflexivity.
  - repeat constructor.
Defined.

(** What one event does to the message list. *)
Lemma onmessage_cases now nowIso data st :
  exists st',
    onmessage now nowIso data st = Some st'
    /\ (messages st' = messages st
        \/ (exists m, messages st' = messages st ++ [m] /\ derived m)
        \/ (exists init m m',
              messages st = init ++ [m]
              /\ messages st' = init ++ [m']
              /\ (Msg.isBot m && Msg.isStreaming m)%bool = true
              /\ grown m m' /\ derived m')).
Proof.
  destruct (Ev.done data) eqn:Hd.
  { eexists. split; [unfold onmessage; rewrite Hd; reflexivity|]. now left. }
  destruct (truthy_opt (Ev.error data)) eqn:He.
  { eexists. split; [unfold onmessage; rewrite Hd, He; reflexivity|].
    right. left. eexists. split; [reflexivity|]. right.
    cbn [Msg.artifacts Msg.conversationalContent Msg.hasArtifact].
    repeat split. }
  destruct (truthy_opt (Ev.content data)) eqn:Hc.
  2:{ exists st. split; [now apply onmessage_other | now left]. }
  assert (Hf : is_fragment data = true)
    by (unfold is_fragment; now rewrite Hd, He, Hc).
  destruct (streaming_last_cases (messages st)) as [Hl | (init & m & E & Hm)].
  - destruct (extractArtifacts_total (fragment_text data)) as [r Hr].
    eexists. split; [eapply onmessage_content_new; eassumption|].
    right. left. eexists. split; [reflexivity|]. left. exists r.
    unfold extraction_of.
    cbn [Msg.artifacts Msg.content Msg.conversationalContent Msg.hasArtifact].
    repeat split. exact Hr.
  - destruct st as [ms loading]. cbn [messages] in E. subst ms.
    destruct (extractArtifacts_total (Msg.content m ++ fragment_text data))
      as [r Hr].
    eexists. split; [eapply onmessage_content_append; eassumption|].
    right. right. eexists init, m, _. cbn [messages].
    split; [reflexivity|]. split; [reflexivity|]. split; [exact Hm|]. split.
    + unfold grown.
      cbn [Msg.id Msg.isBot Msg.agent Msg.timestamp Msg.isStreaming
           Msg.isError Msg.content].
      repeat split. now exists (fragment_text data).
    + left. exists r. unfold extraction_of.
      cbn [Msg.artifacts Msg.content Msg.conversationalContent
           Msg.hasArtifact].
      repeat split. exact Hr.
Qed.

Lemma feed_total evs : forall st, exists st', feed evs st = Some st'.
Proof.
  induction evs as [|[[now nowIso] data] evs IH]; intros st.
  - now exists st.
  - destruct (onmessage_cases now nowIso data st) as (st1 & H1 & _).
    cbn [feed]. rewrite H1. cbn [bind]. apply IH.
Qed.

(** One event keeps the derived fields of every message. *)
Lemma onmessage_derived now nowIso data st :
  Forall derived (messages st) ->
  exists st',
    onmessage now nowIso data st = Some st'
    /\ Forall derived (messages st').
Proof.
  intros Hst.
  destruct (onmessage_cases now nowIso data st) as (st1 & H1 & Hc).
  exists st1. split; [exact H1|].
  destruct Hc as [-> | [(m & -> & Hm) | (init & m & m' & E & -> & _ & _ & Hm')]].
  - exact Hst.
  - apply Forall_app. split; [exact Hst | now constructor].
  - rewrite E in Hst. apply Forall_app in Hst. destruct Hst as [Hi _].
    apply Forall_app. split; [exact Hi | now constructor].
Qed.

Lemma grown_refl m : grown m m.
Proof.
  unfold grown. repeat split. exists []. now rewrite app_nil_r.
Qed.

Lemma grown_trans a b c : grown a b -> grown b c -> grown a c.
Proof.
  unfold grown.
  intros (H1 & H2 & H3 & H4 & H5 & H6 & s & H7)
         (G1 & G2 & G3 & G4 & G5 & G6 & t & G7).
  repeat split; try congruence.
  exists (s ++ t). now rewrite G7, H7, app_assoc.
Qed.

Lemma extends_refl ms : extends ms ms.
Proof.
  split.
  - intros _. exists []. now rewrite app_nil_r.
  - intros init m ->. exists m, []. split; [reflexivity | apply grown_refl].
Qed.

Lemma app_unit_inj {A} (u v : list A) a b :
  u ++ [a] = v ++ [b] -> u = v /\ a = b.
Proof. intros H. apply app_inj_tail in H. exact H. Qed.

Lemma extends_trans a b c : extends a b -> extends b c -> extends a c.
Proof.
  intros [H1 H2] [G1 G2]. split.
  - intros Ha. destruct (H1 Ha) as [tail ->].
    destruct (last_or_nil tail) as [-> | (ti & t & ->)].
    + rewrite app_nil_r in G1. destruct (G1 Ha) as [tail' ->].
      now exists tail'.
    + destruct (G2 (a ++ ti) t) as (t' & tail' & -> & _);
        [now rewrite app_assoc|].
      exists (ti ++ t' :: tail'). now rewrite app_assoc.
  - intros init m ->.
    destruct (H2 init m eq_refl) as (m' & tail & -> & Hg).
    destruct (last_or_nil tail) as [-> | (ti & t & ->)].
    + destruct (G2 init m' eq_refl) as (m'' & tail' & -> & Hg').
      exists m'', tail'. split; [reflexivity|].
      eapply grown_trans; eassumption.
    + destruct (G2 (init ++ m' :: ti) t) as (t' & tail' & -> & _).
      { rewrite <- app_assoc. reflexivity. }
      exists m', (ti ++ t' :: tail'). split; [|exact Hg].
      rewrite <- app_assoc. reflexivity.
Qed.

Lemma onmessage_extends now nowIso data st st' :
  onmessage now nowIso data st = Some st' ->
  extends (messages st) (messages st').
Proof.
  intros H.
  destruct (onmessage_cases now nowIso data st) as (st1 & H1 & Hc).
  rewrite H in H1. injection H1 as <-.
  destruct Hc as [-> | [(m & -> & _) | (init & m & m' & E & -> & Hm & Hg & _)]].
  - apply extends_refl.
  - split.
    + intros _. now exists [m].
    + intros init m0 ->. exists m0, [m]. split; [|apply grown_refl].
      now rewrite <- app_assoc.
  - rewrite E. split.
    + rewrite streaming_last_app, Hm. discriminate.
    + intros init0 m0 E0. apply app_unit_inj in E0. destruct E0 as [-> ->].
      now exists m', [].
Qed.

(** X7.  Whatever events arrive, no message is removed or reordered, every
    message but the last of the list is left as it is, and the last is
    left as it is or grown: the same id, author, agent, timestamp and
    flags, and a content that starts with its old content.  When the last
    message is not a streaming bot message every message is left as it is. *)
Theorem messages_only_grow (evs : list (N * jsstring * Ev.event))
    (st : chat) :
  exists st',
    feed evs st = Some st'
    /\ (streaming_last (messages st) = None ->
        exists tail, messages st' = messages st ++ tail)
    /\ (forall init m, messages st = init ++ [m] ->
        exists m' tail,
          messages st' = init ++ m' :: tail
          /\ Msg.id m' = Msg.id m
          /\ Msg.isBot m' = Msg.isBot m
          /\ Msg.agent m' = Msg.agent m
          /\ Msg.timestamp m' = Msg.timestamp m
          /\ Msg.isStreaming m' = Msg.isStreaming m
          /\ Msg.isError m' = Msg.isError m
          /\ exists more, Msg.content m' = Msg.content m ++ more).
Proof.
  enough (H : exists st', feed evs st = Some st'
                          /\ extends (messages st) (messages st')).
  { destruct H as (st' & Hf & H1 & H2). exists st'.
    split; [exact Hf|]. split; [exact H1|]. exact H2. }
  revert st. induction evs as [|[[now nowIso] data] evs IH]; intros st.
  - exists st. split; [reflexivity | apply extends_refl].
  - destruct (onmessage_cases now nowIso data st) as (st1 & H1 & _).
    destruct (IH st1) as (st' & Hf & He).
    exists st'. cbn [feed]. rewrite H1. cbn [bind]. split; [exact Hf|].
    eapply extends_trans; [|exact He].
    eapply onmessage_extends. exact H1.
Qed.

Lemma messages_only_grow_witness :
  exists st',
    feed [ (5%N, js "t5", fragment (js " more"));
           (6%N, js "t6", error_event (js "boom")) ]
         (Chat [ Msg.Message 1%N (js "partial") (Some (js "partial"))
                   (Some []) true (Some (js "Legal Assistant")) (js "t0")
                   true (Some false) None false ] true)
    = Some st'
    /\ exists m' tail,
         messages st' = [] ++ m' :: tail
         /\ Msg.id m' = 1%N
         /\ exists more, Msg.content m' = js "partial" ++ more.
Proof.
  destruct (@messages_only_grow
              [ (5%N, js "t5", fragment (js " more"));
                (6%N, js "t6", error_event (js "boom")) ]
              (Chat [ Msg.Message 1%N (js "partial") (Some (js "partial"))
                        (Some []) true (Some (js "Legal Assistant")) (js "t0")
                        true (Some false) None false ] true))
    as (st' & Hf & _ & H).
  exists st'. split; [exact Hf|].
  destruct (H [] _ eq_refl) as (m' & tail & E & Hid & _ & _ & _ & _ & _ & Hc).
  exists m', tail. split; [exact E|]. split; [exact Hid | exact Hc].
Defined.

Lemma onmessage_messages now nowIso data ms l l' :
  option_map messages (onmessage now nowIso data (Chat ms l))
  = option_map messages (onmessage now nowIso data (Chat ms l')).
Proof.
  unfold onmessage. cbn [messages isLoading].
  destruct (Ev.done data); [reflexivity|].
  destruct (truthy_opt (Ev.error data)); [reflexivity|].
  destruct (truthy_opt (Ev.content data)); [|reflexivity].
  destruct (streaming_last ms).
  - destruct (extractArtifacts _); reflexivity.
  - destruct (extractArtifacts _); reflexivity.
Qed.

Lemma feed_messages evs : forall ms l l',
  option_map messages (feed evs (Chat ms l))
  = option_map messages (feed (filter not_done evs) (Chat ms l')).
Proof.
  induction evs as [|[[now nowIso] data] evs IH]; intros ms l l';
    [reflexivity|].
  cbn [filter]. unfold not_done at 1. cbn [snd].
  destruct (Ev.done data) eqn:Hd; cbn [negb feed].
  - unfold onmessage at 1. rewrite Hd. cbn [bind messages]. apply IH.
  - pose proof (onmessage_messages now nowIso data ms l l') as H.
    destruct (onmessage now nowIso data (Chat ms l)) as [[ms1 l1]|],
             (onmessage now nowIso data (Chat ms l')) as [[ms1' l1']|];
      cbn [option_map messages] in H; try discriminate; cbn [bind].
    + injection H as <-. apply IH.
    + reflexivity.
Qed.

(** X8.  An event with [done] set changes nothing in the message list,
    whatever else it carries: the list after a run of events is the list
    after the same run without its [done] events.  No event ends the
    streaming of a message, so a fragment that follows [done] directly
    grows the message the fragments before [done] made. *)
Theorem done_leaves_messages (evs : list (N * jsstring * Ev.event))
    (st : chat) :
  exists st1 st2,
    feed evs st = Some st1
    /\ feed (filter not_done evs) st = Some st2
    /\ messages st1 = messages st2.
Proof.
  destruct (feed_total evs st) as [st1 H1].
  destruct (feed_total (filter not_done evs) st) as [st2 H2].
  exists st1, st2. split; [exact H1|]. split; [exact H2|].
  destruct st as [ms l].
  pose proof (feed_messages evs ms l l) as H.
  rewrite H1, H2 in H. cbn [option_map] in H. congruence.
Qed.

(** * sendMessage, createNewSession and the toggles *)

Lemma receive_loading now nowIso data st st' :
  keeps_turn (Receive now nowIso data) = true ->
  receive now nowIso data st = Some st' ->
  isLoading (chatState st') = isLoading (chatState st)
  /\ wsSent st' = wsSent st.
Proof.
  cbn [keeps_turn]. intros Hk. apply andb_true_iff in Hk.
  destruct Hk as [Hd He]. apply negb_true_iff in Hd, He.
  unfold receive, onmessage. rewrite Hd, He.
  destruct (truthy_opt (Ev.content data)).
  - destruct (streaming_last _).
    + destruct (extractArtifacts _); cbn [bind]; [|discriminate].
      intros H. injection H as <-. now split.
    + destruct (extractArtifacts _); cbn [bind]; [|discriminate].
      intros H. injection H as <-. now split.
  - cbn [bind]. intros H. injection H as <-. now split.
Qed.

Lemma receive_total now nowIso data st :
  exists st', receive now nowIso data st = Some st'.
Proof.
  destruct (onmessage_cases now nowIso data (chatState st)) as (c & Hc & _).
  unfold receive. rewrite Hc. cbn [bind]. eauto.
Qed.

Lemma act_total a st : exists st', act a st = Some st'.
Proof.
  destruct a; cbn [act]; eauto. apply receive_total.
Qed.

Lemma act_derived a st :
  Forall derived (messages (chatState st)) ->
  exists st',
    act a st = Some st' /\ Forall derived (messages (chatState st')).
Proof.
  intros Hst. destruct a; cbn [act].
  - destruct (@onmessage_derived now nowIso data _ Hst) as (c & Hc & Hd).
    unfold receive. rewrite Hc. cbn [bind]. eauto.
  - eexists. split; [reflexivity|]. unfold sendMessage.
    destruct (_ || _ || _)%bool; [exact Hst|].
    cbn [chatState messages]. apply Forall_app. split; [exact Hst|].
    constructor; [|constructor]. right. repeat split.
  - eexists. split; [reflexivity|]. constructor.
  - eexists. split; [reflexivity|]. exact Hst.
  - eexists. split; [reflexivity|]. exact Hst.
Qed.

Lemma run_derived acts : forall st,
  Forall derived (messages (chatState st)) ->
  exists st',
    run acts st = Some st' /\ Forall derived (messages (chatState st')).
Proof.
  induction acts as [|a acts IH]; intros st Hst.
  - now exists st.
  - destruct (@act_derived a _ Hst) as (st1 & H1 & Hd).
    cbn [run]. rewrite H1. cbn [bind]. now apply IH.
Qed.

(** X6.  Take any sequence of socket events whose parsed data is an
    [Ev.event] (text fields that are strings where present, [done] a
    boolean), calls of sendMessage and createNewSession, typing and
    picking an agent.  If every message of the list had its artifacts,
    conversationalContent and hasArtifact as extractArtifacts gives them
    for its content (or had none of the three), the sequence runs to its
    end and every message of the list afterwards has them so as well.
    Frames that [JSON.parse] refuses, or whose fields hold values of
    other types, are not events of this kind and nothing is stated about
    them. *)
Theorem derived_fields_kept (acts : list action) (st : component) :
  Forall derived (messages (chatState st)) ->
  exists st',
    run acts st = Some st' /\ Forall derived (messages (chatState st')).
Proof. apply run_derived. Qed.

Lemma derived_fields_kept_witness :
  exists st',
    run [ SetInput (js "table please"); Send 1%N (js "t1");
          Receive 2%N (js "t2") (fragment (js "|a|b|\n"));
          Receive 3%N (js "t3") (fragment (js "|c|d|\n"));
          Receive 4%N (js "t4") (error_event (js "boom")) ]
        (Component (Chat [] false) [] (js "team") true (js "session-0")
                   true [])
    = Some st'
    /\ Forall derived (messages (chatState st')).
Proof.
  apply (@derived_fields_kept
           [ SetInput (js "table please"); Send 1%N (js "t1");
             Receive 2%N (js "t2") (fragment (js "|a|b|\n"));
             Receive 3%N (js "t3") (fragment (js "|c|d|\n"));
             Receive 4%N (js "t4") (error_event (js "boom")) ]
           (Component (Chat [] false) [] (js "team") true (js "session-0")
                      true [])).
  constructor.
Defined.

(** X9.  While [isLoading] is set, and until a [done] event or an event
    with an error text arrives, nothing is given to the socket and
    [isLoading] stays set: every call of sendMessage in between returns
    at its guard, whatever the user types, whichever agent is picked, and
    also after createNewSession, which leaves [isLoading] as it is. *)
Theorem one_turn_at_a_time (acts : list action) (st : component) :
  isLoading (chatState st) = true ->
  forallb keeps_turn acts = true ->
  exists st',
    run acts st = Some st'
    /\ isLoading (chatState st') = true
    /\ wsSent st' = wsSent st.
Proof.
  revert st. induction acts as [|a acts IH]; intros st Hl Hk.
  - now exists st.
  - cbn [forallb] in Hk. apply andb_true_iff in Hk. destruct Hk as [Ha Hk].
    destruct (act_total a st) as [st1 H1].
    assert (H : isLoading (chatState st1) = true /\ wsSent st1 = wsSent st).
    { destruct a; cbn [act] in H1.
      - destruct (receive_loading _ _ _ _ Ha H1) as [E1 E2].
        split; congruence.
      - injection H1 as <-. unfold sendMessage. rewrite Hl.
        rewrite !orb_true_r. now split.
      - injection H1 as <-. now split.
      - injection H1 as <-. now split.
      - injection H1 as <-. now split. }
    destruct H as [Hl1 Hs1].
    destruct (IH st1 Hl1 Hk) as (st' & Hr & Hl' & Hs').
    exists st'. cbn [run]. rewrite H1. cbn [bind].
    split; [exact Hr|]. split; [exact Hl' | congruence].
Qed.

Lemma one_turn_at_a_time_witness :
  exists st',
    run [ Receive 2%N (js "t2") (fragment (js "Hello"));
          SetInput (js "again"); Send 3%N (js "t3");
          NewSession 4%N; SetInput (js "and again"); Send 5%N (js "t5") ]
        (Component (Chat [] true) [] (js "team") true (js "session-1") true [])
    = Some st'
    /\ isLoading (chatState st') = true
    /\ wsSent st'
       = wsSent (Component (Chat [] true) [] (js "team") true (js "session-1")
                     true []).
Proof.
  apply (@one_turn_at_a_time
           [ Receive 2%N (js "t2") (fragment (js "Hello"));
             SetInput (js "again"); Send 3%N (js "t3");
             NewSession 4%N; SetInput (js "and again"); Send 5%N (js "t5") ]
           (Component (Chat [] true) [] (js "team") true (js "session-1") true []));
    reflexivity.
Defined.

Lemma run_app a b st : run (a ++ b) st = (st' <- run a st ;; run b st').
Proof.
  revert st. induction a as [|x a IH]; intros st; [reflexivity|].
  cbn [app run]. destruct (act x st) as [st1|]; [|reflexivity].
  cbn [bind]. apply IH.
Qed.

Lemma run_receive evs : forall st c,
  feed evs (chatState st) = Some c ->
  run (map (fun e => Receive (fst (fst e)) (snd (fst e)) (snd e)) evs) st
  = Some (Component c (inputMessage st) (selectedAgent st) (isConnected st)
              (sessionId st) (wsOpen st) (wsSent st)).
Proof.
  induction evs as [|[[now nowIso] data] evs IH]; intros st c.
  - cbn [feed map run]. intros H. injection H as <-. now destruct st.
  - cbn [feed map run act fst snd]. unfold receive.
    destruct (onmessage now nowIso data (chatState st)) as [c1|];
      [|discriminate].
    cbn [bind]. intros H.
    erewrite IH; [|cbn [chatState]; exact H]. reflexivity.
Qed.

(** X10.  A turn.  When the input is not blank, the socket is connected
    and no turn is in flight, sendMessage followed by one or more
    fragments and a [done] event adds two messages to the list: the user
    message, whose content is the input as typed (not trimmed), and one
    bot message holding the fragments put together with the artifacts and
    the remainder extractArtifacts gives for them.  Afterwards the input
    is empty and [isLoading] is off again; the socket was given one object
    with the input, the agent and the session id if it was open, and
    nothing otherwise. *)
Theorem one_turn (now : N) (nowIso : jsstring) (st : component)
    (e : N * jsstring * Ev.event) (evs : list (N * jsstring * Ev.event))
    (doneNow : N) (doneIso : jsstring) :
  accepted st = true ->
  Forall (fun e' => is_fragment (snd e') = true) (e :: evs) ->
  exists st' user m r,
    run (Send now nowIso
           :: map (fun e' => Receive (fst (fst e')) (snd (fst e')) (snd e'))
                  (e :: evs)
           ++ [Receive doneNow doneIso done_event])
        st
    = Some st'
    /\ messages (chatState st') = messages (chatState st) ++ [user; m]
    /\ isLoading (chatState st') = false
    /\ inputMessage st' = []
    /\ Msg.content user = inputMessage st
    /\ Msg.isBot user = false
    /\ Msg.id user = now
    /\ Msg.isBot m = true
    /\ Msg.content m
       = concat (map (fun e' => fragment_text (snd e')) (e :: evs))
    /\ extractArtifacts (Msg.content m) = Some r
    /\ Msg.artifacts m = Some (artifacts r)
    /\ Msg.conversationalContent m = Some (conversationalContent r)
    /\ wsSent st'
       = wsSent st
         ++ (if wsOpen st
             then [ Payload (inputMessage st) (selectedAgent st)
                      (sessionId st) ]
             else []).
Proof.
  intros Ha Hf. unfold accepted in Ha.
  apply andb_true_iff in Ha. destruct Ha as [Ha Hl].
  apply andb_true_iff in Ha. destruct Ha as [Hi Hc].
  apply negb_true_iff in Hl.
  set (user := Msg.Message now (inputMessage st) None None false None nowIso
                 false None None false).
  set (st1 := sendMessage now nowIso st).
  assert (E1 : st1
               = Component (Chat (messages (chatState st) ++ [user]) true) []
                   (selectedAgent st) (isConnected st) (sessionId st)
                   (wsOpen st)
                   (if wsOpen st
                    then wsSent st ++ [ Payload (inputMessage st)
                                          (selectedAgent st) (sessionId st) ]
                    else wsSent st)).
  { unfold st1, sendMessage. rewrite Hi, Hc, Hl. reflexivity. }
  destruct (@fragments_feed e evs (chatState st1)) as (m & r & Hfeed & H).
  { rewrite E1. cbn [chatState messages]. rewrite streaming_last_app.
    reflexivity. }
  { exact Hf. }
  destruct H as (Hid & Hb & Hs & He & Hcn & Hr & Har & Hcc & Hh).
  eexists _, user, m, r. split.
  - cbn [run act bind]. fold st1. rewrite run_app.
    erewrite run_receive; [|exact Hfeed]. cbn [bind run act].
    unfold receive, onmessage, done_event. cbn [Ev.done bind chatState].
    reflexivity.
  - cbn [chatState messages isLoading inputMessage wsSent].
    rewrite E1. cbn [chatState messages isLoading inputMessage wsSent
                     selectedAgent isConnected sessionId wsOpen].
    split; [rewrite <- app_assoc; reflexivity|].
    repeat split; try assumption.
    destruct (wsOpen st); [reflexivity | now rewrite app_nil_r].
Qed.

Lemma one_turn_witness :
  exists st' user m r,
    run (Send 1%N (js "t1")
           :: map (fun e' => Receive (fst (fst e')) (snd (fst e')) (snd e'))
                  [ (2%N, js "t2", fragment (js "|a|b|\n"));
                    (3%N, js "t3", fragment (js "|c|d|\n")) ]
           ++ [Receive 4%N (js "t4") done_event])
        (Component (Chat [] false) (js " hi ") (js "team") true
                   (js "session-0") true [])
    = Some st'
    /\ messages (chatState st') = [] ++ [user; m]
    /\ isLoading (chatState st') = false
    /\ inputMessage st' = []
    /\ Msg.content user = js " hi "
    /\ Msg.isBot user = false
    /\ Msg.id user = 1%N
    /\ Msg.isBot m = true
    /\ Msg.content m = js "|a|b|\n" ++ js "|c|d|\n" ++ []
    /\ extractArtifacts (Msg.content m) = Some r
    /\ Msg.artifacts m = Some (artifacts r)
    /\ Msg.conversationalContent m = Some (conversationalContent r)
    /\ wsSent st' = [] ++ [ Payload (js " hi ") (js "team") (js "session-0") ].
Proof.
  apply (@one_turn 1%N (js "t1")
           (Component (Chat [] false) (js " hi ") (js "team") true
                      (js "session-0") true [])
           (2%N, js "t2", fragment (js "|a|b|\n"))
           [ (3%N, js "t3", fragment (js "|c|d|\n")) ] 4%N (js "t4")).
  - reflexivity.
  - repeat constructor.
Defined.

Lemma digits_inj d : forall d', digits d = digits d' -> d = d'.
Proof.
  induction d; destruct d'; cbn [digits]; intros H;
    try discriminate; try reflexivity;
    injection H as H; f_equal; now apply IHd.
Qed.

Lemma number_to_string_inj n n' :
  number_to_string n = number_to_string n' -> n = n'.
Proof.
  unfold number_to_string. intros H.
  apply DecimalN.Unsigned.to_uint_inj. now apply digits_inj.
Qed.

Lemma digits_no_hyphen d : Forall (fun u => u <> 45%N) (digits d).
Proof.
  induction d; cbn [digits]; constructor; try discriminate; assumption.
Qed.

Lemma split_at_unit (a : cu) u : forall u' v v',
  Forall (fun x => x <> a) u ->
  Forall (fun x => x <> a) u' ->
  u ++ a :: v = u' ++ a :: v' -> u = u' /\ v = v'.
Proof.
  induction u as [|x u IH]; intros u' v v' Hu Hu' E.
  - destruct u' as [|y u'].
    + cbn [app] in E. injection E as ->. now split.
    + cbn [app] in E. injection E as <- _. inversion Hu'. congruence.
  - destruct u' as [|y u'].
    + cbn [app] in E. injection E as -> _. inversion Hu. congruence.
    + cbn [app] in E. injection E as -> E. inversion Hu. inversion Hu'.
      subst. destruct (IH u' v v') as [-> ->]; auto.
Qed.

Lemma artifact_key_inj id i id' i' :
  artifact_key id i = artifact_key id' i' -> id = id' /\ i = i'.
Proof.
  unfold artifact_key. intros E.
  change (js "-") with [45%N] in E. cbn [app] in E.
  apply split_at_unit in E; try apply digits_no_hyphen.
  destruct E as [E1 E2].
  apply number_to_string_inj in E1, E2.
  split; [exact E1 | now apply Nat2N.inj].
Qed.

Lemma str_eqb_eq a : forall b, str_eqb a b = true <-> a = b.
Proof.
  induction a as [|x a IH]; intros [|y b]; cbn [str_eqb];
    split; intros H; try discriminate; try reflexivity.
  - apply andb_true_iff in H. destruct H as [H1 H2].
    apply N.eqb_eq in H1. apply IH in H2. congruence.
  - injection H as -> ->. apply andb_true_iff. split.
    + apply N.eqb_refl.
    + now apply IH.
Qed.

Lemma get_set_same k v o : get_key k (set_key k v o) = Some v.
Proof.
  induction o as [|[k' v'] o IH]; cbn [set_key get_key].
  - now rewrite str_eqb_refl.
  - destruct (str_eqb k' k) eqn:E; cbn [get_key]; rewrite E;
      [reflexivity | exact IH].
Qed.

Lemma get_set_other k k' v o :
  k <> k' -> get_key k (set_key k' v o) = get_key k o.
Proof.
  intros Hk. induction o as [|[k1 v1] o IH]; cbn [set_key get_key].
  - destruct (str_eqb k' k) eqn:E; [|reflexivity].
    apply str_eqb_eq in E. congruence.
  - destruct (str_eqb k1 k') eqn:E1; cbn [get_key].
    + destruct (str_eqb k1 k) eqn:E2; [|reflexivity].
      apply str_eqb_eq in E1, E2. congruence.
    + now rewrite IH.
Qed.

Lemma is_expanded_toggle k k' o :
  is_expanded k (toggle k' o)
  = if str_eqb k' k then negb (is_expanded k o) else is_expanded k o.
Proof.
  unfold toggle. destruct (str_eqb k' k) eqn:E.
  - apply str_eqb_eq in E. subst k'. unfold is_expanded at 1.
    now rewrite get_set_same.
  - unfold is_expanded at 1 3. rewrite get_set_other; [reflexivity|].
    intros ->. now rewrite str_eqb_refl in E.
Qed.

Lemma clicks_parity clicks id i : forall o,
  is_expanded (artifact_key id i)
    (fold_left (fun o c => toggleArtifact (artifact_key (fst c) (snd c)) o)
               clicks o)
  = xorb (is_expanded (artifact_key id i) o)
         (Nat.odd (length (filter (same_artifact (id, i)) clicks))).
Proof.
  induction clicks as [|[id' i'] clicks IH]; intros o.
  - cbn [fold_left filter length Nat.odd]. now rewrite xorb_false_r.
  - cbn [fold_left filter fst snd]. rewrite IH.
    unfold toggleArtifact. rewrite is_expanded_toggle.
    unfold same_artifact at 2. cbn [fst snd].
    destruct (str_eqb (artifact_key id' i') (artifact_key id i)) eqn:E.
    + apply str_eqb_eq, artifact_key_inj in E. destruct E as [-> ->].
      rewrite N.eqb_refl, Nat.eqb_refl. cbn [andb length].
      rewrite Nat.odd_succ, <- Nat.negb_odd.
      now destruct (is_expanded _ o), (Nat.odd _).
    + destruct (N.eqb id id' && Nat.eqb i i')%bool eqn:E'; [|reflexivity].
      apply andb_true_iff in E'. destruct E' as [E1 E2].
      apply N.eqb_eq in E1. apply Nat.eqb_eq in E2. subst.
      now rewrite str_eqb_refl in E.
Qed.

(** X11.  After any run of clicks on artifact buttons, starting with
    nothing expanded, the artifact at index [i] of the message with id
    [id] is shown expanded exactly when it was clicked an odd number of
    times: a click on one artifact never changes another, as the keys of
    two artifacts are the same only for the same id and index. *)
Theorem artifact_toggles (clicks : list (N * nat)) (id : N) (i : nat) :
  is_expanded (artifact_key id i) (after_clicks clicks)
  = Nat.odd (length (filter (same_artifact (id, i)) clicks)).
Proof.
  unfold after_clicks. rewrite clicks_parity. reflexivity.
Qed.

(** X12.  Two calls of createNewSession give the same session id exactly
    when their clock readings are the same.  createNewSession empties the
    message list, and leaves [isLoading] and what was typed as they are. *)
Theorem new_session (now now' : N) (st st' : component) :
  (sessionId (createNewSession now st) = sessionId (createNewSession now' st')
   <-> now = now')
  /\ messages (chatState (createNewSession now st)) = []
  /\ isLoading (chatState (createNewSession now st))
     = isLoading (chatState st)
  /\ inputMessage (createNewSession now st) = inputMessage st.
Proof.
  split; [|repeat split]. cbn [createNewSession sessionId]. split.
  - intros H. apply app_inv_head in H. now apply number_to_string_inj.
  - now intros ->.
Qed.

(** * Table artifacts under the formatter *)

Lemma exec_from_table_pipe s :
  forall idx pv mr,
    exec_from no_flags tableRegex idx pv s = Ok mr ->
    exists t, m0 mr = pipe :: t.
Proof.
  induction s as [|b s IH]; intros idx pv mr H; rewrite exec_from_eq in H;
    destruct (compile no_flags tableRegex _ _) as [y| |] eqn:E;
    try discriminate.
  - destruct (N.eq_dec b pipe) as [-> | Hb].
    + apply attempt_sound in E. destruct E as (pre & Hs & Hn & Hf).
      cbv zeta in H. rewrite Hf in H. injection H as <-. cbn [m0].
      change (min_length tableRegex) with 3 in Hn.
      destruct pre as [|u pre]; [cbn [length] in Hn; lia|].
      cbn [app] in Hs. injection Hs as <- _. eauto.
    + exfalso. unfold tableRegex in E.
      rewrite compile_Group, compile_Seq, tableRow_no_pipe in E;
        [discriminate | exact Hb].
  - eapply IH. exact H.
Qed.

Lemma exec_table_pipe s li mr :
  exec no_flags tableRegex s li = Ok mr -> exists t, m0 mr = pipe :: t.
Proof.
  unfold exec. destruct (_ <? _); [discriminate|].
  apply exec_from_table_pipe.
Qed.

(** A table artifact as the table pass makes it: no language, the title
    of the source, and a content that is trimmed, starts with a pipe and
    has two rows or more. *)
Lemma table_pass_shape text ts w :
  table_pass text ([], text) = Some (ts, w) ->
  Forall (fun a =>
            type a = table
            /\ trim (content a) = content a
            /\ (exists t, content a = pipe :: t)
            /\ 2 <= length (content_rows (content a))) ts.
Proof.
  intros H.
  change (Forall (fun a =>
            type a = table
            /\ trim (content a) = content a
            /\ (exists t, content a = pipe :: t)
            /\ 2 <= length (content_rows (content a))) (fst (ts, w))).
  eapply exec_loop_inv
    with (I := fun st =>
                 Forall (fun a =>
                           type a = table
                           /\ trim (content a) = content a
                           /\ (exists t, content a = pipe :: t)
                           /\ 2 <= length (content_rows (content a)))
                        (fst st));
    [| |exact H]; [|constructor].
  intros li mr st st1 E Hst B. rewrite (table_body_fst _ _ B).
  apply Forall_app. split; [exact Hst|].
  unfold table_artifact. cbv zeta.
  destruct (2 <=? _) eqn:E2; constructor; [|constructor].
  cbn [content type]. apply Nat.leb_le in E2.
  split; [reflexivity|]. split; [apply trim_idem|].
  split; [|exact E2].
  unfold tableRegex in E. erewrite exec_group_capture by exact E.
  rewrite or_default_nil.
  apply exec_table_pipe in E. destruct E as [t ->].
  apply trim_nonspace_head. reflexivity.
Qed.

Lemma formatted_table a :
  type a = table ->
  trim (content a) = content a ->
  (exists t, content a = pipe :: t) ->
  2 <= length (content_rows (content a)) ->
  exists headerRow separatorRow dataRows,
    nonblank_rows (content a) = headerRow :: separatorRow :: dataRows
    /\ includes pipe headerRow = true
    /\ formatArtifactContent a
       = Some (if includes 45%N separatorRow
               then render_table (row_cells headerRow)
                      (map row_cells dataRows)
               else content a).
Proof.
  intros Ht Htrim [t Hc] Hrows.
  assert (Hnb : nonblank_rows (content a) = content_rows (content a))
    by (unfold nonblank_rows, content_rows; now rewrite Htrim).
  assert (Hhead : exists w rows,
             content_rows (content a) = (pipe :: w) :: rows).
  { unfold content_rows. rewrite Hc.
    destruct (@split_head nl pipe t) as (w & ws & ->); [discriminate|].
    cbn [filter].
    destruct (@trim_nonspace_head pipe w) as [w' ->]; [reflexivity|].
    cbn [truthy]. eauto. }
  destruct Hhead as (w & rows & Hcr). rewrite Hcr in Hrows.
  destruct rows as [|separatorRow dataRows]; [cbn [length] in Hrows; lia|].
  exists (pipe :: w), separatorRow, dataRows.
  rewrite Hnb, Hcr. split; [reflexivity|].
  assert (Hp : includes pipe (pipe :: w) = true) by reflexivity.
  split; [exact Hp|].
  unfold formatArtifactContent. rewrite Ht.
  unfold parseMarkdownTable, table_parts. rewrite Hnb, Hcr, Hp.
  cbn [negb orb]. now destruct (includes 45%N separatorRow).
Qed.

(** X13.  Every table artifact extractArtifacts returns has a header row
    that holds a pipe and at least one more row.  formatArtifactContent
    gives for it the table built from the header row and the rows after
    the second one when the second row holds a hyphen; when the second row
    holds no hyphen it gives the content of the artifact as it is, no
    table. *)
Theorem table_artifacts_formatted (text : jsstring) :
  exists r,
    extractArtifacts text = Some r
    /\ Forall
         (fun a =>
            exists headerRow separatorRow dataRows,
              nonblank_rows (content a)
              = headerRow :: separatorRow :: dataRows
              /\ includes pipe headerRow = true
              /\ formatArtifactContent a
                 = Some (if includes 45%N separatorRow
                         then render_table (row_cells headerRow)
                                (map row_cells dataRows)
                         else content a))
         (filter (is_type table) (artifacts r)).
Proof.
  destruct (extractArtifacts_by_type text)
    as (r & cs & w1 & ts & w2 & Hr & _ & Ht & _ & _ & Hft & _).
  exists r. split; [exact Hr|]. rewrite Hft.
  apply table_pass_shape in Ht.
  eapply Forall_impl; [|exact Ht].
  intros a (H1 & H2 & H3 & H4). now apply formatted_table.
Qed.

(** * The text shown for a message *)

Lemma fallback_not_empty arts cleaned :
  arts <> [] -> fallback arts cleaned <> [].
Proof.
  intros Harts.
  destruct (fallback_cases arts cleaned) as [E | (_ & _ & [E | [E | E]])];
    rewrite E; try discriminate.
  intros ->. unfold fallback in E. cbn [truthy negb andb] in E.
  destruct arts as [|a l]; [congruence|].
  cbn [length Nat.ltb Nat.leb] in E.
  destruct (existsb (is_type table) (a :: l)) eqn:Et; [discriminate|].
  destruct (existsb (is_type code) (a :: l)) eqn:Ec; [discriminate|].
  destruct (existsb (is_type document) (a :: l)) eqn:Ed; [discriminate|].
  cbn [existsb] in Et, Ec, Ed.
  apply orb_false_iff in Et, Ec, Ed.
  destruct Et as [Et _], Ec as [Ec _], Ed as [Ed _].
  unfold is_type in Et, Ec, Ed. destruct (type a); discriminate.
Qed.

Lemma extraction_remainder text r :
  extractArtifacts text = Some r ->
  conversationalContent r = [] -> artifacts r = [].
Proof.
  intros Hr Hempty.
  destruct (extractArtifacts_passes text)
    as (cs & w1 & ts & w2 & rc & cleaned & _ & _ & _ & _ & H).
  rewrite Hr in H. injection H as ->.
  cbn [conversationalContent artifacts] in *.
  destruct (cs ++ ts ++ doc_artifact text) as [|a l] eqn:Ea; [reflexivity|].
  exfalso. revert Hempty. apply fallback_not_empty. discriminate.
Qed.

Lemma display_text_derived m :
  derived m ->
  display_text m
  = match Msg.conversationalContent m with
    | Some (u :: c) => u :: c
    | _ => Msg.content m
    end
  /\ (shows_artifacts m = true ->
      exists u c, Msg.conversationalContent m = Some (u :: c)).
Proof.
  unfold display_text, shows_artifacts.
  intros [(r & Hr & Ha & Hc & Hh) | (Ha & Hc & Hh)].
  - rewrite Hc, Hh, Ha. cbn [truthy_opt truthy_flag or_default].
    destruct (conversationalContent r) as [|u c] eqn:E.
    + rewrite (@extraction_remainder _ _ Hr E). cbn [truthy length Nat.ltb Nat.leb].
      split; [reflexivity|]. rewrite andb_false_r. discriminate.
    + cbn [truthy]. split; [reflexivity|]. eauto.
  - rewrite Hc, Hh, Ha. cbn [truthy_opt truthy_flag].
    split; [reflexivity|]. rewrite andb_false_r. discriminate.
Qed.

(** X14.  For every message of the list, after whatever happened to the
    component starting from a list with derived fields (the empty list
    for one), the text the view shows is the conversationalContent of
    the message when that is not empty, and its content otherwise: the
    sentence of the view about an artifact below is never shown.  When
    the artifact section of a message is shown, its
    conversationalContent is not empty. *)
Theorem text_shown (acts : list action) (st : component) :
  Forall derived (messages (chatState st)) ->
  exists st',
    run acts st = Some st'
    /\ Forall
         (fun m =>
            display_text m
            = match Msg.conversationalContent m with
              | Some (u :: c) => u :: c
              | _ => Msg.content m
              end
            /\ (shows_artifacts m = true ->
                exists u c, Msg.conversationalContent m = Some (u :: c)))
         (messages (chatState st')).
Proof.
  intros Hst. destruct (@run_derived acts _ Hst) as (st' & Hr & Hd).
  exists st'. split; [exact Hr|].
  eapply Forall_impl; [|exact Hd]. apply display_text_derived.
Qed.

Lemma text_shown_witness :
  exists st',
    run [ SetInput (js "table please"); Send 1%N (js "t1");
          Receive 2%N (js "t2") (fragment (js "|a|b|\n"));
          Receive 3%N (js "t3") (fragment (js "|c|d|\n")) ]
        (Component (Chat [] false) [] (js "team") true (js "session-0")
                   true [])
    = Some st'
    /\ Forall
         (fun m =>
            display_text m
            = match Msg.conversationalContent m with
              | Some (u :: c) => u :: c
              | _ => Msg.content m
              end
            /\ (shows_artifacts m = true ->
                exists u c, Msg.conversationalContent m = Some (u :: c)))
         (messages (chatState st')).
Proof.
  apply (@text_shown
           [ SetInput (js "table please"); Send 1%N (js "t1");
             Receive 2%N (js "t2") (fragment (js "|a|b|\n"));
             Receive 3%N (js "t3") (fragment (js "|c|d|\n")) ]
           (Component (Chat [] false) [] (js "team") true (js "session-0")
                      true [])).
  constructor.
Defined.

(** * Replacement with a template *)

Lemma replace_loop_template_total fl re s template :
  forall fuel li nsp acc,
    S (length s) - li < fuel ->
    exists out,
      replace_loop_template fuel fl re s template li nsp acc = Some out.
Proof.
  induction fuel as [|fuel IH]; intros li nsp acc Hf; [lia|].
  cbn [replace_loop_template]. destruct (exec fl re s li) as [mr| |] eqn:E.
  - apply exec_sound in E.
    destruct E as (before & post & Hs & Hb & Hli & He & Hle & Hn).
    cbv zeta.
    destruct (Nat.eqb (length (m0 mr)) 0) eqn:E0;
      [apply Nat.eqb_eq in E0 | apply Nat.eqb_neq in E0];
      destruct (nsp <=? index mr); apply IH; lia.
  - eauto.
  - exfalso. revert E. apply exec_safe.
Qed.

Lemma replace_all_template_total fl re template s :
  exists out, replace_all_template fl re template s = Some out.
Proof. apply replace_loop_template_total. lia. Qed.

(** More fuel does not change a result. *)
Lemma replace_loop_template_mono fl re s template :
  forall fuel li nsp acc out,
    replace_loop_template fuel fl re s template li nsp acc = Some out ->
    forall fuel', fuel <= fuel' ->
      replace_loop_template fuel' fl re s template li nsp acc = Some out.
Proof.
  induction fuel as [|fuel IH]; intros li nsp acc out H fuel' Hf;
    [discriminate|].
  destruct fuel' as [|fuel']; [lia|].
  cbn [replace_loop_template] in H |- *.
  destruct (exec fl re s li) as [mr| |]; [|exact H | discriminate].
  cbv zeta in H |- *.
  destruct (nsp <=? index mr); (eapply IH; [exact H | lia]).
Qed.

Lemma replace_all_template_by fl re template s out fuel :
  replace_loop_template fuel fl re s template 0 0 [] = Some out ->
  replace_all_template fl re template s = Some out.
Proof.
  intros H. destruct (replace_all_template_total fl re template s) as [o Ho].
  rewrite Ho. unfold replace_all_template in Ho.
  apply replace_loop_template_mono with (fuel' := fuel + (2 + length s)) in H;
    [|lia].
  apply replace_loop_template_mono with (fuel' := fuel + (2 + length s)) in Ho;
    [|lia].
  congruence.
Qed.

Lemma replace_all_template_no_match fl re template s :
  exec fl re s 0 = Fail -> replace_all_template fl re template s = Some s.
Proof.
  intros E. unfold replace_all_template. cbn [Nat.add replace_loop_template].
  now rewrite E.
Qed.

Lemma replace_first_template_no_match fl re template s :
  exec fl re s 0 = Fail -> replace_first_template fl re template s = Some s.
Proof. intros E. unfold replace_first_template. now rewrite E. Qed.

Lemma formatConversationalContent_total s :
  exists out, formatConversationalContent s = Some out.
Proof.
  unfold formatConversationalContent.
  destruct (replace_all_template_total no_flags inlineCodeRegex
              inlineCodeTemplate s) as [f1 ->].
  cbn [bind].
  destruct (replace_all_template_total no_flags boldRegex
              (js "<strong>$1</strong>") f1) as [f2 ->].
  cbn [bind].
  destruct (replace_all_template_total bulletFlags bulletRegex
              (js "<li>$1</li>") f2) as [f3 ->].
  cbn [bind]. unfold replace_first_template.
  destruct (exec no_flags listRegex f3 0) eqn:E; eauto.
  exfalso. revert E. apply exec_safe.
Qed.

(** ** exec at a position *)

Lemma unit_before_app u v : unit_before (u ++ v) (length u) = last_unit None u.
Proof.
  destruct (last_or_nil u) as [-> | (u' & x & ->)]; [reflexivity|].
  rewrite length_app. cbn [length]. rewrite Nat.add_1_r. cbn [unit_before].
  rewrite <- app_assoc. cbn [app].
  rewrite nth_error_app2 by lia. rewrite Nat.sub_diag. cbn [nth_error].
  unfold last_unit. rewrite map_app. cbn [map]. now rewrite last_app_unit.
Qed.

Lemma exec_at fl re u v :
  exec fl re (u ++ v) (length u)
  = exec_from fl re (length u) (last_unit None u) v.
Proof.
  unfold exec.
  destruct (_ <? _) eqn:E;
    [apply Nat.ltb_lt in E; rewrite length_app in E; lia|].
  now rewrite skipn_app_exact, unit_before_app.
Qed.

Lemma exec_from_nil fl re idx pv :
  0 < min_length re -> exec_from fl re idx pv [] = Fail.
Proof.
  intros Hmin. destruct (exec_from fl re idx pv []) as [mr| |] eqn:E;
    [|reflexivity|].
  - apply exec_from_sound in E.
    destruct E as (sk & post & Hs & _ & _ & Hn).
    symmetry in Hs. apply app_eq_nil in Hs. destruct Hs as [_ Hs].
    apply app_eq_nil in Hs. destruct Hs as [Hs _]. rewrite Hs in Hn.
    cbn [length] in Hn. lia.
  - exfalso. revert E. apply exec_from_safe.
Qed.

(** The search passes over units the expression cannot start with. *)
Lemma exec_from_skip fl re (a : cu) :
  (forall pv b t, b <> a ->
     compile fl re (MState pv (b :: t) []) (fun y => Ok y) = Fail) ->
  forall p, Forall (fun u => u <> a) p ->
  forall idx pv v,
    exec_from fl re idx pv (p ++ v)
    = exec_from fl re (idx + length p) (last_unit pv p) v.
Proof.
  intros Hre p Hp. induction Hp as [|u p Hu _ IH]; intros idx pv v.
  - cbn [app length]. now rewrite Nat.add_0_r.
  - cbn [app]. rewrite exec_from_eq, Hre by exact Hu.
    rewrite IH, last_unit_cons. cbn [length]. f_equal. lia.
Qed.

(** The expression matches nowhere in a text without the two units it
    has to start with. *)
Lemma exec_from_no_pair fl re (a b : cu) :
  (forall pv l, starts_pair a b l = false ->
     compile fl re (MState pv l []) (fun y => Ok y) = Fail) ->
  forall s idx pv, has_pair a b s = false -> exec_from fl re idx pv s = Fail.
Proof.
  intros Hre. induction s as [|u s IH]; intros idx pv H;
    rewrite exec_from_eq.
  - rewrite Hre by reflexivity. reflexivity.
  - cbn [has_pair] in H. apply orb_false_iff in H. destruct H as [H1 H2].
    rewrite Hre by exact H1. now apply IH.
Qed.

Lemma exec_no_pair fl re (a b : cu) s :
  (forall pv l, starts_pair a b l = false ->
     compile fl re (MState pv l []) (fun y => Ok y) = Fail) ->
  has_pair a b s = false -> exec fl re s 0 = Fail.
Proof.
  intros Hre H. unfold exec. cbn [Nat.ltb Nat.leb skipn unit_before].
  now apply exec_from_no_pair with (a := a) (b := b).
Qed.

(** ** A text cut into pieces *)

Lemma replace_loop_template_exec fl re s template fuel li li' nsp acc :
  exec fl re s li = exec fl re s li' ->
  replace_loop_template fuel fl re s template li nsp acc
  = replace_loop_template fuel fl re s template li' nsp acc.
Proof.
  intros E. destruct fuel as [|fuel]; [reflexivity|].
  cbn [replace_loop_template]. now rewrite E.
Qed.

Lemma pieces_replaced fl re template :
  0 < min_length re ->
  forall ps done pending acc fuel,
    pieces_found fl re template (last_unit None (done ++ pending)) ps ->
    length ps < fuel ->
    replace_loop_template fuel fl re
      (done ++ pending ++ pieces_source ps) template
      (length (done ++ pending)) (length done) acc
    = Some (acc ++ pending ++ pieces_result ps).
Proof.
  intros Hmin. induction ps as [|[p | m cs r] ps IH];
    intros done pending acc fuel Hok Hf.
  - destruct fuel as [|fuel]; [cbn [length] in Hf; lia|].
    cbn [replace_loop_template pieces_source pieces_result flat_map].
    rewrite !app_nil_r. rewrite <- (app_nil_r (done ++ pending)) at 1.
    rewrite exec_at, exec_from_nil by exact Hmin.
    now rewrite skipn_app_exact.
  - cbn [pieces_found] in Hok. destruct Hok as [Hskip Hok].
    cbn [pieces_source pieces_result flat_map piece_source piece_result].
    fold (pieces_source ps). fold (pieces_result ps).
    assert (E : exec fl re (done ++ pending ++ p ++ pieces_source ps)
                  (length (done ++ pending))
                = exec fl re (done ++ pending ++ p ++ pieces_source ps)
                    (length (done ++ (pending ++ p)))).
    { replace (done ++ pending ++ p ++ pieces_source ps)
        with ((done ++ pending) ++ p ++ pieces_source ps)
        by (now rewrite <- !app_assoc).
      rewrite exec_at, Hskip.
      replace ((done ++ pending) ++ p ++ pieces_source ps)
        with ((done ++ pending ++ p) ++ pieces_source ps)
        by (now rewrite <- !app_assoc).
      rewrite exec_at, last_unit_app. f_equal.
      - now rewrite !length_app, Nat.add_assoc.
      - now rewrite <- !app_assoc. }
    rewrite replace_loop_template_exec
      with (li' := length (done ++ (pending ++ p))) by exact E.
    replace (done ++ pending ++ p ++ pieces_source ps)
      with (done ++ (pending ++ p) ++ pieces_source ps)
      by (now rewrite <- !app_assoc).
    rewrite IH.
    + now rewrite <- !app_assoc.
    + rewrite app_assoc, <- last_unit_app. rewrite last_unit_app in Hok.
      rewrite last_unit_app. now rewrite <- app_assoc in Hok |- *.
    + cbn [length] in Hf. lia.
  - cbn [pieces_found] in Hok.
    destruct Hok as (Hm & (pv' & Hc) & Hsub & Hok).
    cbn [pieces_source pieces_result flat_map piece_source piece_result].
    fold (pieces_source ps). fold (pieces_result ps).
    destruct fuel as [|fuel]; [cbn [length] in Hf; lia|].
    cbn [replace_loop_template].
    assert (E : exec fl re (done ++ pending ++ m ++ pieces_source ps)
                  (length (done ++ pending))
                = Ok (MatchResult (length (done ++ pending)) m cs
                        (length (done ++ pending) + length m))).
    { rewrite app_assoc, exec_at, exec_from_eq, Hc. cbn [rest caps].
      cbv zeta. now rewrite firstn_app_exact. }
    rewrite E. cbv zeta. cbn [m0 index end_index].
    assert (Hlen : Nat.eqb (length m) 0 = false).
    { apply Nat.eqb_neq. destruct m; [congruence | cbn [length]; lia]. }
    rewrite Hlen.
    assert (Hle : (length done <=? length (done ++ pending)) = true)
      by (apply Nat.leb_le; rewrite length_app; lia).
    rewrite Hle. unfold substitution. cbn [m0 index captures]. rewrite Hsub.
    assert (Hpend : firstn (length (done ++ pending) - length done)
                      (skipn (length done)
                         (done ++ pending ++ m ++ pieces_source ps))
                    = pending).
    { rewrite skipn_app_exact, length_app, Nat.add_comm, Nat.add_sub.
      rewrite firstn_app, Nat.sub_diag, firstn_all. cbn [firstn].
      apply app_nil_r. }
    rewrite Hpend.
    replace (done ++ pending ++ m ++ pieces_source ps)
      with ((done ++ pending ++ m) ++ [] ++ pieces_source ps)
      by (now rewrite <- !app_assoc).
    replace (length (done ++ pending) + length m)
      with (length ((done ++ pending ++ m) ++ []))
      by (now rewrite app_nil_r, !length_app, Nat.add_assoc).
    replace (length ((done ++ pending ++ m) ++ []))
      with (length (done ++ pending ++ m)) at 2
      by (now rewrite app_nil_r).
    rewrite IH.
    + cbn [app]. now rewrite <- !app_assoc.
    + rewrite app_nil_r. rewrite last_unit_app in Hok.
      now rewrite <- app_assoc in Hok.
    + cbn [length] in Hf. lia.
Qed.

(** The replacement of a text cut into pieces. *)
Lemma replace_all_pieces fl re template ps :
  0 < min_length re ->
  pieces_found fl re template None ps ->
  replace_all_template fl re template (pieces_source ps)
  = Some (pieces_result ps).
Proof.
  intros Hmin Hok.
  apply replace_all_template_by with (fuel := S (length ps)).
  apply (@pieces_replaced fl re template Hmin ps [] [] [] (S (length ps)));
    [exact Hok | lia].
Qed.

(** ** Where the four expressions can start *)

Lemma starts_pair_lit a b w l :
  starts_pair a b l = false ->
  starts_with_ci no_flags (a :: b :: w) l = false.
Proof.
  destruct l as [|x [|y t]]; try reflexivity.
  - intros _. cbn [starts_with_ci]. now rewrite andb_false_r.
  - cbn [starts_pair starts_with_ci].
    rewrite (char_test_no_flags a x), (char_test_no_flags b y).
    destruct (cu_eqb a x), (cu_eqb b y); cbn [andb]; congruence.
Qed.

Lemma starts_pair_head a b x t : x <> a -> starts_pair a b (x :: t) = false.
Proof.
  intros Hx. destruct t as [|y t]; [reflexivity|]. cbn [starts_pair].
  unfold cu_eqb at 1. destruct (N.eqb_spec a x); [congruence | reflexivity].
Qed.

Lemma inlineCodeRegex_first pv b t :
  b <> 96%N ->
  compile no_flags inlineCodeRegex (MState pv (b :: t) []) (fun y => Ok y)
  = Fail.
Proof.
  intros Hb. unfold inlineCodeRegex, seqs.
  rewrite compile_Seq, compile_Char. unfold unit_matcher. cbn [rest].
  rewrite char_test_no_flags. unfold cu_eqb.
  destruct (N.eqb_spec 96 b); [congruence | reflexivity].
Qed.

Lemma boldRegex_pair pv l :
  starts_pair 42%N 42%N l = false ->
  compile no_flags boldRegex (MState pv l []) (fun y => Ok y) = Fail.
Proof.
  intros H. unfold boldRegex, seqs.
  rewrite compile_Seq, compile_lit by discriminate. cbn [rest].
  change (js "**") with [42%N; 42%N]. now rewrite starts_pair_lit.
Qed.

Lemma bulletRegex_pair pv l :
  starts_pair 45%N 32%N l = false ->
  compile bulletFlags bulletRegex (MState pv l []) (fun y => Ok y) = Fail.
Proof.
  intros H. unfold bulletRegex, seqs.
  rewrite compile_Seq. cbn [compile]. destruct (at_bol _ _); [|reflexivity].
  cbn [rest caps]. destruct l as [|x [|y t]]; try reflexivity.
  - destruct (cu_eqb _ _); reflexivity.
  - cbn [starts_pair] in H. change (canonicalize bulletFlags 45%N) with 45%N.
    change (canonicalize bulletFlags 32%N) with 32%N.
    change (canonicalize bulletFlags x) with x.
    change (canonicalize bulletFlags y) with y.
    destruct (cu_eqb 45%N x); [|reflexivity]. cbn [andb] in H. cbn [rest caps].
    now rewrite H.
Qed.

Lemma listRegex_pair pv l :
  starts_pair 60%N 108%N l = false ->
  compile no_flags listRegex (MState pv l []) (fun y => Ok y) = Fail.
Proof.
  intros H. unfold listRegex, seqs.
  rewrite compile_Group, compile_Seq, compile_lit by discriminate.
  cbn [rest]. change (js "<li>") with [60%N; 108%N; 105%N; 62%N].
  now rewrite starts_pair_lit.
Qed.

Lemma has_pair_skip a b p :
  Forall (fun u => u <> a) p ->
  forall v, has_pair a b (p ++ v) = has_pair a b v.
Proof.
  intros Hp v. induction Hp as [|u p Hu _ IH]; [reflexivity|].
  cbn [app has_pair]. now rewrite starts_pair_head, IH.
Qed.

Lemma has_pair_nil a b : has_pair a b [] = false.
Proof. reflexivity. Qed.

Lemma occurs_pair a b s : occurs [a; b] s = has_pair a b s.
Proof.
  induction s as [|x s IH]; [reflexivity|].
  cbn [occurs has_pair]. rewrite IH. f_equal.
  destruct s as [|y s]; cbn [starts_with starts_pair].
  - now rewrite andb_false_r.
  - now rewrite andb_true_r.
Qed.

(** X15.  A text with at most one backtick in which neither two
    asterisks, nor a hyphen and a space, nor [<l] occur comes out of
    formatConversationalContent as it went in: nothing in it is
    escaped, tags and entities included. *)
Theorem plain_text_unchanged (s : jsstring) :
  count_unit 96%N s < 2 ->
  occurs (js "**") s = false ->
  occurs (js "- ") s = false ->
  occurs (js "<l") s = false ->
  formatConversationalContent s = Some s.
Proof.
  intros H1 H2 H3 H4.
  change (js "**") with [42%N; 42%N] in H2.
  change (js "- ") with [45%N; 32%N] in H3.
  change (js "<l") with [60%N; 108%N] in H4.
  rewrite occurs_pair in H2, H3, H4.
  unfold formatConversationalContent.
  rewrite replace_all_template_no_match
    by (apply exec_too_few with (a := 96%N); exact H1).
  cbn [bind].
  rewrite replace_all_template_no_match
    by (apply exec_no_pair with (a := 42%N) (b := 42%N);
        [apply boldRegex_pair | exact H2]).
  cbn [bind].
  rewrite replace_all_template_no_match
    by (apply exec_no_pair with (a := 45%N) (b := 32%N);
        [apply bulletRegex_pair | exact H3]).
  cbn [bind].
  apply replace_first_template_no_match.
  apply exec_no_pair with (a := 60%N) (b := 108%N);
    [apply listRegex_pair | exact H4].
Qed.

Lemma plain_text_unchanged_witness :
  formatConversationalContent
    (js "<script>alert(1)</script> & a*b well-known `x")
  = Some (js "<script>alert(1)</script> & a*b well-known `x").
Proof.
  apply plain_text_unchanged; [vm_compute; lia | reflexivity ..].
Defined.

(** ** Inline code and bold text *)

Lemma plain_units s :
  forallb plain_unit s = true ->
  Forall (fun u => u <> 96%N /\ u <> 42%N /\ u <> 45%N /\ u <> 60%N) s.
Proof.
  intros H. apply Forall_forall. intros u Hu.
  rewrite forallb_forall in H. specialize (H u Hu). unfold plain_unit in H.
  repeat (apply andb_true_iff in H; destruct H as [H ?]).
  repeat match goal with
         | X : negb (cu_eqb _ _) = true |- _ =>
             apply negb_true_iff in X; unfold cu_eqb in X;
             apply N.eqb_neq in X
         end.
  auto.
Qed.

Lemma plain_no_backtick s :
  forallb plain_unit s = true -> Forall (fun u => u <> 96%N) s.
Proof.
  intros H. eapply Forall_impl; [|apply plain_units, H]. cbv beta. tauto.
Qed.

Lemma plain_no_asterisk s :
  forallb plain_unit s = true -> Forall (fun u => u <> 42%N) s.
Proof.
  intros H. eapply Forall_impl; [|apply plain_units, H]. cbv beta. tauto.
Qed.

Lemma plain_no_hyphen s :
  forallb plain_unit s = true -> Forall (fun u => u <> 45%N) s.
Proof.
  intros H. eapply Forall_impl; [|apply plain_units, H]. cbv beta. tauto.
Qed.

Lemma plain_no_lt s :
  forallb plain_unit s = true -> Forall (fun u => u <> 60%N) s.
Proof.
  intros H. eapply Forall_impl; [|apply plain_units, H]. cbv beta. tauto.
Qed.

Lemma not_backtick_all s :
  Forall (fun u => u <> 96%N) s -> forallb not_backtick s = true.
Proof.
  intros H. apply forallb_forall. intros u Hu.
  rewrite Forall_forall in H. specialize (H u Hu).
  unfold not_backtick, cu_eqb. apply negb_true_iff, N.eqb_neq. exact H.
Qed.

(** The first expression at a span of inline code. *)
Lemma inlineCodeRegex_hit pv b c post :
  Forall (fun u => u <> 96%N) (b :: c) ->
  compile no_flags inlineCodeRegex
    (MState pv (96%N :: (b :: c) ++ 96%N :: post) []) (fun y => Ok y)
  = Ok (MState (Some 96%N) post [(1, b :: c)]).
Proof.
  intros Hbc. pose proof (not_backtick_all Hbc) as Hnb.
  cbn [forallb] in Hnb. apply andb_true_iff in Hnb. destruct Hnb as [Hb Hc].
  unfold inlineCodeRegex, seqs, plus.
  rewrite compile_Seq, compile_Char. unfold unit_matcher at 1.
  cbn [rest caps]. change (char_test no_flags 96%N 96%N) with true.
  cbv iota.
  rewrite compile_Seq, compile_Group, compile_Quant, compile_Class.
  cbn [group_indices]. rewrite at_least_unit by (cbn [rest]; lia).
  cbn [rest prev caps app take_units]. rewrite Hb.
  match goal with
  | |- greedy_scan _ ?k _ _ _ = _ => set (d := k)
  end.
  assert (Hd : d (MState (last_unit (Some b) c) (96%N :: post) [])
               = Ok (MState (Some 96%N) post [(1, b :: c)])).
  { unfold d, set_cap, consumed. cbn [rest prev caps].
    change (b :: c ++ 96%N :: post) with ((b :: c) ++ 96%N :: post).
    rewrite firstn_app_exact. rewrite compile_Char.
    unfold unit_matcher. cbn [rest caps].
    change (char_test no_flags 96%N 96%N) with true. reflexivity. }
  rewrite greedy_until; [exact Hd | exact Hc | reflexivity|].
  intros E. discriminate (eq_trans (eq_sym Hd) E).
Qed.

(** The second expression at a span of bold text. *)
Lemma boldRegex_hit pv w post :
  Forall (fun u => u <> 42%N) w ->
  forallb is_dot w = true ->
  compile no_flags boldRegex
    (MState pv (js "**" ++ w ++ js "**" ++ post) []) (fun y => Ok y)
  = Ok (MState (Some 42%N) post [(1, w)]).
Proof.
  intros Hw Hdot. unfold boldRegex, seqs, lazy_star.
  rewrite compile_Seq, compile_lit by discriminate.
  cbn [rest prev caps]. rewrite starts_with_ci_self.
  replace (skipn (length (js "**")) (js "**" ++ w ++ js "**" ++ post))
    with (w ++ js "**" ++ post) by reflexivity.
  replace (firstn (length (js "**")) (js "**" ++ w ++ js "**" ++ post))
    with (js "**") by reflexivity.
  rewrite compile_Seq, compile_Group, compile_Quant, compile_Class.
  rewrite star_unit_lazy by (cbn [rest]; lia). cbn [rest prev caps].
  rewrite lazy_until.
  - rewrite compile_lit by discriminate.
    unfold set_cap, consumed. cbn [rest prev caps].
    rewrite starts_with_ci_self, firstn_app_exact. reflexivity.
  - apply Forall_forall. intros b Hb. split.
    + rewrite forallb_forall in Hdot. now apply Hdot.
    + intros pv' l'. rewrite compile_lit by discriminate.
      unfold set_cap. cbn [rest].
      rewrite Forall_forall in Hw. specialize (Hw _ Hb).
      change (js "**") with (42%N :: [42%N]).
      rewrite starts_with_ci_head; [reflexivity|].
      rewrite char_test_no_flags. unfold cu_eqb. apply N.eqb_neq. congruence.
  - rewrite compile_lit by discriminate.
    unfold set_cap, consumed. cbn [rest prev caps].
    rewrite starts_with_ci_self. discriminate.
Qed.

Lemma boldRegex_first pv b t :
  b <> 42%N ->
  compile no_flags boldRegex (MState pv (b :: t) []) (fun y => Ok y) = Fail.
Proof. intros Hb. apply boldRegex_pair. now apply starts_pair_head. Qed.

Lemma code_pieces_source spans :
  pieces_source (map code_piece spans) = flat_map span_source spans.
Proof.
  induction spans as [|[s|s|s] spans IH]; [reflexivity| | |];
    cbn [map pieces_source flat_map code_piece piece_source];
    fold (pieces_source (map code_piece spans)); now rewrite IH.
Qed.

Lemma code_pieces_result spans :
  pieces_result (map code_piece spans) = flat_map span_coded spans.
Proof.
  induction spans as [|[s|s|s] spans IH]; [reflexivity| | |];
    cbn [map pieces_result flat_map code_piece piece_result];
    fold (pieces_result (map code_piece spans)); now rewrite IH.
Qed.

Lemma bold_pieces_source spans :
  pieces_source (map bold_piece spans) = flat_map span_coded spans.
Proof.
  induction spans as [|[s|s|s] spans IH]; [reflexivity| | |];
    cbn [map pieces_source flat_map bold_piece piece_source];
    fold (pieces_source (map bold_piece spans)); now rewrite IH.
Qed.

Lemma bold_pieces_result spans :
  pieces_result (map bold_piece spans) = flat_map span_html spans.
Proof.
  induction spans as [|[s|s|s] spans IH]; [reflexivity| | |];
    cbn [map pieces_result flat_map bold_piece piece_result];
    fold (pieces_result (map bold_piece spans)); now rewrite IH.
Qed.

Lemma code_pieces_found spans :
  forallb well_formed spans = true ->
  forall pv,
    pieces_found no_flags inlineCodeRegex inlineCodeTemplate pv
      (map code_piece spans).
Proof.
  induction spans as [|sp spans IH]; intros Hwf pv; [exact I|].
  cbn [forallb] in Hwf. apply andb_true_iff in Hwf. destruct Hwf as [Hsp Hwf].
  assert (Hskip : forall p,
            Forall (fun u => u <> 96%N) p ->
            pieces_found no_flags inlineCodeRegex inlineCodeTemplate pv
              (Skip p :: map code_piece spans)).
  { intros p Hp. cbn [pieces_found]. split; [|now apply IH].
    intros idx. apply exec_from_skip with (a := 96%N); [|exact Hp].
    intros pv0 b t Hb. now apply inlineCodeRegex_first. }
  destruct sp as [s|s|s]; cbn [map code_piece span_source well_formed] in *.
  - apply Hskip. now apply plain_no_backtick.
  - apply andb_true_iff in Hsp. destruct Hsp as [Hne Hs].
    destruct s as [|b c]; [discriminate|].
    cbn [pieces_found]. split; [discriminate|]. split; [|split].
    + exists (Some 96%N). rewrite <- app_comm_cons, <- app_assoc.
      cbn [app]. apply inlineCodeRegex_hit. now apply plain_no_backtick.
    + intros before after. reflexivity.
    + now apply IH.
  - apply andb_true_iff in Hsp. destruct Hsp as [Hs _].
    apply Hskip. apply Forall_app. split; [repeat constructor; discriminate|].
    apply Forall_app. split; [now apply plain_no_backtick|].
    repeat constructor; discriminate.
Qed.

Lemma bold_pieces_found spans :
  forallb well_formed spans = true ->
  forall pv,
    pieces_found no_flags boldRegex (js "<strong>$1</strong>") pv
      (map bold_piece spans).
Proof.
  induction spans as [|sp spans IH]; intros Hwf pv; [exact I|].
  cbn [forallb] in Hwf. apply andb_true_iff in Hwf. destruct Hwf as [Hsp Hwf].
  assert (Hskip : forall p,
            Forall (fun u => u <> 42%N) p ->
            pieces_found no_flags boldRegex (js "<strong>$1</strong>") pv
              (Skip p :: map bold_piece spans)).
  { intros p Hp. cbn [pieces_found]. split; [|now apply IH].
    intros idx. apply exec_from_skip with (a := 42%N); [|exact Hp].
    intros pv0 b t Hb. now apply boldRegex_first. }
  destruct sp as [s|s|s];
    cbn [map bold_piece span_coded span_source well_formed] in *.
  - apply Hskip. now apply plain_no_asterisk.
  - apply andb_true_iff in Hsp. destruct Hsp as [_ Hs].
    apply Hskip. apply Forall_app.
    split; [unfold codeOpen; repeat constructor; discriminate|].
    apply Forall_app. split; [now apply plain_no_asterisk|].
    repeat constructor; discriminate.
  - apply andb_true_iff in Hsp. destruct Hsp as [Hs Hdot].
    cbn [pieces_found]. split; [discriminate|]. split; [|split].
    + exists (Some 42%N). rewrite <- !app_assoc.
      apply boldRegex_hit; [now apply plain_no_asterisk | exact Hdot].
    + intros before after. reflexivity.
    + now apply IH.
Qed.

Lemma has_pair_app a b u :
  u <> [] -> last u a <> a ->
  forall v, has_pair a b (u ++ v) = has_pair a b u || has_pair a b v.
Proof.
  intros Hne Hlast v.
  destruct (@exists_last _ u Hne) as (u' & x & ->).
  rewrite last_app_unit in Hlast. clear Hne.
  induction u' as [|y u' IH].
  - cbn [app has_pair]. rewrite starts_pair_head by exact Hlast.
    cbn [starts_pair orb]. reflexivity.
  - cbn [app has_pair]. rewrite IH, orb_assoc. f_equal. f_equal.
    destruct u' as [|z u']; reflexivity.
Qed.

Lemma html_no_pair a b spans :
  (a = 45%N /\ b = 32%N) \/ (a = 60%N /\ b = 108%N) ->
  forallb well_formed spans = true ->
  has_pair a b (flat_map span_html spans) = false.
Proof.
  intros Hab. induction spans as [|sp spans IH]; intros Hwf; [reflexivity|].
  cbn [forallb] in Hwf. apply andb_true_iff in Hwf. destruct Hwf as [Hsp Hwf].
  specialize (IH Hwf). cbn [flat_map].
  assert (Hplain : forall s, forallb plain_unit s = true ->
                             Forall (fun u => u <> a) s).
  { intros s Hs.
    destruct Hab as [[-> _] | [-> _]];
      [now apply plain_no_hyphen | now apply plain_no_lt]. }
  destruct sp as [s|s|s]; cbn [span_html well_formed] in *.
  - rewrite has_pair_skip; [exact IH | now apply Hplain].
  - apply andb_true_iff in Hsp. destruct Hsp as [_ Hs].
    rewrite <- !app_assoc.
    rewrite has_pair_app;
      [|discriminate | destruct Hab as [[-> _] | [-> _]]; discriminate].
    rewrite has_pair_skip by now apply Hplain.
    rewrite has_pair_app;
      [|discriminate | destruct Hab as [[-> _] | [-> _]]; discriminate].
    rewrite IH. destruct Hab as [[-> ->] | [-> ->]]; reflexivity.
  - apply andb_true_iff in Hsp. destruct Hsp as [Hs _].
    rewrite <- !app_assoc.
    rewrite has_pair_app;
      [|discriminate | destruct Hab as [[-> _] | [-> _]]; discriminate].
    rewrite has_pair_skip by now apply Hplain.
    rewrite has_pair_app;
      [|discriminate | destruct Hab as [[-> _] | [-> _]]; discriminate].
    rewrite IH. destruct Hab as [[-> ->] | [-> ->]]; reflexivity.
Qed.

(** X16.  In a text made of plain text, inline code between backticks and
    bold text between double asterisks, where no span holds a backtick,
    an asterisk, a hyphen or [<], inline code is not empty and bold text
    stays on its line, formatConversationalContent puts every span of
    inline code into a [code] element of class inline-code, every span
    of bold text into a [strong] element, and leaves plain text as it
    is. *)
Theorem spans_formatted (spans : list span) :
  forallb well_formed spans = true ->
  formatConversationalContent (flat_map span_source spans)
  = Some (flat_map span_html spans).
Proof.
  intros Hwf. unfold formatConversationalContent.
  rewrite <- code_pieces_source.
  rewrite replace_all_pieces;
    [|cbn; lia | now apply code_pieces_found].
  cbn [bind]. rewrite code_pieces_result, <- bold_pieces_source.
  rewrite replace_all_pieces;
    [|cbn; lia | now apply bold_pieces_found].
  cbn [bind]. rewrite bold_pieces_result.
  rewrite replace_all_template_no_match.
  - cbn [bind]. apply replace_first_template_no_match.
    apply exec_no_pair with (a := 60%N) (b := 108%N);
      [apply listRegex_pair | apply html_no_pair; auto].
  - apply exec_no_pair with (a := 45%N) (b := 32%N);
      [apply bulletRegex_pair | apply html_no_pair; auto].
Qed.

Lemma spans_formatted_witness :
  formatConversationalContent
    (flat_map span_source
       [ Plain (js "Use "); Code (js "npm i"); Plain (js " and ");
         Bold (js "never"); Bold (js "ever"); Plain (js " rm\nit.") ])
  = Some
      (flat_map span_html
         [ Plain (js "Use "); Code (js "npm i"); Plain (js " and ");
           Bold (js "never"); Bold (js "ever"); Plain (js " rm\nit.") ]).
Proof. apply spans_formatted. reflexivity. Defined.

(** ** List items *)

Lemma greedy_all p (c : cont) u cs :
  forallb p u = true ->
  forall pv,
    c (MState (last_unit pv u) [] cs) <> Fail ->
    greedy_scan p c pv u cs = c (MState (last_unit pv u) [] cs).
Proof.
  intros Hu. induction u as [|a u IH]; intros pv Hc; [reflexivity|].
  cbn [forallb] in Hu. apply andb_true_iff in Hu. destruct Hu as [Ha Hu].
  cbn [greedy_scan]. rewrite Ha. rewrite last_unit_cons in *.
  rewrite (IH Hu) by exact Hc. destruct (c _); congruence.
Qed.

(** The third expression at a list item that starts a line and goes up to
    the end of the line. *)
Lemma bulletRegex_hit pv b a post :
  at_bol bulletFlags (MState pv [] []) = true ->
  forallb is_dot (b :: a) = true ->
  post = [] \/ (exists t, post = nl :: t) ->
  compile bulletFlags bulletRegex
    (MState pv (js "- " ++ (b :: a) ++ post) []) (fun y => Ok y)
  = Ok (MState (last_unit (Some b) a) post [(1, b :: a)]).
Proof.
  intros Hbol Hdot Hpost.
  cbn [forallb] in Hdot. apply andb_true_iff in Hdot.
  destruct Hdot as [Hb Ha].
  unfold bulletRegex, seqs, plus.
  rewrite compile_Seq.
  change (compile bulletFlags Bol)
    with (fun (x : mstate) (c : cont) =>
            if at_bol bulletFlags x then c x else Fail).
  cbv beta.
  replace (at_bol bulletFlags (MState pv (js "- " ++ (b :: a) ++ post) []))
    with true by (symmetry; exact Hbol).
  rewrite compile_Seq, compile_Char. unfold unit_matcher at 1.
  cbn [rest caps app js]. change (js "- ") with [45%N; 32%N].
  cbn [app]. change (char_test bulletFlags 45%N 45%N) with true. cbv iota.
  rewrite compile_Seq, compile_Char. unfold unit_matcher at 1.
  cbn [rest caps]. change (char_test bulletFlags 32%N 32%N) with true.
  cbv iota.
  rewrite compile_Seq, compile_Group, compile_Quant, compile_Class.
  cbn [group_indices]. rewrite at_least_unit by (cbn [rest]; lia).
  cbn [rest prev caps take_units]. rewrite Hb.
  match goal with
  | |- greedy_scan _ ?k _ _ _ = _ => set (d := k)
  end.
  assert (Hd : d (MState (last_unit (Some b) a) post [])
               = Ok (MState (last_unit (Some b) a) post [(1, b :: a)])).
  { unfold d, set_cap, consumed. cbn [rest prev caps].
    change (b :: a ++ post) with ((b :: a) ++ post).
    rewrite firstn_app_exact.
    change (compile bulletFlags Eol)
      with (fun (x : mstate) (c : cont) =>
              if at_eol bulletFlags x then c x else Fail).
    cbv beta. unfold at_eol. cbn [rest].
    destruct Hpost as [-> | [t ->]]; reflexivity. }
  destruct Hpost as [-> | [t ->]].
  - rewrite app_nil_r. rewrite greedy_all; [exact Hd | exact Ha|].
    intros E. discriminate (eq_trans (eq_sym Hd) E).
  - rewrite greedy_until; [exact Hd | exact Ha | reflexivity|].
    intros E. discriminate (eq_trans (eq_sym Hd) E).
Qed.

Lemma bulletRegex_first pv b t :
  b <> 45%N ->
  compile bulletFlags bulletRegex (MState pv (b :: t) []) (fun y => Ok y)
  = Fail.
Proof. intros Hb. apply bulletRegex_pair. now apply starts_pair_head. Qed.

Lemma item_units a :
  forallb item_unit a = true ->
  forallb is_dot a = true
  /\ Forall (fun u => u <> 96%N /\ u <> 42%N /\ u <> 60%N) a.
Proof.
  intros H. split.
  - apply forallb_forall. intros u Hu. rewrite forallb_forall in H.
    specialize (H u Hu). unfold item_unit in H.
    repeat (apply andb_true_iff in H; destruct H as [H ?]). exact H.
  - apply Forall_forall. intros u Hu. rewrite forallb_forall in H.
    specialize (H u Hu). unfold item_unit in H.
    repeat (apply andb_true_iff in H; destruct H as [H ?]).
    repeat match goal with
           | X : negb (cu_eqb _ _) = true |- _ =>
               apply negb_true_iff in X; unfold cu_eqb in X;
               apply N.eqb_neq in X
           end.
    auto.
Qed.

Lemma text_units t :
  forallb text_unit t = true ->
  forallb item_unit t = true /\ Forall (fun u => u <> 45%N) t.
Proof.
  intros H. split.
  - apply forallb_forall. intros u Hu. rewrite forallb_forall in H.
    specialize (H u Hu). unfold text_unit in H.
    apply andb_true_iff in H. tauto.
  - apply Forall_forall. intros u Hu. rewrite forallb_forall in H.
    specialize (H u Hu). unfold text_unit in H.
    apply andb_true_iff in H. destruct H as [_ H].
    apply negb_true_iff in H. unfold cu_eqb in H. now apply N.eqb_neq in H.
Qed.

Lemma tail_pieces_source ls :
  pieces_source (flat_map (fun l' => [Skip [nl]; line_piece l']) ls)
  = flat_map (fun l' => nl :: l') (map line_source ls).
Proof.
  induction ls as [|l ls IH]; [reflexivity|].
  cbn [flat_map map app pieces_source piece_source].
  fold (pieces_source (flat_map (fun l' => [Skip [nl]; line_piece l']) ls)).
  rewrite IH. destruct l; reflexivity.
Qed.

Lemma tail_pieces_result ls :
  pieces_result (flat_map (fun l' => [Skip [nl]; line_piece l']) ls)
  = flat_map (fun l' => nl :: l') (map line_html ls).
Proof.
  induction ls as [|l ls IH]; [reflexivity|].
  cbn [flat_map map app pieces_result piece_result].
  fold (pieces_result (flat_map (fun l' => [Skip [nl]; line_piece l']) ls)).
  rewrite IH. destruct l; reflexivity.
Qed.

Lemma lines_pieces_source ls :
  pieces_source (lines_pieces ls) = join_nl (map line_source ls).
Proof.
  destruct ls as [|l ls]; [reflexivity|].
  cbn [lines_pieces pieces_source flat_map map join_nl].
  fold (pieces_source (flat_map (fun l' => [Skip [nl]; line_piece l']) ls)).
  rewrite tail_pieces_source. destruct l; reflexivity.
Qed.

Lemma lines_pieces_result ls :
  pieces_result (lines_pieces ls) = join_nl (map line_html ls).
Proof.
  destruct ls as [|l ls]; [reflexivity|].
  cbn [lines_pieces pieces_result flat_map map join_nl].
  fold (pieces_result (flat_map (fun l' => [Skip [nl]; line_piece l']) ls)).
  rewrite tail_pieces_result. destruct l; reflexivity.
Qed.

Lemma tail_starts_nl ls :
  flat_map (fun l' => nl :: l') (map line_source ls) = []
  \/ exists t, flat_map (fun l' => nl :: l') (map line_source ls) = nl :: t.
Proof. destruct ls as [|l ls]; [now left | right]. cbn. eauto. Qed.

Lemma line_piece_found l pv ps :
  at_bol bulletFlags (MState pv [] []) = true ->
  line_ok l = true ->
  pieces_source ps = []
  \/ (exists t, pieces_source ps = nl :: t) ->
  pieces_found bulletFlags bulletRegex (js "<li>$1</li>")
    (last_unit pv (line_source l)) ps ->
  pieces_found bulletFlags bulletRegex (js "<li>$1</li>") pv
    (line_piece l :: ps).
Proof.
  intros Hbol Hok Hps Hfound. destruct l as [a|t]; cbn [line_ok] in Hok.
  - apply andb_true_iff in Hok. destruct Hok as [Hne Ha].
    destruct a as [|b a]; [discriminate|].
    apply item_units in Ha. destruct Ha as [Hdot _].
    cbn [line_piece pieces_found]. split; [discriminate|].
    split; [|split].
    + eexists. rewrite <- app_assoc. now apply bulletRegex_hit.
    + intros before after. reflexivity.
    + exact Hfound.
  - apply text_units in Hok. destruct Hok as [_ Hno].
    cbn [line_piece pieces_found]. split; [|exact Hfound].
    intros idx. apply exec_from_skip with (a := 45%N); [|exact Hno].
    intros pv0 b t0 Hb. now apply bulletRegex_first.
Qed.

Lemma tail_pieces_found ls :
  forallb line_ok ls = true ->
  forall pv,
    pieces_found bulletFlags bulletRegex (js "<li>$1</li>") pv
      (flat_map (fun l' => [Skip [nl]; line_piece l']) ls).
Proof.
  induction ls as [|l ls IH]; intros Hok pv; [exact I|].
  cbn [forallb] in Hok. apply andb_true_iff in Hok. destruct Hok as [Hl Hok].
  cbn [flat_map app]. cbn [pieces_found]. split.
  - intros idx. apply exec_from_skip with (a := 45%N) (p := [nl]).
    + intros pv0 b t0 Hb. now apply bulletRegex_first.
    + repeat constructor. discriminate.
  - apply line_piece_found; [reflexivity | exact Hl | |now apply IH].
    rewrite tail_pieces_source. apply tail_starts_nl.
Qed.

Lemma lines_pieces_found ls :
  forallb line_ok ls = true ->
  pieces_found bulletFlags bulletRegex (js "<li>$1</li>") None
    (lines_pieces ls).
Proof.
  destruct ls as [|l ls]; intros Hok; [exact I|].
  cbn [forallb] in Hok. apply andb_true_iff in Hok. destruct Hok as [Hl Hok].
  cbn [lines_pieces].
  apply line_piece_found; [reflexivity | exact Hl | |].
  - rewrite tail_pieces_source. apply tail_starts_nl.
  - now apply tail_pieces_found.
Qed.

(** The third replacement turns every list item into a [li] element. *)
Lemma bullets_replaced ls :
  forallb line_ok ls = true ->
  replace_all_template bulletFlags bulletRegex (js "<li>$1</li>")
    (join_nl (map line_source ls))
  = Some (join_nl (map line_html ls)).
Proof.
  intros Hok. rewrite <- lines_pieces_source, <- lines_pieces_result.
  apply replace_all_pieces; [cbn; lia | now apply lines_pieces_found].
Qed.

(** ** The list container *)

Lemma greedy_any_none (c : cont) (b : cu) cs :
  (forall pv l,
     match l with
     | [] => True
     | x :: _ => x <> b
     end -> c (MState pv l cs) = Fail) ->
  forall w, Forall (fun u => u <> b) w ->
  forall pv, greedy_scan is_any c pv w cs = Fail.
Proof.
  intros Hc w Hw. induction Hw as [|x w Hx _ IH]; intros pv.
  - cbn [greedy_scan]. now apply Hc.
  - cbn [greedy_scan is_any]. rewrite IH. now apply Hc.
Qed.

(** Greedy over any units: back to the last place the continuation
    accepts. *)
Lemma greedy_any_last (c : cont) (b : cu) cs y w :
  (forall pv l,
     match l with
     | [] => True
     | x :: _ => x <> b
     end -> c (MState pv l cs) = Fail) ->
  Forall (fun u => u <> b) w ->
  forall pv,
    c (MState (last_unit pv y) (b :: w) cs) <> Fail ->
    greedy_scan is_any c pv (y ++ b :: w) cs
    = c (MState (last_unit pv y) (b :: w) cs).
Proof.
  intros Hc Hw. induction y as [|a y IH]; intros pv Hok.
  - cbn [app greedy_scan is_any].
    now rewrite (@greedy_any_none c b cs Hc w Hw).
  - cbn [app greedy_scan is_any]. rewrite last_unit_cons in *.
    rewrite IH by exact Hok. destruct (c _); congruence.
Qed.

Lemma listRegex_hit pv y z :
  Forall (fun u => u <> 60%N) z ->
  exists pv',
    compile no_flags listRegex
      (MState pv (js "<li>" ++ y ++ js "</li>" ++ z) []) (fun s => Ok s)
    = Ok (MState pv' z [(1, js "<li>" ++ y ++ js "</li>")]).
Proof.
  intros Hz. unfold listRegex, seqs, star.
  rewrite compile_Group, compile_Seq, compile_lit by discriminate.
  cbn [rest prev caps]. rewrite starts_with_ci_self.
  replace (skipn (length (js "<li>")) (js "<li>" ++ y ++ js "</li>" ++ z))
    with (y ++ js "</li>" ++ z) by reflexivity.
  replace (firstn (length (js "<li>")) (js "<li>" ++ y ++ js "</li>" ++ z))
    with (js "<li>") by reflexivity.
  rewrite compile_Seq, compile_Quant, compile_Class.
  rewrite star_unit_greedy by (cbn [rest]; lia). cbn [rest prev caps].
  match goal with
  | |- exists _, greedy_scan _ ?k _ _ _ = _ => set (d := k)
  end.
  assert (Hd : forall pv0,
            exists pv',
              d (MState pv0 (js "</li>" ++ z) [])
              = Ok (MState pv' z [(1, js "<li>" ++ y ++ js "</li>")])).
  { intros pv0. unfold d. rewrite compile_lit by discriminate.
    cbn [rest prev caps]. rewrite starts_with_ci_self.
    unfold set_cap, consumed. cbn [rest prev caps].
    rewrite skipn_app_exact.
    replace (js "<li>" ++ y ++ js "</li>" ++ z)
      with ((js "<li>" ++ y ++ js "</li>") ++ z)
      by (now rewrite <- !app_assoc).
    rewrite firstn_app_exact. eauto. }
  destruct (Hd (last_unit (last_unit pv (js "<li>")) y)) as [pv' Hpv'].
  exists pv'.
  change (js "</li>" ++ z) with (60%N :: js "/li>" ++ z) in *.
  rewrite greedy_any_last with (b := 60%N).
  - exact Hpv'.
  - intros pv0 l Hl. unfold d. rewrite compile_lit by discriminate.
    cbn [rest]. destruct l as [|x l]; [reflexivity|].
    change (js "</li>") with (60%N :: js "/li>").
    rewrite starts_with_ci_head; [reflexivity|].
    rewrite char_test_no_flags. unfold cu_eqb. apply N.eqb_neq. congruence.
  - apply Forall_app. split; [repeat constructor; discriminate | exact Hz].
  - intros E. discriminate (eq_trans (eq_sym Hpv') E).
Qed.

Lemma listRegex_first pv b t :
  b <> 60%N ->
  compile no_flags listRegex (MState pv (b :: t) []) (fun y => Ok y) = Fail.
Proof. intros Hb. apply listRegex_pair. now apply starts_pair_head. Qed.

(** The fourth replacement puts what lies between the first [<li>] and
    the last [</li>] into one [ul] element. *)
Lemma list_wrapped b y z :
  Forall (fun u => u <> 60%N) b ->
  Forall (fun u => u <> 60%N) z ->
  replace_first_template no_flags listRegex (js "<ul>$1</ul>")
    (b ++ js "<li>" ++ y ++ js "</li>" ++ z)
  = Some (b ++ js "<ul>" ++ (js "<li>" ++ y ++ js "</li>") ++ js "</ul>"
          ++ z).
Proof.
  intros Hb Hz. unfold replace_first_template, exec.
  cbn [Nat.ltb Nat.leb skipn unit_before].
  rewrite exec_from_skip with (a := 60%N);
    [|intros; now apply listRegex_first | exact Hb].
  rewrite exec_from_eq.
  destruct (@listRegex_hit (last_unit None b) y z Hz) as [pv' ->].
  cbv zeta. cbn [rest caps].
  replace (js "<li>" ++ y ++ js "</li>" ++ z)
    with ((js "<li>" ++ y ++ js "</li>") ++ z)
    by (now rewrite <- !app_assoc).
  rewrite firstn_app_exact. unfold substitution.
  cbn [index m0 captures Nat.add].
  rewrite firstn_app, Nat.sub_diag, firstn_all. cbn [firstn].
  rewrite app_nil_r.
  replace (b ++ (js "<li>" ++ y ++ js "</li>") ++ z)
    with ((b ++ js "<li>" ++ y ++ js "</li>") ++ z)
    by (now rewrite <- !app_assoc).
  rewrite <- length_app, skipn_app_exact.
  f_equal. f_equal.
  change (get_substitution (length (group_indices listRegex))
            (js "<li>" ++ y ++ js "</li>") b z
            [(1, js "<li>" ++ y ++ js "</li>")] (js "<ul>$1</ul>"))
    with (js "<ul>" ++ (js "<li>" ++ y ++ js "</li>") ++ js "</ul>").
  now rewrite <- !app_assoc.
Qed.

Lemma tail_nl_app (u : list jsstring) x v :
  flat_map (fun l' => nl :: l') (u ++ x :: v)
  = nl :: concat_lines u ++ x ++ flat_map (fun l' => nl :: l') v.
Proof.
  induction u as [|y u IH]; [reflexivity|].
  cbn [app flat_map concat_lines]. rewrite IH.
  cbn [app]. rewrite <- !app_assoc. reflexivity.
Qed.

Lemma join_nl_app (u c v : list jsstring) :
  c <> [] ->
  join_nl (u ++ c ++ v)
  = concat_lines u ++ join_nl c ++ flat_map (fun l' => nl :: l') v.
Proof.
  intros Hc. destruct c as [|x c]; [congruence|].
  destruct u as [|y u].
  - cbn [app join_nl concat_lines flat_map].
    now rewrite flat_map_app, <- app_assoc.
  - cbn [app join_nl concat_lines flat_map].
    rewrite tail_nl_app, flat_map_app. cbn [app].
    rewrite <- !app_assoc. reflexivity.
Qed.

Lemma core_shape a more :
  is_item (last more (Item a)) = true ->
  exists y,
    join_nl (map line_html (Item a :: more)) = js "<li>" ++ y ++ js "</li>".
Proof.
  intros H. destruct (last_or_nil more) as [-> | (more' & l & ->)].
  - exists a. cbn [map join_nl flat_map line_html].
    now rewrite app_nil_r.
  - rewrite last_app_unit in H. destruct l as [b|t]; [|discriminate].
    exists (a ++ js "</li>"
            ++ flat_map (fun l' => nl :: l') (map line_html more')
            ++ nl :: js "<li>" ++ b).
    cbn [map join_nl line_html]. rewrite map_app, flat_map_app.
    cbn [map flat_map line_html]. rewrite app_nil_r.
    rewrite <- !app_assoc. cbn [app]. rewrite <- !app_assoc. reflexivity.
Qed.

Lemma concat_lines_Forall (P : cu -> Prop) ls :
  P nl -> Forall (Forall P) ls -> Forall P (concat_lines ls).
Proof.
  intros Hnl H. induction H as [|l ls Hl _ IH]; [constructor|].
  cbn [concat_lines flat_map]. apply Forall_app. split; [|exact IH].
  apply Forall_app. split; [exact Hl | now constructor].
Qed.

Lemma tail_nl_Forall (P : cu -> Prop) ls :
  P nl -> Forall (Forall P) ls ->
  Forall P (flat_map (fun l' => nl :: l') ls).
Proof.
  intros Hnl H. induction H as [|l ls Hl _ IH]; [constructor|].
  cbn [flat_map]. apply Forall_app. split; [|exact IH].
  now constructor.
Qed.

Lemma join_nl_Forall (P : cu -> Prop) ls :
  P nl -> Forall (Forall P) ls -> Forall P (join_nl ls).
Proof.
  intros Hnl H. destruct H as [|l ls Hl H]; [constructor|].
  cbn [join_nl]. apply Forall_app. split; [exact Hl|].
  now apply tail_nl_Forall.
Qed.

Lemma line_source_units l :
  line_ok l = true ->
  Forall (fun u => u <> 96%N /\ u <> 42%N) (line_source l).
Proof.
  destruct l as [a|t]; cbn [line_ok line_source]; intros H.
  - apply andb_true_iff in H. destruct H as [_ H].
    apply item_units in H. destruct H as [_ H].
    apply Forall_app. split; [repeat constructor; discriminate|].
    eapply Forall_impl; [|exact H]. cbv beta. tauto.
  - apply text_units in H. destruct H as [H _].
    apply item_units in H. destruct H as [_ H].
    eapply Forall_impl; [|exact H]. cbv beta. tauto.
Qed.

Lemma texts_no_lt ts :
  forallb (forallb text_unit) ts = true ->
  Forall (Forall (fun u => u <> 60%N)) ts.
Proof.
  intros H. apply Forall_forall. intros t Ht.
  rewrite forallb_forall in H. specialize (H t Ht).
  apply text_units in H. destruct H as [H _].
  apply item_units in H. destruct H as [_ H].
  eapply Forall_impl; [|exact H]. cbv beta. tauto.
Qed.

Lemma texts_ok ts :
  forallb (forallb text_unit) ts = true ->
  forallb line_ok (map Text ts) = true.
Proof.
  intros H. induction ts as [|t ts IH]; [reflexivity|].
  cbn [forallb map line_ok] in *. apply andb_true_iff in H.
  destruct H as [H1 H2]. now rewrite H1, IH.
Qed.

Lemma map_source_text ts : map line_source (map Text ts) = ts.
Proof. induction ts as [|t ts IH]; [reflexivity|]. cbn [map]. now f_equal. Qed.

Lemma map_html_text ts : map line_html (map Text ts) = ts.
Proof. induction ts as [|t ts IH]; [reflexivity|]. cbn [map]. now f_equal. Qed.

(** X17.  In a text of lines where a list item is a hyphen, a space and a
    text that is not empty, where no line holds a backtick, an asterisk
    or [<] and only list items hold a hyphen, formatConversationalContent
    turns every list item into a [li] element and puts everything from
    the first item to the last into one [ul] element, the lines between
    two items that are no items included; the lines before the first item
    and after the last are left as they are. *)
Theorem list_formatted (before after : list jsstring) (a : jsstring)
    (more : list line) :
  forallb (forallb text_unit) before = true ->
  forallb line_ok (Item a :: more) = true ->
  is_item (last more (Item a)) = true ->
  forallb (forallb text_unit) after = true ->
  formatConversationalContent
    (join_nl (before ++ map line_source (Item a :: more) ++ after))
  = Some
      (join_nl
         (before
          ++ [ js "<ul>" ++ join_nl (map line_html (Item a :: more))
               ++ js "</ul>" ]
          ++ after)).
Proof.
  intros Hb Hcore Hlast Ha.
  set (lines := map Text before ++ (Item a :: more) ++ map Text after).
  assert (Hok : forallb line_ok lines = true).
  { unfold lines. rewrite !forallb_app, Hcore, !texts_ok by assumption.
    reflexivity. }
  assert (Hsrc : before ++ map line_source (Item a :: more) ++ after
                 = map line_source lines).
  { unfold lines. now rewrite !map_app, !map_source_text. }
  assert (Hhtml : map line_html lines
                  = before ++ map line_html (Item a :: more) ++ after).
  { unfold lines. now rewrite !map_app, !map_html_text. }
  assert (Hunits : Forall (fun u => u <> 96%N /\ u <> 42%N)
                          (join_nl (map line_source lines))).
  { apply join_nl_Forall; [split; discriminate|].
    apply Forall_forall. intros s Hs. apply in_map_iff in Hs.
    destruct Hs as (l & <- & Hl). apply line_source_units.
    rewrite forallb_forall in Hok. now apply Hok. }
  rewrite Hsrc. unfold formatConversationalContent.
  rewrite replace_all_template_no_match.
  2:{ apply exec_too_few with (a := 96%N). rewrite count_unit_absent.
      - cbn. lia.
      - eapply Forall_impl; [|exact Hunits]. cbv beta. tauto. }
  cbn [bind].
  rewrite replace_all_template_no_match.
  2:{ apply exec_too_few with (a := 42%N). rewrite count_unit_absent.
      - cbn. lia.
      - eapply Forall_impl; [|exact Hunits]. cbv beta. tauto. }
  cbn [bind]. rewrite bullets_replaced by exact Hok. cbn [bind].
  rewrite Hhtml. rewrite !join_nl_app by discriminate.
  destruct (core_shape a more Hlast) as [y Hy]. rewrite Hy.
  cbn [join_nl flat_map]. rewrite app_nil_r.
  rewrite <- !app_assoc. rewrite list_wrapped.
  - now rewrite <- !app_assoc.
  - apply concat_lines_Forall; [discriminate | now apply texts_no_lt].
  - apply tail_nl_Forall; [discriminate | now apply texts_no_lt].
Qed.

Lemma list_formatted_witness :
  formatConversationalContent
    (join_nl
       ([ js "Steps:" ]
        ++ map line_source
             (Item (js "one") :: [ Item (js "two - or 2"); Text (js "then");
                                   Item (js "three") ])
        ++ [ []; js "Done." ]))
  = Some
      (join_nl
         ([ js "Steps:" ]
          ++ [ js "<ul>"
               ++ join_nl
                    (map line_html
                       (Item (js "one")
                        :: [ Item (js "two - or 2"); Text (js "then");
                             Item (js "three") ]))
               ++ js "</ul>" ]
          ++ [ []; js "Done." ])).
Proof. apply list_formatted; reflexivity. Defined.

(** ** Texts the clean-up only trims *)

(** The expression matches nowhere in a text in which the units it has to
    start with do not occur. *)
Lemma exec_nowhere fl re (w : jsstring) :
  (forall pv l, starts_with w l = false ->
     compile fl re (MState pv l []) (fun y => Ok y) = Fail) ->
  forall s, occurs w s = false -> exec fl re s 0 = Fail.
Proof.
  intros Hre s H. unfold exec. cbn [Nat.ltb Nat.leb skipn unit_before].
  generalize 0 at 1. generalize (@None cu). revert H.
  induction s as [|u s IH]; intros H pv idx; rewrite exec_from_eq.
  - cbn [occurs] in H. apply orb_false_iff in H. destruct H as [H _].
    now rewrite Hre.
  - cbn [occurs] in H. apply orb_false_iff in H. destruct H as [H1 H2].
    rewrite Hre by exact H1. now apply IH.
Qed.

Lemma newlinesRegex_start pv l :
  starts_with (js "\n\n\n") l = false ->
  compile no_flags newlinesRegex (MState pv l []) (fun y => Ok y) = Fail.
Proof.
  intros H. unfold newlinesRegex, at_least.
  rewrite compile_Quant, compile_Char. cbn [group_indices].
  rewrite at_least_unit by (cbn [rest]; lia). cbn [rest prev caps].
  change (js "\n\n\n") with [nl; nl; nl] in H.
  destruct l as [|x l]; [reflexivity|]. cbn [take_units starts_with] in *.
  rewrite char_test_no_flags.
  destruct (cu_eqb nl x); [|reflexivity].
  destruct l as [|y l]; [reflexivity|]. cbn [take_units starts_with] in *.
  rewrite char_test_no_flags.
  destruct (cu_eqb nl y); [|reflexivity].
  destruct l as [|z l]; [reflexivity|]. cbn [take_units starts_with] in *.
  rewrite char_test_no_flags.
  destruct (cu_eqb nl z); [discriminate | reflexivity].
Qed.

Lemma replace_all_no_match fl re rep s :
  exec fl re s 0 = Fail -> replace_all fl re rep s = Some s.
Proof.
  intros E. unfold replace_all. cbn [Nat.add replace_loop]. now rewrite E.
Qed.

Lemma cleanup_trims s :
  occurs (js "\n\n\n") s = false ->
  count_unit 91%N s = 0 ->
  cleanup s = Some (trim s).
Proof.
  intros Hnl Hbr. unfold cleanup.
  rewrite replace_all_no_match
    by (apply exec_nowhere with (w := js "\n\n\n");
        [apply newlinesRegex_start | exact Hnl]).
  cbn [bind].
  rewrite replace_all_no_match; [reflexivity|].
  apply exec_too_few with (a := 91%N). rewrite Hbr. cbn. lia.
Qed.

(** X18.  For a text without three line feeds in a row and without an
    opening bracket, the clean-up is a plain trim: whenever
    extractArtifacts finds no artifact in such a text (for one, when none
    of the three expressions matches it), the conversationalContent is
    the trimmed text. *)
Theorem plain_text_remainder (s : jsstring) :
  occurs (js "\n\n\n") s = false ->
  count_unit 91%N s = 0 ->
  exists r,
    extractArtifacts s = Some r
    /\ (artifacts r = [] -> conversationalContent r = trim s)
    /\ (no_triggers s = true -> r = Extraction [] (trim s)).
Proof.
  intros Hnl Hbr. pose proof (cleanup_trims s Hnl Hbr) as Hcl.
  destruct (extractArtifacts_passes s)
    as (cs & w1 & ts & w2 & rc & cleaned & Hc & Ht & Hu & Hcl' & H).
  eexists. split; [exact H|]. cbn [artifacts conversationalContent].
  assert (Hnil : cs ++ ts ++ doc_artifact s = [] ->
                 fallback (cs ++ ts ++ doc_artifact s) cleaned = trim s).
  { intros E. rewrite (Hu E) in Hcl'. rewrite E, fallback_nil. congruence. }
  split; [exact Hnil|].
  intros Hno. unfold no_triggers in Hno.
  apply andb_true_iff in Hno. destruct Hno as [Hno Hd].
  apply andb_true_iff in Hno. destruct Hno as [Hcode Htable].
  apply negb_true_iff in Hcode, Htable, Hd.
  assert (Ecs : cs = []).
  { rewrite code_pass_no_match in Hc; [congruence|].
    destruct (exec no_flags codeBlockRegex s 0) eqn:E;
      [discriminate | reflexivity | exfalso; revert E; apply exec_safe]. }
  assert (Ets : ts = []).
  { rewrite table_pass_no_match in Ht; [congruence|].
    destruct (exec no_flags tableRegex s 0) eqn:E;
      [discriminate | reflexivity | exfalso; revert E; apply exec_safe]. }
  assert (Ed : doc_artifact s = []).
  { apply doc_artifact_no_match.
    destruct (exec docFlags docRegex s 0) eqn:E;
      [discriminate | reflexivity | exfalso; revert E; apply exec_safe]. }
  assert (E : cs ++ ts ++ doc_artifact s = [])
    by (now rewrite Ecs, Ets, Ed).
  rewrite (Hnil E). now rewrite E.
Qed.

Lemma plain_text_remainder_witness :
  exists r,
    extractArtifacts (js "  Dear client,\n\nthanks (see ]).\n ") = Some r
    /\ r = Extraction [] (trim (js "  Dear client,\n\nthanks (see ]).\n ")).
Proof.
  destruct (@plain_text_remainder (js "  Dear client,\n\nthanks (see ]).\n ")
              eq_refl eq_refl) as (r & Hr & _ & H).
  exists r. split; [exact Hr | apply H; reflexivity].
Defined.

Lemma thinking_parity ids id : forall o,
  is_expanded (number_to_string id)
    (fold_left (fun o messageId => toggleThinking messageId o) ids o)
  = xorb (is_expanded (number_to_string id) o)
         (Nat.odd (length (filter (N.eqb id) ids))).
Proof.
  induction ids as [|id' ids IH]; intros o.
  - cbn [fold_left filter length Nat.odd]. now rewrite xorb_false_r.
  - cbn [fold_left filter]. rewrite IH.
    unfold toggleThinking. rewrite is_expanded_toggle.
    destruct (str_eqb (number_to_string id') (number_to_string id)) eqn:E.
    + apply str_eqb_eq, number_to_string_inj in E. subst id'.
      rewrite N.eqb_refl. cbn [length].
      rewrite Nat.odd_succ, <- Nat.negb_odd.
      now destruct (is_expanded _ o), (Nat.odd _).
    + destruct (N.eqb id id') eqn:E'; [|reflexivity].
      apply N.eqb_eq in E'. subst. now rewrite str_eqb_refl in E.
Qed.

(** X19.  After any run of clicks on thinking buttons, starting with
    nothing expanded, the thinking of a message is shown exactly when
    buttons of messages with its id were clicked an odd number of times:
    a click changes nothing for a message with another id, and messages
    that share an id (made at the same clock reading) open and close
    together. *)
Theorem thinking_toggles (ids : list N) (id : N) :
  is_expanded (number_to_string id) (after_thinking_clicks ids)
  = Nat.odd (length (filter (N.eqb id) ids)).
Proof.
  unfold after_thinking_clicks. rewrite thinking_parity. reflexivity.
Qed.

(** * The placeholder of a table *)

Lemma compile_placeholder x c :
  compile placeholderFlags placeholderRegex x c
  = if at_bol placeholderFlags x
    then greedy_scan is_space (ph_open c) (prev x) (rest x) (caps x)
    else Fail.
Proof.
  unfold placeholderRegex, seqs, star, lazy_star.
  rewrite compile_Seq.
  change (compile placeholderFlags Bol)
    with (fun (x : mstate) (c : cont) =>
            if at_bol placeholderFlags x then c x else Fail).
  cbv beta. destruct (at_bol placeholderFlags x); [|reflexivity].
  rewrite compile_Seq, compile_Quant, compile_Class.
  rewrite star_unit_greedy by (cbn [rest]; lia).
  apply greedy_scan_ext. intros y. unfold ph_open.
  rewrite compile_Seq, compile_Char.
  destruct y as [pv l cs]. unfold unit_matcher at 1 2. cbn [rest caps].
  destruct l as [|b t]; [reflexivity|].
  destruct (char_test placeholderFlags 91%N b); [|reflexivity].
  rewrite compile_Seq, compile_Quant, compile_Class.
  rewrite star_unit_lazy by (cbn [rest]; lia).
  cbn [prev rest caps]. apply lazy_scan_ext. intros y2. unfold ph_close.
  rewrite compile_Seq, compile_Char.
  destruct y2 as [pv2 l2 cs2]. unfold unit_matcher at 1 2. cbn [rest caps].
  destruct l2 as [|b2 t2]; [reflexivity|].
  destruct (char_test placeholderFlags 93%N b2); [|reflexivity].
  rewrite compile_Seq, compile_Quant, compile_Class.
  rewrite star_unit_greedy by (cbn [rest]; lia).
  cbn [prev rest caps]. apply greedy_scan_ext. intros y3. reflexivity.
Qed.

Lemma line_terminator_space c :
  is_line_terminator c = true -> is_space c = true.
Proof.
  unfold is_line_terminator. intros H.
  repeat (apply orb_true_iff in H; destruct H as [H | H]);
    apply N.eqb_eq in H; subst; reflexivity.
Qed.

Lemma ph_open_first c pv l cs :
  match l with
  | [] => True
  | b :: _ => b <> 91%N
  end ->
  ph_open c (MState pv l cs) = Fail.
Proof.
  unfold ph_open, unit_matcher. cbn [rest].
  destruct l as [|b t]; [reflexivity|]. intros Hb.
  change (char_test placeholderFlags 91%N b) with (N.eqb 91 b).
  destruct (N.eqb_spec 91 b); [congruence | reflexivity].
Qed.

Lemma ph_close_first c pv l cs :
  match l with
  | [] => True
  | b :: _ => b <> 93%N
  end ->
  ph_close c (MState pv l cs) = Fail.
Proof.
  unfold ph_close, unit_matcher. cbn [rest].
  destruct l as [|b t]; [reflexivity|]. intros Hb.
  change (char_test placeholderFlags 93%N b) with (N.eqb 93 b).
  destruct (N.eqb_spec 93 b); [congruence | reflexivity].
Qed.

(** Lazy scanning passes over units the continuation rejects. *)
Lemma lazy_pass p (k : cont) u t cs :
  Forall (fun b => p b = true
                   /\ forall pv' l', k (MState pv' (b :: l') cs) = Fail) u ->
  forall pv,
    lazy_scan p k pv (u ++ t) cs = lazy_scan p k (last_unit pv u) t cs.
Proof.
  intros Hu. induction Hu as [|b u [Hp Hk] _ IH]; intros pv; [reflexivity|].
  cbn [app lazy_scan]. rewrite Hk, Hp. rewrite last_unit_cons. apply IH.
Qed.

Lemma lazy_none p (k : cont) l cs :
  (forall pv', k (MState pv' [] cs) = Fail) ->
  Forall (fun b => forall pv' l', k (MState pv' (b :: l') cs) = Fail) l ->
  forall pv, lazy_scan p k pv l cs = Fail.
Proof.
  intros Hnil Hl. induction Hl as [|b l Hb _ IH]; intros pv;
    rewrite lazy_scan_eq.
  - now rewrite Hnil.
  - rewrite Hb. destruct (p b); [apply IH | reflexivity].
Qed.

Lemma body_rejected c (body : jsstring) cs :
  forallb is_dot body = true ->
  Forall (fun u => u <> 93%N) body ->
  Forall (fun b => is_dot b = true
                   /\ forall pv' l',
                        ph_close c (MState pv' (b :: l') cs) = Fail) body.
Proof.
  intros Hdot Hno. apply Forall_forall. intros b Hb. split.
  - rewrite forallb_forall in Hdot. now apply Hdot.
  - intros pv' l'. apply ph_close_first.
    rewrite Forall_forall in Hno. now apply Hno.
Qed.

(** The placeholder at the end of the text is matched. *)
Lemma ph_open_at_end pv (body : jsstring) cs :
  forallb is_dot body = true ->
  Forall (fun u => u <> 93%N) body ->
  ph_open (fun y => Ok y) (MState pv (91%N :: body ++ [93%N]) cs)
  = Ok (MState (Some 93%N) [] cs).
Proof.
  intros Hdot Hno. unfold ph_open, unit_matcher at 1. cbn [rest caps prev].
  change (char_test placeholderFlags 91%N 91%N) with true. cbv iota.
  rewrite lazy_pass by now apply body_rejected.
  rewrite lazy_scan_eq. unfold ph_close at 1, unit_matcher. cbn [rest caps].
  change (char_test placeholderFlags 93%N 93%N) with true. cbv iota.
  reflexivity.
Qed.

(** The placeholder followed on its line by a unit that is no white space
    is not matched, when no closing bracket follows. *)
Lemma ph_open_before_text c pv (body : jsstring) (x : cu) (post : jsstring) cs :
  forallb is_dot body = true ->
  Forall (fun u => u <> 93%N) body ->
  is_space x = false ->
  Forall (fun u => u <> 93%N) (x :: post) ->
  ph_open c (MState pv (91%N :: body ++ 93%N :: x :: post) cs) = Fail.
Proof.
  intros Hdot Hno Hx Hpost.
  unfold ph_open, unit_matcher at 1. cbn [rest caps prev].
  change (char_test placeholderFlags 91%N 91%N) with true. cbv iota.
  rewrite lazy_pass by now apply body_rejected.
  rewrite lazy_scan_eq.
  assert (Hk : ph_close c (MState (last_unit (Some 91%N) body)
                             (93%N :: x :: post) cs) = Fail).
  { unfold ph_close, unit_matcher. cbn [rest caps prev].
    change (char_test placeholderFlags 93%N 93%N) with true. cbv iota.
    cbn [greedy_scan]. rewrite Hx. unfold ph_end, at_eol. cbn [rest].
    destruct (is_line_terminator x) eqn:E; [|now rewrite andb_false_r].
    apply line_terminator_space in E. congruence. }
  match goal with
  | |- match ?t with _ => _ end = _ =>
      assert (Hk' : t = Fail) by exact Hk; rewrite Hk'
  end.
  change (is_dot 93%N) with true. cbv iota.
  apply lazy_none.
  - intros pv'. now apply ph_close_first.
  - eapply Forall_impl; [|exact Hpost].
    intros b Hb pv' l'. now apply ph_close_first.
Qed.

(** Before a unit that is neither white space nor an opening bracket the
    leading white space finds no placeholder. *)
Lemma greedy_before_unit c (l : jsstring) (x : cu) (t : jsstring) cs :
  Forall (fun u => u <> 91%N) l ->
  is_space x = false ->
  x <> 91%N ->
  forall pv,
    greedy_scan is_space (ph_open c) pv (l ++ x :: t) cs = Fail.
Proof.
  intros Hl Hx Hx'. induction Hl as [|y l Hy _ IH]; intros pv.
  - cbn [app greedy_scan]. rewrite Hx. now apply ph_open_first.
  - cbn [app greedy_scan]. rewrite IH.
    rewrite ph_open_first by exact Hy. destruct (is_space y); reflexivity.
Qed.

Lemma greedy_before_rejected c (l m : jsstring) cs :
  Forall (fun u => u <> 91%N) l ->
  (forall pv, greedy_scan is_space (ph_open c) pv m cs = Fail) ->
  forall pv, greedy_scan is_space (ph_open c) pv (l ++ m) cs = Fail.
Proof.
  intros Hl Hm. induction Hl as [|y l Hy _ IH]; intros pv; [apply Hm|].
  cbn [app greedy_scan]. rewrite IH.
  rewrite ph_open_first by exact Hy. destruct (is_space y); reflexivity.
Qed.

(** No placeholder starts in a text that ends with a unit that is no
    white space. *)
Lemma exec_from_before_unit (p0 : jsstring) (x : cu) (t : jsstring) :
  Forall (fun u => u <> 91%N) p0 ->
  is_space x = false ->
  x <> 91%N ->
  forall idx pv,
    exec_from placeholderFlags placeholderRegex idx pv (p0 ++ x :: t)
    = exec_from placeholderFlags placeholderRegex (idx + length p0 + 1)
        (Some x) t.
Proof.
  intros Hp Hx Hx'. induction Hp as [|y p0 Hy Hp IH]; intros idx pv.
  - cbn [app length]. rewrite exec_from_eq, compile_placeholder.
    cbn [prev rest caps greedy_scan]. rewrite Hx.
    rewrite ph_open_first by exact Hx'.
    destruct (at_bol _ _); f_equal; lia.
  - cbn [app length]. rewrite exec_from_eq, compile_placeholder.
    cbn [prev rest caps].
    change (y :: p0 ++ x :: t) with ((y :: p0) ++ x :: t).
    rewrite greedy_before_unit by (try constructor; assumption).
    cbn [app]. rewrite IH.
    destruct (at_bol _ _); f_equal; lia.
Qed.

(** At the start of a line, or once a line has started within the white
    space, white space and the placeholder at the end of the text are
    matched. *)
Lemma exec_from_fresh_line (w body : jsstring) :
  forallb is_space w = true ->
  forallb is_dot body = true ->
  Forall (fun u => u <> 93%N) body ->
  forall idx pv,
    at_bol placeholderFlags (MState pv [] []) = true
    \/ existsb is_line_terminator w = true ->
    exists w1 w2,
      w = w1 ++ w2
      /\ exec_from placeholderFlags placeholderRegex idx pv
           (w ++ 91%N :: body ++ [93%N])
         = Ok (MatchResult (idx + length w1) (w2 ++ 91%N :: body ++ [93%N])
                 []
                 (idx + length w1
                  + length (w2 ++ 91%N :: body ++ [93%N]))).
Proof.
  intros Hw Hdot Hno. induction w as [|a w IH]; intros idx pv Hfresh.
  - destruct Hfresh as [Hbol | Hlt]; [|discriminate].
    exists [], []. split; [reflexivity|]. cbn [app length].
    rewrite exec_from_eq, compile_placeholder.
    replace (at_bol placeholderFlags
               (MState pv (91%N :: body ++ [93%N]) []))
      with true by (symmetry; exact Hbol).
    cbn [prev rest caps greedy_scan]. change (is_space 91%N) with false.
    cbv iota. rewrite ph_open_at_end by assumption.
    cbv zeta. cbn [rest caps]. change (length (@nil cu)) with 0.
    rewrite Nat.sub_0_r, firstn_all, Nat.add_0_r. reflexivity.
  - cbn [forallb] in Hw. apply andb_true_iff in Hw. destruct Hw as [Ha Hw].
    destruct (at_bol placeholderFlags (MState pv [] [])) eqn:Hbol.
    + exists [], (a :: w). split; [reflexivity|]. cbn [length].
      rewrite exec_from_eq, compile_placeholder.
      replace (at_bol placeholderFlags
                 (MState pv ((a :: w) ++ 91%N :: body ++ [93%N]) []))
        with true by (symmetry; exact Hbol).
      cbn [prev rest caps].
      rewrite greedy_until;
        [|cbn [forallb]; now rewrite Ha, Hw | reflexivity|].
      * rewrite ph_open_at_end by assumption.
        cbv zeta. cbn [rest caps]. change (length (@nil cu)) with 0.
        rewrite Nat.sub_0_r, firstn_all, Nat.add_0_r. reflexivity.
      * rewrite ph_open_at_end by assumption. discriminate.
    + destruct Hfresh as [Hf | Hlt]; [discriminate|].
      cbn [existsb] in Hlt.
      destruct (IH Hw (S idx) (Some a)) as (w1 & w2 & Ew & E).
      { cbn [at_bol prev placeholderFlags multiline andb].
        apply orb_true_iff in Hlt. exact Hlt. }
      exists (a :: w1), w2. split; [cbn [app]; now f_equal|].
      cbn [app]. rewrite exec_from_eq, compile_placeholder.
      replace (at_bol placeholderFlags
                 (MState pv (a :: w ++ 91%N :: body ++ [93%N]) []))
        with false by (symmetry; exact Hbol).
      rewrite E. cbn [length]. f_equal. f_equal; lia.
Qed.

Lemma replace_all_one fl re rep s mr :
  exec fl re s 0 = Ok mr ->
  m0 mr <> [] ->
  exec fl re s (end_index mr) = Fail ->
  replace_all fl re rep s
  = Some (firstn (index mr) s ++ rep
          ++ skipn (index mr + length (m0 mr)) s).
Proof.
  intros E1 Hne E2. unfold replace_all. cbn [Nat.add replace_loop].
  rewrite E1. cbv zeta.
  assert (Hlen : Nat.eqb (length (m0 mr)) 0 = false).
  { apply Nat.eqb_neq. destruct (m0 mr); [congruence | cbn [length]; lia]. }
  rewrite Hlen. cbn [Nat.leb]. rewrite E2.
  cbn [app skipn]. rewrite Nat.sub_0_r. now rewrite <- app_assoc.
Qed.

(** ** Three line feeds in a row *)

Lemma starts_with_before (a d : cu) (pat : jsstring) :
  Forall (fun c => c = a) pat ->
  d <> a ->
  forall u r : jsstring,
    starts_with pat (u ++ d :: r) = starts_with pat u.
Proof.
  intros Hpat Hd. induction Hpat as [|c pat Hc _ IH]; intros u r;
    [now destruct u|].
  subst c. destruct u as [|x u].
  - cbn [app starts_with]. unfold cu_eqb.
    destruct (N.eqb_spec a d); [congruence | reflexivity].
  - cbn [app starts_with]. now rewrite IH.
Qed.

Lemma occurs_clean (a : cu) (pat m : jsstring) :
  pat <> [] ->
  Forall (fun c => c = a) pat ->
  Forall (fun u => u <> a) m ->
  forall v, occurs pat (m ++ v) = occurs pat v.
Proof.
  intros Hne Hpat Hm v. induction Hm as [|c m Hc _ IH]; [reflexivity|].
  cbn [app occurs]. rewrite IH.
  destruct pat as [|b pat]; [congruence|]. inversion Hpat; subst.
  cbn [starts_with]. unfold cu_eqb.
  destruct (N.eqb_spec a c); [congruence | reflexivity].
Qed.

Lemma occurs_clean_all (a : cu) (pat m : jsstring) :
  pat <> [] ->
  Forall (fun c => c = a) pat ->
  Forall (fun u => u <> a) m ->
  occurs pat m = false.
Proof.
  intros Hne Hpat Hm. rewrite <- (app_nil_r m).
  rewrite occurs_clean with (a := a) by assumption.
  destruct pat; [congruence | reflexivity].
Qed.

Lemma occurs_before (a d : cu) (pat u r : jsstring) :
  pat <> [] ->
  Forall (fun c => c = a) pat ->
  d <> a ->
  occurs pat (u ++ d :: r) = occurs pat u || occurs pat (d :: r).
Proof.
  intros Hne Hpat Hd. induction u as [|x u IH].
  - cbn [app]. destruct pat; [congruence | reflexivity].
  - cbn [app occurs].
    change (x :: u ++ d :: r) with ((x :: u) ++ d :: r).
    rewrite (starts_with_before Hpat Hd), IH. now rewrite orb_assoc.
Qed.

(** ** trim *)

Lemma trim_app_spaces (l w : jsstring) : forallb is_space w = true -> trim (l ++ w) = trim l.
Proof.
  revert l. induction w as [|a w IH] using rev_ind; intros l H;
    [now rewrite app_nil_r|].
  rewrite forallb_app in H. apply andb_true_iff in H. destruct H as [Hw Ha].
  cbn [forallb] in Ha. rewrite andb_true_r in Ha.
  rewrite app_assoc, trim_app_space by exact Ha. now apply IH.
Qed.

Lemma trim_not_empty (l : jsstring) :
  existsb (fun u => negb (is_space u)) l = true -> trim l <> [].
Proof.
  intros H. unfold trim.
  assert (Hs : exists a v, trimStart l = a :: v /\ is_space a = false).
  { induction l as [|x l IH]; [discriminate|].
    cbn [existsb] in H. cbn [trimStart].
    destruct (is_space x) eqn:E; [|eauto].
    cbn [negb orb] in H. now apply IH. }
  destruct Hs as (a & v & -> & Ha).
  destruct (@trimEnd_nonspace_head a v Ha) as [w ->]. discriminate.
Qed.

(** ** The working copy after a table *)

Lemma replace_first_eq pat rep s :
  replace_first pat rep s
  = if starts_with pat s then rep ++ skipn (length pat) s
    else match s with
         | [] => []
         | a :: t => a :: replace_first pat rep t
         end.
Proof. destruct s; reflexivity. Qed.

Lemma starts_with_self pat t : starts_with pat (pat ++ t) = true.
Proof.
  induction pat as [|a pat IH]; [reflexivity|].
  cbn [app starts_with]. unfold cu_eqb. now rewrite N.eqb_refl, IH.
Qed.

Lemma replace_first_at (a : cu) (pat rep pre post : jsstring) :
  Forall (fun u => u <> a) pre ->
  replace_first (a :: pat) rep (pre ++ (a :: pat) ++ post)
  = pre ++ rep ++ post.
Proof.
  intros Hpre. induction Hpre as [|y pre Hy _ IH].
  - cbn [app]. rewrite replace_first_eq.
    change (a :: pat ++ post) with ((a :: pat) ++ post).
    now rewrite starts_with_self, skipn_app_exact.
  - cbn [app]. rewrite replace_first_eq. cbn [starts_with]. unfold cu_eqb.
    destruct (N.eqb_spec a y); [congruence|]. cbn [andb].
    f_equal. exact IH.
Qed.

Lemma table_pass_one_run (pre l1 l2 : jsstring) (ls : list jsstring)
    (post : jsstring) :
  Forall (fun u => u <> pipe) pre ->
  table_line l1 = true ->
  table_line l2 = true ->
  Forall (fun l => table_line l = true) ls ->
  Forall (fun u => u <> pipe) post ->
  table_pass (pre ++ concat_lines (l1 :: l2 :: ls) ++ post)
    ([], pre ++ concat_lines (l1 :: l2 :: ls) ++ post)
  = Some ([ Artifact table None (trim (concat_lines (l1 :: l2 :: ls)))
              (js "Data Table") ],
          pre ++ tableMarker ++ post).
Proof.
  intros Hpre H1 H2 Hls Hpost.
  set (run := concat_lines (l1 :: l2 :: ls)).
  assert (E : exec no_flags tableRegex (pre ++ run ++ post) 0
              = Ok (MatchResult (length pre) run [(1, run)]
                      (length pre + length run))).
  { apply exec_table_run; auto. destruct Hpost; [exact I | assumption]. }
  assert (Hrun : exists t, run = pipe :: t).
  { destruct (table_line_shape _ H1) as (a & b & -> & _).
    unfold run. cbn [concat_lines flat_map app]. eauto. }
  unfold table_pass. erewrite exec_loop_one; [|exact E| |].
  - unfold table_body. cbn [captures get_cap find fst snd Nat.eqb m0].
    cbv zeta.
    assert (Hrows : (2 <=? length (filter (fun row => truthy (trim row))
                                      (split nl (trim run)))) = true)
      by (unfold run; now apply run_rows).
    rewrite Hrows. destruct Hrun as [t Ht]. f_equal. f_equal.
    rewrite Ht. now apply replace_first_at.
  - cbn [end_index]. rewrite app_assoc, <- length_app, exec_at.
    apply exec_from_too_few with (a := pipe).
    rewrite count_unit_absent by exact Hpost. cbn. lia.
  - destruct Hrun as [t ->]. rewrite !length_app. cbn [length]. lia.
Qed.

(** ** The clean-up of a text with a placeholder *)

Lemma firstn_length_app {A} (u v : list A) : firstn (length u) (u ++ v) = u.
Proof.
  rewrite firstn_app, Nat.sub_diag, firstn_all. cbn [firstn].
  apply app_nil_r.
Qed.

Lemma spaces_without (c : cu) (w : jsstring) :
  is_space c = false -> forallb is_space w = true ->
  Forall (fun u => u <> c) w.
Proof.
  intros Hc Hw. apply Forall_forall. intros u Hu ->.
  rewrite forallb_forall in Hw. specialize (Hw _ Hu). congruence.
Qed.

Lemma exec_placeholder_fresh (p w body : jsstring) :
  Forall (fun u => u <> 91%N) p ->
  forallb is_space w = true ->
  p = []
  \/ (exists p0 x,
        p = p0 ++ [x] /\ is_space x = false
        /\ existsb is_line_terminator w = true) ->
  forallb is_dot body = true ->
  Forall (fun u => u <> 93%N) body ->
  exists w1 w2,
    w = w1 ++ w2
    /\ exec placeholderFlags placeholderRegex
         (p ++ w ++ 91%N :: body ++ [93%N]) 0
       = Ok (MatchResult (length (p ++ w1)) (w2 ++ 91%N :: body ++ [93%N])
               []
               (length (p ++ w1) + length (w2 ++ 91%N :: body ++ [93%N]))).
Proof.
  intros Hp Hw Hfresh Hdot Hno. unfold exec.
  cbn [Nat.ltb Nat.leb skipn unit_before].
  destruct Hfresh as [-> | (p0 & x & -> & Hx & Hlt)].
  - destruct (@exec_from_fresh_line w body Hw Hdot Hno 0 None)
      as (w1 & w2 & Ew & E); [now left|].
    exists w1, w2. split; [exact Ew|]. cbn [app]. exact E.
  - apply Forall_app in Hp. destruct Hp as [Hp0 Hx'].
    inversion Hx' as [|? ? Hx91 _]; subst.
    destruct (@exec_from_fresh_line w body Hw Hdot Hno
                (0 + length p0 + 1) (Some x))
      as (w1 & w2 & Ew & E); [now right|].
    exists w1, w2. split; [exact Ew|].
    rewrite <- app_assoc. cbn [app].
    rewrite exec_from_before_unit by assumption.
    eapply eq_trans; [exact E|]. rewrite !length_app. cbn [length].
    repeat (f_equal; try lia).
Qed.

Lemma exec_placeholder_end (u : jsstring) :
  exec placeholderFlags placeholderRegex (u ++ [93%N])
    (length (u ++ [93%N]))
  = Fail.
Proof.
  rewrite <- (app_nil_r (u ++ [93%N])) at 1.
  rewrite exec_at, exec_from_eq, compile_placeholder.
  unfold last_unit. rewrite map_app. cbn [map]. rewrite last_app_unit.
  reflexivity.
Qed.

Lemma marker_no_line_feed (body : jsstring) :
  forallb is_dot body = true ->
  Forall (fun u => u <> nl) (91%N :: body ++ [93%N]).
Proof.
  intros Hdot. constructor; [discriminate|]. apply Forall_app.
  split; [now apply is_dot_not_nl | repeat constructor; discriminate].
Qed.

(** A placeholder on a line of its own at the end of the text is taken
    out, with the white space before it. *)
Lemma cleanup_fresh (p w body : jsstring) :
  Forall (fun u => u <> 91%N) p ->
  forallb is_space w = true ->
  p = []
  \/ (exists p0 x,
        p = p0 ++ [x] /\ is_space x = false
        /\ existsb is_line_terminator w = true) ->
  occurs (js "\n\n\n") (p ++ w) = false ->
  forallb is_dot body = true ->
  Forall (fun u => u <> 93%N) body ->
  cleanup (p ++ w ++ 91%N :: body ++ [93%N]) = Some (trim p).
Proof.
  intros Hp Hw Hfresh Hocc Hdot Hno. unfold cleanup.
  rewrite replace_all_no_match.
  2:{ apply exec_nowhere with (w := js "\n\n\n");
        [apply newlinesRegex_start|].
      rewrite app_assoc.
      rewrite occurs_before with (a := nl);
        [|discriminate | repeat constructor | discriminate].
      apply orb_false_iff. split; [exact Hocc|].
      apply occurs_clean_all with (a := nl);
        [discriminate | repeat constructor|].
      now apply marker_no_line_feed. }
  cbn [bind].
  destruct (@exec_placeholder_fresh p w body Hp Hw Hfresh Hdot Hno)
    as (w1 & w2 & Ew & E).
  assert (Hend : length (p ++ w1) + length (w2 ++ 91%N :: body ++ [93%N])
                 = length (p ++ w ++ 91%N :: body ++ [93%N])).
  { subst w. rewrite !length_app. lia. }
  erewrite replace_all_one; [|exact E| |].
  - cbn [bind index m0]. rewrite Hend, skipn_all, app_nil_r.
    replace (p ++ w ++ 91%N :: body ++ [93%N])
      with ((p ++ w1) ++ w2 ++ 91%N :: body ++ [93%N])
      by (subst w; now rewrite <- !app_assoc).
    rewrite firstn_length_app. f_equal. apply trim_app_spaces.
    subst w. rewrite forallb_app in Hw. apply andb_true_iff in Hw. tauto.
  - cbn [m0]. destruct w2; discriminate.
  - cbn [end_index]. rewrite Hend.
    replace (p ++ w ++ 91%N :: body ++ [93%N])
      with ((p ++ w ++ 91%N :: body) ++ [93%N])
      by (rewrite <- !app_assoc; reflexivity).
    apply exec_placeholder_end.
Qed.

Lemma exec_from_glued (pre body : jsstring) (x : cu) (post : jsstring) :
  Forall (fun u => u <> 91%N) pre ->
  forallb is_dot body = true ->
  Forall (fun u => u <> 91%N /\ u <> 93%N) body ->
  is_space x = false ->
  Forall (fun u => u <> 91%N /\ u <> 93%N) (x :: post) ->
  forall idx pv,
    exec_from placeholderFlags placeholderRegex idx pv
      (pre ++ 91%N :: body ++ 93%N :: x :: post)
    = Fail.
Proof.
  intros Hpre Hdot Hbody Hx Hpost.
  assert (Hb93 : Forall (fun u => u <> 93%N) body)
    by (eapply Forall_impl; [|exact Hbody]; cbv beta; tauto).
  assert (Hp93 : Forall (fun u => u <> 93%N) (x :: post))
    by (eapply Forall_impl; [|exact Hpost]; cbv beta; tauto).
  assert (Hm : forall c pv,
            greedy_scan is_space (ph_open c) pv
              (91%N :: body ++ 93%N :: x :: post) []
            = Fail).
  { intros c pv. cbn [greedy_scan]. change (is_space 91%N) with false.
    cbv iota. now apply ph_open_before_text. }
  induction Hpre as [|y pre Hy Hpre IH]; intros idx pv.
  - cbn [app]. rewrite exec_from_eq, compile_placeholder.
    cbn [prev rest caps]. rewrite Hm.
    assert (E : exec_from placeholderFlags placeholderRegex (S idx)
                  (Some 91%N) (body ++ 93%N :: x :: post) = Fail).
    { apply exec_from_too_few with (a := 91%N).
      rewrite count_unit_absent; [cbn; lia|].
      apply Forall_app. split.
      - eapply Forall_impl; [|exact Hbody]. cbv beta. tauto.
      - constructor; [discriminate|].
        eapply Forall_impl; [|exact Hpost]. cbv beta. tauto. }
    destruct (at_bol _ _); exact E.
  - cbn [app]. rewrite exec_from_eq, compile_placeholder.
    cbn [prev rest caps].
    change (y :: pre ++ 91%N :: body ++ 93%N :: x :: post)
      with ((y :: pre) ++ 91%N :: body ++ 93%N :: x :: post).
    rewrite greedy_before_rejected;
      [|constructor; assumption | intros pv0; apply Hm].
    cbn [app]. rewrite IH. destruct (at_bol _ _); reflexivity.
Qed.

(** A placeholder followed on its line by other text stays. *)
Lemma cleanup_glued (pre body : jsstring) (x : cu) (post : jsstring) :
  Forall (fun u => u <> 91%N) pre ->
  forallb is_dot body = true ->
  Forall (fun u => u <> 91%N /\ u <> 93%N) body ->
  is_space x = false ->
  Forall (fun u => u <> 91%N /\ u <> 93%N) (x :: post) ->
  occurs (js "\n\n\n") pre = false ->
  occurs (js "\n\n\n") (x :: post) = false ->
  cleanup (pre ++ 91%N :: body ++ 93%N :: x :: post)
  = Some (trim (pre ++ 91%N :: body ++ 93%N :: x :: post)).
Proof.
  intros Hpre Hdot Hbody Hx Hpost Hocc Hocc'. unfold cleanup.
  rewrite replace_all_no_match.
  2:{ apply exec_nowhere with (w := js "\n\n\n");
        [apply newlinesRegex_start|].
      rewrite occurs_before with (a := nl);
        [|discriminate | repeat constructor | discriminate].
      apply orb_false_iff. split; [exact Hocc|].
      eapply eq_trans; [|exact Hocc'].
      transitivity
        (occurs (js "\n\n\n") ((91%N :: body ++ [93%N]) ++ x :: post)).
      - f_equal. cbn [app]. now rewrite <- app_assoc.
      - apply occurs_clean with (a := nl);
          [discriminate | repeat constructor|].
        now apply marker_no_line_feed. }
  cbn [bind]. rewrite replace_all_no_match; [reflexivity|].
  unfold exec. cbn [Nat.ltb Nat.leb skipn unit_before].
  now apply exec_from_glued.
Qed.

(** ** One table *)

Lemma exec_doc_none text :
  doc_search text = None -> exec docFlags docRegex text 0 = Fail.
Proof.
  intros H. unfold exec. cbn [Nat.ltb Nat.leb skipn unit_before].
  pose proof (exec_from_doc_search text 0 None) as E.
  now rewrite H in E.
Qed.

Lemma extract_one_table (pre l1 l2 : jsstring) (ls : list jsstring)
    (post cleaned : jsstring) :
  Forall (fun u => u <> pipe) pre ->
  table_line l1 = true ->
  table_line l2 = true ->
  Forall (fun l => table_line l = true) ls ->
  Forall (fun u => u <> pipe) post ->
  count_unit 96%N (pre ++ concat_lines (l1 :: l2 :: ls) ++ post) < 6 ->
  doc_search (pre ++ concat_lines (l1 :: l2 :: ls) ++ post) = None ->
  cleanup (pre ++ tableMarker ++ post) = Some cleaned ->
  extractArtifacts (pre ++ concat_lines (l1 :: l2 :: ls) ++ post)
  = Some (Extraction
            [ Artifact table None (trim (concat_lines (l1 :: l2 :: ls)))
                (js "Data Table") ]
            (match cleaned with
             | [] => tableSentence
             | _ => cleaned
             end)).
Proof.
  intros Hpre H1 H2 Hls Hpost Hcode Hdoc Hcl. unfold extractArtifacts.
  rewrite code_pass_no_match
    by (apply exec_too_few with (a := 96%N); exact Hcode).
  cbn [bind]. rewrite table_pass_one_run by assumption. cbn [bind].
  unfold doc_pass. rewrite exec_doc_none by exact Hdoc.
  cbn [bind fst snd]. rewrite Hcl. cbn [bind].
  destruct cleaned; reflexivity.
Qed.

(** X20.  A table on lines of its own at the end of a text.  When the text
    before a run of two or more table lines is made of [p] and white
    space [w], where [p] is empty or ends with a unit that is no white
    space and is then followed by a line terminator in [w], the table is
    the one artifact and its placeholder leaves no trace: the
    conversationalContent is [p] trimmed, or the sentence about the table
    when that is empty.  (The text holds fewer than six backticks, no
    keyword of the document pass with 200 units after it, and before the
    table no pipe, no opening bracket and no three line feeds in a row.) *)
Theorem table_at_end (p w l1 l2 : jsstring) (ls : list jsstring) :
  Forall (fun u => u <> pipe /\ u <> 91%N) p ->
  forallb is_space w = true ->
  p = []
  \/ (exists p0 x,
        p = p0 ++ [x] /\ is_space x = false
        /\ existsb is_line_terminator w = true) ->
  occurs (js "\n\n\n") (p ++ w) = false ->
  table_line l1 = true ->
  table_line l2 = true ->
  Forall (fun l => table_line l = true) ls ->
  count_unit 96%N ((p ++ w) ++ concat_lines (l1 :: l2 :: ls)) < 6 ->
  doc_search ((p ++ w) ++ concat_lines (l1 :: l2 :: ls)) = None ->
  extractArtifacts ((p ++ w) ++ concat_lines (l1 :: l2 :: ls))
  = Some (Extraction
            [ Artifact table None (trim (concat_lines (l1 :: l2 :: ls)))
                (js "Data Table") ]
            (match trim p with
             | [] => tableSentence
             | _ => trim p
             end)).
Proof.
  intros Hp Hw Hfresh Hocc H1 H2 Hls Hcode Hdoc.
  assert (Hp1 : Forall (fun u => u <> pipe) p)
    by (eapply Forall_impl; [|exact Hp]; cbv beta; tauto).
  assert (Hp2 : Forall (fun u => u <> 91%N) p)
    by (eapply Forall_impl; [|exact Hp]; cbv beta; tauto).
  rewrite <- (app_nil_r (concat_lines (l1 :: l2 :: ls))) in Hcode, Hdoc |- *.
  rewrite (@extract_one_table (p ++ w) l1 l2 ls [] (trim p)); auto.
  - rewrite app_nil_r. reflexivity.
  - apply Forall_app. split; [exact Hp1|].
    now apply spaces_without.
  - rewrite app_nil_r, <- app_assoc.
    change tableMarker with (91%N :: js "Table shown in artifact" ++ [93%N]).
    apply cleanup_fresh; auto.
    repeat constructor; discriminate.
Qed.

Lemma table_at_end_witness :
  extractArtifacts
    ((js "Here is a table:" ++ js "\n\n")
     ++ concat_lines (js "|A|B|" :: js "|-|-|" :: [ js "|1|2|" ]))
  = Some (Extraction
            [ Artifact table None
                (trim (concat_lines
                         (js "|A|B|" :: js "|-|-|" :: [ js "|1|2|" ])))
                (js "Data Table") ]
            (match trim (js "Here is a table:") with
             | [] => tableSentence
             | _ => trim (js "Here is a table:")
             end)).
Proof.
  apply table_at_end.
  - repeat constructor; discriminate.
  - reflexivity.
  - right. exists (js "Here is a table"), 58%N. repeat split; reflexivity.
  - reflexivity.
  - reflexivity.
  - reflexivity.
  - repeat constructor.
  - vm_compute. lia.
  - reflexivity.
Defined.

(** X21.  A table followed on the next line by other text.  When a run of
    two or more table lines is followed directly by a unit that is no
    white space, the table is the one artifact, but its placeholder is
    not taken out: the conversationalContent is the text with
    [[Table shown in artifact]] in the place of the table, line feed of
    its last line included, so that the placeholder runs into the text
    that follows.  (The text holds fewer than six backticks, no keyword
    of the document pass with 200 units after it, and around the table no
    pipe, no opening bracket, after it no closing bracket, and no three
    line feeds in a row.) *)
Theorem table_before_text (pre l1 l2 : jsstring) (ls : list jsstring)
    (x : cu) (post : jsstring) :
  Forall (fun u => u <> pipe /\ u <> 91%N) pre ->
  table_line l1 = true ->
  table_line l2 = true ->
  Forall (fun l => table_line l = true) ls ->
  is_space x = false ->
  Forall (fun u => u <> pipe /\ u <> 91%N /\ u <> 93%N) (x :: post) ->
  occurs (js "\n\n\n") pre = false ->
  occurs (js "\n\n\n") (x :: post) = false ->
  count_unit 96%N (pre ++ concat_lines (l1 :: l2 :: ls) ++ x :: post) < 6 ->
  doc_search (pre ++ concat_lines (l1 :: l2 :: ls) ++ x :: post) = None ->
  extractArtifacts (pre ++ concat_lines (l1 :: l2 :: ls) ++ x :: post)
  = Some (Extraction
            [ Artifact table None (trim (concat_lines (l1 :: l2 :: ls)))
                (js "Data Table") ]
            (trim (pre ++ tableMarker ++ x :: post))).
Proof.
  intros Hpre H1 H2 Hls Hx Hpost Hocc Hocc' Hcode Hdoc.
  assert (Hpre1 : Forall (fun u => u <> pipe) pre)
    by (eapply Forall_impl; [|exact Hpre]; cbv beta; tauto).
  assert (Hpre2 : Forall (fun u => u <> 91%N) pre)
    by (eapply Forall_impl; [|exact Hpre]; cbv beta; tauto).
  assert (Hpost1 : Forall (fun u => u <> pipe) (x :: post))
    by (eapply Forall_impl; [|exact Hpost]; cbv beta; tauto).
  assert (Hpost2 : Forall (fun u => u <> 91%N /\ u <> 93%N) (x :: post))
    by (eapply Forall_impl; [|exact Hpost]; cbv beta; tauto).
  rewrite (@extract_one_table pre l1 l2 ls (x :: post)
             (trim (pre ++ tableMarker ++ x :: post))); auto.
  - destruct (trim (pre ++ tableMarker ++ x :: post)) eqn:E;
      [|reflexivity].
    exfalso. revert E. apply trim_not_empty.
    rewrite existsb_app. apply orb_true_iff. right. reflexivity.
  - change (tableMarker ++ x :: post)
      with (91%N :: js "Table shown in artifact" ++ 93%N :: x :: post).
    apply cleanup_glued; auto.
    repeat constructor; discriminate.
Qed.

Lemma table_before_text_witness :
  extractArtifacts
    (js "Fees:\n"
     ++ concat_lines (js "|A|B|" :: js "|-|-|" :: [ js "|1|2|" ])
     ++ 65%N :: js "ll in EUR.")
  = Some (Extraction
            [ Artifact table None
                (trim (concat_lines
                         (js "|A|B|" :: js "|-|-|" :: [ js "|1|2|" ])))
                (js "Data Table") ]
            (trim (js "Fees:\n" ++ tableMarker ++ 65%N :: js "ll in EUR."))).
Proof.
  apply table_before_text.
  - repeat constructor; discriminate.
  - reflexivity.
  - reflexivity.
  - repeat constructor.
  - reflexivity.
  - repeat constructor; discriminate.
  - reflexivity.
  - reflexivity.
  - vm_compute. lia.
  - reflexivity.
Defined.

(** * One fenced block *)

Lemma code_pass_one_block (pre lang body post : jsstring) :
  Forall (fun u => u <> 96%N) pre ->
  forallb is_word lang = true ->
  Forall (fun u => u <> 96%N) body ->
  Forall (fun u => u <> 96%N) post ->
  code_pass (pre ++ fenced lang body ++ post)
    ([], pre ++ fenced lang body ++ post)
  = Some ([ Artifact code
              (Some (match lang with [] => js "text" | _ => lang end))
              (trim body)
              (match lang with [] => js "Code" | _ => lang end
               ++ js " Block") ],
          pre ++ post).
Proof.
  intros Hpre Hlang Hbody Hpost. unfold code_pass.
  rewrite exec_loop_one
    with (mr := MatchResult (length pre) (fenced lang body)
                  ((2, body) :: match lang with [] => [] | _ => [(1, lang)] end)
                  (length pre + length (fenced lang body))).
  - unfold code_body. cbn [fst snd app captures m0 get_cap find Nat.eqb].
    f_equal. f_equal.
    + destruct lang; reflexivity.
    + change (fenced lang body)
        with (96%N :: ([96%N; 96%N] ++ lang ++ nl :: body ++ fence)).
      exact (@replace_first_at 96%N _ [] pre post Hpre).
  - now apply exec_code_block.
  - cbn [end_index]. now apply exec_after_code_block.
  - rewrite !length_app. unfold fenced, fence. rewrite !length_app.
    cbn [length js]. lia.
Qed.

(** X22.  A text with one fenced block and no other backtick, fewer than
    two pipes and no keyword of the document pass with 200 units after
    it: the block is the one artifact, and the conversationalContent is
    what the clean-up makes of the text without the block, or the
    sentence about the code when that is empty. *)
Theorem code_block_removed (pre lang body post : jsstring) :
  Forall (fun u => u <> 96%N) pre ->
  forallb is_word lang = true ->
  Forall (fun u => u <> 96%N) body ->
  Forall (fun u => u <> 96%N) post ->
  count_unit pipe (pre ++ fenced lang body ++ post) < 2 ->
  doc_search (pre ++ fenced lang body ++ post) = None ->
  exists cleaned,
    cleanup (pre ++ post) = Some cleaned
    /\ extractArtifacts (pre ++ fenced lang body ++ post)
       = Some (Extraction
                 [ Artifact code
                     (Some (match lang with [] => js "text" | _ => lang end))
                     (trim body)
                     (match lang with [] => js "Code" | _ => lang end
                      ++ js " Block") ]
                 (match cleaned with
                  | [] => codeSentence
                  | _ => cleaned
                  end)).
Proof.
  intros Hpre Hlang Hbody Hpost Hpipe Hdoc.
  destruct (cleanup_total (pre ++ post)) as [cleaned Hcl].
  exists cleaned. split; [exact Hcl|]. unfold extractArtifacts.
  rewrite code_pass_one_block by assumption. cbn [bind].
  rewrite table_pass_no_match
    by (apply exec_too_few with (a := pipe); exact Hpipe).
  cbn [bind]. unfold doc_pass. rewrite exec_doc_none by exact Hdoc.
  cbn [bind fst snd]. rewrite Hcl. cbn [bind].
  destruct cleaned; reflexivity.
Qed.

Lemma code_block_removed_witness :
  exists cleaned,
    cleanup (js "Run this:\n\n" ++ js "\n\nThen restart.") = Some cleaned
    /\ extractArtifacts
         (js "Run this:\n\n" ++ fenced (js "sh") (js "make\n")
          ++ js "\n\nThen restart.")
       = Some (Extraction
                 [ Artifact code (Some (js "sh")) (trim (js "make\n"))
                     (js "sh" ++ js " Block") ]
                 (match cleaned with
                  | [] => codeSentence
                  | _ => cleaned
                  end)).
Proof.
  apply (@code_block_removed (js "Run this:\n\n") (js "sh") (js "make\n")
           (js "\n\nThen restart."));
    first [reflexivity | vm_compute; lia | repeat constructor; discriminate].
Defined.

(** * The labels of a streamed message *)

Lemma feed_fragments_labels evs :
  forall prev m loading,
    Forall (fun e => is_fragment (snd e) = true) evs ->
    (Msg.isBot m && Msg.isStreaming m)%bool = true ->
    exists m',
      feed evs (Chat (prev ++ [m]) loading) = Some (Chat (prev ++ [m']) loading)
      /\ Msg.id m' = Msg.id m
      /\ Msg.agent m' = Msg.agent m
      /\ Msg.timestamp m' = Msg.timestamp m
      /\ Msg.thinking m'
         = fold_left (fun t e => or_else (Ev.thinking (snd e)) t) evs
             (Msg.thinking m).
Proof.
  induction evs as [|[[now nowIso] data] evs IH]; intros prev m loading Hf Hm.
  - exists m. repeat split.
  - inversion Hf as [|? ? Hd Hf']; subst. cbn [snd] in Hd.
    destruct (extractArtifacts_total (Msg.content m ++ fragment_text data))
      as [r Hr].
    cbn [feed].
    erewrite onmessage_content_append; [|exact Hd | exact Hm | exact Hr].
    cbn [bind].
    set (m1 := Msg.Message _ _ _ _ _ _ _ _ _ _ _).
    destruct (IH prev m1 loading Hf' Hm) as (m' & Hfeed & Hi & Ha & Ht & Hth).
    exists m'. split; [exact Hfeed|]. repeat split; assumption.
Qed.

(** X23.  The id, the agent and the timestamp of a streamed message are
    those of its first fragment (the id is the clock reading then, the
    agent [Legal Assistant] and the timestamp the clock reading when the
    fragment has none); what later fragments carry as agent or timestamp
    is dropped.  Its thinking is the thinking of the last
    fragment that carried a thinking text that is not empty, and that of
    the first fragment when no later one did. *)
Theorem labels_of_streamed_message (e : N * jsstring * Ev.event)
    (evs : list (N * jsstring * Ev.event)) (st : chat) :
  streaming_last (messages st) = None ->
  Forall (fun e' => is_fragment (snd e') = true) (e :: evs) ->
  exists m,
    feed (e :: evs) st = Some (Chat (messages st ++ [m]) (isLoading st))
    /\ Msg.id m = fst (fst e)
    /\ Msg.agent m
       = Some (or_default (Ev.agent (snd e)) (js "Legal Assistant"))
    /\ Msg.timestamp m = or_default (Ev.timestamp (snd e)) (snd (fst e))
    /\ Msg.thinking m
       = fold_left (fun t e' => or_else (Ev.thinking (snd e')) t) evs
           (Ev.thinking (snd e)).
Proof.
  destruct e as [[now nowIso] data]. intros Hl Hf.
  inversion Hf as [|? ? Hd Hf']; subst. cbn [snd] in Hd.
  destruct (extractArtifacts_total (fragment_text data)) as [r0 Hr0].
  cbn [feed].
  erewrite onmessage_content_new; [|exact Hd | exact Hl | exact Hr0].
  cbn [bind]. set (m0 := Msg.Message _ _ _ _ _ _ _ _ _ _ _).
  destruct st as [ms loading]. cbn [messages isLoading].
  destruct (@feed_fragments_labels evs ms m0 loading Hf' eq_refl)
    as (m' & Hfeed & Hi & Ha & Ht & Hth).
  exists m'. split; [exact Hfeed|]. cbn [fst snd].
  split; [exact Hi|]. split; [exact Ha|]. split; [exact Ht | exact Hth].
Qed.

Lemma labels_of_streamed_message_witness :
  exists m,
    feed [ (1%N, js "t1",
            Ev.Event (Some (js "Dear ")) (Some (js "plan")) (Some (js "Drafter"))
                     None false None);
           (2%N, js "t2",
            Ev.Event (Some (js "client")) None (Some (js "Researcher"))
                     (Some (js "later")) false None) ]
         (Chat [] false)
    = Some (Chat ([] ++ [m]) false)
    /\ Msg.id m = 1%N
    /\ Msg.agent m = Some (js "Drafter")
    /\ Msg.timestamp m = js "t1"
    /\ Msg.thinking m = Some (js "plan").
Proof.
  apply (@labels_of_streamed_message
           (1%N, js "t1",
            Ev.Event (Some (js "Dear ")) (Some (js "plan")) (Some (js "Drafter"))
                     None false None)
           [ (2%N, js "t2",
              Ev.Event (Some (js "client")) None (Some (js "Researcher"))
                       (Some (js "later")) false None) ]
           (Chat [] false)).
  - reflexivity.
  - repeat constructor.
Defined.

(** * One document *)

Lemma starts_with_ci_app fl (w : jsstring) :
  forall l e : jsstring,
    starts_with_ci fl w l = true -> starts_with_ci fl w (l ++ e) = true.
Proof.
  induction w as [|a w IH]; intros l e H; [reflexivity|].
  destruct l as [|b l]; [discriminate|].
  cbn [app starts_with_ci] in *. apply andb_true_iff in H.
  destruct H as [-> H]. cbn [andb]. now apply IH.
Qed.

Lemma doc_here_app (d e : jsstring) :
  doc_here d = true -> doc_here (d ++ e) = true.
Proof.
  unfold doc_here. rewrite !existsb_exists.
  intros (w & Hw & H). exists w. split; [exact Hw|].
  apply andb_true_iff in H. destruct H as [H1 H2].
  apply andb_true_iff. split; [now apply starts_with_ci_app|].
  apply Nat.leb_le in H2. apply Nat.leb_le.
  rewrite length_skipn in *. rewrite length_app. lia.
Qed.

Lemma starts_with_app (pat : jsstring) :
  forall s : jsstring,
    starts_with pat s = true -> s = pat ++ skipn (length pat) s.
Proof.
  induction pat as [|a pat IH]; intros s H; [reflexivity|].
  destruct s as [|b s]; [discriminate|].
  cbn [starts_with] in H. apply andb_true_iff in H. destruct H as [Hab H].
  unfold cu_eqb in Hab. apply N.eqb_eq in Hab. subst b.
  cbn [length skipn app]. f_equal. now apply IH.
Qed.

Lemma doc_here_starts (d s : jsstring) :
  doc_here d = true -> starts_with d s = true -> doc_here s = true.
Proof.
  intros Hd Hs. rewrite (@starts_with_app d s Hs). now apply doc_here_app.
Qed.

(** The first occurrence is the one replaced. *)
Lemma replace_first_first (pat rep : jsstring) (post : jsstring) :
  pat <> [] ->
  forall pre : jsstring,
    (forall j, j < length pre ->
       starts_with pat (skipn j (pre ++ pat ++ post)) = false) ->
    replace_first pat rep (pre ++ pat ++ post) = pre ++ rep ++ post.
Proof.
  intros Hne. induction pre as [|y pre IH]; intros H.
  - cbn [app]. rewrite replace_first_eq.
    now rewrite starts_with_self, skipn_app_exact.
  - cbn [app]. rewrite replace_first_eq.
    pose proof (H 0 ltac:(cbn [length]; lia)) as H0.
    cbn [skipn app] in H0.
    match goal with
    | |- (if ?b then _ else _) = _ =>
        assert (E : b = false) by exact H0; rewrite E
    end.
    f_equal. apply IH. intros j Hj.
    apply (H (S j)). cbn [length]. lia.
Qed.

Lemma doc_search_split (pre d : jsstring) :
  doc_search (pre ++ d) = Some d ->
  doc_here d = true
  /\ forall j, j < length pre -> doc_here (skipn j (pre ++ d)) = false.
Proof.
  intros H. apply doc_search_Some in H. destruct H as (i & Hd & Hi & Hlt).
  assert (Ei : i = length pre).
  { assert (Hle : i <= length (pre ++ d)).
    { destruct (Nat.le_gt_cases i (length (pre ++ d))) as [Hle | Hgt];
        [exact Hle|].
      rewrite skipn_all2 in Hi by lia. discriminate. }
    apply (f_equal (@length cu)) in Hd.
    rewrite length_skipn, length_app in Hd. rewrite length_app in Hle. lia. }
  subst i. rewrite skipn_app_exact in Hi. split; [exact Hi | exact Hlt].
Qed.

Lemma doc_pass_first (pre d : jsstring) (arts : list artifact) :
  doc_search (pre ++ d) = Some d ->
  doc_pass (pre ++ d) (arts, pre ++ d)
  = Some (arts ++ [ Artifact document None d (js "Legal Document") ],
          pre ++ documentMarker).
Proof.
  intros H. destruct (@doc_search_split pre d H) as [Hd Hlt].
  unfold doc_pass, exec. cbn [Nat.ltb Nat.leb skipn unit_before].
  pose proof (exec_from_doc_search (pre ++ d) 0 None) as E.
  rewrite H in E. destruct E as (i & e & ->).
  cbn [captures get_cap find fst snd Nat.eqb m0]. rewrite or_default_nil.
  f_equal. f_equal.
  rewrite <- (app_nil_r d) at 2.
  rewrite replace_first_first.
  - now rewrite app_nil_r.
  - intros ->. discriminate.
  - intros j Hj. rewrite app_nil_r.
    destruct (starts_with d (skipn j (pre ++ d))) eqn:Es; [|reflexivity].
    specialize (Hlt j Hj).
    rewrite (@doc_here_starts d _ Hd Es) in Hlt. discriminate.
Qed.

Lemma extract_one_document (pre d cleaned : jsstring) :
  count_unit 96%N (pre ++ d) < 6 ->
  count_unit pipe (pre ++ d) < 2 ->
  doc_search (pre ++ d) = Some d ->
  cleanup (pre ++ documentMarker) = Some cleaned ->
  extractArtifacts (pre ++ d)
  = Some (Extraction
            [ Artifact document None d (js "Legal Document") ]
            (match cleaned with
             | [] => documentSentence
             | _ => cleaned
             end)).
Proof.
  intros Hcode Hpipe Hdoc Hcl. unfold extractArtifacts.
  rewrite code_pass_no_match
    by (apply exec_too_few with (a := 96%N); exact Hcode).
  cbn [bind].
  rewrite table_pass_no_match
    by (apply exec_too_few with (a := pipe); exact Hpipe).
  cbn [bind]. rewrite doc_pass_first by exact Hdoc.
  cbn [bind fst snd app]. rewrite Hcl. cbn [bind].
  destruct cleaned; reflexivity.
Qed.

(** No placeholder starts on a line after a unit that is no line
    terminator. *)
Lemma exec_from_same_line (l : jsstring) :
  existsb is_line_terminator l = false ->
  forall idx (a : cu),
    is_line_terminator a = false ->
    exec_from placeholderFlags placeholderRegex idx (Some a) l = Fail.
Proof.
  induction l as [|b l IH]; intros Hl idx a Ha.
  - rewrite exec_from_eq, compile_placeholder. unfold at_bol.
    cbn [prev]. rewrite Ha, andb_false_r. reflexivity.
  - cbn [existsb] in Hl. apply orb_false_iff in Hl. destruct Hl as [Hb Hl].
    rewrite exec_from_eq, compile_placeholder. unfold at_bol.
    cbn [prev]. rewrite Ha, andb_false_r. now apply IH.
Qed.

Lemma space_of_line_terminator (x : cu) :
  is_space x = false -> is_line_terminator x = false.
Proof.
  unfold is_space, is_line_terminator. intros H.
  repeat (apply orb_false_iff in H; destruct H as [H ?]).
  destruct (N.eqb_spec x 10) as [->|]; [discriminate|].
  destruct (N.eqb_spec x 13) as [->|]; [discriminate|].
  cbn [orb]. apply orb_false_iff. split; assumption.
Qed.

(** A placeholder at the end of a line that holds other text before it
    stays. *)
Lemma cleanup_in_line (p0 : jsstring) (x : cu) (w body : jsstring) :
  Forall (fun u => u <> 91%N) p0 ->
  is_space x = false ->
  x <> 91%N ->
  existsb is_line_terminator w = false ->
  occurs (js "\n\n\n") (p0 ++ x :: w) = false ->
  forallb is_dot body = true ->
  cleanup (p0 ++ x :: w ++ 91%N :: body ++ [93%N])
  = Some (trim (p0 ++ x :: w ++ 91%N :: body ++ [93%N])).
Proof.
  intros Hp Hx Hx' Hw Hocc Hdot. unfold cleanup.
  rewrite replace_all_no_match.
  2:{ apply exec_nowhere with (w := js "\n\n\n");
        [apply newlinesRegex_start|].
      replace (p0 ++ x :: w ++ 91%N :: body ++ [93%N])
        with ((p0 ++ x :: w) ++ 91%N :: body ++ [93%N])
        by (rewrite <- app_assoc; reflexivity).
      rewrite occurs_before with (a := nl);
        [|discriminate | repeat constructor | discriminate].
      apply orb_false_iff. split; [exact Hocc|].
      apply occurs_clean_all with (a := nl);
        [discriminate | repeat constructor|].
      now apply marker_no_line_feed. }
  cbn [bind]. rewrite replace_all_no_match; [reflexivity|].
  unfold exec. cbn [Nat.ltb Nat.leb skipn unit_before].
  rewrite exec_from_before_unit by assumption.
  apply exec_from_same_line; [|now apply space_of_line_terminator].
  rewrite existsb_app. apply orb_false_iff. split; [exact Hw|].
  cbn [existsb]. rewrite existsb_app. cbn [existsb orb].
  change (is_line_terminator 91%N) with false.
  change (is_line_terminator 93%N) with false. cbn [orb].
  rewrite orb_false_r.
  clear - Hdot. induction body as [|b body IH]; [reflexivity|].
  cbn [forallb existsb] in *. apply andb_true_iff in Hdot.
  destruct Hdot as [Hb Hdot]. unfold is_dot in Hb.
  apply negb_true_iff in Hb. rewrite Hb. now apply IH.
Qed.

(** X24.  A keyword of the document pass in the middle of a line.  When
    the first keyword that has 200 units after it stands on a line that
    holds a unit that is no white space before it, the document is the
    text from the keyword to the end, and the conversationalContent is
    the text before the keyword followed directly by
    [[Document shown in artifact]], trimmed: the placeholder stays.  (The
    text holds fewer than six backticks and fewer than two pipes, and
    before that unit no opening bracket; the text before the keyword
    holds no three line feeds in a row.) *)
Theorem document_in_line (p0 : jsstring) (x : cu) (w d : jsstring) :
  Forall (fun u => u <> 91%N) p0 ->
  is_space x = false ->
  x <> 91%N ->
  existsb is_line_terminator w = false ->
  occurs (js "\n\n\n") (p0 ++ x :: w) = false ->
  count_unit 96%N ((p0 ++ x :: w) ++ d) < 6 ->
  count_unit pipe ((p0 ++ x :: w) ++ d) < 2 ->
  doc_search ((p0 ++ x :: w) ++ d) = Some d ->
  extractArtifacts ((p0 ++ x :: w) ++ d)
  = Some (Extraction
            [ Artifact document None d (js "Legal Document") ]
            (trim ((p0 ++ x :: w) ++ documentMarker))).
Proof.
  intros Hp Hx Hx' Hw Hocc Hcode Hpipe Hdoc.
  rewrite (@extract_one_document (p0 ++ x :: w) d
             (trim ((p0 ++ x :: w) ++ documentMarker))); auto.
  - destruct (trim ((p0 ++ x :: w) ++ documentMarker)) eqn:E;
      [|reflexivity].
    exfalso. revert E. apply trim_not_empty.
    rewrite existsb_app. apply orb_true_iff. right. reflexivity.
  - rewrite <- app_assoc. cbn [app].
    change documentMarker
      with (91%N :: js "Document shown in artifact" ++ [93%N]).
    now apply cleanup_in_line.
Qed.

Lemma document_in_line_witness :
  extractArtifacts
    ((js "Dear client,\nplease sign" ++ 58%N :: js " ")
     ++ js "Agreement" ++ repeat 120%N 200)
  = Some (Extraction
            [ Artifact document None (js "Agreement" ++ repeat 120%N 200)
                (js "Legal Document") ]
            (trim ((js "Dear client,\nplease sign" ++ 58%N :: js " ")
                   ++ documentMarker))).
Proof.
  apply document_in_line.
  - repeat constructor; discriminate.
  - reflexivity.
  - discriminate.
  - reflexivity.
  - reflexivity.
  - vm_compute. lia.
  - vm_compute. lia.
  - vm_compute. reflexivity.
Defined.

(** X25.  A keyword of the document pass at the start of a line.  When the
    text before the first keyword that has 200 units after it is made of
    [p] and white space [w], where [p] is empty or ends with a unit that
    is no white space and is then followed by a line terminator in [w],
    the document is the text from the keyword to the end and its
    placeholder leaves no trace: the conversationalContent is [p]
    trimmed, or the sentence about the document when that is empty.
    (The text holds fewer than six backticks and fewer than two pipes,
    and before the keyword no opening bracket and no three line feeds in
    a row.) *)
Theorem document_on_new_line (p w d : jsstring) :
  Forall (fun u => u <> 91%N) p ->
  forallb is_space w = true ->
  p = []
  \/ (exists p0 x,
        p = p0 ++ [x] /\ is_space x = false
        /\ existsb is_line_terminator w = true) ->
  occurs (js "\n\n\n") (p ++ w) = false ->
  count_unit 96%N ((p ++ w) ++ d) < 6 ->
  count_unit pipe ((p ++ w) ++ d) < 2 ->
  doc_search ((p ++ w) ++ d) = Some d ->
  extractArtifacts ((p ++ w) ++ d)
  = Some (Extraction
            [ Artifact document None d (js "Legal Document") ]
            (match trim p with
             | [] => documentSentence
             | _ => trim p
             end)).
Proof.
  intros Hp Hw Hfresh Hocc Hcode Hpipe Hdoc.
  apply extract_one_document; auto.
  rewrite <- app_assoc.
  change documentMarker
    with (91%N :: js "Document shown in artifact" ++ [93%N]).
  apply cleanup_fresh; auto.
  repeat constructor; discriminate.
Qed.

Lemma document_on_new_line_witness :
  extractArtifacts
    ((js "Here is the draft." ++ js "\n\n")
     ++ js "CONTRACT" ++ repeat 120%N 200)
  = Some (Extraction
            [ Artifact document None (js "CONTRACT" ++ repeat 120%N 200)
                (js "Legal Document") ]
            (match trim (js "Here is the draft.") with
             | [] => documentSentence
             | _ => trim (js "Here is the draft.")
             end)).
Proof.
  apply document_on_new_line.
  - repeat constructor; discriminate.
  - reflexivity.
  - right. exists (js "Here is the draft"), 46%N.
    repeat split; reflexivity.
  - reflexivity.
  - vm_compute. lia.
  - vm_compute. lia.
  - vm_compute. reflexivity.
Defined.

(** * A run of table lines in a text *)

(** ** What a match of the table expression is made of *)

Lemma lazy_line_feed_sound (c : cont) cs z :
  forall l pv,
    lazy_scan is_any (fun y => unit_matcher (cu_eqb nl) y c) pv l cs = Ok z ->
    (forall t, length t < length l -> c (MState (Some nl) t cs) <> Fail) ->
    exists b t,
      l = b ++ nl :: t
      /\ Forall (fun u => u <> nl) b
      /\ c (MState (Some nl) t cs) = Ok z.
Proof.
  induction l as [|u l IH]; intros pv H Hc; cbn [lazy_scan] in H;
    unfold unit_matcher at 1 in H; cbn [rest caps] in H; [discriminate|].
  unfold cu_eqb at 1 in H. destruct (N.eqb_spec nl u) as [<- | Hu].
  - destruct (c (MState (Some nl) l cs)) as [z'| |] eqn:E.
    + injection H as <-. exists [], l. auto.
    + exfalso. revert E. apply Hc. cbn [length]. lia.
    + discriminate.
  - cbn [is_any] in H. apply IH in H;
      [|intros t Ht; apply Hc; cbn [length]; lia].
    destruct H as (b & t & -> & Hb & H). exists (u :: b), t.
    repeat split; auto.
Qed.

Lemma row_tail_sound (c : cont) pv l cs z :
  row_tail c (MState pv l cs) = Ok z ->
  (forall t, length t < length l -> c (MState (Some nl) t cs) <> Fail) ->
  exists b t,
    l = pipe :: b ++ nl :: t
    /\ Forall (fun u => u <> nl) b
    /\ c (MState (Some nl) t cs) = Ok z.
Proof.
  unfold row_tail, unit_matcher at 1. cbn [rest caps prev].
  destruct l as [|u l]; [discriminate|].
  unfold cu_eqb at 1. destruct (N.eqb_spec pipe u) as [<- | Hu];
    [|discriminate].
  intros H Hc. apply lazy_line_feed_sound in H;
    [|intros t Ht; apply Hc; cbn [length]; lia].
  destruct H as (b & t & -> & Hb & H). exists b, t. auto.
Qed.

Lemma greedy_row_sound (c : cont) cs z :
  forall l pv,
    greedy_scan is_dot (row_tail c) pv l cs = Ok z ->
    (forall t, length t < length l -> c (MState (Some nl) t cs) <> Fail) ->
    exists a b t,
      l = a ++ pipe :: b ++ nl :: t
      /\ Forall (fun u => u <> nl) a
      /\ Forall (fun u => u <> nl) b
      /\ c (MState (Some nl) t cs) = Ok z.
Proof.
  induction l as [|u l IH]; intros pv H Hc; cbn [greedy_scan] in H.
  - apply row_tail_sound in H; [|exact Hc].
    destruct H as (b & t & E & _). discriminate.
  - assert (Hk : row_tail c (MState pv (u :: l) cs) = Ok z ->
                 exists a b t,
                   u :: l = a ++ pipe :: b ++ nl :: t
                   /\ Forall (fun u => u <> nl) a
                   /\ Forall (fun u => u <> nl) b
                   /\ c (MState (Some nl) t cs) = Ok z).
    { intros Hr. apply row_tail_sound in Hr; [|exact Hc].
      destruct Hr as (b & t & E & Hb & Hz). exists [], b, t. auto. }
    destruct (is_dot u) eqn:Hu; [|now apply Hk].
    destruct (greedy_scan is_dot (row_tail c) (Some u) l cs) as [z'| |] eqn:E;
      [|now apply Hk | discriminate].
    injection H as <-. apply IH in E;
      [|intros t Ht; apply Hc; cbn [length]; lia].
    destruct E as (a & b & t & -> & Ha & Hb & Hz).
    exists (u :: a), b, t. repeat split; auto.
    constructor; [|exact Ha]. intros ->. discriminate.
Qed.

Lemma tableRow_sound (c : cont) pv l cs z :
  compile no_flags tableRow (MState pv l cs) c = Ok z ->
  (forall t, length t < length l -> c (MState (Some nl) t cs) <> Fail) ->
  exists row t,
    l = row ++ nl :: t /\ row_taken row /\ c (MState (Some nl) t cs) = Ok z.
Proof.
  rewrite compile_tableRow. unfold unit_matcher at 1. cbn [rest caps prev].
  destruct l as [|u l]; [discriminate|].
  unfold cu_eqb at 1. destruct (N.eqb_spec pipe u) as [<- | Hu];
    [|discriminate].
  intros H Hc. apply greedy_row_sound in H;
    [|intros t Ht; apply Hc; cbn [length]; lia].
  destruct H as (a & b & t & -> & Ha & Hb & Hz).
  exists (pipe :: a ++ pipe :: b), t. split; [|split; [|exact Hz]].
  - cbn [app]. now rewrite <- app_assoc.
  - split; [eauto|]. split.
    + constructor; [discriminate|]. apply Forall_app. split; [exact Ha|].
      constructor; [discriminate | exact Hb].
    + change (pipe :: a ++ pipe :: b) with ([pipe] ++ a ++ [pipe] ++ b).
      rewrite !count_unit_app.
      change (count_unit pipe [pipe]) with 1. lia.
Qed.

Lemma star_rows_not_fail (c : cont) fuel x :
  (forall y, c y <> Fail) ->
  repeat_matcher (compile no_flags tableRow) [] true c fuel 0 None x <> Fail.
Proof.
  intros Hc. destruct fuel as [|fuel]; [discriminate|].
  cbn [repeat_matcher Nat.eqb negb andb].
  destruct (compile no_flags tableRow _ _); try discriminate. apply Hc.
Qed.

Lemma star_rows_sound (c : cont) cs z :
  (forall y, c y <> Fail) ->
  forall fuel pv l,
    repeat_matcher (compile no_flags tableRow) [] true c fuel 0 None
      (MState pv l cs) = Ok z ->
    exists rows t pv',
      l = concat_lines rows ++ t
      /\ Forall row_taken rows
      /\ c (MState pv' t cs) = Ok z.
Proof.
  intros Hc. induction fuel as [|fuel IH]; intros pv l H; [discriminate|].
  cbn [repeat_matcher Nat.eqb negb andb Nat.pred pred_max] in H.
  rewrite reset_caps_nil in H.
  destruct (compile no_flags tableRow _ _) as [z'| |] eqn:E;
    [|exists [], l, pv; auto | discriminate].
  injection H as ->.
  apply tableRow_sound in E.
  - destruct E as (row & t & -> & Hrow & E). cbn [rest] in E.
    destruct (Nat.eqb _ _); [discriminate|].
    apply IH in E. destruct E as (rows & t' & pv' & -> & Hrows & E).
    exists (row :: rows), t', pv'. split; [|split; [|exact E]].
    + now rewrite concat_lines_cons.
    + now constructor.
  - intros t Ht. cbn [rest].
    destruct (Nat.eqb_spec (length t) (length l)) as [Hl|_]; [lia|].
    apply star_rows_not_fail, Hc.
Qed.

(** The table expression matches a run of such lines, each with its line
    feed, and nothing else. *)
Lemma tableRegex_sound pv l z :
  compile no_flags tableRegex (MState pv l []) (fun y => Ok y) = Ok z ->
  exists row rows,
    l = concat_lines (row :: rows) ++ rest z
    /\ Forall row_taken (row :: rows).
Proof.
  unfold tableRegex, star. rewrite compile_Group, compile_Seq. intros H.
  set (c1 := fun y : mstate =>
               Ok (set_cap 1 (consumed (MState pv l []) y) y)) in H.
  assert (Hc1 : forall y, c1 y <> Fail) by (intros y; discriminate).
  apply tableRow_sound in H.
  - destruct H as (row & t & -> & Hrow & H).
    rewrite compile_Quant, group_indices_tableRow in H.
    apply star_rows_sound in H; [|exact Hc1].
    destruct H as (rows & t' & pv' & -> & Hrows & H).
    unfold c1 in H. injection H as <-. cbn [set_cap rest].
    exists row, rows. split; [now rewrite concat_lines_cons|].
    now constructor.
  - intros t _. rewrite compile_Quant, group_indices_tableRow.
    apply star_rows_not_fail, Hc1.
Qed.

Lemma tableRegex_outcome pv l :
  compile no_flags tableRegex (MState pv l []) (fun y => Ok y) <> Exhausted.
Proof. apply compile_safe. intros y _. discriminate. Qed.

(** The first line feed of a text. *)
Lemma first_line_unique (u v x y : jsstring) :
  Forall (fun c => c <> nl) u ->
  Forall (fun c => c <> nl) v ->
  u ++ nl :: x = v ++ nl :: y ->
  u = v /\ x = y.
Proof.
  intros Hu. revert v. induction Hu as [|a u Ha _ IH]; intros v Hv E.
  - destruct Hv as [|b v Hb _]; cbn [app] in E.
    + injection E as <-. auto.
    + injection E as E _. congruence.
  - destruct Hv as [|b v Hb Hv]; cbn [app] in E.
    + injection E as E _. congruence.
    + injection E as <- E. destruct (IH _ Hv E) as [<- <-]. auto.
Qed.

Lemma first_line (l : jsstring) :
  In nl l ->
  exists u v, l = u ++ nl :: v /\ Forall (fun c => c <> nl) u.
Proof.
  induction l as [|a l IH]; intros H; [destruct H|].
  destruct (N.eq_dec a nl) as [-> | Ha].
  - exists [], l. auto.
  - destruct H as [H | H]; [congruence|].
    destruct (IH H) as (u & v & -> & Hu). exists (a :: u), v. auto.
Qed.

Lemma whole_lines_tail a b : whole_lines (a :: b) -> whole_lines b.
Proof.
  intros [E | (b' & E)]; [discriminate|].
  destruct b' as [|x b']; cbn [app] in E; injection E as -> ->.
  - now left.
  - right. eauto.
Qed.

Lemma whole_lines_after u v : whole_lines (u ++ nl :: v) -> whole_lines v.
Proof.
  induction u as [|a u IH]; cbn [app]; intros H.
  - now apply whole_lines_tail in H.
  - apply IH. now apply whole_lines_tail in H.
Qed.

Lemma whole_lines_skipn n b : whole_lines b -> whole_lines (skipn n b).
Proof.
  revert b. induction n as [|n IH]; intros b H; [exact H|].
  destruct b as [|a b]; [exact H|]. cbn [skipn]. apply IH.
  now apply whole_lines_tail in H.
Qed.

Section BeforeTheRun.
(** The text between whole lines and a run of table lines: no row of the
    table expression starts at [mid], and no match starts in it. *)
Variable mid : jsstring.
Hypothesis mid_no_row :
  forall row rows t R,
    mid ++ R = concat_lines (row :: rows) ++ t -> row_taken row -> False.
Hypothesis mid_skip :
  forall idx pv s,
    exec_from no_flags tableRegex idx pv (mid ++ s)
    = exec_from no_flags tableRegex (idx + length mid) (last_unit pv mid) s.

(** Rows that start in whole lines before [mid] end before it. *)
Lemma rows_within rows :
  forall b t R,
    whole_lines b ->
    b ++ mid ++ R = concat_lines rows ++ t ->
    Forall row_taken rows ->
    length (concat_lines rows) <= length b.
Proof.
  induction rows as [|row rows IH]; intros b t R Hb E Hrows;
    [cbn; lia|].
  inversion Hrows as [|? ? Hrow Hrows']; subst.
  destruct Hb as [-> | (b' & ->)].
  - exfalso. cbn [app] in E. eapply mid_no_row; eauto.
  - destruct (@first_line (b' ++ [nl])) as (u & v & Eb & Hu);
      [apply in_or_app; right; now left|].
    rewrite Eb in E. rewrite <- app_assoc in E.
    rewrite concat_lines_cons in E. cbn [app] in E.
    destruct Hrow as (Hp & Hnl & Hc).
    apply first_line_unique in E; [|exact Hu | exact Hnl].
    destruct E as [<- E].
    assert (Hv : whole_lines v).
    { apply whole_lines_after with (u := u). rewrite <- Eb. right. eauto. }
    specialize (IH v t R Hv E Hrows').
    rewrite Eb. change (concat_lines (u :: rows))
      with ((u ++ [nl]) ++ concat_lines rows).
    rewrite !length_app. cbn [length]. lia.
Qed.

Variables (l : jsstring) (ls : list jsstring) (post : jsstring).
Hypothesis l_line : table_line l = true.
Hypothesis ls_lines : Forall (fun l => table_line l = true) ls.
Hypothesis post_start : match post with [] => True | b :: _ => b <> pipe end.

(** From a position in the whole lines before [mid], the next match either
    lies in these lines or is the run. *)
Lemma exec_from_before_run :
  forall b idx pv,
    whole_lines b ->
    exists mr,
      exec_from no_flags tableRegex idx pv
        (b ++ mid ++ concat_lines (l :: ls) ++ post) = Ok mr
      /\ (end_index mr <= idx + length b
          \/ mr = MatchResult (idx + length b + length mid)
                   (concat_lines (l :: ls))
                   [(1, concat_lines (l :: ls))]
                   (idx + length b + length mid
                    + length (concat_lines (l :: ls)))).
Proof.
  induction b as [|a b IH]; intros idx pv Hb.
  - cbn [app length]. rewrite mid_skip, exec_from_table_run by assumption.
    eexists. split; [reflexivity|]. right. now rewrite Nat.add_0_r.
  - rewrite exec_from_eq.
    destruct (compile no_flags tableRegex _ _) as [z| |] eqn:E.
    + eexists. split; [reflexivity|]. left. cbn [end_index]. cbv zeta.
      destruct (tableRegex_sound _ _ E) as (row & rows & El & Hrows).
      assert (Hlen : length (concat_lines (row :: rows))
                     <= length (a :: b)).
      { eapply rows_within; [exact Hb | | exact Hrows]. exact El. }
      rewrite El, firstn_app_exact. lia.
    + cbn [app]. destruct (IH (S idx) (Some a) (whole_lines_tail Hb))
        as (mr & Hmr & Hcase).
      exists mr. split; [exact Hmr|]. cbn [length].
      destruct Hcase as [H | ->]; [left; lia | right].
      f_equal; lia.
    + exfalso. revert E. apply tableRegex_outcome.
Qed.

Variable l2 : jsstring.
Variable ls' : list jsstring.
Hypothesis two_lines : ls = l2 :: ls'.

(** The loop of the table pass, started anywhere in the whole lines before
    [mid], adds the run as a table artifact. *)
Lemma table_loop_reaches_run before :
  whole_lines before ->
  forall fuel li st st',
    li <= length before ->
    exec_loop fuel no_flags tableRegex
      (before ++ mid ++ concat_lines (l :: ls) ++ post) table_body li st
    = Some st' ->
    In (Artifact table None (trim (concat_lines (l :: ls))) (js "Data Table"))
       (fst st').
Proof.
  intros Hb. induction fuel as [|fuel IH]; intros li st st' Hli H;
    [discriminate|].
  cbn [exec_loop] in H.
  assert (E : exists mr,
            exec no_flags tableRegex
              (before ++ mid ++ concat_lines (l :: ls) ++ post) li = Ok mr
            /\ (end_index mr <= length before
                \/ mr = MatchResult (length before + length mid)
                         (concat_lines (l :: ls))
                         [(1, concat_lines (l :: ls))]
                         (length before + length mid
                          + length (concat_lines (l :: ls))))).
  { assert (Hlen : length (firstn li before) = li)
      by (apply firstn_length_le, Hli).
    assert (Hsk : li + length (skipn li before) = length before)
      by (rewrite length_skipn; lia).
    pose proof (exec_at no_flags tableRegex (firstn li before)
                  (skipn li before ++ mid ++ concat_lines (l :: ls) ++ post))
      as Hat.
    rewrite Hlen, app_assoc, firstn_skipn in Hat. rewrite Hat.
    destruct (@exec_from_before_run (skipn li before) li
                (last_unit None (firstn li before))
                (whole_lines_skipn li Hb)) as (mr & Hmr & Hcase).
    exists mr. split; [exact Hmr|]. rewrite <- Hsk.
    destruct Hcase as [Hc | Hc]; [left; exact Hc | right; exact Hc]. }
  destruct E as (mr & E & Hcase). rewrite E in H.
  destruct (table_body mr st) as [st1|] eqn:B; [|discriminate].
  destruct Hcase as [Hend | ->].
  - eapply IH; [exact Hend | exact H].
  - eapply exec_loop_fst in H; [|exact table_body_fst | exact table_body_any].
    destruct H as (more & -> & _).
    apply in_or_app. left.
    unfold table_body in B.
    cbn [captures get_cap find fst snd Nat.eqb m0] in B. cbv zeta in B.
    assert (Hrows : (2 <=? length (filter (fun row => truthy (trim row))
                                      (split nl (trim (concat_lines
                                                         (l :: ls))))))
                    = true).
    { rewrite two_lines. apply run_rows; [exact l_line|].
      rewrite two_lines in ls_lines. now inversion ls_lines. }
    rewrite Hrows in B. injection B as <-. cbn [fst].
    apply in_or_app. right. now left.
Qed.
End BeforeTheRun.

(** No row of the table expression starts at a unit that is no pipe. *)
Lemma no_row_at_text (mid : jsstring) row rows t R :
  mid <> [] ->
  Forall (fun u => u <> pipe) mid ->
  mid ++ R = concat_lines (row :: rows) ++ t -> row_taken row -> False.
Proof.
  intros Hne Hmid E ((w & ->) & _).
  destruct Hmid as [|x mid Hx _]; [congruence|].
  rewrite concat_lines_cons in E. cbn [app] in E. injection E as E _.
  congruence.
Qed.

(** No row starts at a line with fewer than two pipes. *)
Lemma no_row_at_line (line : jsstring) row rows t R :
  Forall (fun u => u <> nl) line ->
  count_unit pipe line < 2 ->
  (line ++ [nl]) ++ R = concat_lines (row :: rows) ++ t ->
  row_taken row -> False.
Proof.
  intros Hline Hc E (_ & Hnl & Hrow).
  rewrite concat_lines_cons, <- app_assoc in E. cbn [app] in E.
  apply first_line_unique in E; [|exact Hline | exact Hnl].
  destruct E as [<- _]. lia.
Qed.

(** No match of the table expression starts in a line with fewer than two
    pipes. *)
Lemma exec_from_line_skip (line : jsstring) :
  Forall (fun u => u <> nl) line ->
  count_unit pipe line < 2 ->
  forall idx pv s,
    exec_from no_flags tableRegex idx pv ((line ++ [nl]) ++ s)
    = exec_from no_flags tableRegex (idx + length (line ++ [nl]))
        (last_unit pv (line ++ [nl])) s.
Proof.
  intros Hline. induction Hline as [|a line Ha Hline IH];
    intros Hc idx pv s; rewrite exec_from_eq;
    (destruct (compile no_flags tableRegex _ _) as [z| |] eqn:E;
     [exfalso | | exfalso; revert E; apply tableRegex_outcome]).
  - destruct (tableRegex_sound _ _ E) as (row & rows & El & Hrows).
    inversion Hrows as [|? ? Hrow _]; subst.
    eapply (@no_row_at_line [] row rows (rest z) s); eauto.
  - cbn [app length]. f_equal. lia.
  - destruct (tableRegex_sound _ _ E) as (row & rows & El & Hrows).
    inversion Hrows as [|? ? Hrow _]; subst.
    eapply (@no_row_at_line (a :: line) row rows (rest z) s); eauto.
  - cbn [app]. rewrite IH.
    + rewrite last_unit_cons. cbn [length]. f_equal. lia.
    + assert (H : count_unit pipe line <= count_unit pipe (a :: line)).
      { change (a :: line) with ([a] ++ line). rewrite count_unit_app. lia. }
      lia.
Qed.



(** * The table formatter on rows of cells *)

Lemma split_join sep (ps : list jsstring) :
  ps <> [] ->
  Forall (Forall (fun c => c <> sep)) ps ->
  split sep (join_with sep ps) = ps.
Proof.
  induction ps as [|p ps IH]; intros Hne H; [congruence|].
  inversion H as [|? ? Hp Hps]; subst.
  destruct ps as [|q ps].
  - cbn [join_with flat_map]. rewrite app_nil_r. now apply split_no_sep.
  - change (join_with sep (p :: q :: ps))
      with (p ++ sep :: join_with sep (q :: ps)).
    rewrite split_app_sep by exact Hp. f_equal.
    apply IH; [discriminate | exact Hps].
Qed.

Lemma truthy_trim (l : jsstring) : truthy (trim l) = not_blank l.
Proof.
  unfold not_blank. destruct (forallb is_space l) eqn:E.
  - rewrite <- (app_nil_l l), trim_app_spaces by exact E. reflexivity.
  - assert (H : existsb (fun u => negb (is_space u)) l = true).
    { clear - E. induction l as [|a l IH]; [discriminate|].
      cbn [forallb existsb] in *. destruct (is_space a); [|reflexivity].
      cbn [andb negb orb] in *. now apply IH. }
    apply trim_not_empty in H. destruct (trim l); [congruence | reflexivity].
Qed.

Lemma filter_map_swap {A B} (p : B -> bool) (f : A -> B) (l : list A) :
  filter p (map f l) = map f (filter (fun x => p (f x)) l).
Proof.
  induction l as [|a l IH]; [reflexivity|].
  cbn [map filter]. destruct (p (f a)); cbn [map]; now rewrite IH.
Qed.

Lemma filter_drop_leading_empty (l : list jsstring) :
  filter truthy (drop_leading_empty l) = filter truthy l.
Proof.
  induction l as [|c l IH]; [reflexivity|].
  destruct c; [exact IH | reflexivity].
Qed.

Lemma filter_all_truthy (l : list jsstring) :
  Forall (fun c => c <> []) l -> filter truthy l = l.
Proof.
  intros H. induction H as [|c l Hc _ IH]; [reflexivity|].
  cbn [filter]. destruct c; [congruence|]. cbn [truthy]. now rewrite IH.
Qed.

(** Where no cell between two others is empty, dropping every empty cell
    is dropping the empty cells at the two ends. *)
Lemma row_cells_edge (r : list jsstring) :
  r <> [] ->
  Forall (Forall (fun c => c <> pipe)) r ->
  Forall (fun c => c <> []) (edge_cells r) ->
  row_cells (join_with pipe r) = edge_cells r.
Proof.
  intros Hne Hr Hc. unfold row_cells. rewrite split_join by assumption.
  rewrite <- (filter_all_truthy Hc). unfold edge_cells.
  rewrite filter_rev, filter_drop_leading_empty, filter_rev, rev_involutive.
  now rewrite filter_drop_leading_empty.
Qed.

Lemma fold_left_append {A} (f : A -> jsstring) (l : list A) :
  forall acc,
    fold_left (fun acc x => acc ++ f x) l acc = acc ++ concat (map f l).
Proof.
  induction l as [|a l IH]; intros acc; cbn [fold_left map concat];
    [now rewrite app_nil_r|].
  now rewrite IH, <- app_assoc.
Qed.

Lemma render_table_html headers data :
  render_table headers data = table_html headers data.
Proof.
  unfold render_table, table_html. cbv zeta.
  rewrite (fold_left_append (fun h => js "<th>" ++ h ++ js "</th>")).
  assert (H : forall acc,
            fold_left
              (fun acc row =>
                 fold_left (fun acc' cell => acc' ++ js "<td>" ++ cell ++ js "</td>")
                           row (acc ++ js "<tr>")
                 ++ js "</tr>")
              data acc
            = acc ++ concat (map (fun row =>
                                    js "<tr>"
                                    ++ concat (map (fun c => js "<td>" ++ c
                                                             ++ js "</td>") row)
                                    ++ js "</tr>")
                                 data)).
  { induction data as [|row data IH]; intros acc;
      cbn [fold_left map concat]; [now rewrite app_nil_r|].
    rewrite IH.
    rewrite (fold_left_append (fun c => js "<td>" ++ c ++ js "</td>")).
    now rewrite <- !app_assoc. }
  rewrite H. now rewrite <- !app_assoc.
Qed.

Lemma nonblank_rows_of (s : jsstring) (rows : list (list jsstring)) :
  rows <> [] ->
  Forall (fun r => Forall (Forall (fun u => u <> nl)) r) rows ->
  trim s = join_with nl (map (join_with pipe) rows) ->
  nonblank_rows s
  = map (join_with pipe)
        (filter (fun r => not_blank (join_with pipe r)) rows).
Proof.
  intros Hne Hrows E. unfold nonblank_rows. rewrite E, split_join.
  - rewrite <- filter_map_swap. apply filter_ext. intros l.
    apply truthy_trim.
  - destruct rows; [congruence | discriminate].
  - apply Forall_map. eapply Forall_impl; [|exact Hrows].
    intros r Hr. clear - Hr. induction Hr as [|p r Hp _ IH]; [constructor|].
    destruct r as [|q r]; [cbn; now rewrite app_nil_r|].
    change (join_with pipe (p :: q :: r))
      with (p ++ pipe :: join_with pipe (q :: r)).
    apply Forall_app. split; [exact Hp|].
    constructor; [discriminate | exact IH].
Qed.

(** Every text is its pieces joined again. *)
Lemma split_pieces sep (s : jsstring) :
  split sep s <> []
  /\ Forall (Forall (fun c => c <> sep)) (split sep s)
  /\ join_with sep (split sep s) = s.
Proof.
  induction s as [|a s (Hne & Hall & Hj)];
    [repeat split; [discriminate | repeat constructor]|].
  cbn [split]. unfold cu_eqb. destruct (N.eqb_spec a sep) as [-> | Ha].
  - split; [discriminate|]. split; [constructor; [constructor | exact Hall]|].
    destruct (split sep s) as [|w ws]; [congruence|].
    change (join_with sep ([] :: w :: ws)) with (sep :: join_with sep (w :: ws)).
    now rewrite Hj.
  - destruct (split sep s) as [|w ws]; [congruence|].
    split; [discriminate|].
    apply Forall_cons_iff in Hall. destruct Hall as [Hw Hws].
    split; [constructor; [constructor; assumption | exact Hws]|].
    cbn [join_with app] in Hj |- *. now rewrite Hj.
Qed.

Lemma split_keeps (P : cu -> Prop) sep (s : jsstring) :
  Forall P s -> Forall (Forall P) (split sep s).
Proof.
  intros H. induction H as [|a s Ha _ IH]; [repeat constructor|].
  cbn [split]. destruct (cu_eqb a sep); [constructor; [constructor | exact IH]|].
  destruct (split sep s) as [|w ws]; [repeat constructor; exact Ha|].
  apply Forall_cons_iff in IH. destruct IH as [Hw Hws].
  constructor; [constructor; assumption | assumption].
Qed.

(** The rows of a content: its lines after trimming, each cut at its
    pipes. *)
Lemma rows_of_content (s : jsstring) :
  exists rows : list (list jsstring),
    rows <> []
    /\ Forall (fun r =>
                 r <> []
                 /\ Forall (Forall (fun u => u <> nl /\ u <> pipe)) r) rows
    /\ trim s = join_with nl (map (join_with pipe) rows).
Proof.
  destruct (split_pieces nl (trim s)) as (Hne & Hall & Hj).
  exists (map (split pipe) (split nl (trim s))). split; [|split].
  - destruct (split nl (trim s)); [congruence | discriminate].
  - apply Forall_map. eapply Forall_impl; [|exact Hall].
    intros line Hline.
    destruct (split_pieces pipe line) as (Hn & Hp & _).
    split; [exact Hn|].
    pose proof (split_keeps pipe Hline) as Hk.
    rewrite Forall_forall in *. intros piece Hin.
    specialize (Hp _ Hin). specialize (Hk _ Hin).
    rewrite Forall_forall in *. intros u Hu. split; [apply Hk | apply Hp]; auto.
  - rewrite map_map. rewrite <- Hj at 1. f_equal.
    rewrite <- (map_id (split nl (trim s))) at 1. apply map_ext.
    intros line. symmetry. apply split_pieces.
Qed.




(** * The clean-up leaves no placeholder line *)

(** ** Scans, in general *)

Lemma greedy_scan_sound p (k : cont) cs z :
  forall l pv,
    greedy_scan p k pv l cs = Ok z ->
    exists u v,
      l = u ++ v /\ forallb p u = true
      /\ k (MState (last_unit pv u) v cs) = Ok z.
Proof.
  induction l as [|b t IH]; intros pv H; cbn [greedy_scan] in H.
  - exists [], []. auto.
  - assert (Hk : k (MState pv (b :: t) cs) = Ok z ->
                 exists u v,
                   b :: t = u ++ v /\ forallb p u = true
                   /\ k (MState (last_unit pv u) v cs) = Ok z)
      by (intros Hk; exists [], (b :: t); auto).
    destruct (p b) eqn:Hb; [|now apply Hk].
    destruct (greedy_scan p k (Some b) t cs) as [z'| |] eqn:E;
      [|now apply Hk | discriminate].
    injection H as <-. apply IH in E. destruct E as (u & v & -> & Hu & E).
    exists (b :: u), v. rewrite last_unit_cons. cbn [forallb].
    rewrite Hb, Hu. auto.
Qed.

Lemma lazy_scan_sound p (k : cont) cs z :
  forall l pv,
    lazy_scan p k pv l cs = Ok z ->
    exists u v,
      l = u ++ v /\ forallb p u = true
      /\ k (MState (last_unit pv u) v cs) = Ok z.
Proof.
  induction l as [|b t IH]; intros pv H; rewrite lazy_scan_eq in H;
    destruct (k (MState pv _ cs)) as [z'| |] eqn:E; try discriminate;
    try (injection H as <-; eexists []; eexists; now auto).
  destruct (p b) eqn:Hb; [|discriminate].
  apply IH in H. destruct H as (u & v & -> & Hu & H).
  exists (b :: u), v. rewrite last_unit_cons. cbn [forallb].
  rewrite Hb, Hu. auto.
Qed.

Lemma greedy_scan_complete p (k : cont) cs :
  forall u pv v,
    forallb p u = true ->
    k (MState (last_unit pv u) v cs) <> Fail ->
    greedy_scan p k pv (u ++ v) cs <> Fail.
Proof.
  induction u as [|b u IH]; intros pv v Hu Hk.
  - cbn [app]. cbn [last_unit map last] in Hk.
    destruct v as [|a v]; cbn [greedy_scan]; [exact Hk|].
    destruct (p a); [|exact Hk].
    destruct (greedy_scan p k (Some a) v cs); [discriminate | exact Hk
                                              | discriminate].
  - cbn [forallb] in Hu. apply andb_true_iff in Hu. destruct Hu as [Hb Hu].
    cbn [app greedy_scan]. rewrite Hb. rewrite last_unit_cons in Hk.
    specialize (IH (Some b) v Hu Hk).
    destruct (greedy_scan p k (Some b) (u ++ v) cs);
      [discriminate | congruence | discriminate].
Qed.

Lemma lazy_scan_complete p (k : cont) cs :
  forall u pv v,
    forallb p u = true ->
    k (MState (last_unit pv u) v cs) <> Fail ->
    lazy_scan p k pv (u ++ v) cs <> Fail.
Proof.
  induction u as [|b u IH]; intros pv v Hu Hk; rewrite lazy_scan_eq.
  - cbn [app]. cbn [last_unit map last] in Hk.
    destruct (k (MState pv v cs)); [discriminate | congruence | discriminate].
  - cbn [forallb] in Hu. apply andb_true_iff in Hu. destruct Hu as [Hb Hu].
    cbn [app]. rewrite last_unit_cons in Hk.
    destruct (k (MState pv (b :: u ++ v) cs)); try discriminate.
    rewrite Hb. now apply IH.
Qed.

(** ** A match of the placeholder expression *)

Lemma at_eol_rest fl pv t cs :
  at_eol fl (MState pv t cs) = at_eol fl (MState None t []).
Proof. reflexivity. Qed.

Lemma placeholder_sound pv l cs z :
  compile placeholderFlags placeholderRegex (MState pv l cs) (fun y => Ok y)
  = Ok z ->
  placeholder_here pv l /\ at_eol placeholderFlags z = true.
Proof.
  rewrite compile_placeholder. cbn [prev rest caps].
  destruct (at_bol placeholderFlags (MState pv l cs)) eqn:Hbol;
    [|discriminate].
  intros H. apply greedy_scan_sound in H.
  destruct H as (ws & l1 & -> & Hws & H).
  unfold ph_open, unit_matcher at 1 in H. cbn [rest caps prev] in H.
  destruct l1 as [|b l2]; [discriminate|].
  change (char_test placeholderFlags 91%N b) with (N.eqb 91 b) in H.
  destruct (N.eqb_spec 91 b) as [<- | _]; [|discriminate].
  apply lazy_scan_sound in H. destruct H as (body & l3 & -> & Hbody & H).
  unfold ph_close, unit_matcher at 1 in H. cbn [rest caps prev] in H.
  destruct l3 as [|b l4]; [discriminate|].
  change (char_test placeholderFlags 93%N b) with (N.eqb 93 b) in H.
  destruct (N.eqb_spec 93 b) as [<- | _]; [|discriminate].
  apply greedy_scan_sound in H. destruct H as (ws2 & t & -> & Hws2 & H).
  unfold ph_end in H.
  destruct (at_eol placeholderFlags _) eqn:Heol; [|discriminate].
  injection H as <-. split; [|exact Heol].
  split; [exact Hbol|]. exists ws, body, ws2, t. auto.
Qed.

Lemma placeholder_complete pv l cs :
  placeholder_here pv l ->
  compile placeholderFlags placeholderRegex (MState pv l cs) (fun y => Ok y)
  <> Fail.
Proof.
  intros (Hbol & ws & body & ws2 & t & -> & Hws & Hbody & Hws2 & Heol).
  rewrite compile_placeholder. cbn [prev rest caps].
  change (at_bol placeholderFlags
            (MState pv (ws ++ 91%N :: body ++ 93%N :: ws2 ++ t) cs))
    with (at_bol placeholderFlags
            (MState pv (ws ++ 91%N :: body ++ 93%N :: ws2 ++ t) [])).
  rewrite Hbol. apply greedy_scan_complete; [exact Hws|].
  unfold ph_open, unit_matcher at 1. cbn [rest caps prev].
  change (char_test placeholderFlags 91%N 91%N) with true. cbv iota.
  apply lazy_scan_complete; [exact Hbody|].
  unfold ph_close, unit_matcher at 1. cbn [rest caps prev].
  change (char_test placeholderFlags 93%N 93%N) with true. cbv iota.
  apply greedy_scan_complete; [exact Hws2|].
  unfold ph_end. rewrite at_eol_rest, Heol. discriminate.
Qed.

Lemma compile_placeholder_outcome pv l cs :
  compile placeholderFlags placeholderRegex (MState pv l cs) (fun y => Ok y)
  <> Exhausted.
Proof. apply compile_safe. intros y _. discriminate. Qed.

(** No match anywhere, in terms of [exec_from]. *)
Lemma placeholder_free_exec :
  forall l idx pv,
    placeholder_free pv l ->
    exec_from placeholderFlags placeholderRegex idx pv l = Fail.
Proof.
  induction l as [|a l IH]; intros idx pv H; rewrite exec_from_eq;
    (destruct (compile placeholderFlags placeholderRegex _ _) as [z| |] eqn:E;
     [exfalso; apply placeholder_sound in E; destruct E as [E _];
      now apply (H [] _ eq_refl)
     | | exfalso; revert E; apply compile_placeholder_outcome]);
    [reflexivity|].
  apply IH. intros u v -> Hv.
  apply (H (a :: u) v eq_refl). now rewrite last_unit_cons.
Qed.

Lemma exec_placeholder_free :
  forall l idx pv,
    exec_from placeholderFlags placeholderRegex idx pv l = Fail ->
    placeholder_free pv l.
Proof.
  induction l as [|a l IH]; intros idx pv H u v E Hv;
    rewrite exec_from_eq in H;
    destruct (compile placeholderFlags placeholderRegex _ _) as [z| |] eqn:Ec;
    try discriminate.
  - destruct u; [|discriminate]. cbn [app] in E. subst v.
    revert Ec. now apply placeholder_complete.
  - destruct u as [|b u]; cbn [app] in E.
    + subst v. revert Ec. now apply placeholder_complete.
    + injection E as <- ->. rewrite last_unit_cons in Hv.
      now apply (IH _ _ H u v eq_refl).
Qed.

(** ** A placeholder line and what follows it *)

Lemma at_bol_after (x : cu) (l : jsstring) :
  at_bol placeholderFlags (MState (Some x) l []) = is_line_terminator x.
Proof. reflexivity. Qed.

Lemma at_eol_cons (x : cu) (l : jsstring) :
  at_eol placeholderFlags (MState None (x :: l) []) = is_line_terminator x.
Proof. reflexivity. Qed.

Lemma not_dot_terminator (y : cu) :
  is_line_terminator y = true -> is_dot y = false.
Proof. unfold is_dot. now intros ->. Qed.

(** The white space after the bracket can be taken up to the first line
    terminator. *)
Lemma spaces_until_terminator (ws2 t : jsstring) :
  forallb is_space ws2 = true ->
  at_eol placeholderFlags (MState None t []) = true ->
  exists sp t',
    ws2 ++ t = sp ++ t'
    /\ forallb is_space sp = true
    /\ forallb is_dot sp = true
    /\ at_eol placeholderFlags (MState None t' []) = true.
Proof.
  intros Hws Ht. induction ws2 as [|a ws2 IH].
  - exists [], t. auto.
  - cbn [forallb] in Hws. apply andb_true_iff in Hws.
    destruct Hws as [Ha Hws].
    destruct (is_line_terminator a) eqn:E.
    + exists [], (a :: ws2 ++ t). repeat split; auto.
    + destruct (IH Hws) as (sp & t' & E' & Hsp & Hdot & Ht').
      exists (a :: sp), t'. cbn [forallb].
      unfold is_dot at 1. rewrite E, Ha, Hsp, Hdot.
      repeat split; auto. cbn [app]. f_equal. exact E'.
Qed.

Lemma placeholder_here_line pv l :
  placeholder_here pv l ->
  exists ws body sp t,
    l = ws ++ 91%N :: body ++ 93%N :: sp ++ t
    /\ forallb is_space ws = true
    /\ forallb is_dot body = true
    /\ forallb is_space sp = true
    /\ forallb is_dot sp = true
    /\ at_eol placeholderFlags (MState None t []) = true.
Proof.
  intros (_ & ws & body & ws2 & t & -> & Hws & Hbody & Hws2 & Ht).
  destruct (spaces_until_terminator ws2 t Hws2 Ht)
    as (sp & t' & E & Hsp & Hdot & Ht').
  exists ws, body, sp, t'. split; [|auto 10].
  exact (f_equal (fun x => ws ++ 91%N :: body ++ 93%N :: x) E).
Qed.

(** Past a line terminator a placeholder line starts anew. *)
Lemma placeholder_shift pv (x : cu) (l : jsstring) :
  is_line_terminator x = true ->
  placeholder_here pv (x :: l) -> placeholder_here (Some x) l.
Proof.
  intros Hx (_ & ws & body & ws2 & t & E & Hws & Hrest).
  split; [now rewrite at_bol_after|].
  destruct ws as [|a ws]; cbn [app] in E; injection E as -> ->.
  - discriminate.
  - cbn [forallb] in Hws. apply andb_true_iff in Hws.
    exists ws, body, ws2, t. tauto.
Qed.

Lemma ends_with_after (b : jsstring) (y c : cu) (p q : jsstring) :
  b ++ [y] = p ++ c :: q -> c <> y -> exists q', q = q' ++ [y].
Proof.
  intros E Hc. destruct (last_or_nil q) as [-> | (q' & x & ->)].
  - change (p ++ [c]) with (p ++ [c]) in E.
    apply app_inj_tail in E. destruct E as [_ E]. congruence.
  - exists q'. f_equal.
    change (p ++ c :: q' ++ [x]) with (p ++ (c :: q') ++ [x]) in E.
    rewrite app_assoc in E. apply app_inj_tail in E.
    destruct E as [_ ->]. reflexivity.
Qed.

Lemma prefix_before_terminator (a r b X : jsstring) (y : cu) :
  forallb is_dot a = true ->
  is_line_terminator y = true ->
  a ++ r = (b ++ [y]) ++ X ->
  exists n, b ++ [y] = a ++ n /\ n <> [] /\ r = n ++ X.
Proof.
  intros Ha Hy E. apply not_dot_terminator in Hy.
  assert (Hin : forall l, a = (b ++ [y]) ++ l -> False).
  { intros l ->. rewrite !forallb_app in Ha.
    apply andb_true_iff in Ha. destruct Ha as [Ha _].
    apply andb_true_iff in Ha. destruct Ha as [_ Ha].
    cbn [forallb] in Ha. rewrite Hy in Ha. discriminate. }
  apply app_eq_app in E. destruct E as (l & [[E1 E2] | [E1 E2]]).
  - exfalso. eapply Hin. exact E1.
  - exists l. split; [exact E1|]. split; [|exact E2].
    intros ->. rewrite app_nil_r in E1. apply (Hin []).
    now rewrite app_nil_r.
Qed.

(** A placeholder line that starts before a line terminator either lies
    before it, whatever follows, or starts after it. *)
Lemma placeholder_context pv (b : jsstring) (y : cu) (X : jsstring) :
  is_line_terminator y = true ->
  placeholder_here pv ((b ++ [y]) ++ X) ->
  placeholder_here (Some y) X
  \/ forall Y, placeholder_here pv ((b ++ [y]) ++ Y).
Proof.
  intros Hy H. pose proof H as (Hbol & _).
  apply placeholder_here_line in H.
  destruct H as (ws & body & sp & t & E & Hws & Hbody & Hsp & Hdot & Ht).
  apply app_eq_app in E. destruct E as (l & [[E1 E2] | [E1 E2]]).
  - destruct l as [|c l'].
    + left. split; [now rewrite at_bol_after|].
      cbn [app] in E2. exists [], body, sp, t. cbn [app]. auto 10.
    + cbn [app] in E2. injection E2 as <- E2.
      destruct (ends_with_after _ _ _ E1) as (l'' & ->); [now intros <-|].
      destruct (@prefix_before_terminator body (93%N :: sp ++ t) l'' X y
                  Hbody Hy E2) as (n & En & Hn & E3).
      destruct n as [|c n']; [congruence|]. injection E3 as <- E3.
      destruct (ends_with_after _ _ _ En) as (n'' & ->); [now intros <-|].
      destruct (@prefix_before_terminator sp t n'' X y Hdot Hy E3)
        as (m & Em & Hm & ->).
      right. intros Y. split; [exact Hbol|].
      exists ws, body, sp, (m ++ Y). rewrite E1, En, Em.
      repeat split; auto.
      * rewrite <- !app_assoc. cbn [app]. rewrite <- !app_assoc.
        cbn [app]. now rewrite <- !app_assoc.
      * destruct m as [|c m]; [congruence|]. exact Ht.
  - (* the white space reaches past the terminator *)
    left. split; [now rewrite at_bol_after|].
    rewrite E1, forallb_app in Hws. apply andb_true_iff in Hws.
    exists l, body, sp, t. tauto.
Qed.

(** ** The text between two matches *)

Lemma last_unit_nonempty (u : jsstring) (p q : option cu) :
  u <> [] -> last_unit p u = last_unit q u.
Proof.
  destruct (last_or_nil u) as [-> | (u' & x & ->)]; [congruence|].
  intros _. unfold last_unit. rewrite map_app. cbn [map].
  now rewrite !last_app_unit.
Qed.

Lemma placeholder_here_nil pv : ~ placeholder_here pv [].
Proof.
  intros (_ & ws & body & ws2 & t & E & _). destruct ws; discriminate.
Qed.

Lemma placeholder_free_nil pv : placeholder_free pv [].
Proof.
  intros u v E. symmetry in E. apply app_eq_nil in E.
  destruct E as [-> ->]. apply placeholder_here_nil.
Qed.

(** Whether a text holds a placeholder line depends on the unit before it
    only when the text starts inside a line. *)
Lemma placeholder_free_start (pvs po : option cu) (r : jsstring) :
  placeholder_free pvs r ->
  po = pvs
  \/ r = []
  \/ (exists x g, r = x :: g /\ is_line_terminator x = true) ->
  placeholder_free po r.
Proof.
  intros H [-> | [-> | (x & g & -> & Hx)]];
    [exact H | apply placeholder_free_nil|].
  intros u v E Hv. destruct u as [|a u].
  - cbn [app] in E. subst v. cbn [last_unit map last] in Hv.
    apply placeholder_shift in Hv; [|exact Hx].
    now apply (H [x] g eq_refl).
  - rewrite (@last_unit_nonempty (a :: u) po pvs) in Hv by discriminate.
    now apply (H (a :: u) v E).
Qed.

(** The text [gap] skipped before a match, followed in the source by [Y]
    and in the result by [X]. *)
Lemma gap_placeholder_free (pvs po : option cu) (gap X Y : jsstring) :
  (forall u g2,
     gap = u ++ g2 -> g2 <> [] ->
     ~ placeholder_here (last_unit pvs u) (g2 ++ Y)) ->
  gap = [] \/ (exists g y, gap = g ++ [y] /\ is_line_terminator y = true) ->
  (forall po', placeholder_free po' X) ->
  po = pvs
  \/ gap = []
  \/ (exists x g, gap = x :: g /\ is_line_terminator x = true) ->
  placeholder_free po (gap ++ X).
Proof.
  intros h1 h2 h3 h4.
  destruct gap as [|x0 gap0] eqn:Egap; [apply h3|]. rewrite <- Egap in *.
  destruct h2 as [h2 | (g & y & Eg & Hy)]; [congruence|].
  assert (HA : placeholder_free pvs (gap ++ X)).
  { intros u v E Hv. apply app_eq_app in E.
    destruct E as (l & [[E1 E2] | [E1 E2]]).
    - destruct l as [|c l'].
      + rewrite app_nil_r in E1. cbn [app] in E2. subst u v.
        now apply (h3 (last_unit pvs gap) [] X eq_refl).
      + assert (El : exists l'', c :: l' = l'' ++ [y]).
        { rewrite Eg in E1. destruct (last_or_nil (c :: l'))
            as [El | (l'' & z & El)]; [discriminate|].
          exists l''. rewrite El in E1 |- *. rewrite app_assoc in E1.
          apply app_inj_tail in E1. destruct E1 as [_ ->]. reflexivity. }
        destruct El as (l'' & El). rewrite E2, El in Hv.
        apply placeholder_context in Hv; [|exact Hy].
        destruct Hv as [Hv | Hv].
        * now apply (h3 (Some y) [] X eq_refl).
        * apply (h1 u (c :: l') E1); [discriminate|].
          rewrite El. apply Hv.
    - subst u. rewrite <- last_unit_app in Hv.
      now apply (h3 (last_unit pvs gap) l v E2). }
  apply (placeholder_free_start HA).
  destruct h4 as [-> | [h4 | (x & g' & Ex & Hx)]];
    [now left | congruence|].
  right. right. exists x, (g' ++ X). rewrite Ex. auto.
Qed.

(** ** The leftmost match *)

Lemma exec_from_leftmost fl r :
  forall l idx pv mr,
    exec_from fl r idx pv l = Ok mr ->
    exists gap z,
      l = gap ++ m0 mr ++ rest z
      /\ index mr = idx + length gap
      /\ end_index mr = index mr + length (m0 mr)
      /\ min_length r <= length (m0 mr)
      /\ compile fl r (MState (last_unit pv gap) (m0 mr ++ rest z) [])
           (fun y => Ok y) = Ok z
      /\ forall u g2,
           gap = u ++ g2 -> g2 <> [] ->
           compile fl r (MState (last_unit pv u) (g2 ++ m0 mr ++ rest z) [])
             (fun y => Ok y) = Fail.
Proof.
  assert (Hnow : forall l idx pv mr z,
            compile fl r (MState pv l []) (fun y => Ok y) = Ok z ->
            Ok (MatchResult idx (firstn (length l - length (rest z)) l)
                  (caps z)
                  (idx + length (firstn (length l - length (rest z)) l)))
            = Ok mr ->
            exists gap z,
              l = gap ++ m0 mr ++ rest z
              /\ index mr = idx + length gap
              /\ end_index mr = index mr + length (m0 mr)
              /\ min_length r <= length (m0 mr)
              /\ compile fl r (MState (last_unit pv gap) (m0 mr ++ rest z) [])
                   (fun y => Ok y) = Ok z
              /\ forall u g2,
                   gap = u ++ g2 -> g2 <> [] ->
                   compile fl r
                     (MState (last_unit pv u) (g2 ++ m0 mr ++ rest z) [])
                     (fun y => Ok y) = Fail).
  { intros l idx pv mr z E H. pose proof E as E'.
    apply attempt_sound in E'. destruct E' as (pre & Hs & Hn & Hf).
    rewrite Hf in H. injection H as <-. cbn [m0 index end_index].
    exists [], z. cbn [app length last_unit map last].
    rewrite <- Hs. repeat split; auto with arith.
    intros u g2 Eu Hg. symmetry in Eu. apply app_eq_nil in Eu.
    destruct Eu as [_ ->]. congruence. }
  induction l as [|a t IH]; intros idx pv mr H; rewrite exec_from_eq in H;
    destruct (compile fl r _ _) as [z| |] eqn:E; try discriminate;
    try (now apply (Hnow _ _ _ _ _ E H)).
  apply IH in H.
  destruct H as (gap & z & Hl & Hi & He & Hn & Hc & Hleft).
  exists (a :: gap), z. rewrite last_unit_cons. cbn [app length].
  repeat split; auto; [now rewrite Hl at 1 | lia|].
  intros u g2 Eu Hg. destruct u as [|b u]; cbn [app] in Eu.
  - subst g2. cbn [last_unit map last]. cbn [app]. rewrite <- Hl. exact E.
  - injection Eu as <- Eu. rewrite last_unit_cons. now apply Hleft.
Qed.

(** ** The loop of replace *)

Lemma skipn_skipn_add {A} (x y : nat) (l : list A) :
  skipn x (skipn y l) = skipn (y + x) l.
Proof.
  revert l. induction y as [|y IH]; intros l; [reflexivity|].
  destruct l as [|a l]; [now rewrite !skipn_nil|]. cbn [skipn Nat.add].
  apply IH.
Qed.

Lemma replace_loop_placeholder_free (s : jsstring) :
  forall fuel li acc out,
    li <= length s ->
    li = 0 \/ at_eol placeholderFlags (MState None (skipn li s) []) = true ->
    replace_loop fuel placeholderFlags placeholderRegex s [] li li acc
    = Some out ->
    exists tail,
      out = acc ++ tail
      /\ forall po, (li = 0 -> po = None) -> placeholder_free po tail.
Proof.
  induction fuel as [|fuel IH]; intros li acc out Hli Hinv H;
    [discriminate|].
  cbn [replace_loop] in H.
  assert (Hstart : forall po (r : jsstring),
            skipn li s = r ->
            (li = 0 -> po = None) ->
            po = unit_before s li
            \/ r = []
            \/ (exists x g, r = x :: g /\ is_line_terminator x = true)).
  { intros po r Er Hpo. destruct Hinv as [-> | Hinv];
      [left; now rewrite Hpo|].
    rewrite Er in Hinv. destruct r as [|x g]; [now right; left|].
    right. right. exists x, g. split; [reflexivity | exact Hinv]. }
  destruct (exec placeholderFlags placeholderRegex s li) as [mr| |] eqn:E;
    [| |discriminate].
  - unfold exec in E.
    destruct (length s <? li) eqn:El; [discriminate|].
    apply exec_from_leftmost in E.
    destruct E as (gap & z & Hs & Hi & He & Hn & Hc & Hleft).
    change (min_length placeholderRegex) with 2 in Hn.
    apply placeholder_sound in Hc. destruct Hc as [[Hbol _] Heol].
    cbv zeta in H.
    assert (E0 : Nat.eqb (length (m0 mr)) 0 = false)
      by (apply Nat.eqb_neq; lia).
    assert (E1 : (li <=? index mr) = true) by (apply Nat.leb_le; lia).
    rewrite E0, E1 in H.
    assert (Egap : firstn (index mr - li) (skipn li s) = gap).
    { rewrite Hs, Hi.
      replace (li + length gap - li) with (length gap) by lia.
      rewrite firstn_app, Nat.sub_diag, firstn_all. cbn [firstn].
      apply app_nil_r. }
    rewrite Egap, <- He in H.
    assert (Hrest : skipn (end_index mr) s = rest z).
    { rewrite He, Hi.
      replace (li + length gap + length (m0 mr))
        with (li + (length gap + length (m0 mr))) by lia.
      rewrite <- skipn_skipn_add, Hs, app_assoc, <- length_app.
      apply skipn_app_exact. }
    assert (Hlen : end_index mr <= length s).
    { assert (Hl : length (skipn li s)
                   = length gap + (length (m0 mr) + length (rest z)))
        by (rewrite Hs, !length_app; reflexivity).
      rewrite length_skipn in Hl. lia. }
    apply IH in H; [|exact Hlen | right; rewrite Hrest; exact Heol].
    destruct H as (tail & -> & Htail).
    exists (gap ++ tail). split; [now rewrite <- !app_assoc|].
    intros po Hpo.
    apply gap_placeholder_free
      with (pvs := unit_before s li) (Y := m0 mr ++ rest z).
    + intros u g2 Eu Hg Hph.
      apply (@placeholder_complete _ _ []) in Hph.
      apply Hph. now apply Hleft.
    + destruct (last_or_nil gap) as [-> | (g & y & ->)]; [now left|].
      right. exists g, y. split; [reflexivity|].
      rewrite <- last_unit_app in Hbol. exact Hbol.
    + intros po'. apply Htail. lia.
    + destruct (Hstart po _ Hs Hpo) as [Hp | [Hr | (x & g & Hr & Hx)]].
      * now left.
      * right. left. destruct gap; [reflexivity | discriminate].
      * destruct gap as [|x' gap']; [now right; left|].
        right. right. injection Hr as -> _. eauto.
  - injection H as <-. exists (skipn li s). split; [reflexivity|].
    intros po Hpo. unfold exec in E.
    destruct (length s <? li) eqn:El;
      [apply Nat.ltb_lt in El; lia|].
    apply exec_placeholder_free in E.
    apply (placeholder_free_start E). now apply Hstart.
Qed.

Lemma replace_all_placeholder_free s1 s2 :
  replace_all placeholderFlags placeholderRegex [] s1 = Some s2 ->
  placeholder_free None s2.
Proof.
  unfold replace_all. intros H.
  apply replace_loop_placeholder_free in H; [|lia | now left].
  destruct H as (tail & -> & H). now apply H.
Qed.

(** ** trim *)

Lemma placeholder_free_trimStart (l : jsstring) :
  placeholder_free None l -> placeholder_free None (trimStart l).
Proof.
  induction l as [|a l IH]; intros H; [exact H|].
  cbn [trimStart]. destruct (is_space a) eqn:Ha; [|exact H].
  apply IH. intros u v E Hv. destruct u as [|b u].
  - cbn [app] in E. subst v. cbn [last_unit map last] in Hv.
    apply (H [] (a :: l) eq_refl). cbn [last_unit map last].
    destruct Hv as (_ & ws & body & ws2 & t & -> & Hws & Hrest).
    split; [reflexivity|].
    exists (a :: ws), body, ws2, t. cbn [forallb]. rewrite Ha, Hws. tauto.
  - apply (H (a :: b :: u) v); [now rewrite E|].
    rewrite last_unit_cons.
    rewrite (@last_unit_nonempty (b :: u) (Some a) None) by discriminate.
    exact Hv.
Qed.

Lemma trimStart_split (l : jsstring) :
  exists lead, l = lead ++ trimStart l /\ forallb is_space lead = true.
Proof.
  induction l as [|a l (lead & E & H)]; [now exists []|].
  cbn [trimStart]. destruct (is_space a) eqn:Ha; [|now exists []].
  exists (a :: lead). cbn [app forallb]. rewrite Ha, H. split; [|reflexivity].
  f_equal. exact E.
Qed.

Lemma trimEnd_split (l : jsstring) :
  exists trail, l = trimEnd l ++ trail /\ forallb is_space trail = true.
Proof.
  destruct (trimStart_split (rev l)) as (lead & E & H).
  exists (rev lead). split.
  - unfold trimEnd. rewrite <- rev_app_distr, <- E. now rewrite rev_involutive.
  - rewrite forallb_forall in *. intros x Hx. apply H. now apply in_rev.
Qed.

Lemma placeholder_free_before pv (l trail : jsstring) :
  forallb is_space trail = true ->
  placeholder_free pv (l ++ trail) -> placeholder_free pv l.
Proof.
  intros Ht H u v -> Hv. apply (H u (v ++ trail)); [now rewrite app_assoc|].
  destruct Hv as (Hbol & ws & body & ws2 & t & -> & Hws & Hbody & Hws2 & He).
  split; [exact Hbol|]. destruct t as [|c t].
  - exists ws, body, (ws2 ++ trail), [].
    assert (Hs : forallb is_space (ws2 ++ trail) = true)
      by (rewrite forallb_app; apply andb_true_iff; split; assumption).
    repeat split; auto. rewrite !app_nil_r.
    repeat (rewrite <- app_assoc || rewrite <- app_comm_cons). reflexivity.
  - exists ws, body, ws2, (c :: t ++ trail). repeat split; auto.
    repeat (rewrite <- app_assoc || rewrite <- app_comm_cons). reflexivity.
Qed.

Lemma placeholder_free_trim (l : jsstring) :
  placeholder_free None l -> placeholder_free None (trim l).
Proof.
  intros H. apply placeholder_free_trimStart in H. unfold trim.
  destruct (trimEnd_split (trimStart l)) as (trail & E & Ht).
  rewrite E in H. now apply placeholder_free_before in H.
Qed.

(** ** The clean-up *)

(** What the clean-up returns holds no line with a placeholder only. *)
Lemma cleanup_no_placeholder s out :
  cleanup s = Some out ->
  exec placeholderFlags placeholderRegex out 0 = Fail.
Proof.
  unfold cleanup.
  destruct (replace_all no_flags newlinesRegex (js "\n\n") s) as [s1|];
    [|discriminate].
  cbn [bind].
  destruct (replace_all placeholderFlags placeholderRegex [] s1) as [s2|] eqn:E;
    [|discriminate].
  cbn [bind]. intros H. injection H as <-.
  apply replace_all_placeholder_free in E.
  unfold exec. cbn [Nat.ltb Nat.leb skipn unit_before].
  apply placeholder_free_exec. now apply placeholder_free_trim.
Qed.

(** The clean-up changes nothing in what it returned, unless three line
    feeds are left in a row. *)
Lemma cleanup_again s out :
  cleanup s = Some out ->
  occurs (js "\n\n\n") out = false ->
  cleanup out = Some out.
Proof.
  intros H Hocc. unfold cleanup.
  rewrite replace_all_no_match
    by (apply exec_nowhere with (w := js "\n\n\n");
        [apply newlinesRegex_start | exact Hocc]).
  cbn [bind].
  rewrite replace_all_no_match by (eapply cleanup_no_placeholder; eauto).
  cbn [bind]. f_equal. eapply cleanup_trimmed; eauto.
Qed.

(** ** Extracting the remainder again *)

Lemma extract_no_triggers (s : jsstring) :
  no_triggers s = true ->
  exists cleaned,
    cleanup s = Some cleaned
    /\ extractArtifacts s = Some (Extraction [] cleaned).
Proof.
  intros H. unfold no_triggers in H.
  apply andb_true_iff in H. destruct H as [H Hd].
  apply andb_true_iff in H. destruct H as [Hc Ht].
  apply negb_true_iff in Hc, Ht, Hd.
  destruct (cleanup_total s) as [cleaned Hcl]. exists cleaned.
  split; [exact Hcl|]. unfold extractArtifacts, code_pass, table_pass.
  rewrite (exec_loop_no_match _ _ _ _ _ _ Hc). cbn [bind].
  rewrite (exec_loop_no_match _ _ _ _ _ _ Ht). cbn [bind].
  unfold doc_pass. destruct (exec docFlags docRegex s 0) eqn:E;
    [discriminate| |exfalso; revert E; apply exec_safe].
  cbn [bind snd fst]. rewrite Hcl. cbn [bind].
  now rewrite fallback_nil.
Qed.

Lemma extract_without_artifacts (s : jsstring) r :
  extractArtifacts s = Some r ->
  artifacts r = [] ->
  cleanup s = Some (conversationalContent r).
Proof.
  intros Hr Hnil.
  destruct (extractArtifacts_passes s)
    as (cs & w1 & ts & w2 & rc & cleaned & _ & _ & Hu & Hcl & H).
  rewrite Hr in H. injection H as ->. cbn [artifacts] in Hnil.
  rewrite (Hu Hnil) in Hcl. rewrite Hcl. cbn [conversationalContent].
  now rewrite Hnil, fallback_nil.
Qed.

(** The clean-up leaves a remainder without three line feeds in a row as
    it is. *)
Lemma cleanup_remainder (s : jsstring) r :
  extractArtifacts s = Some r ->
  occurs (js "\n\n\n") (conversationalContent r) = false ->
  cleanup (conversationalContent r) = Some (conversationalContent r).
Proof.
  intros Hr Hocc.
  destruct (extractArtifacts_passes s)
    as (cs & w1 & ts & w2 & rc & cleaned & _ & _ & _ & Hcl & H).
  rewrite Hr in H. injection H as ->. cbn [conversationalContent] in *.
  destruct (fallback_cases (cs ++ ts ++ doc_artifact s) cleaned)
    as [E | (_ & _ & [E | [E | E]])]; rewrite E in *;
    [eapply cleanup_again; eauto | | |]; vm_compute; reflexivity.
Qed.

(** C7 (as amended).  The extraction is a function of the text alone.
    When the remainder of an extraction holds no three line feeds in a
    row, it is a fixed point: if no pass is triggered by the remainder,
    extracting the remainder again yields no artifact and returns the
    remainder unchanged; and more generally, whenever extracting the
    remainder again yields no artifact, it returns the remainder
    unchanged. *)
Theorem remainder_fixed_point_of_extract (s : jsstring) :
  (forall r1 r2,
     extractArtifacts s = Some r1 -> extractArtifacts s = Some r2 -> r1 = r2)
  /\ (forall r,
        extractArtifacts s = Some r ->
        occurs (js "\n\n\n") (conversationalContent r) = false ->
        (no_triggers (conversationalContent r) = true ->
         extractArtifacts (conversationalContent r)
         = Some (Extraction [] (conversationalContent r)))
        /\ (forall r',
              extractArtifacts (conversationalContent r) = Some r' ->
              artifacts r' = [] ->
              r' = Extraction [] (conversationalContent r))).
Proof.
  split; [congruence|]. intros r Hr Hocc.
  pose proof (cleanup_remainder _ Hr Hocc) as Hcl. split.
  - intros Hno. apply extract_no_triggers in Hno.
    destruct Hno as (cleaned & Hc & E). rewrite Hcl in Hc.
    injection Hc as <-. exact E.
  - intros r' Hr' Hnil.
    pose proof (extract_without_artifacts _ Hr' Hnil) as E.
    rewrite Hcl in E. injection E as E.
    destruct r' as [arts cc]. cbn [artifacts conversationalContent] in *.
    now subst.
Qed.

Lemma remainder_fixed_point_of_extract_witness :
  (no_triggers (js "a\n\nb") = true ->
   extractArtifacts (js "a\n\nb") = Some (Extraction [] (js "a\n\nb")))
  /\ (forall r',
        extractArtifacts (js "a\n\nb") = Some r' ->
        artifacts r' = [] ->
        r' = Extraction [] (js "a\n\nb")).
Proof.
  apply (proj2 (remainder_fixed_point_of_extract (js "a\n[x]\nb\n"))
           (Extraction [] (js "a\n\nb"))).
  - vm_compute. reflexivity.
  - reflexivity.
Defined.
